(** * E2EAuto: resilient browser-automation primitives and the session automaton

    A shallow embedding of [utils.js] (class [Utils]) and [automation.js]
    (class [EcommerceAutomation]).  The Puppeteer driver is an external
    collaborator: it is a parameter of the development (a record of
    primitives acting on an abstract world), and every theorem below holds
    for every driver.  The JavaScript control flow (early [return], [break],
    [continue], [try]/[catch]/[finally], [await]) is embedded in a small
    completion monad that also collects the trace of driver calls and
    console lines. *)

From Stdlib Require Import String Ascii ZArith QArith Bool Arith Lia List.
From Stdlib Require Import DecimalString.
Import ListNotations.

Local Open Scope string_scope.
Local Open Scope list_scope.
Local Open Scope nat_scope.

(* ================================================================== *)
(** ** JavaScript numbers *)
(* ================================================================== *)

(** The numbers the source computes with are what [parseInt] makes of a
    run of digits: doubles without a fraction.  [NaN] is kept apart
    ([None] where a number may be [NaN]). *)
Module JsNumber.

Inductive Num : Type :=
| Fin (z : Z)              (* an integer that is a double; [Fin 0] is +0 *)
| NegZero                  (* -0 *)
| Inf (negative : bool).   (* Infinity, -Infinity *)

(** A natural number [a] as a double: the nearest one, ties to the even
    significand of 53 bits; beyond the largest double, Infinity. *)
Definition to_double (a : Z) : Num :=
  if (a <? 2 ^ 53)%Z then Fin a
  else
    let e := (Z.log2 a - 52)%Z in
    let q := Z.shiftr a e in
    let r := (a - Z.shiftl q e)%Z in
    let half := Z.shiftl 1 (e - 1) in
    let q' := if (half <? r)%Z || ((r =? half)%Z && Z.odd q) then (q + 1)%Z else q in
    let v := Z.shiftl q' e in
    if (2 ^ 1024 <=? v)%Z then Inf false else Fin v.

Inductive Ext : Type := MinusInf | Finite (z : Z) | PlusInf.

(** The value of a number on the extended line; the two zeros are one
    value. *)
Definition value (n : Num) : Ext :=
  match n with
  | Fin z => Finite z
  | NegZero => Finite 0
  | Inf true => MinusInf
  | Inf false => PlusInf
  end.

(** [a <= b], [n > 0] and [n < 0] *)
Definition num_leb (a b : Num) : bool :=
  match value a, value b with
  | MinusInf, _ => true
  | _, PlusInf => true
  | Finite x, Finite y => (x <=? y)%Z
  | _, _ => false
  end.

Definition num_pos (n : Num) : bool :=
  match value n with
  | Finite z => (0 <? z)%Z
  | PlusInf => true
  | MinusInf => false
  end.

Definition num_neg (n : Num) : bool :=
  match value n with
  | Finite z => (z <? 0)%Z
  | PlusInf => false
  | MinusInf => true
  end.

(** [-n] *)
Definition num_opp (n : Num) : Num :=
  match n with
  | Fin Z0 => NegZero
  | Fin z => Fin (- z)
  | NegZero => Fin 0
  | Inf negative => Inf (negb negative)
  end.

Definition dec (z : Z) : string := NilZero.string_of_int (Z.to_int z).

Definition rounds_to (v x : Z) : bool :=
  match to_double v with
  | Fin y => (y =? x)%Z
  | _ => false
  end.

(** The digits [s] and the exponent [n] of Number::toString for a
    positive double [x] of [nd] decimal digits: the shortest [s] such
    that [s * 10^(n - k)] is [x] as a double, [k] being the number of
    digits of [s]; of two such, the one nearer to [x]. *)
Fixpoint shortest_from (fuel : nat) (k nd x : Z) : Z * Z :=
  match fuel with
  | O => (x, nd)
  | S fuel' =>
      let p := (10 ^ (nd - k))%Z in
      let lo := (x / p)%Z in
      let hi := (lo + 1)%Z in
      let ok_lo := rounds_to (lo * p) x in
      let ok_hi := (hi <? 10 ^ k)%Z && rounds_to (hi * p) x in
      if ok_lo && ok_hi then
        let dlo := (x - lo * p)%Z in
        let dhi := (hi * p - x)%Z in
        if (dlo <? dhi)%Z || ((dlo =? dhi)%Z && Z.even lo) then (lo, nd) else (hi, nd)
      else if ok_lo then (lo, nd)
      else if ok_hi then (hi, nd)
      else shortest_from fuel' (k + 1) nd x
  end.

Definition shortest (x : Z) : Z * Z :=
  let nd := Z.of_nat (String.length (dec x)) in
  if rounds_to (10 ^ nd) x then (1%Z, (nd + 1)%Z)
  else shortest_from (Z.to_nat nd) 1 nd x.

Fixpoint zeros (n : nat) : string :=
  match n with
  | O => EmptyString
  | S n' => String "0" (zeros n')
  end.

(** Number::toString of a positive double: the digits followed by
    zeros up to 21 digits, the exponent form from there on. *)
Definition positive_to_string (x : Z) : string :=
  let (s, n) := shortest x in
  let ds := dec s in
  let k := Z.of_nat (String.length ds) in
  if (n <=? 21)%Z then ds ++ zeros (Z.to_nat (n - k))
  else
    match ds with
    | String d EmptyString => String d ("e+" ++ dec (n - 1))
    | String d rest => String d ("." ++ rest ++ "e+" ++ dec (n - 1))
    | EmptyString => EmptyString
    end.

(** A number in a template literal. *)
Definition num_to_string (n : Num) : string :=
  match n with
  | Fin Z0 => "0"
  | Fin (Zpos _ as z) => positive_to_string z
  | Fin (Zneg _ as z) => "-" ++ positive_to_string (- z)
  | NegZero => "0"
  | Inf false => "Infinity"
  | Inf true => "-Infinity"
  end.

End JsNumber.
Import JsNumber.

(* ================================================================== *)
(** ** JavaScript strings *)
(* ================================================================== *)

(** Strings are byte strings holding UTF-8.  Case mapping and word
    characters are the ASCII ones; white space is the white space of the
    language, which has characters of two and three bytes.  The regular
    expressions of the source only name ASCII characters. *)
Module JsString.

Notation "a ^^ b" := (String.append a b) (at level 60, right associativity).

Definition is_upper (c : ascii) : bool :=
  let n := nat_of_ascii c in (65 <=? n) && (n <=? 90).

Definition is_lower (c : ascii) : bool :=
  let n := nat_of_ascii c in (97 <=? n) && (n <=? 122).

Definition is_digit (c : ascii) : bool :=
  let n := nat_of_ascii c in (48 <=? n) && (n <=? 57).

Definition lower_ascii (c : ascii) : ascii :=
  if is_upper c then ascii_of_nat (nat_of_ascii c + 32) else c.

Definition upper_ascii (c : ascii) : ascii :=
  if is_lower c then ascii_of_nat (nat_of_ascii c - 32) else c.

Fixpoint toLowerCase (s : string) : string :=
  match s with
  | EmptyString => EmptyString
  | String c r => String (lower_ascii c) (toLowerCase r)
  end.

Fixpoint toUpperCase (s : string) : string :=
  match s with
  | EmptyString => EmptyString
  | String c r => String (upper_ascii c) (toUpperCase r)
  end.

(** A string given by its bytes. *)
Definition of_bytes (l : list nat) : string :=
  string_of_list_ascii (map ascii_of_nat l).

(** White space: [WhiteSpace] and [LineTerminator] of the language,
    which [trim] removes and [parseInt] and [\s] skip; each character in
    UTF-8. *)
Definition white_space : list string :=
  [ of_bytes [9];              (* U+0009 character tabulation *)
    of_bytes [10];             (* U+000A line feed *)
    of_bytes [11];             (* U+000B line tabulation *)
    of_bytes [12];             (* U+000C form feed *)
    of_bytes [13];             (* U+000D carriage return *)
    of_bytes [32];             (* U+0020 space *)
    of_bytes [194; 160];       (* U+00A0 no-break space *)
    of_bytes [225; 154; 128];  (* U+1680 ogham space mark *)
    of_bytes [226; 128; 128];  (* U+2000 en quad *)
    of_bytes [226; 128; 129];  (* U+2001 em quad *)
    of_bytes [226; 128; 130];  (* U+2002 en space *)
    of_bytes [226; 128; 131];  (* U+2003 em space *)
    of_bytes [226; 128; 132];  (* U+2004 three-per-em space *)
    of_bytes [226; 128; 133];  (* U+2005 four-per-em space *)
    of_bytes [226; 128; 134];  (* U+2006 six-per-em space *)
    of_bytes [226; 128; 135];  (* U+2007 figure space *)
    of_bytes [226; 128; 136];  (* U+2008 punctuation space *)
    of_bytes [226; 128; 137];  (* U+2009 thin space *)
    of_bytes [226; 128; 138];  (* U+200A hair space *)
    of_bytes [226; 128; 168];  (* U+2028 line separator *)
    of_bytes [226; 128; 169];  (* U+2029 paragraph separator *)
    of_bytes [226; 128; 175];  (* U+202F narrow no-break space *)
    of_bytes [226; 129; 159];  (* U+205F medium mathematical space *)
    of_bytes [227; 128; 128];  (* U+3000 ideographic space *)
    of_bytes [239; 187; 191]   (* U+FEFF zero width no-break space *)
  ].

(** Does [s] start with [w]. *)
Fixpoint starts_with (w s : string) : bool :=
  match w with
  | EmptyString => true
  | String a w' =>
      match s with
      | String b s' => Ascii.eqb a b && starts_with w' s'
      | EmptyString => false
      end
  end.

(** The width in bytes of the white-space character a string starts
    with; 0 when it starts with none. *)
Definition space_width (s : string) : nat :=
  match find (fun w => starts_with w s) white_space with
  | Some w => String.length w
  | None => 0
  end.

(** [\w] of regular expressions. *)
Definition is_word (c : ascii) : bool :=
  is_upper c || is_lower c || is_digit c || (nat_of_ascii c =? 95).

Fixpoint trimStart (s : string) : string :=
  match s with
  | EmptyString => EmptyString
  | String _ r1 =>
      match space_width s with
      | 0 => s
      | 1 => trimStart r1
      | 2 => match r1 with
             | String _ r2 => trimStart r2
             | EmptyString => s
             end
      | _ => match r1 with
             | String _ (String _ r3) => trimStart r3
             | _ => s
             end
      end
  end.

(** What is left when the white space a string ends with is dropped:
    its characters up to the last one that is not white space. *)
Fixpoint trimEnd (s : string) : string :=
  match s with
  | EmptyString => EmptyString
  | String c r =>
      match trimStart s with
      | EmptyString => EmptyString
      | String _ _ => String c (trimEnd r)
      end
  end.

Definition trim (s : string) : string := trimEnd (trimStart s).

(** [hay.includes(needle)] *)
Fixpoint includes (hay needle : string) : bool :=
  String.prefix needle hay
  || match hay with
     | EmptyString => false
     | String _ r => includes r needle
     end.

(** [a || b] on strings: the empty string is falsy. *)
Definition or_else (a b : string) : string :=
  match a with EmptyString => b | _ => a end.

(** Numbers in template literals. *)
Definition of_nat (n : nat) : string := NilZero.string_of_uint (Nat.to_uint n).
Definition of_Z (z : Z) : string := NilZero.string_of_int (Z.to_int z).

(** The longest prefix of decimal digits, as a number, with the rest. *)
Fixpoint digits (s : string) (acc : Z) (seen : bool) : option Z * string :=
  match s with
  | String c r =>
      if is_digit c
      then digits r (10 * acc + Z.of_nat (nat_of_ascii c - 48))%Z true
      else ((if seen then Some acc else None), s)
  | EmptyString => ((if seen then Some acc else None), s)
  end.

(** [parseInt(s, 10)]: leading white space, an optional sign, then the
    longest run of decimal digits, as a double; [None] is [NaN]. *)
Definition parseInt10 (s : string) : option Num :=
  match trimStart s with
  | String c r =>
      if Ascii.eqb c "-"
      then option_map (fun z => num_opp (to_double z)) (fst (digits r 0%Z false))
      else if Ascii.eqb c "+"
      then option_map to_double (fst (digits r 0%Z false))
      else option_map to_double (fst (digits (String c r) 0%Z false))
  | EmptyString => None
  end.

(** The longest prefix of decimal digits. *)
Fixpoint digit_run (s : string) : string :=
  match s with
  | String c r => if is_digit c then String c (digit_run r) else EmptyString
  | EmptyString => EmptyString
  end.

(** [s.match(/(\d+)/)]: group 1 of the leftmost match, the run being
    greedy; [None] when nothing matches. *)
Fixpoint firstDigitRun (s : string) : option string :=
  match s with
  | EmptyString => None
  | String c r =>
      if is_digit c then Some (digit_run s) else firstDigitRun r
  end.

End JsString.
Import JsString.

(* ================================================================== *)
(** ** Regular expressions of the source *)
(* ================================================================== *)

Module Regex.

(** One-character matchers. *)
Inductive Atom : Type :=
| AChr (c : ascii)     (* a literal character *)
| ASpace               (* \s *)
| ADigit.              (* \d *)

(** The fragment the source uses: literals, [\s*], [\b], sequence and
    alternation. *)
Inductive Re : Type :=
| REps
| RAtom (a : Atom)
| RStar (a : Atom)
| RWordB
| RSeq (r1 r2 : Re)
| RAlt (r1 r2 : Re).

(** How many bytes of [s] the atom matches at its start; 0 when it does
    not match. *)
Definition atom_ok (ci : bool) (x c : ascii) : bool :=
  if ci then Ascii.eqb (lower_ascii x) (lower_ascii c) else Ascii.eqb x c.

Definition atom_width (ci : bool) (a : Atom) (s : string) : nat :=
  match a with
  | AChr x =>
      match s with
      | String c _ => if atom_ok ci x c then 1 else 0
      | EmptyString => 0
      end
  | ASpace => space_width s
  | ADigit =>
      match s with
      | String c _ => if is_digit c then 1 else 0
      | EmptyString => 0
      end
  end.

(** Moving over [n] bytes: the last byte passed and what follows. *)
Fixpoint eat (n : nat) (prev : option ascii) (s : string) : option ascii * string :=
  match n, s with
  | S n', String c r => eat n' (Some c) r
  | _, _ => (prev, s)
  end.

Definition word_at (o : option ascii) : bool :=
  match o with Some c => is_word c | None => false end.

Definition next_char (s : string) : option ascii :=
  match s with String c _ => Some c | EmptyString => None end.

(** [\b]: exactly one of the two neighbours is a word character. *)
Definition boundary (prev : option ascii) (s : string) : bool :=
  xorb (word_at prev) (word_at (next_char s)).

(** [a*], greedy or not as the continuation decides; every round
    passes at least one byte, so the length of [s] is enough fuel. *)
Fixpoint star_k (fuel : nat) (ci : bool) (a : Atom) (prev : option ascii) (s : string)
         (k : option ascii -> string -> bool) : bool :=
  k prev s
  || match fuel with
     | O => false
     | S fuel' =>
         match atom_width ci a s with
         | O => false
         | n => let (p, t) := eat n prev s in star_k fuel' ci a p t k
         end
     end.

(** Matching at the current position, in continuation-passing style;
    [prev] is the character before the position. *)
Fixpoint match_k (ci : bool) (r : Re) (prev : option ascii) (s : string)
         (k : option ascii -> string -> bool) : bool :=
  match r with
  | REps => k prev s
  | RAtom a =>
      match atom_width ci a s with
      | O => false
      | n => let (p, t) := eat n prev s in k p t
      end
  | RStar a => star_k (String.length s) ci a prev s k
  | RWordB => boundary prev s && k prev s
  | RSeq r1 r2 => match_k ci r1 prev s (fun p t => match_k ci r2 p t k)
  | RAlt r1 r2 => match_k ci r1 prev s k || match_k ci r2 prev s k
  end.

Fixpoint search (ci : bool) (r : Re) (prev : option ascii) (s : string) : bool :=
  match_k ci r prev s (fun _ _ => true)
  || match s with
     | String c t => search ci r (Some c) t
     | EmptyString => false
     end.

(** [/r/.test(s)] and [/r/i.test(s)] *)
Definition test (r : Re) (s : string) : bool := search false r None s.
Definition test_i (r : Re) (s : string) : bool := search true r None s.

Fixpoint lit (s : string) : Re :=
  match s with
  | EmptyString => REps
  | String c r => RSeq (RAtom (AChr c)) (lit r)
  end.

(** [r | r1 | ... | rn] *)
Fixpoint alts (r : Re) (l : list Re) : Re :=
  match l with
  | [] => r
  | r' :: l' => RAlt r (alts r' l')
  end.

Fixpoint seqs (l : list Re) : Re :=
  match l with
  | [] => REps
  | r :: l' => RSeq r (seqs l')
  end.

End Regex.

(* ================================================================== *)
(** ** The document as in-page functions see it *)
(* ================================================================== *)

(** In-page functions ([page.evaluate], [page.waitForFunction]) read the
    live document through the DOM query interface.  An element carries
    what the source reads from it; which elements a CSS selector finds is
    the browser's answer. *)
#[warnings="-register-all"]
Inductive Elem : Type := mkElem {
  eid : nat;                               (* identity of the node *)
  getAttribute : string -> option string;
  innerText : string;
  textContent : string;
  className : string;
  elType : string;                         (* el.type *)
  checked : bool;
  rectWidth : Q;                           (* getBoundingClientRect() *)
  rectHeight : Q;
  cssVisibility : string;                  (* getComputedStyle(el) *)
  cssDisplay : string;
  cssOpacity : string;
  elQuerySelectorAll : string -> list Elem;
  closest : string -> option Elem
}.

Definition elQuerySelector (e : Elem) (sel : string) : option Elem :=
  hd_error (elQuerySelectorAll e sel).

Record Dom : Type := mkDom {
  querySelectorAll : string -> list Elem;
  getElementById : string -> option Elem;
  bodyInnerText : string
}.

Definition querySelector (d : Dom) (sel : string) : option Elem :=
  hd_error (querySelectorAll d sel).

(** What an in-page function does to the document. *)
Inductive DomAct : Type :=
| AClick (e : nat)
| AScrollIntoView (e : nat)
| AScrollBy (dx dy : Z)
| ADispatch (e : nat) (event : string)
| ABlur (e : nat)
| ARequestSubmit (e : nat).

(* ================================================================== *)
(** ** Driver calls, errors and the trace *)
(* ================================================================== *)

Record JsError : Type := mkError { message : string }.

Definition Page := nat.
Definition Handle := nat.

(** A selector as passed around by the source: a string, or [undefined]
    when the site's configuration has no such key. *)
Definition Sel := option string.

Definition sel_text (s : Sel) : string :=
  match s with Some t => t | None => "undefined" end.

Record Box : Type := mkBox { box_x : Q; box_y : Q; box_width : Q; box_height : Q }.

Inductive Call : Type :=
| CConsoleLog (text : string)
| CConsoleError (text : string)
| CWait (ms : Q)
| CScreenshot (p : Page) (name : string)      (* [name]: the label of the capture *)
| CWaitForSelector (p : Page) (sel : Sel) (timeout : Q) (visible : bool)
| CClick (p : Page) (sel : Sel) (clickCount : nat)
| CType (p : Page) (sel : Sel) (text : option string) (delay : Q)
| CFocus (p : Page) (sel : Sel)
| CQuery (p : Page) (sel : string)
| CQueryXPath (p : Page) (xpath : string)
| CHandleClick (h : Handle)
| CHandleType (h : Handle) (text : option string) (delay : Q)
| CBoundingBox (h : Handle)
| CKeyDown (p : Page) (key : string)
| CKeyUp (p : Page) (key : string)
| CKeyPress (p : Page) (key : string)
| CKeyType (p : Page) (text : option string) (delay : Q)
| CMouseMove (p : Page) (x y : Q)
| CMouseDown (p : Page)
| CMouseUp (p : Page)
| CSnapshot (p : Page) (script : string)
| CDomActs (p : Page) (script : string) (acts : list DomAct)
| CPollBudget (p : Page) (script : string) (timeout : Q)
| CLaunch
| CNewPage
| CNewUtils (site : string)
| CSetUserAgent (p : Page) (ua : string)
| CSetExtraHTTPHeaders (p : Page)
| CGoto (p : Page) (url : string)
| CBrowserClose
| CDateNow
| COnceTargetCreated
| CAwaitTargetCreated
| CWaitForLoadState (p : Page).

(** A trace entry: the call and whether it succeeded. *)
Definition Ev : Type := (Call * bool)%type.

(** The driver: Puppeteer and the page behind it.  Each primitive acts on
    the world and either fails with an error or answers. *)
Record Driver (W : Type) : Type := mkDriver {
  d_wait : Q -> W -> W;
  (* page.screenshot({ path, fullPage: true }) *)
  d_screenshot : Page -> string -> W -> (JsError + unit) * W;
  d_waitForSelector : Page -> Sel -> Q -> bool -> W -> (JsError + unit) * W;
  d_click : Page -> Sel -> nat -> W -> (JsError + unit) * W;
  d_type : Page -> Sel -> option string -> Q -> W -> (JsError + unit) * W;
  d_focus : Page -> Sel -> W -> (JsError + unit) * W;
  d_query : Page -> string -> W -> (JsError + option Handle) * W;
  d_queryXPath : Page -> string -> W -> (JsError + list Handle) * W;
  d_handleClick : Handle -> W -> (JsError + unit) * W;
  d_handleType : Handle -> option string -> Q -> W -> (JsError + unit) * W;
  d_boundingBox : Handle -> W -> (JsError + option Box) * W;
  d_keyDown : Page -> string -> W -> (JsError + unit) * W;
  d_keyUp : Page -> string -> W -> (JsError + unit) * W;
  d_keyPress : Page -> string -> W -> (JsError + unit) * W;
  d_keyType : Page -> option string -> Q -> W -> (JsError + unit) * W;
  d_mouseMove : Page -> Q -> Q -> W -> (JsError + unit) * W;
  d_mouseDown : Page -> W -> (JsError + unit) * W;
  d_mouseUp : Page -> W -> (JsError + unit) * W;
  (* the document an in-page function runs against *)
  d_snapshot : Page -> string -> W -> (JsError + Dom) * W;
  (* the in-page function's effects on the document *)
  d_domActs : Page -> string -> list DomAct -> W -> W;
  (* how many times waitForFunction polls before its timeout fires *)
  d_pollBudget : Page -> string -> Q -> W -> nat * W;
  d_launch : W -> (JsError + unit) * W;
  d_newPage : W -> (JsError + Page) * W;
  d_newUtils : string -> W -> (JsError + unit) * W;
  d_setUserAgent : Page -> string -> W -> (JsError + unit) * W;
  d_setExtraHTTPHeaders : Page -> W -> (JsError + unit) * W;
  d_goto : Page -> string -> W -> (JsError + unit) * W;
  d_browserClose : W -> (JsError + unit) * W;
  d_now : W -> Z * W;                       (* Date.now() *)
  d_onceTargetCreated : W -> W;
  (* the 'targetcreated' event: [None] when it never fires, else the
     page of the new target ([null] when the target is not a page) *)
  d_awaitTargetCreated : W -> option (option Page) * W;
  d_waitForLoadState : Page -> W -> W
}.

Arguments d_wait {W}. Arguments d_screenshot {W}. Arguments d_waitForSelector {W}.
Arguments d_click {W}. Arguments d_type {W}. Arguments d_focus {W}.
Arguments d_query {W}. Arguments d_queryXPath {W}. Arguments d_handleClick {W}.
Arguments d_handleType {W}.
Arguments d_boundingBox {W}. Arguments d_keyDown {W}. Arguments d_keyUp {W}.
Arguments d_keyPress {W}. Arguments d_keyType {W}. Arguments d_mouseMove {W}.
Arguments d_mouseDown {W}. Arguments d_mouseUp {W}. Arguments d_snapshot {W}.
Arguments d_domActs {W}. Arguments d_pollBudget {W}. Arguments d_launch {W}.
Arguments d_newPage {W}. Arguments d_newUtils {W}. Arguments d_setUserAgent {W}.
Arguments d_setExtraHTTPHeaders {W}. Arguments d_goto {W}.
Arguments d_browserClose {W}. Arguments d_now {W}. Arguments d_onceTargetCreated {W}.
Arguments d_awaitTargetCreated {W}. Arguments d_waitForLoadState {W}.

(** [new Utils(page, siteName)] *)
Record Utils : Type := mkUtils { u_page : Page; u_siteName : string }.

(* ================================================================== *)
(** ** Completions *)
(* ================================================================== *)

(** How a statement completes.  [R] is the return type of the enclosing
    function, [L] the state of the enclosing loop (what [break] and
    [continue] leave with), [A] the value of the statement. *)
Inductive Completion (R L A : Type) : Type :=
| Normal (a : A)
| Return (r : R)
| Break (l : L)
| Continue (l : L)
| Throw (e : JsError)
| Pending.            (* an await on a promise that never settles *)

Arguments Normal {R L A}. Arguments Return {R L A}. Arguments Break {R L A}.
Arguments Continue {R L A}. Arguments Throw {R L A}. Arguments Pending {R L A}.

(** The promise an async function returns. *)
Inductive Promise (A : Type) : Type :=
| Resolved (a : A)
| Rejected (e : JsError)
| Unsettled.

Arguments Resolved {A}. Arguments Rejected {A}. Arguments Unsettled {A}.

(* ================================================================== *)
(** ** The statement monad *)
(* ================================================================== *)

Section Model.

Context {W : Type}.
Variable drv : Driver W.

(** The automaton's fields ([this.browser], [this.page], [this.utils]:
    [null] until [init] sets them) and the world behind the driver. *)
Record St : Type := mkSt {
  world : W;
  this_browser : bool;            (* has [this.browser] been set *)
  this_page : option Page;
  this_utils : option Utils
}.

Record Res (O : Type) : Type := mkRes {
  outcome : O;
  post : St;
  events : list Ev
}.
Arguments mkRes {O}. Arguments outcome {O}. Arguments post {O}. Arguments events {O}.

(** A statement inside a function returning [R], inside a loop with state
    [L], producing an [A]. *)
Definition M (R L A : Type) : Type := St -> Res (Completion R L A).

(** The call of an async function, as seen by the caller. *)
Definition Async (A : Type) : Type := St -> Res (Promise A).

Definition ret {R L A} (a : A) : M R L A :=
  fun st => mkRes (Normal a) st [].

Definition bind {R L A B} (m : M R L A) (k : A -> M R L B) : M R L B :=
  fun st =>
    let r := m st in
    match outcome r with
    | Normal a =>
        let r' := k a (post r) in
        mkRes (outcome r') (post r') (events r ++ events r')
    | Return v => mkRes (Return v) (post r) (events r)
    | Break l => mkRes (Break l) (post r) (events r)
    | Continue l => mkRes (Continue l) (post r) (events r)
    | Throw e => mkRes (Throw e) (post r) (events r)
    | Pending => mkRes Pending (post r) (events r)
    end.

(** [return v;] *)
Definition return_ {R L A} (v : R) : M R L A :=
  fun st => mkRes (Return v) st [].

(** [throw e;] *)
Definition throw {R L A} (e : JsError) : M R L A :=
  fun st => mkRes (Throw e) st [].

(** [break;] and [continue;], leaving the loop state as it is now. *)
Definition break_ {R L A} (l : L) : M R L A :=
  fun st => mkRes (Break l) st [].

Definition continue_ {R L A} (l : L) : M R L A :=
  fun st => mkRes (Continue l) st [].

(** [try { body } catch (e) { handler }] *)
Definition try_catch {R L A} (body : M R L A) (handler : JsError -> M R L A) : M R L A :=
  fun st =>
    let r := body st in
    match outcome r with
    | Throw e =>
        let r' := handler e (post r) in
        mkRes (outcome r') (post r') (events r ++ events r')
    | _ => r
    end.

(** [try { body } finally { fin }]: [fin] runs however [body] completes
    (not when it never completes); an abrupt completion of [fin]
    replaces that of [body]. *)
Definition try_finally {R L A} (body : M R L A) (fin : M R L unit) : M R L A :=
  fun st =>
    let r := body st in
    match outcome r with
    | Pending => r
    | o =>
        let r' := fin (post r) in
        match outcome r' with
        | Normal _ => mkRes o (post r') (events r ++ events r')
        | Return v => mkRes (Return v) (post r') (events r ++ events r')
        | Break l => mkRes (Break l) (post r') (events r ++ events r')
        | Continue l => mkRes (Continue l) (post r') (events r ++ events r')
        | Throw e => mkRes (Throw e) (post r') (events r ++ events r')
        | Pending => mkRes Pending (post r') (events r ++ events r')
        end
    end.

(** [for (const x of xs) { body }] with loop state [T]. *)
Fixpoint for_of {R L X T} (xs : list X) (s : T) (body : X -> T -> M R T T) : M R L T :=
  fun st =>
    match xs with
    | [] => mkRes (Normal s) st []
    | x :: xs' =>
        let r := body x s st in
        match outcome r with
        | Normal s' | Continue s' =>
            let r' := for_of xs' s' body (post r) in
            mkRes (outcome r') (post r') (events r ++ events r')
        | Break s' => mkRes (Normal s') (post r) (events r)
        | Return v => mkRes (Return v) (post r) (events r)
        | Throw e => mkRes (Throw e) (post r) (events r)
        | Pending => mkRes Pending (post r) (events r)
        end
    end.

(** [for (let i = from; i < from + n && cond; i++) { body }] with loop
    state [T]; [cond] is tested on the loop state before each round. *)
Fixpoint for_range {R L T} (from n : nat) (cond : T -> bool) (s : T)
         (body : nat -> T -> M R T T) : M R L T :=
  fun st =>
    match n with
    | O => mkRes (Normal s) st []
    | S n' =>
        if cond s then
          let r := body from s st in
          match outcome r with
          | Normal s' | Continue s' =>
              let r' := for_range (S from) n' cond s' body (post r) in
              mkRes (outcome r') (post r') (events r ++ events r')
          | Break s' => mkRes (Normal s') (post r) (events r)
          | Return v => mkRes (Return v) (post r) (events r)
          | Throw e => mkRes (Throw e) (post r) (events r)
          | Pending => mkRes Pending (post r) (events r)
          end
        else mkRes (Normal s) st []
    end.

(** The body of an async function: the promise it returns.  Falling off
    the end returns the value of the last statement (the caller passes
    [undefined] there). *)
Definition async {R} (body : M R Empty_set R) : Async R :=
  fun st =>
    let r := body st in
    match outcome r with
    | Normal a => mkRes (Resolved a) (post r) (events r)
    | Return v => mkRes (Resolved v) (post r) (events r)
    | Break l | Continue l => match l with end
    | Throw e => mkRes (Rejected e) (post r) (events r)
    | Pending => mkRes Unsettled (post r) (events r)
    end.

(** [await f(...)] *)
Definition await {R L A} (f : Async A) : M R L A :=
  fun st =>
    let r := f st in
    match outcome r with
    | Resolved a => mkRes (Normal a) (post r) (events r)
    | Rejected e => mkRes (Throw e) (post r) (events r)
    | Unsettled => mkRes Pending (post r) (events r)
    end.

(** [promise.catch(() => {})] on a call whose value is not used. *)
Definition catch_ignore {R L A} (m : M R L A) : M R L unit :=
  try_catch (bind m (fun _ => ret tt)) (fun _ => ret tt).

Definition set_world (st : St) (w : W) : St :=
  mkSt w (this_browser st) (this_page st) (this_utils st).

(** A driver call that may fail. *)
Definition prim {R L A} (c : Call) (f : W -> (JsError + A) * W) : M R L A :=
  fun st =>
    let '(r, w') := f (world st) in
    match r with
    | inr a => mkRes (Normal a) (set_world st w') [(c, true)]
    | inl e => mkRes (Throw e) (set_world st w') [(c, false)]
    end.

(** A driver call that cannot fail. *)
Definition prim_total {R L A} (c : Call) (f : W -> A * W) : M R L A :=
  fun st =>
    let '(a, w') := f (world st) in
    mkRes (Normal a) (set_world st w') [(c, true)].

(** A line on the console. *)
Definition emit {R L} (c : Call) : M R L unit :=
  fun st => mkRes (Normal tt) st [(c, true)].

(** [if (c) { m }] *)
Definition when_ {R L} (c : bool) (m : M R L unit) : M R L unit :=
  if c then m else ret tt.

End Model.

Arguments mkRes {W O}. Arguments outcome {W O}. Arguments post {W O}.
Arguments events {W O}.

Declare Scope js_scope.
Delimit Scope js_scope with js.
Notation "x <- m ;; k" := (bind m (fun x => k))
  (at level 61, m at next level, right associativity) : js_scope.
Notation "m ;; k" := (bind m (fun _ => k))
  (at level 61, right associativity) : js_scope.

Local Open Scope js_scope.

(* ================================================================== *)
(** ** utils.js: class Utils *)
(* ================================================================== *)

(** [Array.isArray(selectors) ? selectors : [selectors]] *)
Inductive Selectors : Type :=
| One (s : Sel)
| Many (l : list Sel).

Definition selectorArray (selectors : Selectors) : list Sel :=
  match selectors with
  | One s => [s]
  | Many l => l
  end.

(** [array.join(', ')]: an [undefined] element contributes nothing. *)
Fixpoint join_sels (l : list Sel) : string :=
  match l with
  | [] => ""
  | [s] => match s with Some t => t | None => "" end
  | s :: l' => (match s with Some t => t | None => "" end) ^^ ", " ^^ join_sels l'
  end.

(** The [options] argument of [clickElement] and of [typeText]. *)
Record ClickOptions : Type := mkClickOptions {
  opt_timeout : option Q;
  opt_retries : option nat
}.

Record TypeOptions : Type := mkTypeOptions {
  topt_timeout : option Q;
  topt_clearFirst : option bool;
  topt_pressEnter : option bool
}.

(** A destructuring default: [{ x = d } = options]. *)
Definition default {A} (d : A) (o : option A) : A :=
  match o with Some a => a | None => d end.

Definition no_options : ClickOptions := mkClickOptions None None.

Section UtilsJs.

Context {W : Type}.
Variable drv : Driver W.

Definition console_log {R L} (text : string) : M (W:=W) R L unit :=
  emit (CConsoleLog text).

Definition console_error {R L} (text : string) : M (W:=W) R L unit :=
  emit (CConsoleError text).

(** [wait(ms)]: a timer; it always resolves. *)
Definition wait (ms : Q) : Async (W:=W) unit :=
  async (prim_total (CWait ms) (fun w => (tt, d_wait drv ms w))).

(** [screenshot(name)]: the file path, or [null] when the capture
    fails.  Paths are relative to the script's directory. *)
Definition screenshot (u : Utils) (name : string) : Async (W:=W) (option string) :=
  async (
    timestamp <- prim_total CDateNow (d_now drv) ;;
    let filename := name ^^ "_" ^^ of_Z timestamp ^^ ".png" in
    let filepath := "screenshots/" ^^ u_siteName u ^^ "/" ^^ filename in
    try_catch
      (prim (CScreenshot (u_page u) name) (d_screenshot drv (u_page u) filepath) ;;
       console_log ("📸 Screenshot saved: " ^^ filename) ;;
       return_ (Some filepath))
      (fun error =>
         console_error ("❌ Failed to take screenshot: " ^^ message error) ;;
         return_ None)).

Definition page_waitForSelector {R L} (p : Page) (sel : Sel) (timeout : Q) (visible : bool)
  : M (W:=W) R L unit :=
  prim (CWaitForSelector p sel timeout visible) (d_waitForSelector drv p sel timeout visible).

Definition page_click {R L} (p : Page) (sel : Sel) (clickCount : nat) : M (W:=W) R L unit :=
  prim (CClick p sel clickCount) (d_click drv p sel clickCount).

Definition page_type {R L} (p : Page) (sel : Sel) (text : option string) (delay : Q)
  : M (W:=W) R L unit :=
  prim (CType p sel text delay) (d_type drv p sel text delay).

Definition keyboard_press {R L} (p : Page) (key : string) : M (W:=W) R L unit :=
  prim (CKeyPress p key) (d_keyPress drv p key).

(** [waitForSelector(selectors, timeout = 10000)]: the [try] block around
    one selector, and the function. *)
Definition waitForSelector_try (u : Utils) (timeout : Q) (selector : Sel)
  : M (W:=W) Sel unit unit :=
  try_catch
    (console_log ("⏳ Waiting for selector: " ^^ sel_text selector) ;;
     page_waitForSelector (u_page u) selector timeout true ;;
     console_log ("✅ Found selector: " ^^ sel_text selector) ;;
     return_ selector)
    (fun error =>
       console_log ("⚠️  Selector not found: " ^^ sel_text selector)).

Definition waitForSelector (u : Utils) (selectors : Selectors) (timeout : option Q)
  : Async (W:=W) Sel :=
  async (
    let timeout := default 10000%Q timeout in
    let selectorArray := selectorArray selectors in
    for_of selectorArray tt (fun selector _ =>
      waitForSelector_try u timeout selector) ;;
    throw (mkError ("None of the selectors found: " ^^ join_sels selectorArray))).

(** [clickElement(selectors, options = {})]: the [try] block around one
    selector, one pass over the selectors, and the function. *)
Definition clickElement_try (u : Utils) (timeout : Q) (retries attempt : nat)
           (selector : Sel) : M (W:=W) bool unit unit :=
  try_catch
    (console_log ("🖱️  Attempting to click: " ^^ sel_text selector
                  ^^ " (attempt " ^^ of_nat attempt ^^ "/" ^^ of_nat retries ^^ ")") ;;
     page_waitForSelector (u_page u) selector
       (timeout / inject_Z (Z.of_nat retries))%Q true ;;
     page_click (u_page u) selector 1 ;;
     console_log ("✅ Clicked: " ^^ sel_text selector) ;;
     await (wait 500) ;; (* Small wait after click *)
     return_ true)
    (fun error =>
       console_log ("⚠️  Failed to click " ^^ sel_text selector ^^ ": "
                    ^^ message error)).

Definition clickElement_pass (u : Utils) (timeout : Q) (retries : nat)
           (selectorArray : list Sel) (attempt : nat) : M (W:=W) bool unit unit :=
  for_of selectorArray tt (fun selector _ =>
    clickElement_try u timeout retries attempt selector) ;;
  when_ (attempt <? retries) (await (wait 1000)). (* Wait before retry *)

Definition clickElement (u : Utils) (selectors : Selectors) (options : ClickOptions)
  : Async (W:=W) bool :=
  async (
    let timeout := default 10000%Q (opt_timeout options) in
    let retries := default 3 (opt_retries options) in
    let selectorArray := selectorArray selectors in
    (* for (let attempt = 1; attempt <= retries; attempt++) *)
    for_range 1 retries (fun _ => true) tt (fun attempt _ =>
      clickElement_pass u timeout retries selectorArray attempt) ;;
    console_error ("❌ Failed to click any selector after " ^^ of_nat retries ^^ " attempts") ;;
    return_ false).

(** [typeText(selectors, text, options = {})]: the [try] block around
    one selector, and the function. *)
Definition typeText_try (u : Utils) (timeout : Q) (clearFirst pressEnter : bool)
           (text : option string) (selector : Sel) : M (W:=W) bool unit unit :=
  try_catch
    (console_log ("⌨️  Typing into: " ^^ sel_text selector) ;;
     page_waitForSelector (u_page u) selector timeout true ;;
     when_ clearFirst (page_click (u_page u) selector 3) ;; (* Select all *)
     page_type (u_page u) selector text 50 ;;
     when_ pressEnter (keyboard_press (u_page u) "Enter") ;;
     console_log ("✅ Typed text: " ^^ default "undefined" text) ;;
     await (wait 500) ;;
     return_ true)
    (fun error =>
       console_log ("⚠️  Failed to type into " ^^ sel_text selector ^^ ": "
                    ^^ message error)).

Definition typeText (u : Utils) (selectors : Selectors) (text : option string)
           (options : TypeOptions) : Async (W:=W) bool :=
  async (
    let timeout := default 10000%Q (topt_timeout options) in
    let clearFirst := default true (topt_clearFirst options) in
    let pressEnter := default false (topt_pressEnter options) in
    let selectorArray := selectorArray selectors in
    for_of selectorArray tt (fun selector _ =>
      typeText_try u timeout clearFirst pressEnter text selector) ;;
    console_error "❌ Failed to type into any selector" ;;
    return_ false).

(** [elementExists(selector, timeout = 3000)] *)
Definition elementExists (u : Utils) (selector : Sel) (timeout : option Q)
  : Async (W:=W) bool :=
  async (
    let timeout := default 3000%Q timeout in
    try_catch
      (page_waitForSelector (u_page u) selector timeout true ;;
       return_ true)
      (fun _ => return_ false)).

(** [closeModalIfPresent(selectors)]: the loop body, the Escape
    fallback, and the function. *)
Definition closeModal_probe (u : Utils) (selector : Sel) : M (W:=W) bool unit unit :=
  exists_ <- await (elementExists u selector (Some 2000%Q)) ;;
  if exists_ : bool then
    console_log ("🚫 Closing modal with: " ^^ sel_text selector) ;;
    await (clickElement u (One selector) no_options) ;;
    await (wait 1000) ;;
    return_ true
  else ret tt.

Definition closeModal_escape (u : Utils) : M (W:=W) bool Empty_set bool :=
  try_catch
    (keyboard_press (u_page u) "Escape" ;;
     await (wait 500) ;;
     console_log "🚫 Pressed Escape to close modal" ;;
     return_ true)
    (fun _ => return_ false).

Definition closeModalIfPresent (u : Utils) (selectors : Selectors) : Async (W:=W) bool :=
  async (
    let selectorArray := selectorArray selectors in
    for_of selectorArray tt (fun selector _ => closeModal_probe u selector) ;;
    (* Try pressing Escape as fallback *)
    closeModal_escape u).

(** [log(message, type = 'info')] *)
Definition icon (type : string) : string :=
  if String.eqb type "info" then "ℹ️"
  else if String.eqb type "success" then "✅"
  else if String.eqb type "error" then "❌"
  else if String.eqb type "warning" then "⚠️"
  else if String.eqb type "step" then "👉"
  else "ℹ️".

Definition log {R L} (message type : string) : M (W:=W) R L unit :=
  console_log (icon type ^^ " " ^^ message).

End UtilsJs.

(* ================================================================== *)
(** ** Reading traces *)
(* ================================================================== *)

(** The selectors probed by visibility waits, in order, each with the
    outcome of its wait. *)
Fixpoint probes (t : list Ev) : list (Sel * bool) :=
  match t with
  | [] => []
  | (CWaitForSelector _ s _ _, ok) :: t' => (s, ok) :: probes t'
  | _ :: t' => probes t'
  end.

(** The time budgets handed to the visibility waits, in order. *)
Fixpoint budgets (t : list Ev) : list Q :=
  match t with
  | [] => []
  | (CWaitForSelector _ _ q _, _) :: t' => q :: budgets t'
  | _ :: t' => budgets t'
  end.

Definition Qsum (l : list Q) : Q := fold_right Qplus 0%Q l.

(** The selectors clicked through [page.click], in order, each with the
    outcome of the click. *)
Fixpoint clicks (t : list Ev) : list (Sel * bool) :=
  match t with
  | [] => []
  | (CClick _ s _, ok) :: t' => (s, ok) :: clicks t'
  | _ :: t' => clicks t'
  end.

Definition failed (s : Sel) : Sel * bool := (s, false).

(** The trace grammar of [clickElement]. *)
Section ClickGrammar.

Variables (p : Page) (slice : Q) (R : nat).

Definition attempt_line (k : nat) (sel : Sel) : Ev :=
  (CConsoleLog ("🖱️  Attempting to click: " ^^ sel_text sel
                ^^ " (attempt " ^^ of_nat k ^^ "/" ^^ of_nat R ^^ ")"), true).

Definition failed_line (sel : Sel) (msg : string) : Ev :=
  (CConsoleLog ("⚠️  Failed to click " ^^ sel_text sel ^^ ": " ^^ msg), true).

(** One selector tried and failed, in pass [k]: its visibility wait
    timed out, or the element was found and the click threw. *)
Inductive attempt_fails (k : nat) (sel : Sel) : list Ev -> Prop :=
| wait_fails msg :
    attempt_fails k sel
      [attempt_line k sel; (CWaitForSelector p sel slice true, false);
       failed_line sel msg]
| click_fails msg :
    attempt_fails k sel
      [attempt_line k sel; (CWaitForSelector p sel slice true, true);
       (CClick p sel 1, false); failed_line sel msg].

(** One selector tried with success, in pass [k]. *)
Definition attempt_succeeds (k : nat) (sel : Sel) : list Ev :=
  [attempt_line k sel; (CWaitForSelector p sel slice true, true);
   (CClick p sel 1, true); (CConsoleLog ("✅ Clicked: " ^^ sel_text sel), true);
   (CWait 500, true)].

(** Every selector of the list tried and failed, in order, in pass [k]. *)
Inductive sels_fail (k : nat) : list Sel -> list Ev -> Prop :=
| sels_fail_nil : sels_fail k [] []
| sels_fail_cons sel sels t1 t2 :
    attempt_fails k sel t1 -> sels_fail k sels t2 ->
    sels_fail k (sel :: sels) (t1 ++ t2).

(** The pause after pass [k], unless it is the last one. *)
Definition pause (k : nat) : list Ev :=
  if k <? R then [(CWait 1000, true)] else [].

(** [n] full passes, numbered [from], [from + 1], ..., all failing. *)
Inductive passes_fail (sels : list Sel) : nat -> nat -> list Ev -> Prop :=
| passes_fail_O from : passes_fail sels from 0 []
| passes_fail_S from n t1 t2 :
    sels_fail from sels t1 -> passes_fail sels (S from) n t2 ->
    passes_fail sels from (S n) (t1 ++ pause from ++ t2).

End ClickGrammar.

(** The trace grammar of [waitForSelector] and of [closeModalIfPresent]. *)
Section FallbackGrammar.

Variables (p : Page) (timeout : Q).

(** A selector waited for in vain by [waitForSelector]. *)
Definition not_found (sel : Sel) : list Ev :=
  [(CConsoleLog ("⏳ Waiting for selector: " ^^ sel_text sel), true);
   (CWaitForSelector p sel timeout true, false);
   (CConsoleLog ("⚠️  Selector not found: " ^^ sel_text sel), true)].

(** The selector [waitForSelector] found. *)
Definition found (sel : Sel) : list Ev :=
  [(CConsoleLog ("⏳ Waiting for selector: " ^^ sel_text sel), true);
   (CWaitForSelector p sel timeout true, true);
   (CConsoleLog ("✅ Found selector: " ^^ sel_text sel), true)].

(** A selector [closeModalIfPresent] probed without a match. *)
Definition absent (sel : Sel) : Ev := (CWaitForSelector p sel 2000 true, false).

(** The Escape fallback of [closeModalIfPresent], when the key press
    goes through. *)
Definition escape_pressed : list Ev :=
  [(CKeyPress p "Escape", true); (CWait 500, true);
   (CConsoleLog "🚫 Pressed Escape to close modal", true)].

End FallbackGrammar.

(* ================================================================== *)
(** ** config.js *)
(* ================================================================== *)

(** String literals of the source that contain double quotes are written
    here with single quotes; [qq] puts the double quotes back. *)
Fixpoint qq (s : string) : string :=
  match s with
  | EmptyString => EmptyString
  | String c r => String (if Ascii.eqb c "'" then "034"%char else c) (qq r)
  end.

Fixpoint lookup (l : list (string * string)) (key : string) : option string :=
  match l with
  | [] => None
  | (k, v) :: l' => if String.eqb k key then Some v else lookup l' key
  end.

(** One site's entry of [config.js]. *)
Record Config : Type := mkConfig {
  cfg_name : string;
  cfg_baseUrl : string;
  cfg_selectors : list (string * string);
  cfg_pageLoad : Q;                       (* timing.pageLoad *)
  cfg_requiresLocation : bool;
  cfg_defaultLocation : option string;
  cfg_hasCustomization : bool;
  cfg_signupData : list (string * string)
}.

(** [config.selectors.<key>]: [undefined] when the key is missing. *)
Definition selector (c : Config) (key : string) : Sel := lookup (cfg_selectors c) key.

(** [config.signupData.<key>] *)
Definition signupData (c : Config) (key : string) : option string :=
  lookup (cfg_signupData c) key.

Definition lenskart_config : Config := {|
  cfg_name := "Lenskart";
  cfg_baseUrl := "https://www.lenskart.com";
  cfg_selectors := [
    ("signInButton", qq "a[href*='customer/account']");
    ("signInButtonAlt", "text/Sign In");
    ("phoneInput", qq "input[type='tel']");
    ("otpInput", qq "input[placeholder*='OTP']");
    ("continueButton", qq "button:has-text('Continue')");
    ("searchBar", qq "input[placeholder*='Search']");
    ("searchBarAlt", qq "input[type='search']");
    ("searchButton", qq "button[type='submit']");
    ("productCard", ".product-item");
    ("productCardAlt", qq "a[href*='sunglasses.html']");
    ("productLink", "a.product-item-link");
    ("buyNowButton", qq "button:has-text('BUY NOW')");
    ("addToCartButton", qq "button:has-text('ADD TO CART')");
    ("selectLensesButton", qq "button:has-text('SELECT LENSES')");
    ("noLensOption", "text/Without Lenses");
    ("skipLensButton", qq "button:has-text('Skip')");
    ("proceedButton", qq "button:has-text('Proceed')");
    ("cartIcon", qq "a[href*='/cart']");
    ("cartCount", ".cart-count");
    ("closeModal", qq "button[aria-label='Close']");
    ("noThanksButton", qq "button:has-text('No thanks')");
    ("dismissButton", qq "[class*='close']")];
  cfg_pageLoad := 5000;
  cfg_requiresLocation := false;
  cfg_defaultLocation := None;
  cfg_hasCustomization := true;
  cfg_signupData := [
    ("phone", "7760809118");
    ("firstName", "Rithvik");
    ("lastName", "Allada");
    ("email", "rithvik25allada@gmail.com");
    ("password", "YourPassword123#")]
|}.

Definition swiggy_config : Config := {|
  cfg_name := "Swiggy";
  cfg_baseUrl := "https://www.swiggy.com";
  cfg_selectors := [
    ("signInButton", qq "a:has-text('Sign in')");
    ("signInButtonAlt", "text/Sign in");
    ("phoneInput", qq "input[type='tel']");
    ("otpInput", qq "input[placeholder*='OTP']");
    ("continueButton", qq "button:has-text('Continue')");
    ("locationInput", qq "input[placeholder*='location']");
    ("locationInputAlt", qq "input[placeholder*='Enter']");
    ("locationSuggestion", qq "[class*='location'] div");
    ("locationSuggestionAlt", "text/Bangalore");
    ("searchLink", qq "a:has-text('Search')");
    ("searchBar", qq "input[placeholder*='Search']");
    ("searchBarAlt", qq "input[type='text']");
    ("addButton", qq "button:has-text('ADD')");
    ("addButtonAlt", qq "div:has-text('ADD')");
    ("customizeModal", qq "[class*='modal']");
    ("radioOption", qq "input[type='radio']");
    ("checkboxOption", qq "input[type='checkbox']");
    ("continueCustomize", qq "button:has-text('Continue')");
    ("addToCartCustomize", qq "button:has-text('Add Item to cart')");
    ("addToCartAlt", qq "button:has-text('ADD ITEM')");
    ("cartIcon", qq "a[href*='/cart']");
    ("cartCount", qq "[class*='cart']");
    ("viewCart", "text/View Cart");
    ("closeModal", qq "button[aria-label='Close']");
    ("dismissButton", qq "[class*='close']")];
  cfg_pageLoad := 5000;
  cfg_requiresLocation := true;
  cfg_defaultLocation := Some "Bangalore";
  cfg_hasCustomization := true;
  cfg_signupData := [
    ("phone", "9849397113");
    ("name", "Rithvik A");
    ("email", "rithvik25allada@gmail.com")]
|}.

(** [config[siteName]] *)
Definition config (siteName : string) : option Config :=
  if String.eqb siteName "lenskart" then Some lenskart_config
  else if String.eqb siteName "swiggy" then Some swiggy_config
  else None.

(* ================================================================== *)
(** ** automation.js: class EcommerceAutomation *)
(* ================================================================== *)

(** The fields the constructor sets and nothing changes afterwards. *)
Record Automation : Type := mkAutomation {
  siteName : string;
  cfg : Config;
  authMode : string      (* 'auto' | 'signin' | 'signup' *)
}.

(** The keys every object inherits from [Object.prototype]: on the
    plain object of [config.js], [config[key]] finds them although they
    name no site. *)
Definition inherited_keys : list string :=
  ["constructor"; "__defineGetter__"; "__defineSetter__"; "hasOwnProperty";
   "__lookupGetter__"; "__lookupSetter__"; "isPrototypeOf"; "propertyIsEnumerable";
   "toString"; "valueOf"; "__proto__"; "toLocaleString"].

(** What the constructor leaves: an automaton for a site of [config.js],
    or an object whose [config] is an inherited member and no site
    configuration. *)
Inductive Constructed : Type :=
| ForSite (a : Automation)
| ForInherited (siteName authMode : string).

(** [new EcommerceAutomation(siteName, authMode = 'auto')]: throws when
    [config[siteName]] is falsy, that is when the name is neither a site of
    [config.js] nor an inherited key. *)
Definition new_automation (site : string) (mode : option string) : JsError + Constructed :=
  match config site with
  | Some c => inr (ForSite (mkAutomation site c (default "auto" mode)))
  | None =>
      if existsb (String.eqb site) inherited_keys
      then inr (ForInherited site (default "auto" mode))
      else inl (mkError ("Site " ^^ qq "'" ^^ site ^^ qq "'"
                         ^^ " not supported. Available: lenskart, swiggy"))
  end.

Definition is_lenskart (a : Automation) : bool := String.eqb (siteName a) "lenskart".
Definition is_swiggy (a : Automation) : bool := String.eqb (siteName a) "swiggy".

(** [typeof n === 'number' && !isNaN(n) ? n : 0], [None] being [NaN] *)
Definition number_or_zero (n : option Num) : Num :=
  match n with Some z => z | None => Fin 0 end.

Module Scripts.

Definition text_of (o : option Elem) (f : Elem -> string) : string :=
  match o with Some e => f e | None => "" end.

(** [/\bcart\b/i] *)
Definition re_cart : Regex.Re :=
  Regex.seqs [Regex.RWordB; Regex.lit "cart"; Regex.RWordB].

(** The in-page function of [getCartCount]: the text of the badge
    inside the /checkout link, the first element whose text names the
    cart, and the count. *)
Definition badgeText (d : Dom) : string :=
  let badge := querySelector d (qq "a[href*='/checkout'] span") in
  trim (or_else (text_of badge innerText) (or_else (text_of badge textContent) "")).

Definition cartNode (d : Dom) : option Elem :=
  find (fun el => Regex.test_i re_cart (or_else (innerText el) ""))
       (querySelectorAll d "a,span,div").

Definition cartCount (d : Dom) : option Num :=
  (* Primary: number inside the /checkout link *)
  let n := parseInt10 (badgeText d) in
  match n with
  | Some _ => n
  | None =>
      (* Fallback: any element near text 'Cart' with a number *)
      match cartNode d with
      | Some node =>
          match firstDigitRun (or_else (innerText node) "") with
          | Some m1 => parseInt10 m1
          | None => Some (Fin 0)
          end
      | None => Some (Fin 0)
      end
  end.

(** [r.width > 0 && r.height > 0 && s.visibility !== 'hidden' &&
    s.display !== 'none'] *)
Definition visible (el : Elem) : bool :=
  negb (Qle_bool (rectWidth el) 0) && negb (Qle_bool (rectHeight el) 0)
  && negb (String.eqb (cssVisibility el) "hidden")
  && negb (String.eqb (cssDisplay el) "none").

(** The container the customization scripts look into. *)
Definition sel_dialog : string := qq "[role='dialog'], .modal, [class*='Modal'], #customise-content".

(** [!!document.querySelector('[role="dialog"], ...')] *)
Definition modalPresent (d : Dom) : bool :=
  match querySelector d sel_dialog with Some _ => true | None => false end.

(** [\s*] where what follows is not white space. *)
Definition skip_spaces (s : string) : string := trimStart s.

Fixpoint take_digits (s : string) : string * string :=
  match s with
  | String c r =>
      if is_digit c then let (ds, rest) := take_digits r in (String c ds, rest)
      else (EmptyString, s)
  | EmptyString => (EmptyString, s)
  end.

(** A literal matched at the start of [s], ignoring case: what follows. *)
Fixpoint lit_ci (l s : string) : option string :=
  match l, s with
  | EmptyString, _ => Some s
  | String a l', String b s' =>
      if Ascii.eqb (lower_ascii a) (lower_ascii b) then lit_ci l' s' else None
  | String _ _, EmptyString => None
  end.

(** [/step\s*(\d+)\s*out\s*of\s*(\d+)/i] matched at the start of [s]:
    the two groups. *)
Definition stepOutOf_at (s : string) : option (string * string) :=
  match lit_ci "step" s with
  | None => None
  | Some r1 =>
      let (cur, r2) := take_digits (skip_spaces r1) in
      match cur with
      | EmptyString => None
      | _ =>
          match lit_ci "out" (skip_spaces r2) with
          | None => None
          | Some r3 =>
              match lit_ci "of" (skip_spaces r3) with
              | None => None
              | Some r4 =>
                  let (tot, _) := take_digits (skip_spaces r4) in
                  match tot with
                  | EmptyString => None
                  | _ => Some (cur, tot)
                  end
              end
          end
      end
  end.

(** [label.match(/step\s*(\d+)\s*out\s*of\s*(\d+)/i)]: leftmost match. *)
Fixpoint stepOutOf (s : string) : option (string * string) :=
  match stepOutOf_at s with
  | Some m => Some m
  | None =>
      match s with
      | String _ r => stepOutOf r
      | EmptyString => None
      end
  end.

(** What the first in-page function of a customization step returns:
    [{ has, cur, tot }]. *)
Record StepMeta : Type := mkStepMeta {
  meta_has : bool;
  meta_cur : option string;
  meta_tot : option string
}.

Definition customizeMeta (d : Dom) : StepMeta :=
  let btn := querySelector d (qq "button[data-testid='menu-customize-continue-button']") in
  let label := match btn with
               | Some b => match getAttribute b "aria-label" with
                           | Some l => l
                           | None => ""
                           end
               | None => ""
               end in
  let m := stepOutOf label in
  mkStepMeta (match btn with Some _ => true | None => false end)
             (option_map fst m) (option_map snd m).

(** [/\badd\s*item\s*to\s*cart\b/i] *)
Definition re_addItemToCart : Regex.Re :=
  Regex.seqs [Regex.RWordB; Regex.lit "add"; Regex.RStar Regex.ASpace;
              Regex.lit "item"; Regex.RStar Regex.ASpace;
              Regex.lit "to"; Regex.RStar Regex.ASpace;
              Regex.lit "cart"; Regex.RWordB].

(** The "Add Item to cart" control found by its text: the element to
    click (scrolled into view), or [null]. *)
Definition addItemByText (d : Dom) : option Elem * list DomAct :=
  match querySelector d sel_dialog with
  | None => (None, [])
  | Some dlg =>
      let byText :=
        find (fun el => visible el
                        && Regex.test_i re_addItemToCart
                             (or_else (innerText el) (or_else (textContent el) "")))
             (elQuerySelectorAll dlg (qq "button, [role='button'], span, div")) in
      let t := match byText with
               | Some b => match closest b "button" with
                           | Some c => Some c
                           | None => Some b
                           end
               | None => None
               end in
      match t with
      | Some e => (t, [AScrollIntoView (eid e)])
      | None => (None, [])
      end
  end.

(** Pick the first visible radio that is not checked, else the first
    visible radio. *)
Definition pickRadio (d : Dom) : bool * list DomAct :=
  match querySelector d sel_dialog with
  | None => (false, [])
  | Some dlg =>
      let radios := filter visible (elQuerySelectorAll dlg (qq "input[type='radio']")) in
      let r := match find (fun x => negb (checked x)) radios with
               | Some x => Some x
               | None => hd_error radios
               end in
      match r with
      | Some x => (true, [AClick (eid x)])
      | None => (false, [])
      end
  end.

(** [/continue|add/i] *)
Definition re_continue_or_add : Regex.Re :=
  Regex.alts (Regex.lit "continue") [Regex.lit "add"].

(** Last resort: any button of the dialog whose label says continue or
    add. *)
Definition anyButton (d : Dom) : option Elem :=
  match querySelector d sel_dialog with
  | None => None
  | Some dlg =>
      find (fun b => Regex.test_i re_continue_or_add (or_else (innerText b) ""))
           (elQuerySelectorAll dlg "button")
  end.

(** *** In-page functions of [addToCart] *)

(** [!!document.querySelector('[data-testid*="dish" i], ...')] *)
Definition dishesRendered (d : Dom) : bool :=
  match querySelector d (qq "[data-testid*='dish' i], [data-testid*='normal-dish' i], [data-testid*='grid' i]") with
  | Some _ => true
  | None => false
  end.

(** The visibility test of the ADD scan, which also looks at opacity. *)
Definition visible_opaque (el : Elem) : bool :=
  if String.eqb (cssVisibility el) "hidden" || String.eqb (cssDisplay el) "none"
     || String.eqb (cssOpacity el) "0"
  then false
  else negb (Qle_bool (rectWidth el) 0) && negb (Qle_bool (rectHeight el) 0).

(** [(el.innerText || el.textContent || '').trim()] *)
Definition textOf (el : Elem) : string :=
  trim (or_else (innerText el) (or_else (textContent el) "")).

(** [/add-button-center-container/i] *)
Definition re_addButtonClass : Regex.Re := Regex.lit "add-button-center-container".

(** Locate a visible ADD control: the button to press (scrolled into
    view), or [null]. *)
Definition findAddButton (d : Dom) : option Elem * list DomAct :=
  let sel_controls := qq "button, div[role='button'], div, a, span" in
  (* Prefer Add buttons inside dish cards *)
  let dishContainers := querySelectorAll d (qq "[data-testid*='dish' i], [data-testid*='normal-dish' i]") in
  let candidates := flat_map (fun c => elQuerySelectorAll c sel_controls) dishContainers in
  let candidates := match candidates with
                    | [] => querySelectorAll d sel_controls
                    | _ => candidates
                    end in
  let btn := find (fun b => Regex.test_i re_addButtonClass (className b))
                  (querySelectorAll d "button") in
  let btn := match btn with
             | Some _ => btn
             | None =>
                 let labelNode :=
                   find (fun el =>
                           let t := textOf el in
                           match t with
                           | EmptyString => false
                           | _ =>
                               let tl := toLowerCase t in
                               if String.eqb tl "more details" then false
                               else String.eqb tl "add" || String.eqb tl "add item"
                                    || String.eqb tl "add to cart"
                           end) candidates in
                 match labelNode with
                 | Some n => closest n "button"
                 | None => None
                 end
             end in
  let btn := match btn with
             | Some b => if negb (visible_opaque b) then None else btn
             | None => None
             end in
  match btn with
  | Some b => (btn, [AScrollIntoView (eid b); AScrollIntoView (eid b)])
  | None => (None, [])
  end.

(** [/restaurant/i] and [/\/restaurants\//] *)
Definition re_restaurant : Regex.Re := Regex.lit "restaurant".
Definition re_restaurants_path : Regex.Re := Regex.lit "/restaurants/".

(** Fallback: the first card-looking link. *)
Definition findRestaurantLink (d : Dom) : option Elem :=
  find (fun a =>
          Regex.test_i re_restaurant (or_else (innerText a) (or_else (textContent a) ""))
          || Regex.test re_restaurants_path
               (match getAttribute a "href" with Some h => h | None => "" end))
       (filter visible (querySelectorAll d "a")).

(** [/\badd\b/i] *)
Definition re_add_word : Regex.Re :=
  Regex.seqs [Regex.RWordB; Regex.lit "add"; Regex.RWordB].

(** A details dialog with an ADD inside: click it.  (The elements these
    queries return are HTML elements.) *)
Definition clickAddInDetails (d : Dom) : bool * list DomAct :=
  match querySelector d (qq "[role='dialog'], .modal, [class*='Modal']") with
  | None => (false, [])
  | Some dlg =>
      match find (fun el => Regex.test_i re_add_word (textOf el))
                 (elQuerySelectorAll dlg (qq "button, [role='button'], div, a, span")) with
      | Some addBtn => (true, [AClick (eid addBtn)])
      | None => (false, [])
      end
  end.

(** [/\badded\b|\bqty\b|\bitem added\b/i] *)
Definition re_added : Regex.Re :=
  Regex.alts (Regex.seqs [Regex.RWordB; Regex.lit "added"; Regex.RWordB])
    [Regex.seqs [Regex.RWordB; Regex.lit "qty"; Regex.RWordB];
     Regex.seqs [Regex.RWordB; Regex.lit "item added"; Regex.RWordB]].

(** Verify the add happened: header cart count above 0, or a quantity
    control near an added item. *)
Definition addedOk (d : Dom) : bool :=
  let header := querySelector d (qq "a[href*='/checkout'] span") in
  let txt := trim (or_else (text_of header innerText)
                     (or_else (text_of header textContent) "")) in
  match parseInt10 txt with
  | Some n => if num_pos n then true
              else match find (fun el => Regex.test_i re_added (or_else (innerText el) ""))
                              (querySelectorAll d "button,div") with
                   | Some _ => true
                   | None => false
                   end
  | None => match find (fun el => Regex.test_i re_added (or_else (innerText el) ""))
                       (querySelectorAll d "button,div") with
            | Some _ => true
            | None => false
            end
  end.

(** What the primary button of a Lenskart product page says. *)
Record ButtonInfo : Type := mkButtonInfo {
  bi_found : bool;
  bi_text : string;
  bi_isSelectLenses : bool;
  bi_isBuyNow : bool
}.

Definition buttonInfo (d : Dom) : ButtonInfo :=
  match getElementById d "btn-primary" with
  | None => mkButtonInfo false "" false false
  | Some primaryBtn =>
      let text := toUpperCase (trim (or_else (innerText primaryBtn)
                                       (or_else (textContent primaryBtn) ""))) in
      mkButtonInfo true text (includes text "SELECT LENSES") (includes text "BUY NOW")
  end.

Definition hasDialogWithText (text : string) (d : Dom) : bool :=
  match querySelector d (qq "[role='dialog']") with
  | Some _ => includes (bodyInnerText d) text
  | None => false
  end.

(** Click the first element the selector finds, if any. *)
Definition clickFirst (sel : string) (d : Dom) : bool * list DomAct :=
  match querySelector d sel with
  | Some e => (true, [AClick (eid e)])
  | None => (false, [])
  end.

End Scripts.


(** *** In-page functions of [setLocation], [search] and [signin] *)

Module PageScripts.

Import Scripts.

(** [s.length] counts UTF-16 code units; the strings here are UTF-8.  A
    continuation byte adds nothing, the lead byte of a four-byte
    character stands for a surrogate pair. *)
Definition utf16_units (c : ascii) : nat :=
  let n := nat_of_ascii c in
  if n <? 128 then 1
  else if n <? 192 then 0
  else if n <? 240 then 1
  else 2.

Fixpoint js_length (s : string) : nat :=
  match s with
  | EmptyString => 0
  | String c r => utf16_units c + js_length r
  end.

Definition is_some {A} (o : option A) : bool :=
  match o with Some _ => true | None => false end.

(** [el.getAttribute(name) || ''] *)
Definition attr (el : Elem) (name : string) : string :=
  match getAttribute el name with Some v => v | None => "" end.

(** [el.getAttribute('maxlength') === '1'] *)
Definition single_char_input (el : Elem) : bool :=
  match getAttribute el "maxlength" with
  | Some v => String.eqb v "1"
  | None => false
  end.

(** [setLocation]: skip "Use my current location" and click the first
    result that has actual location text. *)
Definition is_location_result (button : Elem) : bool :=
  let text := toLowerCase (textContent button) in
  if includes text "current location" || includes text "detect" then false
  else 5 <? js_length text.

Definition pickLocation (d : Dom) : bool * list DomAct :=
  match find is_location_result (querySelectorAll d (qq "div[role='button']")) with
  | Some button => (true, [AClick (eid button)])
  | None => (false, [])
  end.

(** [search] on Swiggy: the opener that carries the text label. *)
Definition searchOpener (d : Dom) : option Elem :=
  find (fun el => String.eqb (toLowerCase (textOf el)) "search for restaurant, item or more")
       (filter visible (querySelectorAll d "div,button,a,span")).

(** [signin] on Lenskart: [/already registered/i] on a [div] of the
    dialog. *)
Definition re_alreadyRegistered : Regex.Re := Regex.lit "already registered".

Definition alreadyRegistered (d : Dom) : bool :=
  match querySelector d (qq "[role='dialog']") with
  | None => false
  | Some c =>
      is_some (find (fun x => Regex.test_i re_alreadyRegistered (or_else (textContent x) ""))
                    (elQuerySelectorAll c "div"))
  end.

(** [signin] on Swiggy: blur the phone input to trigger validation. *)
Definition blurInput (sel : string) (d : Dom) : unit * list DomAct :=
  match querySelector d sel with
  | None => (tt, [])
  | Some el => (tt, [ADispatch (eid el) "input"; ADispatch (eid el) "change"; ABlur (eid el)])
  end.

(** The LOGIN control of the form the phone input sits in. *)
Definition loginButton (sel : string) (d : Dom) : option Elem :=
  match querySelector d sel with
  | None => None
  | Some input =>
      match closest input "form" with
      | None => None
      | Some form =>
          find (fun el => String.eqb (toUpperCase (textOf el)) "LOGIN")
               (elQuerySelectorAll form "button, a, div, span")
      end
  end.

(** Fallback: submit the form the phone input sits in (a form element
    of the browser has [requestSubmit]). *)
Definition submitForm (sel : string) (d : Dom) : unit * list DomAct :=
  match querySelector d sel with
  | None => (tt, [])
  | Some input =>
      match closest input "form" with
      | None => (tt, [])
      | Some form => (tt, [ARequestSubmit (eid form)])
      end
  end.

(** The container of the authentication dialog. *)
Definition sel_authDialog : string := qq "[role='dialog'], .modal, [class*='Modal']".

(** [/verify otp|didn\'t receive otp|didn’t receive otp/] *)
Definition re_otpText : Regex.Re :=
  Regex.alts (Regex.lit "verify otp")
    [Regex.lit "didn't receive otp"; Regex.lit "didn’t receive otp"].

(** [/one-time-code|otp/i] *)
Definition re_otpHint : Regex.Re :=
  Regex.alts (Regex.lit "one-time-code") [Regex.lit "otp"].

(** Phase A of the OTP wait: the OTP UI is there. *)
Definition otpShown (d : Dom) : bool :=
  match querySelector d sel_authDialog with
  | None => false
  | Some container =>
      let text := toLowerCase (or_else (innerText container) "") in
      let hasText := Regex.test re_otpText text in
      let inputs := elQuerySelectorAll container "input" in
      let hasOtpInputs :=
        existsb (fun i => single_char_input i
                          || Regex.test_i re_otpHint
                               (attr i "autocomplete" ^^ " " ^^ attr i "aria-label"))
                inputs in
      hasText || hasOtpInputs
  end.

(** [/otp|verify/i], [/\bsign\s*in\b/i] and
    [/account|profile|logout|sign out|my orders/i] *)
Definition re_otp_or_verify : Regex.Re :=
  Regex.alts (Regex.lit "otp") [Regex.lit "verify"].

Definition re_signIn : Regex.Re :=
  Regex.seqs [Regex.RWordB; Regex.lit "sign"; Regex.RStar Regex.ASpace;
              Regex.lit "in"; Regex.RWordB].

Definition re_signedInHeader : Regex.Re :=
  Regex.alts (Regex.lit "account")
    [Regex.lit "profile"; Regex.lit "logout"; Regex.lit "sign out"; Regex.lit "my orders"].

(** Phase B of the OTP wait: the OTP UI is gone and the Sign in trigger
    is absent, or the header indicates a logged-in user. *)
Definition signedIn (d : Dom) : bool :=
  (* Lenskart-specific: sign-in form gone and header present *)
  let signInForm := querySelector d "#sign-in-form" in
  let header := querySelector d (qq "#header-wrapper, header[id='header']") in
  let userButton := querySelector d (qq "button[aria-label*='User account menu' i]") in
  if negb (is_some signInForm) && (is_some header || is_some userButton) then true
  else
    (* Generic check for other sites *)
    let container := querySelector d sel_authDialog in
    let otpVisible :=
      match container with
      | Some c => Regex.test_i re_otp_or_verify (or_else (innerText c) "")
      | None => false
      end in
    let hasOtpInputs :=
      match container with
      | Some c => existsb single_char_input (elQuerySelectorAll c "input")
      | None => false
      end in
    let authVisible := otpVisible || hasOtpInputs in
    (* Sign in trigger still visible? *)
    let signInNode :=
      find (fun n => Regex.test_i re_signIn (or_else (innerText n) ""))
           (querySelectorAll d "a,button,div,span") in
    (* Header-based positive signals *)
    let headerEl := querySelector d (qq "header, [data-testid*='header' i], [class*='Header' i]") in
    let headerText := or_else (match headerEl with Some h => innerText h | None => "" end) "" in
    let signedInHeader := Regex.test_i re_signedInHeader headerText in
    negb authVisible && (negb (is_some signInNode) || signedInHeader).

(** [scrollToElement] of utils.js: scroll the element into view when the
    selector finds one. *)
Definition scrollIntoView (sel : string) (d : Dom) : unit * list DomAct :=
  match querySelector d sel with
  | Some element => (tt, [AScrollIntoView (eid element)])
  | None => (tt, [])
  end.

End PageScripts.

Section AutomationJs.

Context {W : Type}.
Variable drv : Driver W.
Variable this : Automation.

(** [this.page] and [this.utils]: reading a property of [null] throws. *)
Definition this_page_ {R L} : M (W:=W) R L Page :=
  fun st =>
    match this_page st with
    | Some p => mkRes (Normal p) st []
    | None => mkRes (Throw (mkError "TypeError: Cannot read properties of null")) st []
    end.

Definition this_utils_ {R L} : M (W:=W) R L Utils :=
  fun st =>
    match this_utils st with
    | Some u => mkRes (Normal u) st []
    | None => mkRes (Throw (mkError "TypeError: Cannot read properties of null")) st []
    end.

(** [this.page = p] *)
Definition set_this_page {R L} (p : option Page) : M (W:=W) R L unit :=
  fun st => mkRes (Normal tt) (mkSt (world st) (this_browser st) p (this_utils st)) [].

(** [this.utils.<method>(...)] *)
Definition ulog {R L} (message type : string) : M (W:=W) R L unit :=
  u <- this_utils_ ;; log message type.

Definition uwait {R L} (ms : Q) : M (W:=W) R L unit :=
  u <- this_utils_ ;; await (wait drv ms).

Definition uscreenshot {R L} (name : string) : M (W:=W) R L (option string) :=
  u <- this_utils_ ;; await (screenshot drv u name).

Definition uclickElement {R L} (selectors : Selectors) : M (W:=W) R L bool :=
  u <- this_utils_ ;; await (clickElement drv u selectors no_options).

Definition uelementExists {R L} (selector : Sel) (timeout : option Q) : M (W:=W) R L bool :=
  u <- this_utils_ ;; await (elementExists drv u selector timeout).

Definition ucloseModalIfPresent {R L} (selectors : Selectors) : M (W:=W) R L bool :=
  u <- this_utils_ ;; await (closeModalIfPresent drv u selectors).

Definition utypeText {R L} (selectors : Selectors) (text : option string)
           (options : TypeOptions) : M (W:=W) R L bool :=
  u <- this_utils_ ;; await (typeText drv u selectors text options).

(** [this.page.<method>(...)] *)
Definition pg {R L A} (f : Page -> M (W:=W) R L A) : M (W:=W) R L A :=
  p <- this_page_ ;; f p.

(** [page.evaluate(fn)] for a function that only reads the document. *)
Definition evaluate_pure {R L A} (p : Page) (script : string) (f : Dom -> A)
  : M (W:=W) R L A :=
  d <- prim (CSnapshot p script) (d_snapshot drv p script) ;;
  ret (f d).

(** [page.evaluate(fn)] for a function that also acts on the document. *)
Definition evaluate {R L A} (p : Page) (script : string) (f : Dom -> A * list DomAct)
  : M (W:=W) R L A :=
  d <- prim (CSnapshot p script) (d_snapshot drv p script) ;;
  prim_total (CDomActs p script (snd (f d)))
    (fun w => (tt, d_domActs drv p script (snd (f d)) w)) ;;
  ret (fst (f d)).

(** [page.waitForFunction(pred, { timeout })]: the predicate is polled
    against the live document until it holds or the timeout fires. *)
Fixpoint poll {R L} (p : Page) (script : string) (pred : Dom -> bool) (n : nat)
  : M (W:=W) R L unit :=
  match n with
  | O => throw (mkError "TimeoutError: Waiting failed")
  | S n' =>
      d <- prim (CSnapshot p script) (d_snapshot drv p script) ;;
      if pred d then ret tt else poll p script pred n'
  end.

Definition waitForFunction {R L} (p : Page) (script : string) (pred : Dom -> bool)
           (timeout : Q) : M (W:=W) R L unit :=
  n <- prim_total (CPollBudget p script timeout) (d_pollBudget drv p script timeout) ;;
  poll p script pred n.

Definition page_query {R L} (p : Page) (sel : string) : M (W:=W) R L (option Handle) :=
  prim (CQuery p sel) (d_query drv p sel).

Definition handle_click {R L} (h : Handle) : M (W:=W) R L unit :=
  prim (CHandleClick h) (d_handleClick drv h).

(** [getCartCount()]: read cart count from topbar (Swiggy badge shows
    number). *)
Definition getCartCount : Async (W:=W) Num :=
  async (
    try_catch
      (count <- pg (fun p => evaluate_pure p "getCartCount" Scripts.cartCount) ;;
       (* typeof count === 'number' && !isNaN(count) ? count : 0 *)
       return_ (number_or_zero count))
      (fun _ => return_ (Fin 0))).

(** [openCartTopbar()]: open cart from top bar (post-add). *)
Definition openCartTopbar : Async (W:=W) bool :=
  async (
    ulog "Opening cart..." "step" ;;
    try_catch
      (clicked <- uclickElement (Many [
         selector (cfg this) "cartIcon";
         Some (qq "a[href*='/checkout']");
         Some (qq "a:has-text('Cart')");
         Some (qq "span:has-text('Cart')")]) ;;
       if negb clicked then
         ulog "Cart button not found" "warning" ;;
         return_ false
       else
         uwait (cfg_pageLoad (cfg this)) ;;
         uscreenshot "07_cart_page" ;;
         ulog "Opened cart page" "success" ;;
         return_ true)
      (fun error =>
         ulog ("Open cart failed: " ^^ message error) "warning" ;;
         uscreenshot "error_open_cart" ;;
         return_ false)).

(** [handleCustomization()]: product customization (lens selection for
    Lenskart, food options for Swiggy). *)

(** Lenskart: check if lens selection is required. *)
Definition customize_lenskart : M (W:=W) bool Empty_set unit :=
  hasLensButton <- uelementExists (selector (cfg this) "selectLensesButton") (Some 3000%Q) ;;
  when_ hasLensButton (
    ulog "Lens customization detected" "info" ;;
    uclickElement (One (selector (cfg this) "selectLensesButton")) ;;
    uwait 2000 ;;
    uscreenshot "06_lens_customization" ;;
    (* Try to select "Without Lenses" or skip *)
    skipped <- uclickElement (Many [selector (cfg this) "noLensOption";
                                    selector (cfg this) "skipLensButton"]) ;;
    when_ skipped (
      uwait 1000 ;;
      uclickElement (One (selector (cfg this) "proceedButton")) ;;
      ret tt)).

Definition sel_continueButton : string := qq "button[data-testid='menu-customize-continue-button']".
Definition sel_footerAdd : string := qq "button[data-cy='customize-footer-add-button']".

(** Swiggy: briefly poll for the modal, or the final Add without steps.
    The loop state is [modalPresent]. *)
Definition customize_poll_modal : M (W:=W) bool Empty_set bool :=
  for_range 0 4 (fun _ => true) false (fun i _ =>
    modalPresent <- pg (fun p => evaluate_pure p "modalPresent" Scripts.modalPresent) ;;
    if modalPresent : bool then break_ modalPresent
    else
      (* If final Add button exists without steps, click it directly *)
      quickAdd <- pg (fun p => page_query p sel_footerAdd) ;;
      match quickAdd with
      | Some h =>
          try_catch (handle_click h ;; await (wait drv 900)) (fun _ => ret tt) ;;
          return_ true
      | None =>
          uwait 350 ;;
          ret modalPresent
      end).

(** Rung 1: prefer the official Continue button if present ([continued]). *)
Definition customize_continue : M (W:=W) bool bool bool :=
  try_catch
    (meta <- pg (fun p => evaluate_pure p "customizeMeta" Scripts.customizeMeta) ;;
     match Scripts.meta_cur meta, Scripts.meta_tot meta with
     | Some cur, Some tot => ulog ("Customization Step " ^^ cur ^^ "/" ^^ tot) "info"
     | _, _ => ret tt
     end ;;
     if Scripts.meta_has meta then
       h <- pg (fun p => page_query p sel_continueButton) ;;
       match h with
       | Some h => handle_click h ;; ret true
       | None => ret false
       end
     else ret false)
    (fun _ => ret false).

(** Rung 2: if Continue is not visible, try to click Add Item to cart,
    the final step ([clickedFinal]). *)
Definition customize_final : M (W:=W) bool bool bool :=
  try_catch
    (addBtn <- pg (fun p => page_query p sel_footerAdd) ;;
     match addBtn with
     | Some b => handle_click b ;; ret true
     | None =>
         el <- pg (fun p => evaluate p "addItemByText" Scripts.addItemByText) ;;
         match el with
         | Some e => handle_click (eid e) ;; ret true
         | None => ret false
         end
     end)
    (fun _ => ret false).

(** Rung 3: if some option must be selected, pick the first visible radio
    then loop again. *)
Definition customize_radio (completed : bool) : M (W:=W) bool bool unit :=
  try_catch
    (picked <- pg (fun p => evaluate p "pickRadio" Scripts.pickRadio) ;;
     if picked : bool then uwait 400 ;; continue_ completed else ret tt)
    (fun _ => ret tt).

(** Rung 4, last resort: click any primary-looking footer button. *)
Definition customize_lastResort : M (W:=W) bool bool unit :=
  try_catch
    (anyBtn <- pg (fun p => evaluate_pure p "anyButton" Scripts.anyButton) ;;
     match anyBtn with
     | Some e => handle_click (eid e) ;; uwait 800
     | None => ret tt
     end)
    (fun _ => ret tt).

(** One round of the step loop; the loop state is [completed]. *)
Definition customize_step (step : nat) (completed : bool) : M (W:=W) bool bool bool :=
  continued <- customize_continue ;;
  if continued : bool then uwait 900 ;; continue_ completed
  else
    clickedFinal <- customize_final ;;
    if clickedFinal : bool then uwait 1200 ;; break_ true
    else
      customize_radio completed ;;
      customize_lastResort ;;
      ret completed.

(** Swiggy: dynamic, step-based customization handling. *)
Definition customize_swiggy : M (W:=W) bool Empty_set unit :=
  uwait 600 ;;
  modalPresent <- customize_poll_modal ;;
  when_ modalPresent (
    ulog "Food customization detected" "info" ;;
    uscreenshot "05_food_customization_step1" ;;
    (* for (let step = 0; step < 6 && !completed; step++) *)
    completed <- for_range 0 6 negb false customize_step ;;
    (* Final attempt to click Add Item to cart by config selectors *)
    when_ (negb completed) (
      uclickElement (Many [selector (cfg this) "addToCartCustomize";
                           selector (cfg this) "addToCartAlt"]) ;;
      uwait 1200) ;;
    ulog "Customization completed" "success" ;;
    return_ true).

Definition handleCustomization : Async (W:=W) bool :=
  async (
    if negb (cfg_hasCustomization (cfg this)) then return_ true
    else
      ulog "Checking for customization options..." "step" ;;
      try_catch
        ((if is_lenskart this then customize_lenskart
          else if is_swiggy this then customize_swiggy
          else ret tt) ;;
         return_ true)
        (fun error =>
           ulog ("Customization handling failed: " ^^ message error) "warning" ;;
           uscreenshot "error_customization" ;;
           return_ false)).

(** *** addToCart *)

(** The promise built around [this.browser.once('targetcreated', ...)]:
    listening, or already rejected because [this.browser] is [null]. *)
Inductive TargetPromise : Type :=
| Listening
| Broken (e : JsError).

(** [new Promise(resolve => this.browser.once('targetcreated', ...))] *)
Definition once_targetcreated {R L} : M (W:=W) R L TargetPromise :=
  fun st =>
    if this_browser st
    then mkRes (Normal Listening)
               (set_world st (d_onceTargetCreated drv (world st)))
               [(COnceTargetCreated, true)]
    else mkRes (Normal (Broken (mkError "TypeError: Cannot read properties of null")))
               st [].

(** [await newPagePromise]: the page of the created target ([null] when
    the target is not a page).  There is no timeout: when the event never
    fires the await never completes. *)
Definition await_target {R L} (promise : TargetPromise) : M (W:=W) R L (option Page) :=
  match promise with
  | Broken e => throw e
  | Listening =>
      fun st =>
        let '(r, w') := d_awaitTargetCreated drv (world st) in
        match r with
        | Some newPage => mkRes (Normal newPage) (set_world st w') [(CAwaitTargetCreated, true)]
        | None => mkRes Pending (set_world st w') [(CAwaitTargetCreated, false)]
        end
  end.

(** [await newPage.waitForLoadState?.('domcontentloaded').catch(() => {})]:
    reading the property of [null] throws; otherwise nothing can fail. *)
Definition newPage_waitForLoadState {R L} (newPage : option Page) : M (W:=W) R L unit :=
  match newPage with
  | None => throw (mkError "TypeError: Cannot read properties of null")
  | Some p => prim_total (CWaitForLoadState p) (fun w => (tt, d_waitForLoadState drv p w))
  end.

Definition lenskart_product_selectors : Selectors :=
  Many [Some "a.sc-23b7d3eb-7.gZcHRJ";
        Some ".sc-23b7d3eb-8.gUutuN a";
        Some (qq "div[data-cy='plpCardContainerProductImage']");
        Some (qq "a[class*='sc-'][class*='eb-']")].

(** Step 1 of the lens flow: the "Select Lens Type" modal. *)
Definition lenskart_lens_type : M (W:=W) bool Empty_set unit :=
  ulog "Checking for lens type selection modal..." "info" ;;
  hasLensTypeModal <- pg (fun p => evaluate_pure p "hasLensTypeModal"
                                     (Scripts.hasDialogWithText "Select Lens Type")) ;;
  when_ hasLensTypeModal (
    ulog "Lens type modal found, selecting first option..." "info" ;;
    clicked <- pg (fun p => evaluate p "selectFirstLensType"
                     (Scripts.clickFirst (qq "[data-cy='PackageItemWrapper'][role='button']"))) ;;
    when_ clicked (
      ulog "Selected first lens type" "success" ;;
      uwait 2000)).

(** Step 2 of the lens flow: the "Choose Lens Package" modal. *)
Definition lenskart_lens_package : M (W:=W) bool Empty_set unit :=
  ulog "Checking for lens package selection modal..." "info" ;;
  hasPackageModal <- pg (fun p => evaluate_pure p "hasPackageModal"
                                    (Scripts.hasDialogWithText "Choose Lens Package")) ;;
  when_ hasPackageModal (
    ulog "Lens package modal found, selecting first option..." "info" ;;
    (* Try clicking the h3 element inside the first package *)
    clicked <- try_catch
      (h3Element <- pg (fun p => page_query p (qq "div[id='package-card-wrapper'] h3")) ;;
       match h3Element with
       | Some h => handle_click h ;; ret true
       | None => ret false
       end)
      (fun e => ulog ("h3 click failed: " ^^ message e) "warning" ;; ret false) ;;
    (* Fallback: try clicking the role="button" element *)
    clicked <- (if negb clicked then
      try_catch
        (buttonElement <- pg (fun p => page_query p (qq "div[id='package-card-wrapper'] [role='button']")) ;;
         match buttonElement with
         | Some h => handle_click h ;; ret true
         | None => ret false
         end)
        (fun e => ulog ("role=button click failed: " ^^ message e) "warning" ;; ret false)
      else ret clicked) ;;
    (* Last fallback: click the wrapper itself *)
    clicked <- (if negb clicked then
      try_catch
        (pg (fun p => page_click drv p (Some (qq "div[id='package-card-wrapper']")) 1) ;;
         ret true)
        (fun e => ulog ("wrapper click failed: " ^^ message e) "warning" ;; ret false)
      else ret clicked) ;;
    if clicked : bool then
      ulog "Selected first lens package" "success" ;;
      uwait 2000 ;;
      (* Click CONTINUE button *)
      ulog "Clicking CONTINUE button..." "info" ;;
      continueClicked <- pg (fun p => evaluate p "clickPackageContinue"
                               (Scripts.clickFirst (qq "button[data-cy='packageBtnContinue']"))) ;;
      if continueClicked : bool then
        ulog "Clicked CONTINUE" "success" ;;
        uwait 2000
      else ulog "CONTINUE button not found" "warning"
    else ulog "Failed to click lens package" "warning").

(** Lenskart: the product opens in a new tab. *)
Definition addToCart_lenskart : M (W:=W) bool Empty_set bool :=
  (* Click first product card (from search results) - opens in new tab *)
  ulog "Clicking first product..." "info" ;;
  (* Listen for new tab *)
  newPagePromise <- once_targetcreated ;;
  productClicked <- uclickElement lenskart_product_selectors ;;
  if negb productClicked then
    ulog "Failed to click product" "error" ;;
    return_ false
  else
    (* Switch to the new tab *)
    ulog "Switching to product page tab..." "info" ;;
    newPage <- await_target newPagePromise ;;
    newPage_waitForLoadState newPage ;;
    set_this_page newPage ;; (* Switch context to new tab *)
    ulog "Waiting for product page to load..." "info" ;;
    uwait 3000 ;;
    uscreenshot "05_product_page" ;;
    (* Dynamically detect and click the primary action button *)
    ulog "Detecting primary action button..." "info" ;;
    uwait 2000 ;;
    (* Check what the primary button says *)
    buttonInfo <- pg (fun p => evaluate_pure p "buttonInfo" Scripts.buttonInfo) ;;
    if negb (Scripts.bi_found buttonInfo) then
      ulog "No primary button found!" "error" ;;
      return_ false
    else
      ulog ("Primary button text: " ^^ qq "'" ^^ Scripts.bi_text buttonInfo ^^ qq "'") "info" ;;
      (* Click the primary button *)
      pg (fun p => page_click drv p (Some "#btn-primary") 1) ;;
      ulog ("Clicked: " ^^ Scripts.bi_text buttonInfo) "success" ;;
      uwait 2000 ;;
      (* If it was SELECT LENSES, handle customization flow *)
      when_ (Scripts.bi_isSelectLenses buttonInfo) (
        lenskart_lens_type ;;
        lenskart_lens_package) ;;
      (* Wait for cart page *)
      ulog "Waiting for cart page..." "info" ;;
      uwait 3000 ;;
      uscreenshot "06_cart" ;;
      (* Click Proceed To Checkout *)
      ulog "Clicking Proceed To Checkout..." "info" ;;
      try_catch
        (pg (fun p => page_waitForSelector drv p (Some (qq "div[data-cy='cart-cta-desktop']")) 5000 false) ;;
         pg (fun p => page_click drv p (Some (qq "div[data-cy='cart-cta-desktop']")) 1) ;;
         ulog "Clicked Proceed To Checkout" "success" ;;
         uwait 2000 ;;
         uscreenshot "07_checkout" ;;
         ulog "✅ Lenskart automation completed successfully!" "success" ;;
         return_ true)
        (fun e =>
           ulog ("Failed to click Proceed To Checkout: " ^^ message e) "error" ;;
           return_ false).

(** [await this.utils?.wait?.(400)] *)
Definition uwait_optional {R L} (ms : Q) : M (W:=W) R L unit :=
  fun st =>
    match this_utils st with
    | Some _ => await (wait drv ms) st
    | None => mkRes (Normal tt) st []
    end.

Definition handle_boundingBox {R L} (h : Handle) : M (W:=W) R L (option Box) :=
  prim (CBoundingBox h) (d_boundingBox drv h).

Definition mouse_press_at {R L} (p : Page) (cx cy : Q) : M (W:=W) R L unit :=
  prim (CMouseMove p cx cy) (d_mouseMove drv p cx cy) ;;
  prim (CMouseDown p) (d_mouseDown drv p) ;;
  prim (CMouseUp p) (d_mouseUp drv p).

(** Swiggy: locate a visible ADD control anywhere, scrolling in up to
    four chunks; the loop state is [clicked]. *)
Definition swiggy_scan_add : M (W:=W) bool Empty_set bool :=
  try_catch
    (for_range 0 4 negb false (fun i clicked =>
       el <- pg (fun p => evaluate p "findAddButton" Scripts.findAddButton) ;;
       match el with
       | Some e =>
           box <- handle_boundingBox (eid e) ;;
           match box with
           | Some b =>
               let cx := (box_x b + box_width b / 2)%Q in
               let cy := (box_y b + box_height b / 2)%Q in
               pg (fun p => mouse_press_at p cx cy) ;;
               ret true
           | None =>
               handle_click (eid e) ;;
               ret true
           end
       | None =>
           (* Scroll to reveal more results *)
           pg (fun p => evaluate p "scrollBy" (fun _ => (tt, [AScrollBy 0 600]))) ;;
           uwait_optional 400 ;;
           ret clicked
       end))
    (fun _ => ret false).

Definition swiggy_add_selectors : Selectors :=
  Many [selector (cfg this) "addButton"; selector (cfg this) "addButtonAlt"].

(** Swiggy: ADD not found on the current page; open the first restaurant
    and add there. *)
Definition swiggy_open_restaurant : M (W:=W) bool Empty_set unit :=
  ulog "ADD not found on current page, opening first restaurant..." "info" ;;
  opened <- uclickElement (Many [Some (qq "a[href*='/restaurants/']");
                                 Some (qq "a[role='link']:has-text('Restaurant')")]) ;;
  opened <- (if negb opened then
    (* Fallback: click first card-looking link *)
    try_catch
      (el <- pg (fun p => evaluate_pure p "findRestaurantLink" Scripts.findRestaurantLink) ;;
       match el with
       | Some e => handle_click (eid e) ;; ret true
       | None => ret opened
       end)
      (fun _ => ret opened)
    else ret opened) ;;
  if negb opened then
    ulog "Could not open a restaurant from search results" "error" ;;
    return_ false
  else
    uwait (cfg_pageLoad (cfg this)) ;;
    uscreenshot "05_restaurant_menu" ;;
    (* Now try clicking ADD on the menu *)
    clicked <- uclickElement swiggy_add_selectors ;;
    if negb clicked then
      ulog "Failed to click ADD button after opening restaurant" "error" ;;
      return_ false
    else ret tt.

(** The retry of the add action: click the modal Add if present, else
    re-click the first ADD on the card. *)
Definition swiggy_readd : M (W:=W) bool Empty_set unit :=
  addInModal <- pg (fun p => page_query p sel_footerAdd) ;;
  match addInModal with
  | Some h => handle_click h ;; uwait 1000
  | None => uclickElement swiggy_add_selectors ;; uwait 1000
  end.

(** Verify add actually happened; if not, try final Add once. *)
Definition swiggy_verify_added : M (W:=W) bool Empty_set unit :=
  uwait 800 ;;
  addedOk <- try_catch
    (pg (fun p => evaluate_pure p "addedOk" Scripts.addedOk))
    (fun _ => ret false) ;;
  when_ (negb addedOk) (
    (* Try clicking modal Add if present, else re-click first ADD on the card *)
    try_catch swiggy_readd (fun _ => ret tt)).

(** The console line of the cart-count check. *)
Definition count_warning_text (preCount postCount : Num) : string :=
  "Cart count did not increase (before=" ^^ num_to_string preCount ^^ ", after="
  ^^ num_to_string postCount ^^ "). Retrying add once...".

(** Final sanity: cart count should increase. *)
Definition swiggy_final_sanity (preCount : Num) : M (W:=W) bool Empty_set unit :=
  try_catch
    (postCount <- await getCartCount ;;
     (* typeof postCount === 'number' && postCount <= preCount *)
     when_ (num_leb postCount preCount) (
       ulog (count_warning_text preCount postCount) "warning" ;;
       (* One retry: click final Add in modal or card ADD *)
       swiggy_readd))
    (fun _ => ret tt).

(** The final sanity check and the report that ends the Swiggy branch. *)
Definition swiggy_sanity_and_report (preCount : Num) : M (W:=W) bool Empty_set bool :=
  swiggy_final_sanity preCount ;;
  uscreenshot "06_cart" ;;
  ulog "Item added to cart successfully" "success" ;;
  return_ true.

(** Ensure search/menu results are rendered. *)
Definition swiggy_settle : M (W:=W) bool Empty_set unit :=
  try_catch
    (pg (fun p => waitForFunction p "dishesRendered" Scripts.dishesRendered 4000))
    (fun _ => ret tt) ;;
  uwait 800.

(** The add action and what follows it up to the final sanity check:
    the scan for an ADD control and its fallbacks, customization, and the
    verification. *)
Definition swiggy_add_and_customize : M (W:=W) bool Empty_set unit :=
  (* Try to locate a visible 'ADD' control anywhere (search results or menu) *)
  clicked <- swiggy_scan_add ;;
  (* Fallback to simple selectors if hardware scan didn't click *)
  clicked <- (if negb clicked then
    uclickElement (Many [selector (cfg this) "addButton";
                         selector (cfg this) "addButtonAlt";
                         Some (qq "button:has-text('Add')");
                         Some (qq "div:has-text('Add')")])
    else ret clicked) ;;
  (* Likely on search/listing page; open first restaurant and then add *)
  when_ (negb clicked) swiggy_open_restaurant ;;
  uwait 2000 ;;
  (* If a details dialog opened instead of customization, click ADD inside the dialog *)
  try_catch
    (hadDetails <- pg (fun p => evaluate p "clickAddInDetails" Scripts.clickAddInDetails) ;;
     when_ hadDetails (uwait 1200))
    (fun _ => ret tt) ;;
  (* Handle customization *)
  await handleCustomization ;;
  swiggy_verify_added.

Definition addToCart_swiggy : M (W:=W) bool Empty_set bool :=
  swiggy_settle ;;
  (* Capture initial cart count to verify increment later *)
  preCount <- await getCartCount ;;
  swiggy_add_and_customize ;;
  swiggy_sanity_and_report preCount.

(** [addToCart()]: add first product/item to cart. *)
Definition addToCart : Async (W:=W) bool :=
  async (
    ulog "Adding item to cart..." "step" ;;
    try_catch
      (if is_lenskart this then addToCart_lenskart
       else if is_swiggy this then addToCart_swiggy
       else return_ false)
      (fun error =>
         ulog ("Add to cart failed: " ^^ message error) "error" ;;
         uscreenshot "error_add_to_cart" ;;
         return_ false)).


(** *** Driver calls of the remaining phases *)

Definition set_this_browser {R L} (b : bool) : M (W:=W) R L unit :=
  fun st => mkRes (Normal tt) (mkSt (world st) b (this_page st) (this_utils st)) [].

Definition set_this_utils {R L} (u : option Utils) : M (W:=W) R L unit :=
  fun st => mkRes (Normal tt) (mkSt (world st) (this_browser st) (this_page st) u) [].

(** [if (this.browser)] *)
Definition this_browser_ {R L} : M (W:=W) R L bool :=
  fun st => mkRes (Normal (this_browser st)) st [].

Definition keyboard_down {R L} (p : Page) (key : string) : M (W:=W) R L unit :=
  prim (CKeyDown p key) (d_keyDown drv p key).

Definition keyboard_up {R L} (p : Page) (key : string) : M (W:=W) R L unit :=
  prim (CKeyUp p key) (d_keyUp drv p key).

Definition keyboard_type {R L} (p : Page) (text : option string) (delay : Q)
  : M (W:=W) R L unit :=
  prim (CKeyType p text delay) (d_keyType drv p text delay).

Definition page_focus {R L} (p : Page) (sel : Sel) : M (W:=W) R L unit :=
  prim (CFocus p sel) (d_focus drv p sel).

Definition page_queryXPath {R L} (p : Page) (xpath : string) : M (W:=W) R L (list Handle) :=
  prim (CQueryXPath p xpath) (d_queryXPath drv p xpath).

Definition handle_type {R L} (h : Handle) (text : option string) (delay : Q)
  : M (W:=W) R L unit :=
  prim (CHandleType h text delay) (d_handleType drv h text delay).

(** Select all and delete: Control down, A, Control up, Backspace. *)
Definition clear_field {R L} : M (W:=W) R L unit :=
  pg (fun p => keyboard_down p "Control") ;;
  pg (fun p => keyboard_press drv p "A") ;;
  pg (fun p => keyboard_up p "Control") ;;
  pg (fun p => keyboard_press drv p "Backspace").

(** The line feed of the source's template strings. *)
Definition nl : string := String "010"%char EmptyString.

(** *** utils.js: scrollToElement *)

(** [scrollToElement(selector)]: scroll element into view. *)
Definition scrollToElement (u : Utils) (selector : Sel) : Async (W:=W) bool :=
  async (
    try_catch
      (evaluate (u_page u) "scrollIntoView" (PageScripts.scrollIntoView (sel_text selector)) ;;
       await (wait drv 500) ;;
       return_ true)
      (fun error =>
         console_error ("❌ Failed to scroll to element: " ^^ message error) ;;
         return_ false)).

(** *** init *)

Definition userAgent : string :=
  "Mozilla/5.0 (X11; Linux x86_64) AppleWebKit/537.36 (KHTML, like Gecko) Chrome/120.0.0.0 Safari/537.36".

(** [init()]: initialize browser and page.  Nothing is caught here but
    a failure to set the language headers. *)
Definition init : Async (W:=W) unit :=
  async (
    console_log (nl ^^ "🚀 Initializing automation for " ^^ cfg_name (cfg this) ^^ "..." ^^ nl) ;;
    prim CLaunch (d_launch drv) ;;
    set_this_browser true ;;
    page <- prim CNewPage (d_newPage drv) ;;
    set_this_page (Some page) ;;
    (* new Utils(page, siteName) creates the screenshot directory *)
    prim (CNewUtils (siteName this)) (d_newUtils drv (siteName this)) ;;
    set_this_utils (Some (mkUtils page (siteName this))) ;;
    (* Set user agent to avoid bot detection *)
    pg (fun p => prim (CSetUserAgent p userAgent) (d_setUserAgent drv p userAgent)) ;;
    (* Prefer Indian English and English for headers *)
    try_catch
      (pg (fun p => prim (CSetExtraHTTPHeaders p) (d_setExtraHTTPHeaders drv p)))
      (fun _ => ret tt) ;;
    (* Navigate to base URL *)
    ulog ("Navigating to " ^^ cfg_baseUrl (cfg this)) "step" ;;
    pg (fun p => prim (CGoto p (cfg_baseUrl (cfg this))) (d_goto drv p (cfg_baseUrl (cfg this)))) ;;
    uwait (cfg_pageLoad (cfg this)) ;;
    uscreenshot "01_homepage" ;;
    ret tt).

(** *** setLocation *)

(** Click the first search result (not "Use my current location");
    the value is [clicked]. *)
Definition setLocation_pick : M (W:=W) bool Empty_set bool :=
  try_catch
    ((* Wait for search results to appear *)
     uwait 1000 ;;
     clicked <- pg (fun p => evaluate p "pickLocation" PageScripts.pickLocation) ;;
     when_ clicked (ulog "Clicked first search result" "success") ;;
     ret clicked)
    (fun error =>
       ulog ("Error clicking search result: " ^^ message error) "warning" ;;
       ret false).

(** [setLocation()]: location selection (for Swiggy). *)
Definition setLocation : Async (W:=W) bool :=
  async (
    if negb (cfg_requiresLocation (cfg this)) then
      ulog "Location not required for this site" "info" ;;
      return_ true
    else
      ulog "Setting location..." "step" ;;
      try_catch
        ((* Wait a bit for page to stabilize *)
         uwait 2000 ;;
         (* Click on location input to focus it *)
         locationInputClicked <- uclickElement (Many [selector (cfg this) "locationInput";
                                                      selector (cfg this) "locationInputAlt"]) ;;
         if negb locationInputClicked then
           ulog "Location input not found" "warning" ;;
           return_ false
         else
           uwait 1000 ;;
           (* Clear any existing text and type location *)
           clear_field ;;
           uwait 500 ;;
           (* Type location slowly *)
           pg (fun p => page_type drv p (selector (cfg this) "locationInput")
                          (cfg_defaultLocation (cfg this)) 100) ;;
           ulog ("Typed location: " ^^ default "undefined" (cfg_defaultLocation (cfg this))) "info" ;;
           uwait 3000 ;; (* Wait for dropdown suggestions to appear *)
           uscreenshot "02_location_dropdown" ;;
           clicked <- setLocation_pick ;;
           when_ (negb clicked) (
             (* Fallback: press Enter to select first suggestion *)
             ulog "Pressing Enter to select first suggestion" "info" ;;
             pg (fun p => keyboard_press drv p "Enter")) ;;
           (* Wait for location to be set and page to update *)
           uwait 5000 ;;
           uscreenshot "02_location_set" ;;
           (* Close location dropdown if still open *)
           pg (fun p => keyboard_press drv p "Escape") ;;
           uwait 1000 ;;
           ulog "Location set successfully" "success" ;;
           return_ true)
        (fun error =>
           ulog ("Location setting failed: " ^^ message error) "error" ;;
           uscreenshot "error_location" ;;
           return_ false)).

(** *** signin *)

Definition create_account_selectors : Selectors :=
  Many [Some (qq "[role='button'][aria-label*='create account' i]");
        Some (qq "button[aria-label*='create account' i]");
        Some (qq "button:has-text('Create an Account')");
        Some (qq "a:has-text('Create an Account')")].

Definition sel_emailOrPhone : string := qq "input[name='emailOrPhone']".

(** Lenskart: type Mobile/Email for signin mode or when staying on Sign
    In.  The loop state is [loginInput]. *)
Definition lenskart_type_login : M (W:=W) bool Empty_set unit :=
  loginInput <- for_of [sel_emailOrPhone;
                        qq "input[placeholder*='Mobile' i]";
                        qq "input[placeholder*='Email' i]"] None
                  (fun sel loginInput =>
                     h <- pg (fun p => page_query p sel) ;;
                     match h with
                     | Some _ => break_ h
                     | None => ret loginInput
                     end) ;;
  match loginInput with
  | Some h =>
      handle_click h ;;
      uwait 100 ;;
      clear_field ;;
      try_catch (handle_type h (signupData (cfg this) "phone") 60) (fun _ => ret tt)
  | None => ret tt
  end.

(** Lenskart: click the Sign In button (id="remove-button"); the value
    is [signInClickable]. *)
Definition lenskart_click_signin : M (W:=W) bool Empty_set bool :=
  try_catch
    (ulog "Clicking Sign In button..." "info" ;;
     pg (fun p => page_click drv p (Some "#remove-button") 1) ;;
     ulog "Clicked Sign In button successfully" "success" ;;
     uwait 1500 ;;
     ret true)
    (fun e =>
       ulog ("Failed to click Sign In button: " ^^ message e) "warning" ;;
       ret false).

(** Lenskart: fill the fields of the signup form (lines 322-336 and
    again 391-405). *)
Definition signup_fields : list (string * option string) :=
  [(qq "input[name='firstName']", signupData (cfg this) "firstName");
   (qq "input[name='lastName']", signupData (cfg this) "lastName");
   (qq "input[name='mobile']", signupData (cfg this) "phone");
   (qq "input[name='email']", signupData (cfg this) "email");
   (qq "input[name='password']", signupData (cfg this) "password")].

Definition fill_signup_form : M (W:=W) bool Empty_set unit :=
  for_of signup_fields tt (fun f _ =>
    try_catch
      (pg (fun p => catch_ignore (page_click drv p (Some (fst f)) 3)) ;;
       pg (fun p => catch_ignore (page_focus p (Some (fst f)))) ;;
       pg (fun p => keyboard_type p (snd f) 40))
      (fun _ => ret tt)).

(** Lenskart: submit the signup form and check, after clicking, whether
    the account already exists; the value is [existsMsg]. *)
Definition submit_signup_form : M (W:=W) bool Empty_set bool :=
  (* Simple submit: click the Create an Account button inside the dialog *)
  ulog "Clicking Create an Account button..." "info" ;;
  pg (fun p => page_click drv p (Some "#remove-button") 1) ;;
  uwait 1500 ;;
  pg (fun p => evaluate_pure p "alreadyRegistered" PageScripts.alreadyRegistered).

Definition pivot_line : string := "Phone number already registered — switching to Sign In".

(** Lenskart: the account exists; switch to Sign In, fill the phone and
    submit (lines 341-384, and again 410-453 with another first
    selector for the Sign In link). *)
Definition pivot_to_signin (signInLink : Selectors) : M (W:=W) bool Empty_set unit :=
  ulog pivot_line "warning" ;;
  uscreenshot "03_already_registered" ;;
  signInClicked <- uclickElement signInLink ;;
  when_ signInClicked (
    ulog "Clicked Sign In link, waiting for form..." "info" ;;
    uwait 1500 ;;
    (* Fill phone and submit Sign In *)
    try_catch
      (pg (fun p => page_waitForSelector drv p (Some sel_emailOrPhone) 3000 false) ;;
       pg (fun p => page_click drv p (Some sel_emailOrPhone) 1) ;;
       clear_field ;;
       pg (fun p => page_type drv p (Some sel_emailOrPhone) (signupData (cfg this) "phone") 60) ;;
       ulog "Filled phone number for Sign In" "info")
      (fun e => ulog ("Failed to fill phone: " ^^ message e) "warning") ;;
    try_catch
      (btns <- pg (fun p => page_queryXPath p
                     "//button[@data-testid='button-testid' and contains(., 'Sign In')]") ;;
       match hd_error btns with
       | Some btn =>
           handle_click btn ;;
           ulog "Clicked Sign In button - waiting for OTP screen..." "success" ;;
           uwait 2000
       | None => ret tt
       end)
      (fun e => ulog ("Failed to click Sign In button: " ^^ message e) "warning")).

(** The Sign In link of the first pivot, and of the second, whose first
    selector mixes its quotes. *)
Definition signin_link : Selectors :=
  Many [Some (qq "[role='button'][aria-label='Sign In']");
        Some (qq "button:has-text('Sign In')")].

Definition signin_link_again : Selectors :=
  Many [Some (qq "[role='button" ^^ "'][aria-label=" ^^ qq "'Sign In" ^^ "']");
        Some (qq "button:has-text('Sign In')")].

(** Lenskart: not already on the signup form and allowed to sign up:
    open Create Account.  The value is [didOpenSignupForm]. *)
Definition lenskart_open_signup (didOpenSignupForm : bool) : M (W:=W) bool Empty_set bool :=
  when_ (String.eqb (authMode this) "auto")
    (ulog "Sign In disabled/unavailable, switching to Create Account" "warning") ;;
  opened <- uclickElement create_account_selectors ;;
  if opened : bool then
    uwait 800 ;;
    uscreenshot "03_signup_form_lenskart" ;;
    fill_signup_form ;;
    existsMsg <- submit_signup_form ;;
    if existsMsg : bool then
      pivot_to_signin signin_link ;;
      (* Don't set didOpenSignupForm since we switched to signin *)
      ret didOpenSignupForm
    else ret true
  else ret didOpenSignupForm.

(** Lenskart: already on the signup form: fill and submit. *)
Definition lenskart_signup : M (W:=W) bool Empty_set unit :=
  try_catch
    (uscreenshot "03_signup_form_lenskart" ;;
     fill_signup_form ;;
     existsMsg <- submit_signup_form ;;
     when_ existsMsg (pivot_to_signin signin_link_again))
    (fun _ => ret tt).

(** Lenskart-specific auth flow: try Sign In, or Create Account based
    on [authMode]. *)
Definition lenskart_auth : M (W:=W) bool Empty_set unit :=
  try_catch
    ((* Wait for modal container *)
     pg (fun p => page_waitForSelector drv p (Some (qq "[role='dialog']")) 5000 false) ;;
     (* If user requested signup explicitly, switch to Create Account immediately *)
     didOpenSignupForm <-
       (if String.eqb (authMode this) "signup" then
          opened <- uclickElement create_account_selectors ;;
          when_ opened (uwait 600) ;;
          (* Consider we are on signup if firstName field appears *)
          try_catch
            (pg (fun p => page_waitForSelector drv p (Some (qq "input[name='firstName']"))
                            3000 false) ;;
             ret true)
            (fun _ => ret false)
        else ret false) ;;
     when_ (negb (String.eqb (authMode this) "signup")) lenskart_type_login ;;
     signInClickable <-
       (if negb (String.eqb (authMode this) "signup") then lenskart_click_signin
        else ret false) ;;
     didOpenSignupForm <-
       (if negb didOpenSignupForm && negb signInClickable
           && negb (String.eqb (authMode this) "signin")
        then lenskart_open_signup didOpenSignupForm
        else ret didOpenSignupForm) ;;
     (* If we are already on signup form (from explicit authMode), fill and submit *)
     when_ didOpenSignupForm lenskart_signup)
    (fun e => ulog ("Lenskart auth handling warning: " ^^ message e) "warning").

(** Swiggy: click LOGIN scoped to the form of the phone input, using a
    hardware-grade click; the value is [clicked]. *)
Definition swiggy_click_login (phoneSel : string) : M (W:=W) bool Empty_set bool :=
  try_catch
    (el <- pg (fun p => evaluate_pure p "loginButton" (PageScripts.loginButton phoneSel)) ;;
     match el with
     | Some e =>
         box <- handle_boundingBox (eid e) ;;
         match box with
         | Some b =>
             let cx := (box_x b + box_width b / 2)%Q in
             let cy := (box_y b + box_height b / 2)%Q in
             pg (fun p => mouse_press_at p cx cy) ;;
             ret true
         | None => ret false
         end
     | None => ret false
     end)
    (fun _ => ret false).

(** Swiggy login (no signup): fill the phone in the login form.  The
    loop state of the search for the input is [phoneSel]. *)
Definition swiggy_login : M (W:=W) bool Empty_set unit :=
  ulog "Filling login form for Swiggy" "info" ;;
  try_catch
    (phoneSel <- for_of [qq "input[placeholder*='Phone']";
                         qq "input[type='tel']";
                         "input#mobile";
                         qq "input[name='mobile']"] None
                   (fun sel phoneSel =>
                      exists_ <- uelementExists (Some sel) (Some 3000%Q) ;;
                      if exists_ : bool then break_ (Some sel) else ret phoneSel) ;;
     match phoneSel with
     | None => ulog "Login phone input not found" "warning"
     | Some phoneSel =>
         (* Focus and clear any existing text, then type *)
         pg (fun p => page_click drv p (Some phoneSel) 1) ;;
         clear_field ;;
         uwait 100 ;;
         pg (fun p => page_type drv p (Some phoneSel) (signupData (cfg this) "phone") 50) ;;
         (* Blur to trigger React validation *)
         try_catch
           (pg (fun p => evaluate p "blurInput" (PageScripts.blurInput phoneSel)))
           (fun _ => ret tt) ;;
         ulog ("Entered phone in login: "
               ^^ default "undefined" (signupData (cfg this) "phone")) "info" ;;
         clicked <- swiggy_click_login phoneSel ;;
         when_ (negb clicked) (
           (* Fallback: submit the scoped form *)
           try_catch
             (pg (fun p => evaluate p "submitForm" (PageScripts.submitForm phoneSel)))
             (fun _ => ret tt)) ;;
         uwait 2000
     end)
    (fun e => ulog ("Login form typing failed: " ^^ message e) "warning").

(** Swiggy login flow.  The source tests the constant
    [signupLinkClicked = false] here; the signup block it guards (lines
    467-863) never runs and is not part of the embedding. *)
Definition swiggy_auth : M (W:=W) bool Empty_set unit :=
  ulog "Using login form for Swiggy" "info" ;;
  swiggy_login.

Definition otp_banner : M (W:=W) bool Empty_set unit :=
  ulog "" "info" ;;
  ulog "═══════════════════════════════════════════════════" "warning" ;;
  ulog "⏸️  PAUSED FOR MANUAL OTP ENTRY (up to 60s)" "warning" ;;
  ulog "═══════════════════════════════════════════════════" "warning" ;;
  ulog "" "info" ;;
  ulog "Please complete the following steps:" "info" ;;
  ulog "  1. Check your phone for the OTP" "info" ;;
  ulog "  2. Enter the OTP in the browser" "info" ;;
  ulog "  3. Complete the authentication process" "info" ;;
  ulog "" "info" ;;
  ulog "⏱️  Waiting up to 60 seconds, will continue as soon as verification finishes..." "info".

Definition otp_detected_line : string := "✅ Sign-in detected! Continuing...".
Definition otp_timeout_line : string := "⚠️ OTP wait timeout - continuing anyway".

(** The wait for OTP entry (common path for all flows).  Phase A:
    observe the OTP UI, up to 30s.  Phase B: continue only when it is
    gone and the user looks signed in, up to 60s. *)
Definition otp_wait : M (W:=W) bool Empty_set unit :=
  otp_banner ;;
  try_catch
    (pg (fun p => waitForFunction p "otpShown" PageScripts.otpShown 30000))
    (fun _ => ret tt) ;;
  try_catch
    (pg (fun p => waitForFunction p "signedIn" PageScripts.signedIn 60000) ;;
     ulog otp_detected_line "success")
    (fun _ => ulog otp_timeout_line "warning").

(** What follows the click on the sign-in button. *)
Definition signin_flow : M (W:=W) bool Empty_set bool :=
  uwait 2000 ;;
  uscreenshot "03_auth_modal_login" ;;
  when_ (is_lenskart this) lenskart_auth ;;
  when_ (is_swiggy this) swiggy_auth ;;
  (* Now wait for OTP entry *)
  otp_wait ;;
  return_ true.

(** [signin()]: signup/signin with form filling and OTP wait. *)
Definition signin : Async (W:=W) bool :=
  async (
    ulog "Navigating to signup/signin..." "step" ;;
    try_catch
      ((* Close any modals first (skip for Lenskart to go directly to Sign In) *)
       when_ (negb (is_lenskart this)) (
         ucloseModalIfPresent (Many [selector (cfg this) "closeModal";
                                     selector (cfg this) "noThanksButton"]) ;;
         ret tt) ;;
       (* Click sign-in button to open auth modal *)
       clicked <- uclickElement (Many [selector (cfg this) "signInButton";
                                       selector (cfg this) "signInButtonAlt"]) ;;
       if negb clicked then
         ulog "Sign-in button not found, skipping authentication" "warning" ;;
         return_ false
       else signin_flow)
      (fun error =>
         ulog ("Sign-in/signup failed: " ^^ message error) "error" ;;
         uscreenshot "error_signin" ;;
         return_ false)).

(** *** search *)

Definition sel_lenskart_search : string :=
  qq "input#autocomplete-0-input, input.aa-Input[placeholder*='What are you looking for' i]".

Definition sel_swiggy_search : string :=
  qq "input[type='search'], input[placeholder*='Search' i], input[aria-label*='search' i]".

(** Lenskart-specific search; the value is [typed]. *)
Definition search_lenskart (searchTerm : string) : M (W:=W) bool Empty_set bool :=
  ulog "Opening Lenskart search..." "info" ;;
  try_catch
    ((* Wait for the search input to be available *)
     pg (fun p => page_waitForSelector drv p (Some sel_lenskart_search) 5000 true) ;;
     (* Click and type *)
     pg (fun p => page_click drv p (Some sel_lenskart_search) 1) ;;
     uwait 300 ;;
     pg (fun p => keyboard_type p (Some searchTerm) 80) ;;
     uwait 500 ;;
     pg (fun p => keyboard_press drv p "Enter") ;;
     ulog "Search query entered" "success" ;;
     ret true)
    (fun e =>
       ulog ("Lenskart search failed: " ^^ message e) "warning" ;;
       ret false).

(** Swiggy: direct homepage search (DIV opener, then the input); the
    value is [typed]. *)
Definition search_swiggy (searchTerm : string) : M (W:=W) bool Empty_set bool :=
  ulog "Opening search..." "info" ;;
  try_catch
    ((* 1) Click the opener DIV if present (has the text label) *)
     opener <- try_catch
       (pg (fun p => evaluate_pure p "searchOpener" PageScripts.searchOpener))
       (fun _ => ret None) ;;
     match opener with
     | Some e => try_catch (handle_click (eid e)) (fun _ => ret tt)
     | None => ret tt
     end ;;
     (* 2) Wait for the real input to be visible (overlay or page) *)
     try_catch
       (pg (fun p => page_waitForSelector drv p (Some sel_swiggy_search) 5000 true))
       (fun _ => ret tt) ;;
     (* 3) Focus the input and type *)
     handle <- pg (fun p => page_query p sel_swiggy_search) ;;
     match handle with
     | None => throw (mkError "Search input not found")
     | Some h =>
         handle_click h ;;
         uwait 120 ;;
         clear_field ;;
         pg (fun p => keyboard_type p (Some searchTerm) 70) ;;
         pg (fun p => keyboard_press drv p "Enter") ;;
         ret true
     end)
    (fun e =>
       ulog ("Search focus failed: " ^^ message e) "warning" ;;
       ret false).

(** [search(searchTerm)]: search for a product/item. *)
Definition search (searchTerm : string) : Async (W:=W) bool :=
  async (
    ulog ("Searching for " ^^ qq "'" ^^ searchTerm ^^ qq "'" ^^ "...") "step" ;;
    try_catch
      ((* Close any modals (skip for Lenskart after sign-in) *)
       when_ (negb (is_lenskart this)) (
         ucloseModalIfPresent (Many [selector (cfg this) "closeModal";
                                     selector (cfg this) "noThanksButton";
                                     selector (cfg this) "dismissButton"]) ;;
         ret tt) ;;
       (* Extra wait to ensure location is fully set (for Swiggy) *)
       when_ (is_swiggy this) (uwait 2000) ;;
       (if is_lenskart this then
          search_lenskart searchTerm ;;
          ret tt
        else if is_swiggy this then
          typed <- search_swiggy searchTerm ;;
          if negb typed then
            ulog "Failed to search" "error" ;;
            return_ false
          else ret tt
        else
          (* Non-Swiggy: use generic selectors *)
          typed <- utypeText (Many [selector (cfg this) "searchBar";
                                    selector (cfg this) "searchBarAlt"])
                     (Some searchTerm) (mkTypeOptions None None (Some true)) ;;
          if negb typed then
            ulog "Failed to search" "error" ;;
            return_ false
          else ret tt) ;;
       uwait (cfg_pageLoad (cfg this)) ;;
       uscreenshot "04_search_results" ;;
       ulog "Search completed successfully" "success" ;;
       return_ true)
      (fun error =>
         ulog ("Search failed: " ^^ message error) "error" ;;
         uscreenshot "error_search" ;;
         return_ false)).

(** *** run *)

(** The steps of [run] inside its [try]. *)
(** The steps of [run] after [init]. *)
Definition run_flow (searchTerm : string) : M (W:=W) unit Empty_set unit :=
  (* Step 1: Sign-in FIRST (pause for manual OTP entry) *)
  ulog "Starting authentication flow..." "step" ;;
  await signin ;;
  (* Step 2: Set location (if required) - AFTER signin *)
  when_ (cfg_requiresLocation (cfg this)) (await setLocation ;; ret tt) ;;
  (* Step 3: Search for item *)
  searchSuccess <- await (search searchTerm) ;;
  when_ (negb searchSuccess) (throw (mkError "Search failed")) ;;
  (* Step 4: Add to cart *)
  cartSuccess <- await addToCart ;;
  when_ (negb cartSuccess) (throw (mkError "Add to cart failed")) ;;
  (* Step 5: Open cart from top bar (skip for Lenskart - already at checkout) *)
  when_ (negb (is_lenskart this)) (await openCartTopbar ;; ret tt) ;;
  ulog (nl ^^ "✅ Automation completed successfully!" ^^ nl) "success" ;;
  ulog ("📁 Screenshots saved in: ./screenshots/" ^^ siteName this ^^ "/") "info" ;;
  (* Keep browser open for 10 seconds to view results *)
  ulog "⏳ Keeping browser open for 10 seconds..." "info" ;;
  uwait 10000.

Definition run_steps (searchTerm : string) : M (W:=W) unit Empty_set unit :=
  await init ;;
  run_flow searchTerm.

Definition run_failed (error : JsError) : M (W:=W) unit Empty_set unit :=
  ulog (nl ^^ "❌ Automation failed: " ^^ message error ^^ nl) "error" ;;
  uscreenshot "error_final" ;;
  throw error.

Definition run_cleanup : M (W:=W) unit Empty_set unit :=
  browser <- this_browser_ ;;
  when_ browser (
    prim CBrowserClose (d_browserClose drv) ;;
    ulog "Browser closed" "info").

(** [run(searchTerm)]: the main automation flow. *)
Definition run (searchTerm : string) : Async (W:=W) unit :=
  async (try_finally (try_catch (run_steps searchTerm) run_failed) run_cleanup).

End AutomationJs.

(** *** Reading the traces of [addToCart] *)

(** The console line of the cart-count check, and the test for it. *)
Definition count_warning (preCount postCount : Num) : Ev :=
  (CConsoleLog (icon "warning" ^^ " " ^^ count_warning_text preCount postCount), true).

Definition is_count_warning (e : Ev) : bool :=
  match fst e with
  | CConsoleLog s => String.prefix (icon "warning" ^^ " Cart count did not increase") s
  | _ => false
  end.

(** A read of the cart count: the page evaluation of [getCartCount]. *)
Definition is_count_read (e : Ev) : bool :=
  match fst e with
  | CSnapshot _ script => String.eqb script "getCartCount"
  | _ => false
  end.




(** *** The command line *)

(** [a.join(' ')] *)
Fixpoint join_words (l : list string) : string :=
  match l with
  | [] => ""
  | [w] => w
  | w :: l' => w ^^ " " ^^ join_words l'
  end.

(** [/^(signin|signup)$/i] *)
Definition re_authMode : Regex.Re := Regex.alts (Regex.lit "signin") [Regex.lit "signup"].

Definition at_end (s : string) : bool :=
  match s with EmptyString => true | String _ _ => false end.

(** [/^r$/i.test(s)]: the match starts at the first character and ends
    at the last. *)
Definition test_whole_i (r : Regex.Re) (s : string) : bool :=
  Regex.match_k true r None s (fun _ rest => at_end rest).

Record CommandLine : Type := mkCommandLine {
  cl_site : string;
  cl_authMode : string;
  cl_searchTerm : string
}.

(** What the main function makes of [process.argv.slice(2)]: with fewer
    than two arguments it prints the usage and exits with code 1
    ([None]); otherwise these are the site and auth mode given to the
    constructor and the search term given to [run]. *)
Definition main_args (args : list string) : option CommandLine :=
  if length args <? 2 then None
  else
    let site := nth 0 args "" in
    if String.eqb site "lenskart" && (3 <=? length args)
       && test_whole_i re_authMode (nth 1 args "")
    then
      Some (mkCommandLine site (toLowerCase (nth 1 args ""))
              (join_words (skipn 2 args))) (* Join all remaining args for multi-word search *)
    else
      Some (mkCommandLine site "auto" (join_words (skipn 1 args))).

(* ================================================================== *)
(** ** A simulated browser *)
(* ================================================================== *)

(** A scripted driver for concrete runs.  The world counts the actions
    that changed the page so far ([sim_acts]: clicks, key presses,
    in-page effects); what the page shows may depend on that count. *)
Module Simulation.

Record Sim : Type := mkSim {
  sim_acts : nat;
  sim_clock : Z;
  (* selectors whose visibility wait resolves *)
  sim_visible : nat -> Sel -> bool;
  (* selectors [page.click] succeeds on *)
  sim_clickable : nat -> Sel -> bool;
  (* do keyboard and mouse calls go through *)
  sim_input_ok : bool;
  (* the document in-page functions see; [None]: evaluation fails *)
  sim_dom : nat -> option Dom;
  (* [page.$]: [None] when the call fails *)
  sim_query : nat -> string -> option (option Handle);
  (* does clicking the handle go through *)
  sim_handle_ok : Handle -> bool;
  (* polls [waitForFunction] performs before timing out *)
  sim_polls : nat;
  (* the 'targetcreated' event *)
  sim_target : option (option Page);
  (* does the browser launch, open pages, navigate and close *)
  sim_browser_ok : bool
}.

Definition acted (w : Sim) : Sim :=
  mkSim (S (sim_acts w)) (sim_clock w) (sim_visible w) (sim_clickable w)
    (sim_input_ok w) (sim_dom w) (sim_query w) (sim_handle_ok w) (sim_polls w)
    (sim_target w) (sim_browser_ok w).

Definition ticked (w : Sim) : Sim :=
  mkSim (sim_acts w) (sim_clock w + 1) (sim_visible w) (sim_clickable w)
    (sim_input_ok w) (sim_dom w) (sim_query w) (sim_handle_ok w) (sim_polls w)
    (sim_target w) (sim_browser_ok w).

Definition oops (msg : string) : JsError := mkError msg.

Definition answer {A} (ok : bool) (msg : string) (a : A) (w : Sim) : (JsError + A) * Sim :=
  if ok then (inr a, w) else (inl (oops msg), w).

Definition driver : Driver Sim := {|
  d_wait := fun _ w => ticked w;
  d_screenshot := fun _ _ w => (inr tt, w);
  d_waitForSelector := fun _ sel _ _ w =>
    answer (sim_visible w (sim_acts w) sel) "TimeoutError: waiting for selector failed" tt w;
  d_click := fun _ sel _ w =>
    answer (sim_clickable w (sim_acts w) sel) "Node is either not clickable or not an Element" tt
           (acted w);
  d_type := fun _ sel _ _ w =>
    answer (sim_visible w (sim_acts w) sel) "No element found for selector" tt w;
  d_focus := fun _ sel w =>
    answer (sim_visible w (sim_acts w) sel) "No element found for selector" tt w;
  d_query := fun _ sel w =>
    match sim_query w (sim_acts w) sel with
    | Some h => (inr h, w)
    | None => (inl (oops "Execution context was destroyed"), w)
    end;
  d_queryXPath := fun _ _ w => (inr [], w);
  d_handleClick := fun h w =>
    answer (sim_handle_ok w h) "Node is detached from document" tt (acted w);
  d_handleType := fun h _ _ w =>
    answer (sim_handle_ok w h) "Node is detached from document" tt w;
  d_boundingBox := fun _ w => (inr None, w);
  d_keyDown := fun _ _ w => answer (sim_input_ok w) "Protocol error" tt w;
  d_keyUp := fun _ _ w => answer (sim_input_ok w) "Protocol error" tt w;
  d_keyPress := fun _ _ w => answer (sim_input_ok w) "Protocol error" tt (acted w);
  d_keyType := fun _ _ _ w => answer (sim_input_ok w) "Protocol error" tt w;
  d_mouseMove := fun _ _ _ w => answer (sim_input_ok w) "Protocol error" tt w;
  d_mouseDown := fun _ w => answer (sim_input_ok w) "Protocol error" tt w;
  d_mouseUp := fun _ w => answer (sim_input_ok w) "Protocol error" tt (acted w);
  d_snapshot := fun _ _ w =>
    match sim_dom w (sim_acts w) with
    | Some d => (inr d, w)
    | None => (inl (oops "Execution context was destroyed"), w)
    end;
  d_domActs := fun _ _ acts w =>
    match acts with [] => w | _ => acted w end;
  d_pollBudget := fun _ _ _ w => (sim_polls w, w);
  d_launch := fun w => answer (sim_browser_ok w) "Failed to launch the browser process" tt w;
  d_newPage := fun w => answer (sim_browser_ok w) "Target closed" 1 w;
  d_newUtils := fun _ w => (inr tt, w);
  d_setUserAgent := fun _ _ w => (inr tt, w);
  d_setExtraHTTPHeaders := fun _ w => (inr tt, w);
  d_goto := fun _ _ w => answer (sim_browser_ok w) "net::ERR_CONNECTION_REFUSED" tt w;
  d_browserClose := fun w => answer (sim_browser_ok w) "Protocol error" tt w;
  d_now := fun w => (sim_clock w, w);
  d_onceTargetCreated := fun w => w;
  d_awaitTargetCreated := fun w => (sim_target w, w);
  d_waitForLoadState := fun _ w => w
|}.

(** A page on which nothing is found and every call goes through. *)
Definition blank : Sim := {|
  sim_acts := 0;
  sim_clock := 1700000000000;
  sim_visible := fun _ _ => false;
  sim_clickable := fun _ _ => true;
  sim_input_ok := true;
  sim_dom := fun _ => Some (mkDom (fun _ => []) (fun _ => None) "");
  sim_query := fun _ _ => Some None;
  sim_handle_ok := fun _ => true;
  sim_polls := 3;
  sim_target := None;
  sim_browser_ok := true
|}.

Definition with_visible (f : nat -> Sel -> bool) (w : Sim) : Sim :=
  mkSim (sim_acts w) (sim_clock w) f (sim_clickable w)
    (sim_input_ok w) (sim_dom w) (sim_query w) (sim_handle_ok w) (sim_polls w)
    (sim_target w) (sim_browser_ok w).

Definition with_clickable (f : nat -> Sel -> bool) (w : Sim) : Sim :=
  mkSim (sim_acts w) (sim_clock w) (sim_visible w) f
    (sim_input_ok w) (sim_dom w) (sim_query w) (sim_handle_ok w) (sim_polls w)
    (sim_target w) (sim_browser_ok w).

Definition with_input_ok (b : bool) (w : Sim) : Sim :=
  mkSim (sim_acts w) (sim_clock w) (sim_visible w) (sim_clickable w)
    b (sim_dom w) (sim_query w) (sim_handle_ok w) (sim_polls w)
    (sim_target w) (sim_browser_ok w).

Definition with_dom (f : nat -> option Dom) (w : Sim) : Sim :=
  mkSim (sim_acts w) (sim_clock w) (sim_visible w) (sim_clickable w)
    (sim_input_ok w) f (sim_query w) (sim_handle_ok w) (sim_polls w)
    (sim_target w) (sim_browser_ok w).

Definition with_query (f : nat -> string -> option (option Handle)) (w : Sim) : Sim :=
  mkSim (sim_acts w) (sim_clock w) (sim_visible w) (sim_clickable w)
    (sim_input_ok w) (sim_dom w) f (sim_handle_ok w) (sim_polls w)
    (sim_target w) (sim_browser_ok w).

Definition with_target (t : option (option Page)) (w : Sim) : Sim :=
  mkSim (sim_acts w) (sim_clock w) (sim_visible w) (sim_clickable w)
    (sim_input_ok w) (sim_dom w) (sim_query w) (sim_handle_ok w) (sim_polls w)
    t (sim_browser_ok w).

(** A visible element with the given text and nothing inside. *)
Definition node (id : nat) (text : string) : Elem := {|
  eid := id;
  getAttribute := fun _ => None;
  innerText := text;
  textContent := text;
  className := "";
  elType := "";
  checked := false;
  rectWidth := 10;
  rectHeight := 10;
  cssVisibility := "visible";
  cssDisplay := "block";
  cssOpacity := "1";
  elQuerySelectorAll := fun _ => [];
  closest := fun _ => None
|}.

(** A document that answers the listed selectors and no other. *)
Fixpoint answers (l : list (string * list Elem)) (sel : string) : list Elem :=
  match l with
  | [] => []
  | (k, v) :: l' => if String.eqb k sel then v else answers l' sel
  end.

Definition document (l : list (string * list Elem)) : Dom :=
  mkDom (answers l) (fun _ => None) "".

(** Is the selector one of the given strings. *)
Definition sel_in (l : list string) (s : Sel) : bool :=
  match s with
  | Some t => existsb (String.eqb t) l
  | None => false
  end.

(** An automaton after [init], on page 1. *)
Definition utils0 (site : string) : Utils := mkUtils 1 site.

Definition started (site : string) (w : Sim) : St :=
  mkSt w true (Some 1) (Some (utils0 site)).

End Simulation.

(* ================================================================== *)
(** * Properties *)
(* ================================================================== *)

Section Theory.

Context {W : Type}.
Variable drv : Driver W.



(** ** Weakest preconditions for the statement monad *)

(** [wp m st Q]: running [m] from [st] completes with an outcome, a final
    state and a trace that satisfy [Q]. *)
Definition wp {R L A} (m : M (W:=W) R L A) (st : St)
           (Q : Completion R L A -> St -> list Ev -> Prop) : Prop :=
  Q (outcome (m st)) (post (m st)) (events (m st)).

Definition wpa {A} (f : Async (W:=W) A) (st : St)
           (Q : Promise A -> St -> list Ev -> Prop) : Prop :=
  Q (outcome (f st)) (post (f st)) (events (f st)).

Lemma wpa_elim {A} (f : Async A) st (Q : Promise A -> St -> list Ev -> Prop) :
  wpa f st Q -> Q (outcome (f st)) (post (f st)) (events (f st)).
Proof. unfold wpa. auto. Qed.

Lemma wp_conseq {R L A} (m : M R L A) st (Q Q' : Completion R L A -> St -> list Ev -> Prop) :
  wp m st Q -> (forall o s t, Q o s t -> Q' o s t) -> wp m st Q'.
Proof. unfold wp. auto. Qed.

Lemma wpa_conseq {A} (f : Async A) st (Q Q' : Promise A -> St -> list Ev -> Prop) :
  wpa f st Q -> (forall o s t, Q o s t -> Q' o s t) -> wpa f st Q'.
Proof. unfold wpa. auto. Qed.

Lemma wp_ret {R L A} (a : A) st (Q : Completion R L A -> St -> list Ev -> Prop) :
  Q (Normal a) st [] -> wp (ret a) st Q.
Proof. auto. Qed.

Lemma wp_return {R L A} (v : R) st (Q : Completion R L A -> St -> list Ev -> Prop) :
  Q (Return v) st [] -> wp (return_ v) st Q.
Proof. auto. Qed.

Lemma wp_throw {R L A} e st (Q : Completion R L A -> St -> list Ev -> Prop) :
  Q (Throw e) st [] -> wp (throw e) st Q.
Proof. auto. Qed.

Lemma wp_break {R L A} (l : L) st (Q : Completion R L A -> St -> list Ev -> Prop) :
  Q (Break l) st [] -> wp (break_ l) st Q.
Proof. auto. Qed.

Lemma wp_continue {R L A} (l : L) st (Q : Completion R L A -> St -> list Ev -> Prop) :
  Q (Continue l) st [] -> wp (continue_ l) st Q.
Proof. auto. Qed.

Lemma wp_emit {R L} c st (Q : Completion R L unit -> St -> list Ev -> Prop) :
  Q (Normal tt) st [(c, true)] -> wp (emit c) st Q.
Proof. auto. Qed.

Lemma wp_bind {R L A B} (m : M R L A) (k : A -> M R L B) st
      (Q : Completion R L B -> St -> list Ev -> Prop) :
  wp m st (fun o s t =>
    match o with
    | Normal a => wp (k a) s (fun o' s' t' => Q o' s' (t ++ t'))
    | Return v => Q (Return v) s t
    | Break l => Q (Break l) s t
    | Continue l => Q (Continue l) s t
    | Throw e => Q (Throw e) s t
    | Pending => Q Pending s t
    end) ->
  wp (bind m k) st Q.
Proof.
  unfold wp, bind. destruct (m st) as [[a | v | l | l | e |] s t]; cbn; auto.
Qed.

Lemma wp_try_catch {R L A} (body : M R L A) handler st
      (Q : Completion R L A -> St -> list Ev -> Prop) :
  wp body st (fun o s t =>
    match o with
    | Throw e => wp (handler e) s (fun o' s' t' => Q o' s' (t ++ t'))
    | _ => Q o s t
    end) ->
  wp (try_catch body handler) st Q.
Proof.
  unfold wp, try_catch. destruct (body st) as [[a | v | l | l | e |] s t]; cbn; auto.
Qed.

Lemma wp_try_finally {R L A} (body : M R L A) fin st
      (Q : Completion R L A -> St -> list Ev -> Prop) :
  wp body st (fun o s t =>
    match o with
    | Pending => Q Pending s t
    | _ =>
        wp fin s (fun o' s' t' =>
          match o' with
          | Normal _ => Q o s' (t ++ t')
          | Return v => Q (Return v) s' (t ++ t')
          | Break l => Q (Break l) s' (t ++ t')
          | Continue l => Q (Continue l) s' (t ++ t')
          | Throw e => Q (Throw e) s' (t ++ t')
          | Pending => Q Pending s' (t ++ t')
          end)
    end) ->
  wp (try_finally body fin) st Q.
Proof.
  unfold wp, try_finally.
  destruct (body st) as [[a | v | l | l | e |] s t]; cbn; auto;
    destruct (fin s) as [[a' | v' | l' | l' | e' |] s' t']; cbn; auto.
Qed.

Lemma wp_prim {R L A} c (f : W -> (JsError + A) * W) st
      (Q : Completion R L A -> St -> list Ev -> Prop) :
  (forall a w', f (world st) = (inr a, w') -> Q (Normal a) (set_world st w') [(c, true)]) ->
  (forall e w', f (world st) = (inl e, w') -> Q (Throw e) (set_world st w') [(c, false)]) ->
  wp (prim c f) st Q.
Proof.
  unfold wp, prim. destruct (f (world st)) as [[e | a] w']; cbn; auto.
Qed.

Lemma wp_prim_total {R L A} c (f : W -> A * W) st
      (Q : Completion R L A -> St -> list Ev -> Prop) :
  (forall a w', f (world st) = (a, w') -> Q (Normal a) (set_world st w') [(c, true)]) ->
  wp (prim_total c f) st Q.
Proof.
  unfold wp, prim_total. destruct (f (world st)) as [a w']; cbn; auto.
Qed.

Lemma wp_await {R L A} (f : Async A) st (Q : Completion R L A -> St -> list Ev -> Prop) :
  wpa f st (fun o s t =>
    match o with
    | Resolved a => Q (Normal a) s t
    | Rejected e => Q (Throw e) s t
    | Unsettled => Q Pending s t
    end) ->
  wp (await f) st Q.
Proof.
  unfold wp, wpa, await. destruct (f st) as [[a | e |] s t]; cbn; auto.
Qed.

Lemma wpa_async {R} (body : M R Empty_set R) st (Q : Promise R -> St -> list Ev -> Prop) :
  wp body st (fun o s t =>
    match o with
    | Normal a => Q (Resolved a) s t
    | Return v => Q (Resolved v) s t
    | Break l | Continue l => False
    | Throw e => Q (Rejected e) s t
    | Pending => Q Unsettled s t
    end) ->
  wpa (async body) st Q.
Proof.
  unfold wp, wpa, async.
  destruct (body st) as [[a | v | l | l | e |] s t]; cbn; auto; destruct l.
Qed.

Lemma wp_for_of_nil {R L X T} (s0 : T) (body : X -> T -> M R T T) st
      (Q : Completion R L T -> St -> list Ev -> Prop) :
  Q (Normal s0) st [] -> wp (for_of [] s0 body) st Q.
Proof. auto. Qed.

Lemma wp_for_of_cons {R L X T} x xs (s0 : T) (body : X -> T -> M R T T) st
      (Q : Completion R L T -> St -> list Ev -> Prop) :
  wp (body x s0) st (fun o s t =>
    match o with
    | Normal s' | Continue s' =>
        wp (for_of xs s' body) s (fun o' s1 t' => Q o' s1 (t ++ t'))
    | Break s' => Q (Normal s') s t
    | Return v => Q (Return v) s t
    | Throw e => Q (Throw e) s t
    | Pending => Q Pending s t
    end) ->
  wp (for_of (x :: xs) s0 body) st Q.
Proof.
  unfold wp. cbn [for_of].
  destruct (body x s0 st) as [[a | v | l | l | e |] s t]; cbn; auto.
Qed.

Lemma wp_for_range_O {R L T} from cond (s0 : T) (body : nat -> T -> M R T T) st
      (Q : Completion R L T -> St -> list Ev -> Prop) :
  Q (Normal s0) st [] -> wp (for_range from 0 cond s0 body) st Q.
Proof. auto. Qed.

Lemma wp_for_range_S {R L T} from n cond (s0 : T) (body : nat -> T -> M R T T) st
      (Q : Completion R L T -> St -> list Ev -> Prop) :
  (cond s0 = true ->
     wp (body from s0) st (fun o s t =>
       match o with
       | Normal s' | Continue s' =>
           wp (for_range (S from) n cond s' body) s (fun o' s1 t' => Q o' s1 (t ++ t'))
       | Break s' => Q (Normal s') s t
       | Return v => Q (Return v) s t
       | Throw e => Q (Throw e) s t
       | Pending => Q Pending s t
       end)) ->
  (cond s0 = false -> Q (Normal s0) st []) ->
  wp (for_range from (S n) cond s0 body) st Q.
Proof.
  unfold wp. cbn [for_range]. destruct (cond s0); auto.
  intros H _. specialize (H eq_refl).
  destruct (body from s0 st) as [[a | v | l | l | e |] s t]; cbn; auto.
Qed.

(** One step of symbolic execution. *)
Ltac wp_step :=
  cbv beta iota;
  lazymatch goal with
  | |- wp (bind _ _) _ _ => apply wp_bind
  | |- wp (ret _) _ _ => apply wp_ret
  | |- wp (return_ _) _ _ => apply wp_return
  | |- wp (throw _) _ _ => apply wp_throw
  | |- wp (break_ _) _ _ => apply wp_break
  | |- wp (continue_ _) _ _ => apply wp_continue
  | |- wp (emit _) _ _ => apply wp_emit
  | |- wp (console_log _) _ _ => apply wp_emit
  | |- wp (console_error _) _ _ => apply wp_emit
  | |- wp (log _ _) _ _ => apply wp_emit
  | |- wp (try_catch _ _) _ _ => apply wp_try_catch
  | |- wp (try_finally _ _) _ _ => apply wp_try_finally
  | |- wp (prim _ _) _ _ => apply wp_prim; intros
  | |- wp (prim_total _ _) _ _ => apply wp_prim_total; intros
  | |- wp (await _) _ _ => apply wp_await
  | |- wpa (async _) _ _ => apply wpa_async
  | |- wp (when_ ?c _) _ _ => unfold when_ at 1
  | |- wp (for_of [] _ _) _ _ => apply wp_for_of_nil
  | |- wp (for_of (_ :: _) _ _) _ _ => apply wp_for_of_cons
  | |- wp (for_range _ O _ _ _) _ _ => apply wp_for_range_O
  | |- wp (for_range _ (S _) _ _ _) _ _ => apply wp_for_range_S; intros
  | |- wp (if ?c then _ else _) _ _ => destruct c eqn:?
  | |- wp (match ?x with _ => _ end) _ _ => destruct x eqn:?
  | |- wp (let _ := _ in _) _ _ => cbv zeta
  end.

(** Use the specification [H] of the statement (or call) at the head. *)
Ltac wp_use H :=
  cbv beta iota;
  lazymatch goal with
  | |- wp _ _ _ => eapply wp_conseq; [eapply H | cbv beta]
  | |- wpa _ _ _ => eapply wpa_conseq; [eapply H | cbv beta]
  end.

(** ** Timers and the console *)

Lemma wait_spec (ms : Q) (st : St) :
  wpa (wait drv ms) st (fun o s t =>
    o = Resolved tt /\ s = set_world st (d_wait drv ms (world st))
    /\ t = [(CWait ms, true)]).
Proof. unfold wpa. cbn. auto. Qed.

Lemma wp_wait {R L} ms st (Q : Completion R L unit -> St -> list Ev -> Prop) :
  Q (Normal tt) (set_world st (d_wait drv ms (world st))) [(CWait ms, true)] ->
  wp (await (wait drv ms)) st Q.
Proof. auto. Qed.

(** ** clickElement *)

Lemma clickElement_try_spec u timeout retries attempt selector (st : St) :
  let slice := (timeout / inject_Z (Z.of_nat retries))%Q in
  wp (clickElement_try drv u timeout retries attempt selector) st (fun o _ t =>
    (o = Return true
     /\ t = attempt_succeeds (u_page u) slice retries attempt selector)
    \/ (o = Normal tt
        /\ attempt_fails (u_page u) slice retries attempt selector t)).
Proof.
  intros slice.
  unfold clickElement_try, page_waitForSelector, page_click.
  repeat wp_step; cbn [app].
  - left. split; reflexivity.
  - right. split; [reflexivity | apply click_fails].
  - right. split; [reflexivity | apply wait_fails].
Qed.

Lemma clickElement_sels_spec u timeout retries attempt sels : forall (st : St),
  let slice := (timeout / inject_Z (Z.of_nat retries))%Q in
  wp (for_of (L:=unit) sels tt
        (fun selector _ => clickElement_try drv u timeout retries attempt selector))
     st (fun o _ t =>
    (o = Normal tt
     /\ sels_fail (u_page u) slice retries attempt sels t)
    \/ (exists pre sel rest t0,
          sels = pre ++ sel :: rest
          /\ sels_fail (u_page u) slice retries attempt pre t0
          /\ o = Return true
          /\ t = t0 ++ attempt_succeeds (u_page u) slice retries attempt sel)).
Proof.
  intros st slice. revert st.
  induction sels as [| sel sels IH]; intros st.
  - wp_step. left. split; [reflexivity | constructor].
  - wp_step. wp_use clickElement_try_spec.
    intros o_ s_ ta [[-> ->] | [-> Hf]].
    + right. exists [], sel, sels, []. repeat split. constructor.
    + wp_use IH.
      intros o' s' tb [[-> Hs] | (pre & s & rest & t0 & -> & Hpre & -> & ->)].
      * left. split; [reflexivity | now constructor].
      * right. exists (sel :: pre), s, rest, (ta ++ t0).
        repeat split; [now constructor | now rewrite app_assoc].
Qed.

Lemma clickElement_pass_spec u timeout retries sels attempt (st : St) :
  let slice := (timeout / inject_Z (Z.of_nat retries))%Q in
  wp (clickElement_pass drv u timeout retries sels attempt) st (fun o _ t =>
    (o = Normal tt
     /\ exists t0, sels_fail (u_page u) slice retries attempt sels t0
                   /\ t = t0 ++ pause retries attempt)
    \/ (exists pre sel rest t0,
          sels = pre ++ sel :: rest
          /\ sels_fail (u_page u) slice retries attempt pre t0
          /\ o = Return true
          /\ t = t0 ++ attempt_succeeds (u_page u) slice retries attempt sel)).
Proof.
  intros slice. unfold clickElement_pass.
  wp_step. wp_use clickElement_sels_spec.
  intros o_ s_ ta [[-> Hs] | (pre & s & rest & t0 & -> & Hpre & -> & ->)].
  - unfold when_, pause. destruct (attempt <? retries).
    + apply wp_wait. left. eauto.
    + wp_step. left. eauto.
  - right. exists pre, s, rest, t0. auto.
Qed.

Lemma clickElement_passes_spec u timeout retries sels n : forall from (st : St),
  let slice := (timeout / inject_Z (Z.of_nat retries))%Q in
  wp (for_range (L:=Empty_set) from n (fun _ => true) tt
        (fun attempt _ => clickElement_pass drv u timeout retries sels attempt))
     st (fun o _ t =>
    (o = Normal tt
     /\ passes_fail (u_page u) slice retries sels from n t)
    \/ (exists k pre sel rest t1 t2,
          k < n
          /\ sels = pre ++ sel :: rest
          /\ passes_fail (u_page u) slice retries sels from k t1
          /\ sels_fail (u_page u) slice retries (from + k) pre t2
          /\ o = Return true
          /\ t = t1 ++ t2 ++ attempt_succeeds (u_page u) slice retries (from + k) sel)).
Proof.
  induction n as [| n IH]; intros from st slice.
  - wp_step. left. split; [reflexivity | constructor].
  - wp_step; [| discriminate].
    wp_use clickElement_pass_spec.
    intros o_ s_ ta [[-> (t0 & Hs & ->)] | (pre & s & rest & t0 & Hsels & Hpre & -> & ->)].
    + wp_use IH.
      intros o' s' tb [[-> Hp] | (k & pre & s & rest & t1 & t2 & Hk & Hsels & H1 & H2 & -> & ->)].
      * left. split; [reflexivity |]. rewrite <- app_assoc. now constructor.
      * right. exists (S k), pre, s, rest, (t0 ++ pause retries from ++ t1), t2.
        repeat split; try assumption.
        -- lia.
        -- now constructor.
        -- now rewrite <- plus_n_Sm.
        -- rewrite <- plus_n_Sm, <- !app_assoc. reflexivity.
    + right. exists 0, pre, s, rest, [], t0. rewrite Nat.add_0_r.
      repeat split; try assumption; [lia | constructor].
Qed.

(** [clickElement] never raises; a failure is [R] failed passes over the
    whole list, a success in pass [k] ends the trace with the successful
    attempt of pass [k]. *)
Lemma clickElement_spec u selectors options (st : St) :
  let R := default 3 (opt_retries options) in
  let sels := selectorArray selectors in
  let slice := (default 10000%Q (opt_timeout options) / inject_Z (Z.of_nat R))%Q in
  wpa (clickElement drv u selectors options) st (fun o _ t =>
    match o with
    | Resolved false =>
        exists t0,
          passes_fail (u_page u) slice R sels 1 R t0
          /\ t = t0 ++ [(CConsoleError ("❌ Failed to click any selector after "
                                         ^^ of_nat R ^^ " attempts"), true)]
    | Resolved true =>
        exists k pre sel rest t1 t2,
          1 <= k <= R
          /\ sels = pre ++ sel :: rest
          /\ passes_fail (u_page u) slice R sels 1 (k - 1) t1
          /\ sels_fail (u_page u) slice R k pre t2
          /\ t = t1 ++ t2 ++ attempt_succeeds (u_page u) slice R k sel
    | Rejected _ | Unsettled => False
    end).
Proof.
  intros R sels slice. unfold clickElement. fold R sels.
  wp_step. wp_step.
  wp_use clickElement_passes_spec.
  intros o_ s_ ta [[-> Hp] | (k & pre & s & rest & t1 & t2 & Hk & Hsels & H1 & H2 & -> & ->)].
  - repeat wp_step. eexists. split; [exact Hp | reflexivity].
  - exists (S k), pre, s, rest, t1, t2. cbn [Nat.sub Nat.add] in *.
    rewrite Nat.sub_0_r.
    repeat split; try assumption; lia.
Qed.

Lemma clickElement_settles u selectors options (st : St) :
  wpa (clickElement drv u selectors options) st (fun o _ _ =>
    exists b, o = Resolved b).
Proof.
  wp_use clickElement_spec. intros [[|] | e |]; eauto; tauto.
Qed.

(** ** screenshot *)

(** The console line that follows a capture. *)
Definition screenshot_line (line : Ev) : Prop :=
  (exists file, line = (CConsoleLog ("📸 Screenshot saved: " ^^ file), true))
  \/ (exists msg, line = (CConsoleError ("❌ Failed to take screenshot: " ^^ msg), true)).

Lemma screenshot_settles u name (st : St) :
  wpa (screenshot drv u name) st (fun o s t =>
    (exists path, o = Resolved path)
    /\ this_utils s = this_utils st /\ this_page s = this_page st
    /\ this_browser s = this_browser st
    /\ exists ok line,
         screenshot_line line
         /\ t = [(CDateNow, true); (CScreenshot (u_page u) name, ok); line]).
Proof.
  unfold screenshot. repeat wp_step; cbn [app];
    (split; [eauto | repeat split; try reflexivity]);
    do 2 eexists; (split; [| reflexivity]); [left | right]; eauto.
Qed.

(** ** elementExists *)

Lemma elementExists_spec u selector timeout (st : St) :
  wpa (elementExists drv u selector timeout) st (fun o _ t =>
    exists ok,
      o = Resolved ok
      /\ t = [(CWaitForSelector (u_page u) selector (default 3000%Q timeout) true, ok)]).
Proof.
  unfold elementExists, page_waitForSelector.
  repeat wp_step; cbn [app]; eauto.
Qed.

(** ** waitForSelector *)

Lemma waitForSelector_try_spec u timeout selector (st : St) :
  wp (waitForSelector_try drv u timeout selector) st (fun o _ t =>
    (o = Return selector /\ t = found (u_page u) timeout selector)
    \/ (o = Normal tt /\ t = not_found (u_page u) timeout selector)).
Proof.
  unfold waitForSelector_try, page_waitForSelector.
  repeat wp_step; cbn [app]; [left | right]; split; reflexivity.
Qed.

Lemma waitForSelector_loop_spec u timeout sels : forall (st : St),
  wp (for_of (L:=Empty_set) sels tt (fun selector _ =>
        waitForSelector_try drv u timeout selector)) st (fun o _ t =>
    (o = Normal tt /\ t = flat_map (not_found (u_page u) timeout) sels)
    \/ (exists pre sel rest,
          sels = pre ++ sel :: rest
          /\ o = Return sel
          /\ t = flat_map (not_found (u_page u) timeout) pre
                 ++ found (u_page u) timeout sel)).
Proof.
  induction sels as [| sel sels IH]; intros st.
  - wp_step. left. split; reflexivity.
  - wp_step. wp_use waitForSelector_try_spec.
    intros o_ s_ ta [[-> ->] | [-> ->]].
    + right. exists [], sel, sels. auto.
    + wp_use IH.
      intros o' s' tb [[-> ->] | (pre & s & rest & -> & -> & ->)].
      * left. split; reflexivity.
      * right. exists (sel :: pre), s, rest.
        repeat split.
Qed.

Lemma waitForSelector_spec u selectors timeout (st : St) :
  let sels := selectorArray selectors in
  let q := default 10000%Q timeout in
  wpa (waitForSelector drv u selectors timeout) st (fun o _ t =>
    match o with
    | Resolved sel =>
        exists pre rest,
          sels = pre ++ sel :: rest
          /\ t = flat_map (not_found (u_page u) q) pre ++ found (u_page u) q sel
    | Rejected e =>
        e = mkError ("None of the selectors found: " ^^ join_sels sels)
        /\ t = flat_map (not_found (u_page u) q) sels
    | Unsettled => False
    end).
Proof.
  intros sels q. unfold waitForSelector. fold sels q.
  wp_step. wp_step. wp_use waitForSelector_loop_spec.
  intros o_ s_ ta [[-> ->] | (pre & s & rest & Hs & -> & ->)].
  - wp_step. split; [reflexivity | now rewrite app_nil_r].
  - eauto.
Qed.

(** ** closeModalIfPresent *)

(** The trace of some run of [clickElement] on one selector. *)
Definition click_trace (u : Utils) (sel : Sel) (t : list Ev) : Prop :=
  exists st : St, t = events (clickElement drv u (One sel) no_options st).

Lemma closeModal_probe_spec u sel (st : St) :
  wp (closeModal_probe drv u sel) st (fun o _ t =>
    (o = Normal tt /\ t = [absent (u_page u) sel])
    \/ (exists tc,
          click_trace u sel tc
          /\ o = Return true
          /\ t = [(CWaitForSelector (u_page u) sel 2000 true, true);
                  (CConsoleLog ("🚫 Closing modal with: " ^^ sel_text sel), true)]
                 ++ tc ++ [(CWait 1000, true)])).
Proof.
  unfold closeModal_probe.
  wp_step. wp_step. wp_use elementExists_spec.
  intros o_ s_ ta (ok & -> & ->). destruct ok.
  - wp_step. wp_step. wp_step. wp_step.
    unfold wpa.
    destruct (clickElement_settles u (One sel) no_options s_) as [b Hb].
    rewrite Hb. wp_step. apply wp_wait. wp_step.
    right. exists (events (clickElement drv u (One sel) no_options s_)).
    split; [now exists s_ |]. split; [reflexivity |].
    cbn [app default]. now rewrite <- ?app_assoc.
  - wp_step. left. split; reflexivity.
Qed.

Lemma closeModal_loop_spec u sels : forall (st : St),
  wp (for_of (L:=Empty_set) sels tt (fun selector _ =>
        closeModal_probe drv u selector)) st (fun o _ t =>
    (o = Normal tt /\ t = map (absent (u_page u)) sels)
    \/ (exists pre sel rest tc,
          sels = pre ++ sel :: rest
          /\ click_trace u sel tc
          /\ o = Return true
          /\ t = map (absent (u_page u)) pre
                 ++ [(CWaitForSelector (u_page u) sel 2000 true, true);
                     (CConsoleLog ("🚫 Closing modal with: " ^^ sel_text sel), true)]
                 ++ tc ++ [(CWait 1000, true)])).
Proof.
  induction sels as [| sel sels IH]; intros st.
  - wp_step. left. split; reflexivity.
  - wp_step. wp_use closeModal_probe_spec.
    intros o_ s_ ta [[-> ->] | (tc & Hc & -> & ->)].
    + wp_use IH.
      intros o' s' tb [[-> ->] | (pre & s & rest & tc & -> & Hc & -> & ->)].
      * left. split; reflexivity.
      * right. exists (sel :: pre), s, rest, tc. auto.
    + right. exists [], sel, sels, tc. auto.
Qed.

Lemma closeModalIfPresent_spec u selectors (st : St) :
  let sels := selectorArray selectors in
  let p := u_page u in
  wpa (closeModalIfPresent drv u selectors) st (fun o _ t =>
    match o with
    | Resolved true =>
        t = map (absent p) sels ++ escape_pressed p
        \/ exists pre sel rest tc,
             sels = pre ++ sel :: rest
             /\ click_trace u sel tc
             /\ t = map (absent p) pre
                    ++ [(CWaitForSelector p sel 2000 true, true);
                        (CConsoleLog ("🚫 Closing modal with: " ^^ sel_text sel), true)]
                    ++ tc ++ [(CWait 1000, true)]
    | Resolved false =>
        t = map (absent p) sels ++ [(CKeyPress p "Escape", false)]
    | Rejected _ | Unsettled => False
    end).
Proof.
  intros sels p. unfold closeModalIfPresent. fold sels.
  wp_step. wp_step. wp_use closeModal_loop_spec.
  intros o_ s_ ta [[-> ->] | (pre & s & rest & tc & Hs & Hc & -> & ->)].
  - unfold closeModal_escape, keyboard_press.
    wp_step. wp_step. wp_step.
    + wp_step. apply wp_wait. repeat wp_step. left. reflexivity.
    + wp_step. reflexivity.
  - right. exists pre, s, rest, tc. auto.
Qed.

(** ** Reading the traces of [clickElement] *)

Lemma probes_app (t1 t2 : list Ev) : probes (t1 ++ t2) = probes t1 ++ probes t2.
Proof.
  induction t1 as [| [c ok] t1 IH]; [reflexivity |].
  destruct c; cbn; rewrite ?IH; reflexivity.
Qed.

Lemma budgets_app (t1 t2 : list Ev) : budgets (t1 ++ t2) = budgets t1 ++ budgets t2.
Proof.
  induction t1 as [| [c ok] t1 IH]; [reflexivity |].
  destruct c; cbn; rewrite ?IH; reflexivity.
Qed.

Lemma clicks_app (t1 t2 : list Ev) : clicks (t1 ++ t2) = clicks t1 ++ clicks t2.
Proof.
  induction t1 as [| [c ok] t1 IH]; [reflexivity |].
  destruct c; cbn; rewrite ?IH; reflexivity.
Qed.

Section ClickTraces.

Variables (p : Page) (slice : Q) (R : nat).

Lemma attempt_fails_reading k sel t :
  attempt_fails p slice R k sel t ->
  map fst (probes t) = [sel] /\ budgets t = [slice]
  /\ Forall (fun c => snd c = false) (clicks t).
Proof.
  intros [msg | msg]; cbn; repeat split; repeat constructor.
Qed.

Lemma sels_fail_reading k sels t :
  sels_fail p slice R k sels t ->
  map fst (probes t) = sels /\ budgets t = repeat slice (length sels)
  /\ Forall (fun c => snd c = false) (clicks t).
Proof.
  induction 1 as [| sel sels t1 t2 H1 H2 (IHp & IHb & IHc)].
  - repeat split. constructor.
  - apply attempt_fails_reading in H1. destruct H1 as (Hp & Hb & Hc).
    rewrite probes_app, budgets_app, clicks_app, map_app, Hp, Hb, IHp, IHb.
    repeat split. apply Forall_app. auto.
Qed.

Lemma pause_reading k :
  probes (pause R k) = [] /\ budgets (pause R k) = [] /\ clicks (pause R k) = [].
Proof. unfold pause. destruct (k <? R); repeat split. Qed.

Lemma passes_fail_reading sels from n t :
  passes_fail p slice R sels from n t ->
  map fst (probes t) = concat (repeat sels n)
  /\ budgets t = repeat slice (n * length sels)
  /\ Forall (fun c => snd c = false) (clicks t).
Proof.
  induction 1 as [| from n t1 t2 H1 H2 (IHp & IHb & IHc)].
  - repeat split. constructor.
  - apply sels_fail_reading in H1. destruct H1 as (Hp & Hb & Hc).
    destruct (pause_reading from) as (Pp & Pb & Pc).
    rewrite !probes_app, !budgets_app, !clicks_app, !map_app.
    rewrite Pp, Pb, Pc, Hp, Hb, IHp, IHb. cbn [map app concat repeat Nat.mul].
    rewrite repeat_app. repeat split. apply Forall_app. auto.
Qed.

Lemma attempt_succeeds_reading k sel :
  probes (attempt_succeeds p slice R k sel) = [(sel, true)]
  /\ budgets (attempt_succeeds p slice R k sel) = [slice]
  /\ clicks (attempt_succeeds p slice R k sel) = [(sel, true)].
Proof. repeat split. Qed.

End ClickTraces.

(** The waits of [n] slices add up to [n] times the slice. *)
Lemma Qsum_repeat (q : Q) (n : nat) :
  (Qsum (repeat q n) == inject_Z (Z.of_nat n) * q)%Q.
Proof.
  induction n as [| n IH].
  - cbn. ring.
  - cbn [repeat Qsum fold_right]. fold (Qsum (repeat q n)). rewrite IH.
    rewrite Nat2Z.inj_succ. unfold Z.succ. rewrite inject_Z_plus. ring.
Qed.

Lemma probes_not_found p q (sels : list Sel) :
  probes (flat_map (not_found p q) sels) = map failed sels.
Proof.
  induction sels as [| s sels IH]; [reflexivity |].
  cbn [flat_map]. rewrite probes_app, IH. reflexivity.
Qed.

(** ** Retry accounting of [clickElement] *)

(** C3 (amended).  [clickElement] with retry count [R] and selector list
    [S] hands every per-selector visibility wait the slice [timeout / R]
    (the [R * |S|] waits of a failing call add up to [R * |S|] slices, not
    to [timeout]).  When every attempt fails it performs exactly [R] full
    passes over the whole list and resolves to [false] without raising;
    when the first successful attempt is in pass [k] it resolves to
    [true], the trace ending with that attempt, whose console line
    reports attempt [k] of [R]. *)
Theorem clickElement_retry_accounting u selectors options (st : St) :
  let R := default 3 (opt_retries options) in
  let sels := selectorArray selectors in
  let slice := (default 10000%Q (opt_timeout options) / inject_Z (Z.of_nat R))%Q in
  let r := clickElement drv u selectors options st in
  match outcome r with
  | Resolved false =>
      (exists t0,
          passes_fail (u_page u) slice R sels 1 R t0
          /\ events r = t0 ++ [(CConsoleError ("❌ Failed to click any selector after "
                                                ^^ of_nat R ^^ " attempts"), true)])
      /\ map fst (probes (events r)) = concat (repeat sels R)
      /\ budgets (events r) = repeat slice (R * length sels)
      /\ (Qsum (budgets (events r)) == inject_Z (Z.of_nat (R * length sels)) * slice)%Q
  | Resolved true =>
      exists k pre sel rest t1 t2,
        1 <= k <= R
        /\ sels = pre ++ sel :: rest
        /\ passes_fail (u_page u) slice R sels 1 (k - 1) t1
        /\ sels_fail (u_page u) slice R k pre t2
        /\ events r = t1 ++ t2 ++ attempt_succeeds (u_page u) slice R k sel
        /\ map fst (probes (events r)) = concat (repeat sels (k - 1)) ++ pre ++ [sel]
        /\ budgets (events r) = repeat slice ((k - 1) * length sels + length pre + 1)
  | Rejected _ | Unsettled => False
  end.
Proof.
  intros R sels slice r.
  pose proof (clickElement_spec u selectors options st) as H.
  unfold wpa in H. cbv zeta in H. fold R sels slice r in H.
  destruct (outcome r) as [[|] | e |]; try exact H.
  - destruct H as (k & pre & sel & rest & t1 & t2 & Hk & Hs & H1 & H2 & He).
    exists k, pre, sel, rest, t1, t2.
    apply passes_fail_reading in H1 as H1'. destruct H1' as (P1 & B1 & _).
    apply sels_fail_reading in H2 as H2'. destruct H2' as (P2 & B2 & _).
    repeat split; try assumption; try lia; rewrite He.
    + rewrite !probes_app, !map_app, P1, P2. reflexivity.
    + destruct (attempt_succeeds_reading (u_page u) slice R k sel) as (_ & Bs & _).
      rewrite !budgets_app, B1, B2, Bs. change [slice] with (repeat slice 1).
      rewrite <- !repeat_app. f_equal. lia.
  - destruct H as (t0 & H1 & He).
    apply passes_fail_reading in H1 as H1'. destruct H1' as (P1 & B1 & _).
    assert (Hb : budgets (events r) = repeat slice (R * length sels)).
    { rewrite He, budgets_app, B1. cbn. now rewrite app_nil_r. }
    repeat split.
    + eauto.
    + rewrite He, probes_app, map_app, P1. cbn. now rewrite app_nil_r.
    + exact Hb.
    + rewrite Hb. apply Qsum_repeat.
Qed.

(** ** Selector fallback order *)

(** C6 (amended).  Both primitives probe the selectors in list order, each
    with its own visibility wait.  [waitForSelector] stops at the first
    selector that resolves to a visible element and returns that selector;
    nothing is probed after it.  [clickElement] returns a boolean; it
    stops at the first selector whose visibility wait and click both
    succeed, every click before it having failed, and nothing is probed
    after it. *)
Theorem selector_fallback_order u selectors timeout options (st : St) :
  let sels := selectorArray selectors in
  let R := default 3 (opt_retries options) in
  let rw := waitForSelector drv u selectors timeout st in
  let rc := clickElement drv u selectors options st in
  match outcome rw with
  | Resolved sel =>
      exists pre rest,
        sels = pre ++ sel :: rest
        /\ probes (events rw) = map failed pre ++ [(sel, true)]
  | Rejected _ => probes (events rw) = map failed sels
  | Unsettled => False
  end
  /\
  match outcome rc with
  | Resolved true =>
      exists k pre sel rest ps cs,
        1 <= k <= R
        /\ sels = pre ++ sel :: rest
        /\ map fst (probes (events rc)) = concat (repeat sels (k - 1)) ++ pre ++ [sel]
        /\ probes (events rc) = ps ++ [(sel, true)]
        /\ clicks (events rc) = cs ++ [(sel, true)]
        /\ Forall (fun c => snd c = false) cs
  | Resolved false =>
      map fst (probes (events rc)) = concat (repeat sels R)
      /\ Forall (fun c => snd c = false) (clicks (events rc))
  | Rejected _ | Unsettled => False
  end.
Proof.
  intros sels R rw rc. split.
  - pose proof (waitForSelector_spec u selectors timeout st) as H.
    unfold wpa in H. cbv zeta in H. fold sels rw in H.
    destruct (outcome rw) as [sel | e |]; try exact H.
    + destruct H as (pre & rest & Hs & He). exists pre, rest.
      split; [exact Hs |]. rewrite He, probes_app, probes_not_found. reflexivity.
    + destruct H as [_ He]. rewrite He. apply probes_not_found.
  - pose proof (clickElement_spec u selectors options st) as H.
    unfold wpa in H. cbv zeta in H. fold R sels rc in H.
    destruct (outcome rc) as [[|] | e |]; try exact H.
    + destruct H as (k & pre & sel & rest & t1 & t2 & Hk & Hs & H1 & H2 & He).
      apply passes_fail_reading in H1. destruct H1 as (P1 & _ & C1).
      apply sels_fail_reading in H2. destruct H2 as (P2 & _ & C2).
      exists k, pre, sel, rest, (probes t1 ++ probes t2), (clicks t1 ++ clicks t2).
      destruct (attempt_succeeds_reading (u_page u)
                  (default 10000%Q (opt_timeout options) / inject_Z (Z.of_nat R))%Q
                  R k sel) as (Ps & _ & Cs).
      repeat split; try assumption; try lia; try rewrite He.
      * rewrite !probes_app, !map_app, P1, P2, Ps. reflexivity.
      * rewrite !probes_app, Ps, <- app_assoc. reflexivity.
      * rewrite !clicks_app, Cs, <- app_assoc. reflexivity.
      * apply Forall_app. auto.
    + destruct H as (t0 & H1 & He).
      apply passes_fail_reading in H1. destruct H1 as (P1 & _ & C1).
      rewrite He, probes_app, clicks_app, map_app, P1. cbn.
      rewrite !app_nil_r. auto.
Qed.

(** ** The Escape fallback of [closeModalIfPresent] *)

(** No selector of the list matches: probed one after the other from
    the world [w], every visibility wait of 2000 ms fails; [w'] is the
    world the waits leave. *)
Fixpoint none_match (p : Page) (sels : list Sel) (w w' : W) : Prop :=
  match sels with
  | [] => w' = w
  | sel :: rest =>
      exists e w1,
        d_waitForSelector drv p sel 2000 true w = (inl e, w1)
        /\ none_match p rest w1 w'
  end.

Lemma none_match_det p sels : forall w w1 w2,
  none_match p sels w w1 -> none_match p sels w w2 -> w1 = w2.
Proof.
  induction sels as [| sel sels IH]; intros w w1 w2; cbn [none_match].
  - congruence.
  - intros (e & wa & Ha & H1) (e' & wb & Hb & H2).
    rewrite Ha in Hb. injection Hb as _ <-. eauto.
Qed.

Lemma none_match_found p pre sel rest : forall w w1 w2 w',
  none_match p pre w w1 ->
  d_waitForSelector drv p sel 2000 true w1 = (inr tt, w2) ->
  none_match p (pre ++ sel :: rest) w w' -> False.
Proof.
  induction pre as [| x pre IH]; intros w w1 w2 w'; cbn [none_match app].
  - intros -> Hf (e & wa & Ha & _). rewrite Hf in Ha. discriminate Ha.
  - intros (e & wa & Ha & H1) Hf (e' & wb & Hb & H2).
    rewrite Ha in Hb. injection Hb as _ <-. eauto.
Qed.

Lemma elementExists_run u sel timeout (st : St) :
  wpa (elementExists drv u sel timeout) st (fun o s t =>
    let t0 := default 3000%Q timeout in
    match d_waitForSelector drv (u_page u) sel t0 true (world st) with
    | (inr _, w1) =>
        o = Resolved true /\ s = set_world st w1
        /\ t = [(CWaitForSelector (u_page u) sel t0 true, true)]
    | (inl _, w1) =>
        o = Resolved false /\ s = set_world st w1
        /\ t = [(CWaitForSelector (u_page u) sel t0 true, false)]
    end).
Proof.
  unfold elementExists, page_waitForSelector.
  repeat wp_step; cbn [app]; cbv zeta;
    match goal with H : _ = (_, _) |- _ => rewrite H end; auto.
Qed.

Lemma closeModal_loop_run u sels : forall (st : St),
  wp (for_of (L:=Empty_set) sels tt (fun selector _ =>
        closeModal_probe drv u selector)) st (fun o s t =>
    (o = Normal tt /\ t = map (absent (u_page u)) sels
     /\ exists w', none_match (u_page u) sels (world st) w' /\ s = set_world st w')
    \/ (o = Return true
        /\ exists pre sel rest w1 w2,
             sels = pre ++ sel :: rest
             /\ none_match (u_page u) pre (world st) w1
             /\ d_waitForSelector drv (u_page u) sel 2000 true w1 = (inr tt, w2))).
Proof.
  induction sels as [| sel sels IH]; intros st.
  - wp_step. left. split; [reflexivity |]. split; [reflexivity |].
    exists (world st). split; [reflexivity | destruct st; reflexivity].
  - wp_step. unfold closeModal_probe. wp_step. wp_step.
    wp_use elementExists_run. intros o_ s_ ta H. cbv zeta in H. cbn [default] in H.
    destruct (d_waitForSelector drv (u_page u) sel 2000 true (world st))
      as [[e | []] w1] eqn:Hw; destruct H as (-> & -> & ->).
    + wp_step. wp_use IH.
      intros o' s' tb [(-> & -> & w' & Hn & ->) | (-> & pre & x & rest & wa & wb & -> & Hn & Hx)].
      * left. split; [reflexivity |]. split; [reflexivity |].
        exists w'. split; [| reflexivity]. cbn [none_match]. eauto.
      * right. split; [reflexivity |]. exists (sel :: pre), x, rest, wa, wb.
        split; [reflexivity |]. split; [| exact Hx]. cbn [none_match]. eauto.
    + wp_step. wp_step. wp_step. wp_step. unfold wpa.
      destruct (clickElement_settles u (One sel) no_options (set_world st w1)) as [b Hb].
      rewrite Hb. wp_step. apply wp_wait. wp_step.
      right. split; [reflexivity |]. exists [], sel, sels, (world st), w1.
      split; [reflexivity |]. split; [reflexivity | exact Hw].
Qed.

(** One run of [closeModalIfPresent], by what the driver answers. *)
Lemma closeModalIfPresent_run u selectors (st : St) :
  let sels := selectorArray selectors in
  let p := u_page u in
  wpa (closeModalIfPresent drv u selectors) st (fun o s t =>
    (exists w',
        none_match p sels (world st) w'
        /\ match d_keyPress drv p "Escape" w' with
           | (inr _, w2) =>
               o = Resolved true
               /\ t = map (absent p) sels ++ escape_pressed p
               /\ s = set_world st (d_wait drv 500 w2)
           | (inl _, w2) =>
               o = Resolved false
               /\ t = map (absent p) sels ++ [(CKeyPress p "Escape", false)]
               /\ s = set_world st w2
           end)
    \/ (o = Resolved true
        /\ exists pre sel rest w1 w2,
             sels = pre ++ sel :: rest
             /\ none_match p pre (world st) w1
             /\ d_waitForSelector drv p sel 2000 true w1 = (inr tt, w2))).
Proof.
  intros sels p. unfold closeModalIfPresent. fold sels.
  wp_step. wp_step. wp_use closeModal_loop_run.
  intros o_ s_ ta [(-> & -> & w' & Hn & ->) | (-> & Hfound)].
  - unfold closeModal_escape, keyboard_press.
    wp_step. wp_step. wp_step.
    + wp_step. apply wp_wait. repeat wp_step.
      left. exists w'. split; [exact Hn |].
      cbn [world set_world] in *. unfold p.
      match goal with H : _ = (_, _) |- _ => rewrite H end. auto.
    + wp_step. left. exists w'. split; [exact Hn |].
      cbn [world set_world] in *. unfold p.
      match goal with H : _ = (_, _) |- _ => rewrite H end. auto.
  - right. split; [reflexivity | exact Hfound].
Qed.

(** C10.  [closeModalIfPresent] never raises.  When none of the supplied
    selectors matches (every probe fails), it presses Escape, and the key
    press alone decides: when it goes through, the function waits 500 ms,
    logs that Escape was pressed and resolves to [true], although nothing
    was found or closed; when it throws, the function resolves to
    [false].  It resolves to [false] in no other case: only when no
    selector matched and the Escape key press threw. *)
Theorem closeModalIfPresent_escape_fallback u selectors (st : St) :
  let sels := selectorArray selectors in
  let p := u_page u in
  let r := closeModalIfPresent drv u selectors st in
  (exists b, outcome r = Resolved b)
  /\ (forall w',
        none_match p sels (world st) w' ->
        match d_keyPress drv p "Escape" w' with
        | (inr _, w2) =>
            outcome r = Resolved true
            /\ events r = map (absent p) sels ++ escape_pressed p
            /\ post r = set_world st (d_wait drv 500 w2)
        | (inl _, w2) =>
            outcome r = Resolved false
            /\ events r = map (absent p) sels ++ [(CKeyPress p "Escape", false)]
            /\ post r = set_world st w2
        end)
  /\ (outcome r = Resolved false ->
        exists w' e w2,
          none_match p sels (world st) w'
          /\ d_keyPress drv p "Escape" w' = (inl e, w2))
  /\ match outcome r with
     | Resolved true =>
         (* no selector matched, Escape pressed *)
         events r = map (absent p) sels ++ escape_pressed p
         (* or a selector matched and was clicked *)
         \/ exists pre sel rest tc,
              sels = pre ++ sel :: rest
              /\ click_trace u sel tc
              /\ events r = map (absent p) pre
                   ++ [(CWaitForSelector p sel 2000 true, true);
                       (CConsoleLog ("🚫 Closing modal with: " ^^ sel_text sel), true)]
                   ++ tc ++ [(CWait 1000, true)]
     | Resolved false =>
         events r = map (absent p) sels ++ [(CKeyPress p "Escape", false)]
     | Rejected _ | Unsettled => False
     end.
Proof.
  intros sels p r.
  pose proof (closeModalIfPresent_run u selectors st) as H.
  unfold wpa in H. cbv zeta in H. fold sels p r in H.
  split; [| split; [| split]].
  - destruct H as [(w' & _ & H) | (Ho & _)]; [| eauto].
    destruct (d_keyPress drv p "Escape" w') as [[e | a] w2]; destruct H as [Ho _]; eauto.
  - intros w' Hn. destruct H as [(w'' & Hn' & H) | (_ & pre & sel & rest & w1 & w2 & Hs & Hp & Hf)].
    + rewrite (none_match_det p sels _ _ _ Hn Hn'). exact H.
    + exfalso. rewrite Hs in Hn. exact (none_match_found p pre sel rest _ _ _ _ Hp Hf Hn).
  - intros Hfalse. destruct H as [(w' & Hn & H) | (Ho & _)]; [| congruence].
    destruct (d_keyPress drv p "Escape" w') as [[e | a] w2] eqn:Hk.
    + exists w', e, w2. auto.
    + destruct H as [Ho _]. congruence.
  - pose proof (closeModalIfPresent_spec u selectors st) as H'.
    unfold wpa in H'. exact H'.
Qed.

(** The automaton's own fields, untouched by the driver. *)
Definition fields (st : St (W:=W)) : option Utils * option Page * bool :=
  (this_utils st, this_page st, this_browser st).

Definition any_event : Ev -> Prop := fun _ => True.

(** ** Structural invariants of statements *)

(** [inv P f m]: whatever the driver answers, [m] only emits events that
    satisfy [P] and leaves the projection [f] of the automaton's fields
    as it was. *)
Section Invariants.

Context {X : Type}.
Variable P : Ev -> Prop.
Variable f : St (W:=W) -> X.
Hypothesis f_world : forall st w, f (set_world st w) = f st.

Definition inv {R L A} (m : M R L A) : Prop :=
  forall st, Forall P (events (m st)) /\ f (post (m st)) = f st.

Definition inva {A} (m : Async A) : Prop :=
  forall st, Forall P (events (m st)) /\ f (post (m st)) = f st.

Lemma inv_ret {R L A} (a : A) : inv (R:=R) (L:=L) (ret a).
Proof. intros st. split; [constructor | reflexivity]. Qed.

Lemma inv_return {R L A} (v : R) : inv (L:=L) (A:=A) (return_ v).
Proof. intros st. split; [constructor | reflexivity]. Qed.

Lemma inv_throw {R L A} e : inv (R:=R) (L:=L) (A:=A) (throw e).
Proof. intros st. split; [constructor | reflexivity]. Qed.

Lemma inv_break {R L A} (l : L) : inv (R:=R) (A:=A) (break_ l).
Proof. intros st. split; [constructor | reflexivity]. Qed.

Lemma inv_continue {R L A} (l : L) : inv (R:=R) (A:=A) (continue_ l).
Proof. intros st. split; [constructor | reflexivity]. Qed.

Lemma inv_emit {R L} c : P (c, true) -> inv (R:=R) (L:=L) (emit c).
Proof. intros H st. split; [repeat constructor; exact H | reflexivity]. Qed.

Lemma inv_prim {R L A} c (g : W -> (JsError + A) * W) :
  P (c, true) -> P (c, false) -> inv (R:=R) (L:=L) (prim c g).
Proof.
  intros Ht Hf st. unfold prim.
  destruct (g (world st)) as [[e | a] w']; cbn;
    (split; [repeat constructor; assumption | apply f_world]).
Qed.

Lemma inv_prim_total {R L A} c (g : W -> A * W) :
  P (c, true) -> inv (R:=R) (L:=L) (prim_total c g).
Proof.
  intros Ht st. unfold prim_total.
  destruct (g (world st)) as [a w']; cbn.
  split; [repeat constructor; assumption | apply f_world].
Qed.

Lemma inv_bind {R L A B} (m : M R L A) (k : A -> M R L B) :
  inv m -> (forall a, inv (k a)) -> inv (bind m k).
Proof.
  intros Hm Hk st. unfold bind. destruct (Hm st) as [He Hf].
  destruct (outcome (m st)) as [a | v | l | l | e |]; cbn; auto.
  destruct (Hk a (post (m st))) as [He' Hf'].
  split; [apply Forall_app; auto | congruence].
Qed.

Lemma inv_try_catch {R L A} (body : M R L A) handler :
  inv body -> (forall e, inv (handler e)) -> inv (try_catch body handler).
Proof.
  intros Hm Hk st. unfold try_catch. destruct (Hm st) as [He Hf].
  destruct (outcome (body st)) as [a | v | l | l | e |]; cbn; auto.
  destruct (Hk e (post (body st))) as [He' Hf'].
  split; [apply Forall_app; auto | congruence].
Qed.

Lemma inv_try_finally {R L A} (body : M R L A) fin :
  inv body -> inv fin -> inv (try_finally body fin).
Proof.
  intros Hm Hk st. unfold try_finally. destruct (Hm st) as [He Hf].
  destruct (Hk (post (body st))) as [He' Hf'].
  destruct (outcome (body st)) as [a | v | l | l | e |]; cbn; auto;
    destruct (outcome (fin (post (body st)))) as [a' | v' | l' | l' | e' |]; cbn;
    (split; [apply Forall_app; auto | congruence]).
Qed.

Lemma inv_for_of {R L Y T} (xs : list Y) (body : Y -> T -> M R T T) :
  (forall x s, inv (body x s)) -> forall s, inv (L:=L) (for_of xs s body).
Proof.
  intros Hb. induction xs as [| x xs IH]; intros s st.
  - split; [constructor | reflexivity].
  - cbn [for_of]. destruct (Hb x s st) as [He Hf].
    destruct (outcome (body x s st)) as [a | v | l | l | e |]; cbn; auto;
      match goal with
      | |- context [for_of xs ?s' body ?st'] =>
          destruct (IH s' st') as [He' Hf'];
          split; [apply Forall_app; auto | congruence]
      end.
Qed.

Lemma inv_for_range {R L T} n (cond : T -> bool) (body : nat -> T -> M R T T) :
  (forall i s, inv (body i s)) ->
  forall from s, inv (L:=L) (for_range from n cond s body).
Proof.
  intros Hb. induction n as [| n IH]; intros from s st.
  - split; [constructor | reflexivity].
  - cbn [for_range]. destruct (cond s); [| split; [constructor | reflexivity]].
    destruct (Hb from s st) as [He Hf].
    destruct (outcome (body from s st)) as [a | v | l | l | e |]; cbn; auto;
      match goal with
      | |- context [for_range _ n cond ?s' body ?st'] =>
          destruct (IH (S from) s' st') as [He' Hf'];
          split; [apply Forall_app; auto | congruence]
      end.
Qed.

Lemma inv_await {R L A} (m : Async A) : inva m -> inv (R:=R) (L:=L) (await m).
Proof.
  intros Hm st. unfold await. destruct (Hm st) as [He Hf].
  destruct (outcome (m st)); cbn; auto.
Qed.

Lemma inva_async {R} (body : M R Empty_set R) : inv body -> inva (async body).
Proof.
  intros Hm st. unfold async. destruct (Hm st) as [He Hf].
  destruct (outcome (body st)) as [a | v | l | l | e |]; cbn; auto; destruct l.
Qed.

Lemma inv_when {R L} (c : bool) (m : M R L unit) : inv m -> inv (when_ c m).
Proof. intros Hm. destruct c; [exact Hm | apply inv_ret]. Qed.

Lemma inv_this_page {R L} : inv (R:=R) (L:=L) this_page_.
Proof.
  intros st. unfold this_page_. destruct (this_page st); cbn;
    (split; [constructor | reflexivity]).
Qed.

Lemma inv_this_utils {R L} : inv (R:=R) (L:=L) this_utils_.
Proof.
  intros st. unfold this_utils_. destruct (this_utils st); cbn;
    (split; [constructor | reflexivity]).
Qed.

Lemma inv_set_this_page {R L} p :
  (forall st, f (mkSt (world st) (this_browser st) p (this_utils st)) = f st) ->
  inv (R:=R) (L:=L) (set_this_page p).
Proof. intros H st. split; [constructor | apply H]. Qed.

End Invariants.

(** [ctl Q m]: [m] always completes (no await on a promise that never
    settles), and when it returns from the enclosing function the value
    returned satisfies [Q]. *)
Definition ctl {R L A} (Q : R -> Prop) (m : M (W:=W) R L A) : Prop :=
  forall st,
    match outcome (m st) with
    | Return v => Q v
    | Pending => False
    | _ => True
    end.

Definition calma {A} (m : Async (W:=W) A) : Prop :=
  forall st, outcome (m st) <> Unsettled.

Section Control.

Context {R : Type}.
Variable Q : R -> Prop.

Lemma ctl_ret {L A} (a : A) : ctl (L:=L) Q (ret a).
Proof. intros st. exact I. Qed.

Lemma ctl_return {L A} (v : R) : Q v -> ctl (L:=L) (A:=A) Q (return_ v).
Proof. intros H st. exact H. Qed.

Lemma ctl_throw {L A} e : ctl (L:=L) (A:=A) Q (throw e).
Proof. intros st. exact I. Qed.

Lemma ctl_break {L A} (l : L) : ctl (A:=A) Q (break_ l).
Proof. intros st. exact I. Qed.

Lemma ctl_continue {L A} (l : L) : ctl (A:=A) Q (continue_ l).
Proof. intros st. exact I. Qed.

Lemma ctl_emit {L} c : ctl (L:=L) Q (emit c).
Proof. intros st. exact I. Qed.

Lemma ctl_prim {L A} c (g : W -> (JsError + A) * W) : ctl (L:=L) Q (prim c g).
Proof.
  intros st. unfold prim. destruct (g (world st)) as [[e | a] w']; exact I.
Qed.

Lemma ctl_prim_total {L A} c (g : W -> A * W) : ctl (L:=L) Q (prim_total c g).
Proof.
  intros st. unfold prim_total. destruct (g (world st)) as [a w']; exact I.
Qed.

Lemma ctl_bind {L A B} (m : M R L A) (k : A -> M R L B) :
  ctl Q m -> (forall a, ctl Q (k a)) -> ctl Q (bind m k).
Proof.
  intros Hm Hk st. unfold bind. specialize (Hm st).
  destruct (outcome (m st)) as [a | v | l | l | e |]; cbn; auto.
  apply Hk.
Qed.

Lemma ctl_try_catch {L A} (body : M R L A) handler :
  ctl Q body -> (forall e, ctl Q (handler e)) -> ctl Q (try_catch body handler).
Proof.
  intros Hm Hk st. unfold try_catch. specialize (Hm st).
  destruct (outcome (body st)) as [a | v | l | l | e |] eqn:Ho; cbn;
    rewrite ?Ho; auto.
  apply Hk.
Qed.

Lemma ctl_try_finally {L A} (body : M R L A) fin :
  ctl Q body -> ctl Q fin -> ctl Q (try_finally body fin).
Proof.
  intros Hm Hk st. unfold try_finally. specialize (Hm st).
  specialize (Hk (post (body st))).
  destruct (outcome (body st)) as [a | v | l | l | e |]; cbn; try contradiction;
    destruct (outcome (fin (post (body st)))) as [a' | v' | l' | l' | e' |]; cbn;
    auto.
Qed.

Lemma ctl_for_of {L Y T} (xs : list Y) (body : Y -> T -> M R T T) :
  (forall x s, ctl Q (body x s)) -> forall s, ctl (L:=L) Q (for_of xs s body).
Proof.
  intros Hb. induction xs as [| x xs IH]; intros s st.
  - exact I.
  - cbn [for_of]. specialize (Hb x s st).
    destruct (outcome (body x s st)) as [a | v | l | l | e |]; cbn; auto;
      apply IH.
Qed.

Lemma ctl_for_range {L T} n (cond : T -> bool) (body : nat -> T -> M R T T) :
  (forall i s, ctl Q (body i s)) ->
  forall from s, ctl (L:=L) Q (for_range from n cond s body).
Proof.
  intros Hb. induction n as [| n IH]; intros from s st.
  - exact I.
  - cbn [for_range]. destruct (cond s); [| exact I].
    specialize (Hb from s st).
    destruct (outcome (body from s st)) as [a | v | l | l | e |]; cbn; auto;
      apply IH.
Qed.

Lemma ctl_await {L A} (m : Async A) : calma m -> ctl (L:=L) Q (await m).
Proof.
  intros Hm st. unfold await. specialize (Hm st).
  destruct (outcome (m st)); cbn; auto.
Qed.

Lemma ctl_when {L} (c : bool) (m : M R L unit) : ctl Q m -> ctl Q (when_ c m).
Proof. intros Hm. destruct c; [exact Hm | apply ctl_ret]. Qed.

Lemma ctl_this_page {L} : ctl (L:=L) Q this_page_.
Proof. intros st. unfold this_page_. destruct (this_page st); exact I. Qed.

Lemma ctl_this_utils {L} : ctl (L:=L) Q this_utils_.
Proof. intros st. unfold this_utils_. destruct (this_utils st); exact I. Qed.

Lemma ctl_set_this_page {L} p : ctl (L:=L) Q (set_this_page p).
Proof. intros st. exact I. Qed.

Lemma ctl_poll {L} p script pred n : ctl (L:=L) Q (poll drv p script pred n).
Proof.
  induction n as [| n IH]; cbn [poll].
  - apply ctl_throw.
  - apply ctl_bind; [apply ctl_prim |].
    intros d. destruct (pred d); [apply ctl_ret | exact IH].
Qed.

End Control.

Lemma calma_async {R} (body : M R Empty_set R) :
  ctl (fun _ => True) body -> calma (async body).
Proof.
  intros Hm st. unfold async. specialize (Hm st).
  destruct (outcome (body st)) as [a | v | l | l | e |]; cbn;
    try discriminate; try contradiction; destruct l.
Qed.

Lemma inv_poll {X} (P : Ev -> Prop) (f : St -> X)
      (f_world : forall st w, f (set_world st w) = f st) {R L} p script pred n :
  P (CSnapshot p script, true) -> P (CSnapshot p script, false) ->
  inv P f (R:=R) (L:=L) (poll drv p script pred n).
Proof.
  intros Ht Hf. induction n as [| n IH]; cbn [poll].
  - apply inv_throw.
  - apply inv_bind; [apply inv_prim; assumption |].
    intros d. destruct (pred d); [apply inv_ret | exact IH].
Qed.

Lemma inv_uwait_optional {X} (P : Ev -> Prop) (f : St -> X)
      (f_world : forall st w, f (set_world st w) = f st) {R L} ms :
  P (CWait ms, true) -> inv P f (R:=R) (L:=L) (uwait_optional drv ms).
Proof.
  intros HP st. unfold uwait_optional. destruct (this_utils st).
  - cbn. split; [repeat constructor; exact HP | apply f_world].
  - cbn. split; [constructor | reflexivity].
Qed.

Lemma ctl_uwait_optional {R L} (Q : R -> Prop) ms :
  ctl (L:=L) Q (uwait_optional drv ms).
Proof.
  intros st. unfold uwait_optional. destruct (this_utils st); exact I.
Qed.

Lemma inv_once_targetcreated {X} (P : Ev -> Prop) (f : St -> X)
      (f_world : forall st w, f (set_world st w) = f st) {R L} :
  P (COnceTargetCreated, true) -> inv P f (R:=R) (L:=L) (once_targetcreated drv).
Proof.
  intros HP st. unfold once_targetcreated. destruct (this_browser st); cbn.
  - split; [repeat constructor; exact HP | apply f_world].
  - split; [constructor | reflexivity].
Qed.

Lemma ctl_once_targetcreated {R L} (Q : R -> Prop) :
  ctl (L:=L) Q (once_targetcreated drv).
Proof.
  intros st. unfold once_targetcreated. destruct (this_browser st); exact I.
Qed.

Lemma inv_await_target {X} (P : Ev -> Prop) (f : St -> X)
      (f_world : forall st w, f (set_world st w) = f st) {R L} promise :
  P (CAwaitTargetCreated, true) -> P (CAwaitTargetCreated, false) ->
  inv P f (R:=R) (L:=L) (await_target drv promise).
Proof.
  intros Ht Hf st. unfold await_target. destruct promise as [| e].
  - destruct (d_awaitTargetCreated drv (world st)) as [[p |] w']; cbn;
      (split; [repeat constructor; assumption | apply f_world]).
  - cbn. split; [constructor | reflexivity].
Qed.

Ltac head_of t :=
  lazymatch t with
  | ?g _ => head_of g
  | _ => t
  end.

(** Side conditions: an event satisfies the predicate, a projection does
    not look at the world. *)
Ltac inv_side :=
  try solve [ assumption | exact I | reflexivity | intros; reflexivity
            | cbn; (reflexivity || discriminate || exact I) ].

Ltac inv_step :=
  lazymatch goal with
  | |- inv _ _ (bind _ _) => apply inv_bind; [| intros ?]
  | |- inv _ _ (ret _) => apply inv_ret
  | |- inv _ _ (return_ _) => apply inv_return
  | |- inv _ _ (throw _) => apply inv_throw
  | |- inv _ _ (break_ _) => apply inv_break
  | |- inv _ _ (continue_ _) => apply inv_continue
  | |- inv _ _ (emit _) => apply inv_emit; inv_side
  | |- inv _ _ (console_log _) => apply inv_emit; inv_side
  | |- inv _ _ (console_error _) => apply inv_emit; inv_side
  | |- inv _ _ (log _ _) => apply inv_emit; inv_side
  | |- inv _ _ (prim _ _) => apply inv_prim; inv_side
  | |- inv _ _ (prim_total _ _) => apply inv_prim_total; inv_side
  | |- inv _ _ (try_catch _ _) => apply inv_try_catch; [| intros ?]
  | |- inv _ _ (try_finally _ _) => apply inv_try_finally
  | |- inv _ _ (for_of _ _ _) => apply inv_for_of; intros ? ?
  | |- inv _ _ (for_range _ _ _ _ _) => apply inv_for_range; intros ? ?
  | |- inv _ _ (await _) => apply inv_await
  | |- inva _ _ (async _) => apply inva_async
  | |- inv _ _ (when_ _ _) => apply inv_when
  | |- inv _ _ this_page_ => apply inv_this_page
  | |- inv _ _ this_utils_ => apply inv_this_utils
  | |- inv _ _ (set_this_page _) => apply inv_set_this_page; inv_side
  | |- inv _ _ (poll _ _ _ _ _) => apply inv_poll; inv_side
  | |- inv _ _ (uwait_optional _ _) => apply inv_uwait_optional; inv_side
  | |- inv _ _ (once_targetcreated _) => apply inv_once_targetcreated; inv_side
  | |- inv _ _ (await_target _ _) => apply inv_await_target; inv_side
  | |- inv _ _ (if ?c then _ else _) => destruct c
  | |- inv _ _ (match ?x with _ => _ end) => destruct x
  | |- inv _ _ (let _ := _ in _) => cbv zeta
  | |- inv _ _ (fun _ => _) => fail "stuck"
  | |- inv _ _ ?m => let h := head_of m in unfold h
  | |- inva _ _ ?m => let h := head_of m in unfold h
  end.

Ltac inv_go := repeat inv_step.

Ltac ctl_side := try solve [ assumption | exact I | reflexivity | cbn; auto ].

Ltac ctl_step :=
  lazymatch goal with
  | |- ctl _ (bind _ _) => apply ctl_bind; [| intros ?]
  | |- ctl _ (ret _) => apply ctl_ret
  | |- ctl _ (return_ _) => apply ctl_return; ctl_side
  | |- ctl _ (throw _) => apply ctl_throw
  | |- ctl _ (break_ _) => apply ctl_break
  | |- ctl _ (continue_ _) => apply ctl_continue
  | |- ctl _ (emit _) => apply ctl_emit
  | |- ctl _ (console_log _) => apply ctl_emit
  | |- ctl _ (console_error _) => apply ctl_emit
  | |- ctl _ (log _ _) => apply ctl_emit
  | |- ctl _ (prim _ _) => apply ctl_prim
  | |- ctl _ (prim_total _ _) => apply ctl_prim_total
  | |- ctl _ (try_catch _ _) => apply ctl_try_catch; [| intros ?]
  | |- ctl _ (try_finally _ _) => apply ctl_try_finally
  | |- ctl _ (for_of _ _ _) => apply ctl_for_of; intros ? ?
  | |- ctl _ (for_range _ _ _ _ _) => apply ctl_for_range; intros ? ?
  | |- ctl _ (await _) => apply ctl_await
  | |- calma (async _) => apply calma_async
  | |- ctl _ (when_ _ _) => apply ctl_when
  | |- ctl _ this_page_ => apply ctl_this_page
  | |- ctl _ this_utils_ => apply ctl_this_utils
  | |- ctl _ (set_this_page _) => apply ctl_set_this_page
  | |- ctl _ (poll _ _ _ _ _) => apply ctl_poll
  | |- ctl _ (uwait_optional _ _) => apply ctl_uwait_optional
  | |- ctl _ (once_targetcreated _) => apply ctl_once_targetcreated
  | |- ctl _ (if ?c then _ else _) => destruct c
  | |- ctl _ (match ?x with _ => _ end) => destruct x
  | |- ctl _ (let _ := _ in _) => cbv zeta
  | |- ctl _ (fun _ => _) => fail "stuck"
  | |- ctl _ ?m => let h := head_of m in unfold h
  | |- calma ?m => let h := head_of m in unfold h
  end.

Ltac ctl_go := repeat ctl_step.



(** ** Stepping over a block *)




(** What the structural invariants say about one run of a block. *)
Lemma wp_block {R L A} (P : Ev -> Prop) (Qr : R -> Prop) (m : M R L A) st :
  inv P fields m -> ctl Qr m ->
  wp m st (fun o s t =>
    Forall P t /\ fields s = fields st
    /\ s = post (m st) /\ t = events (m st) /\ o = outcome (m st)
    /\ match o with
       | Return v => Qr v
       | Pending => False
       | _ => True
       end).
Proof.
  intros Hi Hc. unfold wp. destruct (Hi st) as [He Hf]. specialize (Hc st).
  repeat split; auto.
Qed.

Lemma wpa_block {A} (P : Ev -> Prop) (m : Async A) st :
  inva P fields m -> calma m ->
  wpa m st (fun o s t =>
    Forall P t /\ fields s = fields st
    /\ s = post (m st) /\ t = events (m st) /\ o = outcome (m st)
    /\ o <> Unsettled).
Proof.
  intros Hi Hc. unfold wpa. destruct (Hi st) as [He Hf]. specialize (Hc st).
  repeat split; auto.
Qed.

Lemma fields_utils (s s0 : St) u :
  fields s = fields s0 -> this_utils s0 = Some u -> this_utils s = Some u.
Proof. unfold fields. intros H H0. inversion H. congruence. Qed.

Lemma fields_page (s s0 : St) p :
  fields s = fields s0 -> this_page s0 = Some p -> this_page s = Some p.
Proof. unfold fields. intros H H0. inversion H. congruence. Qed.

Lemma fields_browser (s s0 : St) b :
  fields s = fields s0 -> this_browser s0 = b -> this_browser s = b.
Proof. unfold fields. intros H H0. inversion H. congruence. Qed.

Lemma pair_fst_eq {A B} (a c : A) (b d : B) : (a, b) = (c, d) -> a = c.
Proof. intros H. inversion H. reflexivity. Qed.

Lemma fields_set_world (s : St) w : fields (set_world s w) = fields s.
Proof. reflexivity. Qed.


Lemma wp_this_utils_some {R L} st u (Q : Completion R L Utils -> St -> list Ev -> Prop) :
  this_utils st = Some u -> Q (Normal u) st [] -> wp this_utils_ st Q.
Proof. unfold wp, this_utils_. intros ->. auto. Qed.

Lemma wp_this_page_some {R L} st p (Q : Completion R L Page -> St -> list Ev -> Prop) :
  this_page st = Some p -> Q (Normal p) st [] -> wp this_page_ st Q.
Proof. unfold wp, this_page_. intros ->. auto. Qed.

(** Is a field of the current state known. *)
Ltac known :=
  cbn [set_world this_utils this_page this_browser world];
  first
    [ eassumption
    | eapply fields_utils; [eassumption | known]
    | eapply fields_page; [eassumption | known]
    | eapply fields_browser; [eassumption | known] ].

(** Stepping over the first statement of a sequence, knowing only its
    structural invariants. *)
Lemma wp_skip {R A B} (P : Ev -> Prop) (Qr : R -> Prop)
      (m : M R Empty_set A) (k : A -> M R Empty_set B) st
      (Q : Completion R Empty_set B -> St -> list Ev -> Prop) :
  inv P fields m -> ctl Qr m ->
  (forall a s t1,
      Forall P t1 -> fields s = fields st -> outcome (m st) = Normal a ->
      wp (k a) s (fun o s' t' => Q o s' (t1 ++ t'))) ->
  (forall v s t, Qr v -> Forall P t -> fields s = fields st -> Q (Return v) s t) ->
  (forall e s t, Forall P t -> fields s = fields st -> Q (Throw e) s t) ->
  wp (bind m k) st Q.
Proof.
  intros Hi Hc Hn Hr Ht. apply wp_bind.
  eapply wp_conseq; [apply (wp_block P Qr m st Hi Hc) |].
  cbv beta. intros o s t (He & Hf & _ & _ & Ho & Hk).
  destruct o as [a | v | [] | [] | e |]; auto. contradiction.
Qed.

Lemma wp_block_on {X R L A} (P : Ev -> Prop) (f : St -> X) (Qr : R -> Prop)
      (m : M R L A) st :
  inv P f m -> ctl Qr m ->
  wp m st (fun o s t =>
    Forall P t /\ f s = f st
    /\ match o with
       | Return v => Qr v
       | Pending => False
       | _ => True
       end).
Proof.
  intros Hi Hc. unfold wp. destruct (Hi st) as [He Hf]. specialize (Hc st).
  repeat split; auto.
Qed.

Lemma clickElement_fields u selectors options :
  inva any_event fields (clickElement drv u selectors options).
Proof. inv_go. Qed.

Lemma clickElement_calm u selectors options :
  calma (clickElement drv u selectors options).
Proof. ctl_go. Qed.

(** ** The cart count, read off the text of the page *)

(** What the in-page function of [getCartCount] returns is stated here
    in terms of the document alone: decimal notation, the white space of
    the language, the number a text starts with, and the first element
    whose text names the cart.  The lemmas that follow relate the
    functions of the model to these. *)

(** *** Decimal notation *)

Definition digit (c : ascii) : option Z :=
  match c with
  | "0"%char => Some 0%Z | "1"%char => Some 1%Z | "2"%char => Some 2%Z
  | "3"%char => Some 3%Z | "4"%char => Some 4%Z | "5"%char => Some 5%Z
  | "6"%char => Some 6%Z | "7"%char => Some 7%Z | "8"%char => Some 8%Z
  | "9"%char => Some 9%Z
  | _ => None
  end.

Fixpoint all_digits (s : string) : Prop :=
  match s with
  | EmptyString => True
  | String c r => digit c <> None /\ all_digits r
  end.

Fixpoint digit_free (s : string) : Prop :=
  match s with
  | EmptyString => True
  | String c r => digit c = None /\ digit_free r
  end.

(** A non-empty run of decimal digits, and the number it denotes: each
    digit weighs ten times the next. *)
Definition Decimal (ds : string) : Prop := ds <> "" /\ all_digits ds.

Fixpoint decimal_value (ds : string) : Z :=
  match ds with
  | EmptyString => 0
  | String c r =>
      (match digit c with Some v => v | None => 0 end
       * 10 ^ Z.of_nat (String.length r) + decimal_value r)%Z
  end.

Definition no_digit_ahead (s : string) : Prop :=
  match s with
  | String c _ => digit c = None
  | EmptyString => True
  end.

(** *** White space and the number a text starts with *)

Inductive White : string -> Prop :=
| White_nil : White ""
| White_more c s : In c white_space -> White s -> White (c ^^ s).

(** [parseInt(s, 10)] is a number [n]: white space, an optional sign,
    the longest run of digits; what follows is ignored.  The number is the
    double nearest to the digits' value. *)
Inductive ParseInt : string -> Num -> Prop :=
| ParseInt_plain ws ds rest :
    White ws -> Decimal ds -> no_digit_ahead rest ->
    ParseInt (ws ^^ ds ^^ rest) (to_double (decimal_value ds))
| ParseInt_plus ws ds rest :
    White ws -> Decimal ds -> no_digit_ahead rest ->
    ParseInt (ws ^^ "+" ^^ ds ^^ rest) (to_double (decimal_value ds))
| ParseInt_minus ws ds rest :
    White ws -> Decimal ds -> no_digit_ahead rest ->
    ParseInt (ws ^^ "-" ^^ ds ^^ rest) (num_opp (to_double (decimal_value ds))).

(** *** The word [cart] in a text *)

Definition last_char (s : string) : option ascii :=
  match rev (list_ascii_of_string s) with
  | c :: _ => Some c
  | [] => None
  end.

(** [/\bcart\b/i] matches: the text holds [cart], in any letter case,
    with no word character next to it on either side. *)
Definition NamesCart (text : string) : Prop :=
  exists pre w post,
    text = pre ^^ w ^^ post
    /\ toLowerCase w = "cart"
    /\ Regex.word_at (last_char pre) = false
    /\ Regex.word_at (Regex.next_char post) = false.

(** *** The document *)

(** The text of the badge: the rendered text of the first [span] inside
    a link to the checkout, its text content where that is empty; the
    empty text without such an element. *)
Definition badge_text (d : Dom) : string :=
  match querySelectorAll d (qq "a[href*='/checkout'] span") with
  | [] => ""
  | badge :: _ =>
      match innerText badge with
      | EmptyString => textContent badge
      | text => text
      end
  end.

(** The first link, span or div whose rendered text names the cart. *)
Definition FirstCartNode (d : Dom) (o : option Elem) : Prop :=
  match o with
  | Some node =>
      exists before after,
        querySelectorAll d "a,span,div" = before ++ node :: after
        /\ NamesCart (innerText node)
        /\ forall e, In e before -> ~ NamesCart (innerText e)
  | None =>
      forall e, In e (querySelectorAll d "a,span,div") -> ~ NamesCart (innerText e)
  end.

(** The count: the number the badge starts with; when it starts with
    none, the first run of digits in the text of the first element naming
    the cart; 0 when there is no such element or no digit in it. *)
Inductive CartCount (d : Dom) : Num -> Prop :=
| count_of_badge n :
    ParseInt (badge_text d) n -> CartCount d n
| count_of_cart_text node pre ds rest :
    (forall n, ~ ParseInt (badge_text d) n) ->
    FirstCartNode d (Some node) ->
    innerText node = pre ^^ ds ^^ rest ->
    digit_free pre -> Decimal ds -> no_digit_ahead rest ->
    CartCount d (to_double (decimal_value ds))
| count_no_digits node :
    (forall n, ~ ParseInt (badge_text d) n) ->
    FirstCartNode d (Some node) ->
    digit_free (innerText node) ->
    CartCount d (Fin 0)
| count_no_cart :
    (forall n, ~ ParseInt (badge_text d) n) ->
    FirstCartNode d None ->
    CartCount d (Fin 0).

(** *** Strings *)

Lemma append_assoc_s (a b c : string) : (a ^^ b) ^^ c = a ^^ b ^^ c.
Proof. induction a as [| x a IH]; cbn; [reflexivity | now rewrite IH]. Qed.

Lemma append_nil_r (a : string) : a ^^ "" = a.
Proof. induction a as [| x a IH]; cbn; [reflexivity | now rewrite IH]. Qed.

Lemma length_append_s (a b : string) :
  String.length (a ^^ b) = String.length a + String.length b.
Proof. induction a as [| x a IH]; cbn; [reflexivity | now rewrite IH]. Qed.

Lemma starts_with_app (w s : string) :
  starts_with w s = true <-> exists r, s = w ^^ r.
Proof.
  revert s. induction w as [| a w IH]; intros s; cbn.
  - split; [intros _; exists s; reflexivity | reflexivity].
  - destruct s as [| b s].
    + split; [discriminate | intros [r Hr]; discriminate Hr].
    + rewrite andb_true_iff, Ascii.eqb_eq, IH. split.
      * intros [-> [r ->]]. exists r. reflexivity.
      * intros [r Hr]. injection Hr as -> ->. split; [reflexivity | exists r; reflexivity].
Qed.

Fixpoint drop (n : nat) (s : string) : string :=
  match n, s with
  | S n', String _ r => drop n' r
  | _, _ => s
  end.

Lemma drop_app (w r : string) : drop (String.length w) (w ^^ r) = r.
Proof. induction w as [| a w IH]; cbn; [destruct r; reflexivity | exact IH]. Qed.

(** *** Digits *)

Lemma digit_spec (c : ascii) :
  digit c = if is_digit c then Some (Z.of_nat (nat_of_ascii c - 48)) else None.
Proof. destruct c as [[] [] [] [] [] [] [] []]; reflexivity. Qed.

Lemma digit_is_digit (c : ascii) : digit c <> None <-> is_digit c = true.
Proof.
  rewrite digit_spec. destruct (is_digit c); split; congruence.
Qed.

Lemma no_digit_is_digit (c : ascii) : digit c = None <-> is_digit c = false.
Proof.
  rewrite digit_spec. destruct (is_digit c); split; congruence.
Qed.

Lemma digits_stop (rest : string) (acc : Z) (seen : bool) :
  no_digit_ahead rest ->
  digits rest acc seen = ((if seen then Some acc else None), rest).
Proof.
  destruct rest as [| c r]; cbn; [reflexivity |].
  intros H. apply no_digit_is_digit in H. rewrite H. reflexivity.
Qed.

Lemma digits_run (ds rest : string) : forall acc,
  all_digits ds ->
  digits (ds ^^ rest) acc true
  = digits rest (acc * 10 ^ Z.of_nat (String.length ds) + decimal_value ds)%Z true.
Proof.
  induction ds as [| c ds IH]; intros acc Hd.
  - cbn. f_equal. lia.
  - destruct Hd as [Hc Hd]. cbn [append digits].
    pose proof (digit_spec c) as Hv.
    apply digit_is_digit in Hc. rewrite Hc in Hv |- *.
    rewrite (IH _ Hd). f_equal.
    cbn [decimal_value String.length]. rewrite Hv, Nat2Z.inj_succ, Z.pow_succ_r by lia.
    ring.
Qed.

Lemma digits_first (c : ascii) (r : string) (acc : Z) (seen : bool) :
  is_digit c = true ->
  digits (String c r) acc seen = digits (String c r) acc true.
Proof. intros H. cbn. rewrite H. reflexivity. Qed.

Lemma digits_decimal (ds rest : string) (seen : bool) :
  Decimal ds -> no_digit_ahead rest ->
  digits (ds ^^ rest) 0%Z seen = (Some (decimal_value ds), rest).
Proof.
  intros [Hne Hd] Hrest. destruct ds as [| c ds]; [congruence |].
  cbn [append]. rewrite digits_first by (apply digit_is_digit, Hd).
  change (String c (ds ^^ rest)) with (String c ds ^^ rest).
  rewrite digits_run by exact Hd. rewrite digits_stop by exact Hrest.
  reflexivity.
Qed.

Lemma run_split (s : string) :
  exists rest,
    s = digit_run s ^^ rest /\ all_digits (digit_run s) /\ no_digit_ahead rest.
Proof.
  induction s as [| c s (rest & Hs & Hd & Hr)]; cbn.
  - exists "". repeat split.
  - destruct (is_digit c) eqn:Hc.
    + exists rest. cbn. rewrite <- Hs. repeat split; try assumption.
      apply digit_is_digit. exact Hc.
    + exists (String c s). cbn. repeat split. apply no_digit_is_digit. exact Hc.
Qed.

(** What [digits] makes of any text. *)
Lemma digits_of (r : string) :
  exists rest,
    r = digit_run r ^^ rest /\ no_digit_ahead rest
    /\ match digit_run r with
       | EmptyString => fst (digits r 0%Z false) = None
       | ds => Decimal ds /\ fst (digits r 0%Z false) = Some (decimal_value ds)
       end.
Proof.
  destruct (run_split r) as (rest & Hs & Hd & Hr). exists rest.
  split; [exact Hs |]. split; [exact Hr |].
  destruct (digit_run r) as [| c ds] eqn:Hrun.
  - cbn in Hs. subst r. now rewrite digits_stop.
  - assert (HD : Decimal (String c ds)) by (split; [discriminate | exact Hd]).
    split; [exact HD |]. rewrite Hs at 1. now rewrite digits_decimal.
Qed.

(** *** White space *)

Lemma white_length (w : string) :
  In w white_space -> 1 <= String.length w <= 3.
Proof.
  unfold white_space. intros H.
  repeat (destruct H as [<- | H]; [cbn; lia |]). destruct H.
Qed.

Lemma space_width_pos (s : string) (n : nat) :
  space_width s = S n ->
  exists w r, In w white_space /\ s = w ^^ r /\ String.length w = S n.
Proof.
  unfold space_width. destruct (find _ white_space) as [w |] eqn:E; [| discriminate].
  apply find_some in E. destruct E as [Hin Hp]. apply starts_with_app in Hp as [r ->].
  intros Hl. exists w, r. auto.
Qed.

Lemma space_width_zero (s : string) :
  space_width s = 0 -> forall w r, In w white_space -> s <> w ^^ r.
Proof.
  unfold space_width. destruct (find _ white_space) as [w |] eqn:E.
  - apply find_some in E. destruct E as [Hin _].
    pose proof (white_length w Hin). intros H0. lia.
  - intros _ w r Hin Hs.
    pose proof (find_none _ _ E w Hin) as Hp. cbv beta in Hp.
    assert (Ht : starts_with w s = true) by (apply starts_with_app; eauto).
    congruence.
Qed.

Lemma space_width_prefix (t p r : string) :
  space_width t = 0 -> t = p ^^ r -> space_width p = 0.
Proof.
  intros Ht Hp. destruct (space_width p) as [| n] eqn:E; [reflexivity |].
  destruct (space_width_pos p n E) as (w & r' & Hin & Hs & _).
  exfalso. apply (space_width_zero t Ht w (r' ^^ r) Hin).
  rewrite Hp, Hs. apply append_assoc_s.
Qed.

Lemma digit_first_no_space (c : ascii) (r : string) :
  is_digit c = true -> space_width (String c r) = 0.
Proof.
  destruct c as [[] [] [] [] [] [] [] []]; intros H;
    try discriminate H; reflexivity.
Qed.

Lemma sign_no_space (r : string) :
  space_width (String "-" r) = 0 /\ space_width (String "+" r) = 0.
Proof. split; reflexivity. Qed.

Lemma trimStart_eq (s : string) :
  trimStart s = match space_width s with
                | 0 => s
                | S n => trimStart (drop (S n) s)
                end.
Proof.
  destruct s as [| c r1]; [reflexivity |].
  cbn [trimStart]. destruct (space_width (String c r1)) as [| [| [| [| k]]]] eqn:E.
  - reflexivity.
  - reflexivity.
  - destruct (space_width_pos _ _ E) as (w & r & _ & Hs & Hl).
    destruct w as [| a [| b [| x w]]]; try discriminate Hl.
    cbn in Hs. injection Hs as _ ->. reflexivity.
  - destruct (space_width_pos _ _ E) as (w & r & _ & Hs & Hl).
    destruct w as [| a [| b [| x [| y w]]]]; try discriminate Hl.
    cbn in Hs. injection Hs as _ ->. reflexivity.
  - destruct (space_width_pos _ _ E) as (w & r & Hin & _ & Hl).
    pose proof (white_length w Hin). lia.
Qed.

Lemma trimStart_fixed (x : string) : space_width x = 0 -> trimStart x = x.
Proof. intros H. rewrite trimStart_eq, H. reflexivity. Qed.

Lemma trimStart_spec_upto (n : nat) : forall s,
  String.length s <= n ->
  exists ws, White ws /\ s = ws ^^ trimStart s /\ space_width (trimStart s) = 0.
Proof.
  induction n as [| n IH]; intros s Hlen.
  - destruct s; [| cbn in Hlen; lia].
    exists "". repeat split. constructor.
  - rewrite trimStart_eq. destruct (space_width s) as [| k] eqn:E.
    + exists "". repeat split; [constructor | exact E].
    + destruct (space_width_pos s k E) as (w & r & Hin & -> & Hl).
      rewrite <- Hl, drop_app.
      pose proof (white_length w Hin) as Hw. rewrite length_append_s in Hlen.
      destruct (IH r ltac:(lia)) as (ws & Hws & Hr & Hz).
      exists (w ^^ ws). split; [constructor; assumption |].
      split; [| exact Hz]. rewrite append_assoc_s, <- Hr. reflexivity.
Qed.

(** [trimStart] drops white space, and what it leaves starts with none. *)
Lemma trimStart_spec (s : string) :
  exists ws, White ws /\ s = ws ^^ trimStart s /\ space_width (trimStart s) = 0.
Proof. apply (trimStart_spec_upto (String.length s)). lia. Qed.

Lemma trimStart_white_one (c y : string) :
  In c white_space -> trimStart (c ^^ y) = trimStart y.
Proof.
  unfold white_space. intros H.
  repeat (destruct H as [<- | H]; [reflexivity |]). destruct H.
Qed.

Lemma trimStart_white (ws x : string) :
  White ws -> space_width x = 0 -> trimStart (ws ^^ x) = x.
Proof.
  intros Hw Hx. induction Hw as [| c s Hc Hs IH].
  - apply trimStart_fixed, Hx.
  - rewrite append_assoc_s, trimStart_white_one by exact Hc. exact IH.
Qed.

Lemma trimEnd_prefix (t : string) : exists r, t = trimEnd t ^^ r.
Proof.
  induction t as [| c t [r Hr]].
  - exists "". reflexivity.
  - cbn [trimEnd]. destruct (trimStart (String c t)).
    + exists (String c t). reflexivity.
    + exists r. cbn. now rewrite <- Hr.
Qed.

Lemma trimEnd_keeps (c : ascii) (r : string) :
  space_width (String c r) = 0 -> trimEnd (String c r) = String c (trimEnd r).
Proof.
  intros H. cbn [trimEnd]. rewrite (trimStart_fixed _ H). reflexivity.
Qed.

Lemma digits_trimEnd (r : string) : forall acc seen,
  fst (digits (trimEnd r) acc seen) = fst (digits r acc seen).
Proof.
  induction r as [| c r IH]; intros acc seen; [reflexivity |].
  destruct (is_digit c) eqn:Hc.
  - rewrite trimEnd_keeps by (apply digit_first_no_space, Hc).
    cbn [digits]. rewrite Hc. apply IH.
  - cbn [trimEnd]. destruct (trimStart (String c r)); cbn [digits]; rewrite Hc;
      reflexivity.
Qed.

(** White space at the end of a text does not change the number the
    text starts with. *)
Lemma parseInt10_trim (s : string) : parseInt10 (trim s) = parseInt10 s.
Proof.
  unfold trim, parseInt10.
  destruct (trimStart_spec s) as (_ & _ & _ & Hz).
  destruct (trimStart s) as [| c r] eqn:Et; [reflexivity |].
  rewrite (trimEnd_keeps c r Hz).
  assert (Hz' : space_width (String c (trimEnd r)) = 0).
  { destruct (trimEnd_prefix (String c r)) as [x Hx].
    rewrite (trimEnd_keeps c r Hz) in Hx.
    exact (space_width_prefix _ _ _ Hz Hx). }
  rewrite (trimStart_fixed _ Hz').
  rewrite !digits_trimEnd.
  replace (fst (digits (String c (trimEnd r)) 0%Z false))
    with (fst (digits (String c r) 0%Z false)); [reflexivity |].
  rewrite <- (trimEnd_keeps c r Hz). symmetry. apply digits_trimEnd.
Qed.

(** *** [parseInt] *)

Lemma digit_not_sign (c : ascii) :
  digit c <> None -> Ascii.eqb c "-" = false /\ Ascii.eqb c "+" = false.
Proof.
  intros H. split.
  - destruct (Ascii.eqb c "-") eqn:E; [| reflexivity].
    apply Ascii.eqb_eq in E. subst c. now contradiction H.
  - destruct (Ascii.eqb c "+") eqn:E; [| reflexivity].
    apply Ascii.eqb_eq in E. subst c. now contradiction H.
Qed.

Lemma parseInt10_complete (s : string) (n : Num) :
  ParseInt s n -> parseInt10 s = Some n.
Proof.
  intros H. unfold parseInt10.
  destruct H as [ws ds rest Hw HD Hr | ws ds rest Hw HD Hr | ws ds rest Hw HD Hr].
  - assert (Hds : exists c ds', ds = String c ds' /\ digit c <> None).
    { destruct HD as [Hne Hd]. destruct ds as [| c ds']; [congruence |].
      exists c, ds'. split; [reflexivity | apply Hd]. }
    destruct Hds as (c & ds' & Hds & Hc).
    rewrite trimStart_white; [| exact Hw |].
    + rewrite Hds at 1. cbn [append].
      destruct (digit_not_sign c Hc) as [-> ->].
      change (String c (ds' ^^ rest)) with (String c ds' ^^ rest).
      rewrite <- Hds, digits_decimal by assumption. reflexivity.
    + rewrite Hds. cbn [append]. apply digit_first_no_space, digit_is_digit, Hc.
  - rewrite trimStart_white; [| exact Hw | apply sign_no_space].
    cbn [append Ascii.eqb Bool.eqb]. rewrite digits_decimal by assumption. reflexivity.
  - rewrite trimStart_white; [| exact Hw | apply sign_no_space].
    cbn [append Ascii.eqb Bool.eqb]. rewrite digits_decimal by assumption. reflexivity.
Qed.

Lemma parseInt10_sound (s : string) (n : Num) :
  parseInt10 s = Some n -> ParseInt s n.
Proof.
  unfold parseInt10. destruct (trimStart_spec s) as (ws & Hw & Hs & Hz).
  destruct (trimStart s) as [| c r] eqn:Et; [discriminate |].
  destruct (Ascii.eqb c "-") eqn:Em; [| destruct (Ascii.eqb c "+") eqn:Ep].
  - apply Ascii.eqb_eq in Em. subst c.
    destruct (digits_of r) as (rest & Hr & Hrest & Hv).
    destruct (digit_run r) as [| d ds]; [rewrite Hv; discriminate |].
    destruct Hv as [HD ->]. cbn [option_map]. intros [= <-].
    rewrite Hs, Hr. apply (ParseInt_minus ws (String d ds) rest); assumption.
  - apply Ascii.eqb_eq in Ep. subst c.
    destruct (digits_of r) as (rest & Hr & Hrest & Hv).
    destruct (digit_run r) as [| d ds]; [rewrite Hv; discriminate |].
    destruct Hv as [HD ->]. cbn [option_map]. intros [= <-].
    rewrite Hs, Hr. apply (ParseInt_plus ws (String d ds) rest); assumption.
  - destruct (digits_of (String c r)) as (rest & Hr & Hrest & Hv).
    destruct (digit_run (String c r)) as [| d ds]; [rewrite Hv; discriminate |].
    destruct Hv as [HD ->]. cbn [option_map]. intros [= <-].
    rewrite Hs, Hr. apply (ParseInt_plain ws (String d ds) rest); assumption.
Qed.

(** A text starts with a number exactly when [parseInt] gives one. *)
Lemma parseInt10_NaN (s : string) :
  parseInt10 s = None -> forall n, ~ ParseInt s n.
Proof.
  intros H n Hn. apply parseInt10_complete in Hn. congruence.
Qed.

(** The number a text starts with is unique. *)
Lemma ParseInt_unique (s : string) (n m : Num) :
  ParseInt s n -> ParseInt s m -> n = m.
Proof.
  intros Hn Hm. apply parseInt10_complete in Hn, Hm. congruence.
Qed.

(** *** Doubles *)

Section Doubles.

Local Open Scope Z_scope.

(** The natural numbers that are doubles: a significand below [2^53]
    times a power of two, up to the largest exponent. *)
Definition is_double (v : Z) : Prop :=
  exists m e, v = m * 2 ^ e /\ 0 <= m < 2 ^ 53 /\ 0 <= e <= 971.

(** Between two neighbours of the grid of step [2^e], at or above
    [2^(52+e)], there is no double. *)
Lemma double_grid (e q u : Z) :
  0 <= e -> 2 ^ 52 <= q -> is_double u ->
  u <= q * 2 ^ e \/ (q + 1) * 2 ^ e <= u.
Proof.
  intros He Hq (m & f & -> & Hm & Hf).
  assert (HE : 0 < 2 ^ e) by (apply Z.pow_pos_nonneg; lia).
  destruct (Z.le_gt_cases e f) as [Hef | Hfe].
  - replace f with (e + (f - e)) by lia. rewrite Z.pow_add_r by lia.
    assert (HD : 0 < 2 ^ (f - e)) by (apply Z.pow_pos_nonneg; lia).
    destruct (Z.le_gt_cases (m * 2 ^ (f - e)) q) as [H | H]; [left | right]; nia.
  - left.
    assert (Hp : 2 ^ e = 2 ^ f * 2 ^ (e - f)).
    { rewrite <- Z.pow_add_r by lia. f_equal. lia. }
    assert (HF : 0 < 2 ^ f) by (apply Z.pow_pos_nonneg; lia).
    assert (HD : 2 <= 2 ^ (e - f)).
    { change 2 with (2 ^ 1) at 1. apply Z.pow_le_mono_r; lia. }
    rewrite Hp. nia.
Qed.

(** [to_double] rounds to the nearest double, and gives Infinity only
    from the middle between the largest double and [2^1024] on. *)
Lemma to_double_nearest (a : Z) :
  0 <= a ->
  match to_double a with
  | Fin v => is_double v /\ forall u, is_double u -> Z.abs (a - v) <= Z.abs (a - u)
  | Inf negative => negative = false /\ 2 ^ 1024 - 2 ^ 970 <= a
  | NegZero => False
  end.
Proof.
  intros Ha. unfold to_double.
  destruct (a <? 2 ^ 53) eqn:Hsmall.
  - apply Z.ltb_lt in Hsmall. split.
    + exists a, 0. rewrite Z.pow_0_r. split; [ring | lia].
    + intros u _. lia.
  - apply Z.ltb_ge in Hsmall. cbv zeta.
    assert (Hpos : 0 < a) by (assert (0 < 2 ^ 53) by (apply Z.pow_pos_nonneg; lia); lia).
    destruct (Z.log2_spec a Hpos) as [Hlo Hhi].
    assert (Hk : 53 <= Z.log2 a).
    { apply Z.log2_le_pow2; lia. }
    set (e := Z.log2 a - 52) in *.
    assert (He : 1 <= e) by (unfold e; lia).
    rewrite !Z.shiftl_mul_pow2, Z.shiftr_div_pow2 by lia.
    rewrite Z.mul_1_l.
    set (E := 2 ^ e) in *. set (q := a / E) in *.
    assert (HE : 0 < E) by (apply Z.pow_pos_nonneg; lia).
    assert (HEh : E = 2 * 2 ^ (e - 1)).
    { unfold E. replace e with (Z.succ (e - 1)) at 1 by lia.
      rewrite Z.pow_succ_r by lia. reflexivity. }
    set (half := 2 ^ (e - 1)) in *.
    assert (Hh : 0 < half) by (apply Z.pow_pos_nonneg; lia).
    assert (Hlo' : 2 ^ 52 * E <= a).
    { unfold E. rewrite <- Z.pow_add_r by lia. replace (52 + e) with (Z.log2 a) by (unfold e; lia).
      exact Hlo. }
    assert (Hhi' : a < 2 ^ 53 * E).
    { unfold E. rewrite <- Z.pow_add_r by lia.
      replace (53 + e) with (Z.succ (Z.log2 a)) by (unfold e; lia). exact Hhi. }
    pose proof (Z.div_mod a E ltac:(lia)) as Hdm.
    pose proof (Z.mod_pos_bound a E HE) as Hmod.
    fold q in Hdm.
    assert (Hq : 2 ^ 52 <= q < 2 ^ 53).
    { split.
      - apply Z.div_le_lower_bound; lia.
      - apply Z.div_lt_upper_bound; lia. }
    set (r := a - q * E) in *.
    assert (Hr : 0 <= r < E) by (unfold r; lia).
    set (up := (half <? r) || (r =? half) && Z.odd q).
    assert (Hup : if up then half <= r else r <= half).
    { unfold up. destruct (half <? r) eqn:H1; cbn.
      - apply Z.ltb_lt in H1. lia.
      - apply Z.ltb_ge in H1. destruct (r =? half) eqn:H2; cbn.
        + apply Z.eqb_eq in H2. destruct (Z.odd q); lia.
        + exact H1. }
    set (q' := if up then q + 1 else q).
    assert (Hq' : q <= q' <= q + 1) by (unfold q'; destruct up; lia).
    assert (Hdist : Z.abs (a - q' * E) <= r /\ Z.abs (a - q' * E) <= E - r).
    { unfold q'. destruct up; unfold r in *; split; nia. }
    destruct (2 ^ 1024 <=? q' * E) eqn:Hbig.
    + apply Z.leb_le in Hbig. split; [reflexivity |].
      (* the rounded value is beyond the largest double *)
      assert (He971 : 971 <= e).
      { destruct (Z.le_gt_cases 971 e) as [H | H]; [exact H | exfalso].
        assert (E <= 2 ^ 970) by (unfold E; apply Z.pow_le_mono_r; lia).
        assert (2 ^ 1024 = 2 ^ 54 * 2 ^ 970) by (rewrite <- Z.pow_add_r by lia; reflexivity).
        assert (0 < 2 ^ 970) by (apply Z.pow_pos_nonneg; lia).
        change (2 ^ 53) with 9007199254740992 in *.
        change (2 ^ 54) with 18014398509481984 in *. nia. }
      destruct (Z.le_gt_cases 972 e) as [Hbige | Hsmalle].
      * assert (2 ^ 972 <= E) by (unfold E; apply Z.pow_le_mono_r; lia).
        assert (H1024 : 2 ^ 1024 = 2 ^ 52 * 2 ^ 972)
          by (rewrite <- Z.pow_add_r by lia; reflexivity).
        assert (2 ^ 52 * 2 ^ 972 <= 2 ^ 52 * E) by (apply Z.mul_le_mono_nonneg_l; lia).
        assert (0 < 2 ^ 970) by (apply Z.pow_pos_nonneg; lia).
        lia.
      * assert (e = 971) by lia.
        assert (Hhalf : half = 2 ^ 970) by (unfold half; f_equal; lia).
        unfold q' in Hbig. destruct up; unfold r in *.
        -- replace ((q + 1) * E) with (q * E + E) in Hbig by ring. lia.
        -- lia.
    + apply Z.leb_gt in Hbig. split.
      * destruct (Z.eq_dec q' (2 ^ 53)) as [Hfull | Hnot].
        -- exists (2 ^ 52), (e + 1). rewrite Hfull.
           split; [rewrite Z.pow_add_r by lia; fold E; change (2 ^ 53) with (2 ^ 52 * 2 ^ 1); ring |].
           split; [split; [apply Z.pow_nonneg; lia | apply Z.pow_lt_mono_r; lia] |].
           split; [lia |].
           destruct (Z.le_gt_cases (e + 1) 971) as [H | H]; [exact H | exfalso].
           assert (2 ^ 971 <= E) by (unfold E; apply Z.pow_le_mono_r; lia).
           assert (2 ^ 1024 = 2 ^ 53 * 2 ^ 971) by (rewrite <- Z.pow_add_r by lia; reflexivity).
           rewrite Hfull in Hbig. nia.
        -- exists q', e. fold E. split; [reflexivity |].
           split; [lia |]. split; [lia |].
           destruct (Z.le_gt_cases e 971) as [H | H]; [exact H | exfalso].
           assert (2 ^ 972 <= E) by (unfold E; apply Z.pow_le_mono_r; lia).
           assert (2 ^ 1024 = 2 ^ 52 * 2 ^ 972) by (rewrite <- Z.pow_add_r by lia; reflexivity).
           nia.
      * intros u Hu.
        destruct (double_grid e q u ltac:(lia) ltac:(lia) Hu) as [H | H]; fold E in H;
          unfold r in *; lia.
Qed.

End Doubles.

Lemma to_double_not_negative (a : Z) :
  (0 <= a)%Z -> num_neg (to_double a) = false /\ to_double a <> NegZero.
Proof.
  intros Ha. unfold to_double.
  destruct (a <? 2 ^ 53)%Z.
  - split; [| discriminate]. cbn. apply Z.ltb_ge. exact Ha.
  - cbv zeta.
    match goal with |- context [if (2 ^ 1024 <=? ?v)%Z then _ else _] =>
      assert (Hv : (0 <= v)%Z); [| destruct (2 ^ 1024 <=? v)%Z]
    end.
    + apply Z.shiftl_nonneg.
      match goal with |- (0 <= if ?b then _ else _)%Z => destruct b end;
        pose proof (proj2 (Z.shiftr_nonneg a (Z.log2 a - 52)) Ha); lia.
    + split; [reflexivity | discriminate].
    + split; [| discriminate]. cbn. apply Z.ltb_ge. exact Hv.
Qed.

Lemma decimal_value_nonneg (ds : string) : (0 <= decimal_value ds)%Z.
Proof.
  induction ds as [| c ds IH]; cbn [decimal_value]; [lia |].
  assert (0 <= match digit c with Some v => v | None => 0 end)%Z.
  { rewrite digit_spec. destruct (is_digit c); lia. }
  pose proof (Z.pow_nonneg 10 (Z.of_nat (String.length ds))). nia.
Qed.

(** A number read from a text is negative, or the negative zero, only
    when a minus sign follows the leading white space. *)
Lemma ParseInt_negative (s : string) (n : Num) :
  ParseInt s n -> num_neg n = true \/ n = NegZero ->
  exists ws rest, White ws /\ s = ws ^^ "-" ^^ rest.
Proof.
  intros H Hn.
  destruct H as [ws ds rest Hw HD Hr | ws ds rest Hw HD Hr | ws ds rest Hw HD Hr].
  - destruct (to_double_not_negative _ (decimal_value_nonneg ds)) as [H1 H2].
    destruct Hn; congruence.
  - destruct (to_double_not_negative _ (decimal_value_nonneg ds)) as [H1 H2].
    destruct Hn; congruence.
  - exists ws, (ds ^^ rest). auto.
Qed.

(** *** The first run of digits of a text *)

Lemma firstDigitRun_some (s m : string) :
  firstDigitRun s = Some m ->
  exists pre rest,
    s = pre ^^ m ^^ rest /\ digit_free pre /\ Decimal m /\ no_digit_ahead rest.
Proof.
  induction s as [| c s IH]; [discriminate |].
  cbn [firstDigitRun]. destruct (is_digit c) eqn:Hc.
  - intros [= <-].
    destruct (run_split (String c s)) as (rest & Hs & Hd & Hr).
    exists "", rest. cbn [append]. split; [exact Hs |]. split; [exact I |].
    split; [| exact Hr]. split; [| exact Hd].
    cbn [digit_run]. rewrite Hc. discriminate.
  - intros H. destruct (IH H) as (pre & rest & Hs & Hp & HD & Hr).
    exists (String c pre), rest. cbn [append digit_free]. rewrite <- Hs.
    split; [reflexivity |].
    split; [split; [apply no_digit_is_digit; exact Hc | exact Hp] |].
    split; assumption.
Qed.

Lemma firstDigitRun_none (s : string) :
  firstDigitRun s = None -> digit_free s.
Proof.
  induction s as [| c s IH]; [intros _; exact I |].
  cbn [firstDigitRun digit_free]. destruct (is_digit c) eqn:Hc; [discriminate |].
  intros H. split; [apply no_digit_is_digit; exact Hc | auto].
Qed.

Lemma parseInt10_decimal (ds : string) :
  Decimal ds -> parseInt10 ds = Some (to_double (decimal_value ds)).
Proof.
  intros HD. apply parseInt10_complete.
  rewrite <- (append_nil_r ds) at 1.
  apply (ParseInt_plain "" ds ""); [constructor | exact HD | exact I].
Qed.

(** *** The word [cart] *)

Lemma lower_is_word (c : ascii) :
  is_lower (lower_ascii c) = true -> is_word c = true.
Proof. destruct c as [[] [] [] [] [] [] [] []]; intros H; try discriminate H; reflexivity. Qed.

Definition cart_here (prev : option ascii) (s : string) : Prop :=
  Regex.word_at prev = false
  /\ exists w post,
       s = w ^^ post /\ toLowerCase w = "cart"
       /\ Regex.word_at (Regex.next_char post) = false.

Definition last_of (prev : option ascii) (pre : string) : option ascii :=
  match last_char pre with
  | Some c => Some c
  | None => prev
  end.

Lemma last_char_cons (c : ascii) (s : string) :
  last_char (String c s) = last_of (Some c) s.
Proof.
  unfold last_of, last_char. cbn [list_ascii_of_string rev].
  destruct (rev (list_ascii_of_string s)); reflexivity.
Qed.

Lemma last_of_cons (prev : option ascii) (c : ascii) (s : string) :
  last_of prev (String c s) = last_of (Some c) s.
Proof.
  unfold last_of at 1. rewrite last_char_cons.
  unfold last_of. destruct (last_char s); reflexivity.
Qed.

(** A literal in lower case, matched without regard to case: the text
    starts with the literal in some letter case. *)
Lemma match_lit_i (w : string) : forall prev s k,
  toLowerCase w = w ->
  Regex.match_k true (Regex.lit w) prev s k = true
  <-> exists x post, s = x ^^ post /\ toLowerCase x = w /\ k (last_of prev x) post = true.
Proof.
  induction w as [| a w IH]; intros prev s k Hw.
  - cbn [Regex.lit Regex.match_k]. split.
    + intros H. exists "", s. auto.
    + intros (x & post & -> & Hx & H). destruct x; [exact H | discriminate Hx].
  - cbn [toLowerCase] in Hw. injection Hw as Ha Hw.
    cbn [Regex.lit Regex.match_k]. destruct s as [| c t]; cbn [Regex.atom_width].
    + split; [discriminate |].
      intros (x & post & Hs & Hx & _). destruct x; discriminate.
    + unfold Regex.atom_ok. rewrite Ha.
      destruct (Ascii.eqb a (lower_ascii c)) eqn:E.
      * apply Ascii.eqb_eq in E. cbn [Regex.eat]. rewrite (IH (Some c) t k Hw). split.
        -- intros (x & post & -> & Hx & H). exists (String c x), post.
           cbn [append toLowerCase]. rewrite last_of_cons, Hx, <- E. auto.
        -- intros (x & post & Hs & Hx & H). destruct x as [| c' x]; [discriminate Hx |].
           cbn [append toLowerCase] in Hs, Hx. injection Hs as <- ->.
           injection Hx as _ Hx. rewrite last_of_cons in H. exists x, post. auto.
      * split; [discriminate |].
        intros (x & post & Hs & Hx & _). destruct x as [| c' x]; [discriminate Hx |].
        cbn [append toLowerCase] in Hs, Hx. injection Hs as <- ->.
        injection Hx as Hc _. rewrite Hc, Ascii.eqb_refl in E. discriminate E.
Qed.

Lemma match_cart (prev : option ascii) (s : string) :
  Regex.match_k true Scripts.re_cart prev s (fun _ _ => true) = true
  <-> cart_here prev s.
Proof.
  unfold Scripts.re_cart, cart_here.
  cbn [Regex.seqs Regex.match_k]. rewrite andb_true_iff, match_lit_i by reflexivity.
  split.
  - intros (Hb & x & post & -> & Hx & Hk).
    assert (Hx4 : exists c1 c2 c3 c4, x = String c1 (String c2 (String c3 (String c4 "")))).
    { destruct x as [| c1 [| c2 [| c3 [| c4 [| c5 x]]]]]; try discriminate Hx. eauto. }
    destruct Hx4 as (c1 & c2 & c3 & c4 & ->).
    cbn [toLowerCase] in Hx. injection Hx as H1 H2 H3 H4.
    assert (Hw1 : is_word c1 = true) by (apply lower_is_word; rewrite H1; reflexivity).
    assert (Hw4 : is_word c4 = true) by (apply lower_is_word; rewrite H4; reflexivity).
    rewrite !last_of_cons, andb_true_r in Hk.
    change (last_of (Some c4) "") with (Some c4) in Hk.
    unfold Regex.boundary in Hk. cbn [Regex.word_at] in Hk. rewrite Hw4 in Hk.
    cbn [append] in Hb. unfold Regex.boundary in Hb. cbn [Regex.next_char Regex.word_at] in Hb.
    rewrite Hw1 in Hb.
    split; [destruct (Regex.word_at prev); [discriminate Hb | reflexivity] |].
    exists (String c1 (String c2 (String c3 (String c4 "")))), post.
    split; [reflexivity |]. split.
    + cbn [toLowerCase]. rewrite H1, H2, H3, H4. reflexivity.
    + destruct (Regex.word_at (Regex.next_char post)); [discriminate Hk | reflexivity].
  - intros (Hp & x & post & -> & Hx & Hn).
    assert (Hx4 : exists c1 c2 c3 c4, x = String c1 (String c2 (String c3 (String c4 "")))).
    { destruct x as [| c1 [| c2 [| c3 [| c4 [| c5 x]]]]]; try discriminate Hx. eauto. }
    destruct Hx4 as (c1 & c2 & c3 & c4 & ->).
    pose proof Hx as Hx'. cbn [toLowerCase] in Hx'. injection Hx' as H1 H2 H3 H4.
    assert (Hw1 : is_word c1 = true) by (apply lower_is_word; rewrite H1; reflexivity).
    assert (Hw4 : is_word c4 = true) by (apply lower_is_word; rewrite H4; reflexivity).
    split.
    + cbn [append]. unfold Regex.boundary. cbn [Regex.next_char Regex.word_at].
      rewrite Hp, Hw1. reflexivity.
    + exists (String c1 (String c2 (String c3 (String c4 "")))), post.
      split; [reflexivity |]. split; [exact Hx |].
      rewrite !last_of_cons. change (last_of (Some c4) "") with (Some c4).
      unfold Regex.boundary. cbn [Regex.word_at]. rewrite Hw4, Hn. reflexivity.
Qed.

Lemma search_cart (s : string) : forall prev,
  Regex.search true Scripts.re_cart prev s = true
  <-> exists pre rest, s = pre ^^ rest /\ cart_here (last_of prev pre) rest.
Proof.
  induction s as [| c s IH]; intros prev; cbn [Regex.search].
  - rewrite orb_false_r, match_cart. split.
    + intros H. exists "", "". split; [reflexivity | exact H].
    + intros (pre & rest & Hs & H). destruct pre; [| discriminate Hs].
      cbn in Hs. subst rest. exact H.
  - rewrite orb_true_iff, match_cart, IH. split.
    + intros [H | (pre & rest & -> & H)].
      * exists "", (String c s). split; [reflexivity | exact H].
      * exists (String c pre), rest. split; [reflexivity |].
        unfold last_of in *. rewrite last_char_cons. unfold last_of.
        destruct (last_char pre); exact H.
    + intros (pre & rest & Hs & H). destruct pre as [| c' pre].
      * left. cbn in Hs. subst rest. exact H.
      * right. cbn in Hs. injection Hs as <- ->. exists pre, rest.
        split; [reflexivity |]. unfold last_of in *. rewrite last_char_cons in H.
        unfold last_of in H. destruct (last_char pre); exact H.
Qed.

Lemma test_cart (text : string) :
  Regex.test_i Scripts.re_cart text = true <-> NamesCart text.
Proof.
  unfold Regex.test_i, NamesCart. rewrite search_cart. split.
  - intros (pre & rest & -> & Hp & w & post & -> & Hw & Hn).
    exists pre, w, post. repeat split; try assumption.
    unfold last_of in Hp. destruct (last_char pre); exact Hp.
  - intros (pre & w & post & -> & Hw & Hp & Hn).
    exists pre, (w ^^ post). split; [reflexivity |]. split.
    + unfold last_of. destruct (last_char pre); exact Hp.
    + exists w, post. auto.
Qed.

(** *** The in-page function *)

Lemma or_else_empty (a : string) : or_else a "" = a.
Proof. destruct a; reflexivity. Qed.

Lemma find_first {A} (f : A -> bool) (l : list A) :
  match find f l with
  | Some x => exists l1 l2, l = l1 ++ x :: l2 /\ f x = true
                            /\ forall e, In e l1 -> f e = false
  | None => forall e, In e l -> f e = false
  end.
Proof.
  induction l as [| a l IH]; cbn [find].
  - intros e [].
  - destruct (f a) eqn:Ha.
    + exists [], l. repeat split; [exact Ha | intros e []].
    + destruct (find f l) as [x |].
      * destruct IH as (l1 & l2 & -> & Hx & Hb). exists (a :: l1), l2.
        repeat split; [exact Hx |]. intros e [<- | He]; auto.
      * intros e [<- | He]; auto.
Qed.

Lemma cartNode_spec (d : Dom) : FirstCartNode d (Scripts.cartNode d).
Proof.
  unfold Scripts.cartNode, FirstCartNode.
  pose proof (find_first (fun el => Regex.test_i Scripts.re_cart (or_else (innerText el) ""))
                (querySelectorAll d "a,span,div")) as H.
  destruct (find _ (querySelectorAll d "a,span,div")) as [node |].
  - destruct H as (l1 & l2 & Hl & Hn & Hb). exists l1, l2.
    split; [exact Hl |]. rewrite or_else_empty in Hn. split; [apply test_cart, Hn |].
    intros e He Hc. specialize (Hb e He). cbv beta in Hb. rewrite or_else_empty in Hb.
    apply test_cart in Hc. congruence.
  - intros e He Hc. specialize (H e He). cbv beta in H. rewrite or_else_empty in H.
    apply test_cart in Hc. congruence.
Qed.

Lemma badgeText_spec (d : Dom) : Scripts.badgeText d = trim (badge_text d).
Proof.
  unfold Scripts.badgeText, badge_text, querySelector, Scripts.text_of.
  destruct (querySelectorAll d (qq "a[href*='/checkout'] span")) as [| badge l];
    cbn [hd_error]; [reflexivity |].
  destruct (innerText badge); [| reflexivity].
  cbn [or_else]. destruct (textContent badge); reflexivity.
Qed.

(** The in-page function returns a number, and that number is the cart
    count as the document gives it. *)
Lemma cartCount_spec (d : Dom) :
  exists n, Scripts.cartCount d = Some n /\ CartCount d n.
Proof.
  unfold Scripts.cartCount. cbv zeta. rewrite badgeText_spec, parseInt10_trim.
  destruct (parseInt10 (badge_text d)) as [n |] eqn:Hp.
  - exists n. split; [reflexivity |]. apply count_of_badge, parseInt10_sound, Hp.
  - pose proof (parseInt10_NaN _ Hp) as Hnan.
    pose proof (cartNode_spec d) as Hnode.
    destruct (Scripts.cartNode d) as [node |].
    + rewrite or_else_empty.
      destruct (firstDigitRun (innerText node)) as [m |] eqn:Hm.
      * destruct (firstDigitRun_some _ _ Hm) as (pre & rest & Hs & Hpre & HD & Hr).
        exists (to_double (decimal_value m)). split; [apply parseInt10_decimal, HD |].
        eapply count_of_cart_text; eassumption.
      * exists (Fin 0). split; [reflexivity |].
        eapply count_no_digits; [exact Hnan | exact Hnode |].
        apply firstDigitRun_none, Hm.
    + exists (Fin 0). split; [reflexivity |]. apply count_no_cart; assumption.
Qed.

(** A negative count comes from a badge whose text, leading white space
    apart, starts with a minus sign. *)
Lemma CartCount_negative (d : Dom) (n : Num) :
  CartCount d n -> num_neg n = true \/ n = NegZero ->
  exists ws rest, White ws /\ badge_text d = ws ^^ "-" ^^ rest.
Proof.
  intros H Hn. destruct H as [n Hp | node pre ds rest _ _ _ _ _ _ | node _ _ _ | _ _].
  - eapply ParseInt_negative; eassumption.
  - destruct (to_double_not_negative _ (decimal_value_nonneg ds)) as [H1 H2].
    destruct Hn; congruence.
  - destruct Hn as [Hn | Hn]; discriminate Hn.
  - destruct Hn as [Hn | Hn]; discriminate Hn.
Qed.

(** *** The count is determined by the document *)

Lemma digit_run_decimal (ds rest : string) :
  all_digits ds -> no_digit_ahead rest -> digit_run (ds ^^ rest) = ds.
Proof.
  intros Hd Hr. induction ds as [| c ds IH]; cbn [append].
  - destruct rest as [| c r]; [reflexivity |].
    cbn in Hr |- *. apply no_digit_is_digit in Hr. rewrite Hr. reflexivity.
  - destruct Hd as [Hc Hd]. apply digit_is_digit in Hc.
    cbn [digit_run]. rewrite Hc, (IH Hd). reflexivity.
Qed.

Lemma firstDigitRun_complete (pre ds rest : string) :
  digit_free pre -> Decimal ds -> no_digit_ahead rest ->
  firstDigitRun (pre ^^ ds ^^ rest) = Some ds.
Proof.
  intros Hp [Hne Hd] Hr. induction pre as [| c pre IH]; cbn [append].
  - destruct ds as [| c ds]; [congruence |].
    pose proof (digit_run_decimal (String c ds) rest Hd Hr) as Hrun.
    cbn [append] in Hrun |- *. cbn [firstDigitRun].
    destruct Hd as [Hc _]. apply digit_is_digit in Hc. rewrite Hc, Hrun. reflexivity.
  - destruct Hp as [Hc Hp]. apply no_digit_is_digit in Hc.
    cbn [firstDigitRun]. rewrite Hc. apply IH, Hp.
Qed.

Lemma firstDigitRun_digit_free (s : string) :
  digit_free s -> firstDigitRun s = None.
Proof.
  induction s as [| c s IH]; [reflexivity |]. intros [Hc Hs].
  apply no_digit_is_digit in Hc. cbn [firstDigitRun]. rewrite Hc. auto.
Qed.

Lemma first_unique {A} (P : A -> Prop) (l1 l1' l2 l2' : list A) (x y : A) :
  l1 ++ x :: l2 = l1' ++ y :: l2' ->
  P x -> P y -> (forall e, In e l1 -> ~ P e) -> (forall e, In e l1' -> ~ P e) ->
  x = y.
Proof.
  revert l1'. induction l1 as [| a l1 IH]; intros l1' H Hx Hy H1 H1'.
  - destruct l1' as [| a' l1']; cbn in H.
    + now injection H.
    + injection H as -> _. exfalso. apply (H1' a'); [left; reflexivity | exact Hx].
  - destruct l1' as [| a' l1']; cbn in H.
    + injection H as <- _. exfalso. apply (H1 a); [left; reflexivity | exact Hy].
    + injection H as _ H. apply (IH l1' H Hx Hy).
      * intros e He. apply H1. right. exact He.
      * intros e He. apply H1'. right. exact He.
Qed.

Lemma FirstCartNode_unique (d : Dom) (o o' : option Elem) :
  FirstCartNode d o -> FirstCartNode d o' -> o = o'.
Proof.
  destruct o as [n |], o' as [n' |]; cbn [FirstCartNode].
  - intros (b & a & Hl & Hn & Hb) (b' & a' & Hl' & Hn' & Hb').
    f_equal. rewrite Hl in Hl'.
    exact (first_unique (fun e => NamesCart (innerText e)) _ _ _ _ _ _ Hl' Hn Hn' Hb Hb').
  - intros (b & a & Hl & Hn & _) H. exfalso. apply (H n); [| exact Hn].
    rewrite Hl. apply in_or_app. right. left. reflexivity.
  - intros H (b & a & Hl & Hn & _). exfalso. apply (H n'); [| exact Hn].
    rewrite Hl. apply in_or_app. right. left. reflexivity.
  - reflexivity.
Qed.

(** The in-page function returns the count the document gives, and the
    document gives one count. *)
Lemma cartCount_complete (d : Dom) (n : Num) :
  CartCount d n -> Scripts.cartCount d = Some n.
Proof.
  intros H. unfold Scripts.cartCount. cbv zeta.
  rewrite badgeText_spec, parseInt10_trim.
  assert (Hnan : (forall m, ~ ParseInt (badge_text d) m) ->
                 parseInt10 (badge_text d) = None).
  { intros Hm. destruct (parseInt10 (badge_text d)) as [m |] eqn:Hp; [| reflexivity].
    exfalso. apply (Hm m), parseInt10_sound, Hp. }
  destruct H as [n Hp | node pre ds rest Hm Hnode Ht Hpre HD Hr | node Hm Hnode Hf
                 | Hm Hnode].
  - rewrite (parseInt10_complete _ _ Hp). reflexivity.
  - rewrite (Hnan Hm), (FirstCartNode_unique d _ _ (cartNode_spec d) Hnode).
    rewrite or_else_empty, Ht, (firstDigitRun_complete pre ds rest Hpre HD Hr).
    apply parseInt10_decimal, HD.
  - rewrite (Hnan Hm), (FirstCartNode_unique d _ _ (cartNode_spec d) Hnode).
    rewrite or_else_empty, (firstDigitRun_digit_free _ Hf). reflexivity.
  - rewrite (Hnan Hm), (FirstCartNode_unique d _ _ (cartNode_spec d) Hnode).
    reflexivity.
Qed.

Lemma cartCount_iff (d : Dom) (n : Num) :
  number_or_zero (Scripts.cartCount d) = n <-> CartCount d n.
Proof.
  destruct (cartCount_spec d) as (m & Hm & Hc). rewrite Hm. cbn [number_or_zero].
  split.
  - intros <-. exact Hc.
  - intros H. apply cartCount_complete in H. congruence.
Qed.

(** ** Symbolic execution of the automaton's accessors *)

Lemma wp_this_page {R L} st (Q : Completion R L Page -> St -> list Ev -> Prop) :
  (forall p, this_page st = Some p -> Q (Normal p) st []) ->
  (this_page st = None ->
   Q (Throw (mkError "TypeError: Cannot read properties of null")) st []) ->
  wp this_page_ st Q.
Proof.
  unfold wp, this_page_. destruct (this_page st); cbn; auto.
Qed.

Lemma wp_this_utils {R L} st (Q : Completion R L Utils -> St -> list Ev -> Prop) :
  (forall u, this_utils st = Some u -> Q (Normal u) st []) ->
  (this_utils st = None ->
   Q (Throw (mkError "TypeError: Cannot read properties of null")) st []) ->
  wp this_utils_ st Q.
Proof.
  unfold wp, this_utils_. destruct (this_utils st); cbn; auto.
Qed.

Ltac wp_auto_step :=
  first
    [ wp_step
    | lazymatch goal with
      | |- wp this_page_ _ _ =>
          first [ eapply wp_this_page_some; [solve [known] |]
                | apply wp_this_page; intros ]
      | |- wp this_utils_ _ _ =>
          first [ eapply wp_this_utils_some; [solve [known] |]
                | apply wp_this_utils; intros ]
      | |- wp (pg _) _ _ => unfold pg at 1
      | |- wp (evaluate_pure _ _ _ _) _ _ => unfold evaluate_pure at 1
      | |- wp (evaluate _ _ _ _) _ _ => unfold evaluate at 1
      | |- wp (ulog _ _) _ _ => unfold ulog at 1
      | |- wp (uwait _ _) _ _ => unfold uwait at 1
      | |- wp (page_query _ _ _) _ _ => unfold page_query at 1
      | |- wp (handle_click _ _) _ _ => unfold handle_click at 1
      | |- wpa (wait _ _) _ _ => unfold wait at 1
      end ].

(** ** getCartCount *)

(** One run of [getCartCount]: the state it is called in decides what
    it does. *)
Lemma getCartCount_spec (st : St) :
  let r := getCartCount drv st in
  match this_page st with
  | None => outcome r = Resolved (Fin 0) /\ events r = [] /\ post r = st
  | Some p =>
      match d_snapshot drv p "getCartCount" (world st) with
      | (inl _, w') =>
          outcome r = Resolved (Fin 0)
          /\ events r = [(CSnapshot p "getCartCount", false)]
          /\ post r = set_world st w'
      | (inr d, w') =>
          outcome r = Resolved (number_or_zero (Scripts.cartCount d))
          /\ events r = [(CSnapshot p "getCartCount", true)]
          /\ post r = set_world st w'
      end
  end.
Proof.
  cbv zeta.
  enough (H : wpa (getCartCount drv) st (fun o s t =>
    match this_page st with
    | None => o = Resolved (Fin 0) /\ t = [] /\ s = st
    | Some p =>
        match d_snapshot drv p "getCartCount" (world st) with
        | (inl _, w') =>
            o = Resolved (Fin 0) /\ t = [(CSnapshot p "getCartCount", false)]
            /\ s = set_world st w'
        | (inr d, w') =>
            o = Resolved (number_or_zero (Scripts.cartCount d))
            /\ t = [(CSnapshot p "getCartCount", true)]
            /\ s = set_world st w'
        end
    end)) by exact H.
  unfold getCartCount. repeat wp_auto_step; cbn [app];
    repeat match goal with
           | H : this_page st = _ |- _ => rewrite H
           | H : d_snapshot _ _ _ _ = _ |- _ => rewrite H
           end; repeat split.
Qed.

(** C9 (amended).  [getCartCount] is total and never rejects: it always
    resolves to a number, never to [NaN].  Without a page, and when the
    page evaluation fails, it resolves to 0.  When the evaluation succeeds
    it resolves to the count the document gives, and to nothing else: the
    number the text of the badge starts with (white space, an optional
    sign, digits; as a double, so rounded and possibly infinite); when
    that text starts with no number, the first run of digits in the text
    of the first link, span or div that names the cart; and 0 when there
    is no such element or no digit in its text.  The result is negative
    (or the negative zero) only when the badge text, leading white space
    apart, starts with a minus sign.  A failed read and a readable count
    of 0 are the same value for the caller. *)
Theorem getCartCount_total (st : St) :
  let r := getCartCount drv st in
  (exists n, outcome r = Resolved n)
  /\ (this_page st = None -> outcome r = Resolved (Fin 0) /\ events r = [])
  /\ (forall p, this_page st = Some p ->
        match d_snapshot drv p "getCartCount" (world st) with
        | (inl _, w') =>
            outcome r = Resolved (Fin 0)
            /\ events r = [(CSnapshot p "getCartCount", false)]
            /\ post r = set_world st w'
        | (inr d, w') =>
            (forall n, outcome r = Resolved n <-> CartCount d n)
            /\ (forall n, outcome r = Resolved n ->
                  num_neg n = true \/ n = NegZero ->
                  exists ws rest, White ws /\ badge_text d = ws ^^ "-" ^^ rest)
            /\ events r = [(CSnapshot p "getCartCount", true)]
            /\ post r = set_world st w'
        end).
Proof.
  intros r. pose proof (getCartCount_spec st) as H. cbv zeta in H. fold r in H.
  split; [| split].
  - destruct (this_page st) as [p |]; [| destruct H as [Ho _]; eauto].
    destruct (d_snapshot drv p "getCartCount" (world st)) as [[e | d] w'];
      destruct H as [Ho _]; eauto.
  - intros Hp. rewrite Hp in H. destruct H as (Ho & He & _). auto.
  - intros p Hp. rewrite Hp in H.
    destruct (d_snapshot drv p "getCartCount" (world st)) as [[e | d] w'];
      [exact H |].
    destruct H as (Ho & He & Hs).
    assert (Hiff : forall n, outcome r = Resolved n <-> CartCount d n).
    { intros n. rewrite Ho, <- cartCount_iff. split; [intros [= ->] | intros ->]; reflexivity. }
    split; [exact Hiff |]. split; [| split; assumption].
    intros n Hn Hneg. apply Hiff in Hn. eapply CartCount_negative; eassumption.
Qed.


(** ** handleCustomization *)

Section Customization.

Variable this : Automation.

Lemma handleCustomization_inv :
  inva any_event fields (handleCustomization drv this).
Proof. inv_go. Qed.

Lemma handleCustomization_calm : calma (handleCustomization drv this).
Proof. ctl_go. Qed.

End Customization.

(** ** The cart-count check of the Swiggy [addToCart] *)








Section CartCheck.

Variable this : Automation.











Lemma is_swiggy_not_lenskart :
  siteName this = "swiggy" -> is_lenskart this = false /\ is_swiggy this = true.
Proof. unfold is_lenskart, is_swiggy. intros ->. split; reflexivity. Qed.




End CartCheck.

(** ** The new-tab handoff of the Lenskart [addToCart] *)

Section Handoff.

Variable this : Automation.

Lemma wp_once_targetcreated {R L} st
      (Q : Completion R L TargetPromise -> St -> list Ev -> Prop) :
  this_browser st = true ->
  Q (Normal Listening) (set_world st (d_onceTargetCreated drv (world st)))
    [(COnceTargetCreated, true)] ->
  wp (once_targetcreated drv) st Q.
Proof. unfold wp, once_targetcreated. intros ->. auto. Qed.

Lemma wp_await_target {R L} st
      (Q : Completion R L (option Page) -> St -> list Ev -> Prop) :
  (forall newPage w',
      d_awaitTargetCreated drv (world st) = (Some newPage, w') ->
      Q (Normal newPage) (set_world st w') [(CAwaitTargetCreated, true)]) ->
  (forall w',
      d_awaitTargetCreated drv (world st) = (None, w') ->
      Q Pending (set_world st w') [(CAwaitTargetCreated, false)]) ->
  wp (await_target drv Listening) st Q.
Proof.
  unfold wp, await_target.
  destruct (d_awaitTargetCreated drv (world st)) as [[p |] w']; cbn; auto.
Qed.

(** The first lines of the Lenskart branch: the two console lines and the
    registration of the one-shot listener. *)
Definition handoff_prelude : list Ev :=
  [(CConsoleLog (icon "step" ^^ " " ^^ "Adding item to cart..."), true);
   (CConsoleLog (icon "info" ^^ " " ^^ "Clicking first product..."), true);
   (COnceTargetCreated, true)].

(** The state in which the product click starts. *)
Definition listening (st : St) : St :=
  set_world st (d_onceTargetCreated drv (world st)).

(** What a Lenskart [addToCart] that ended with promise [o] and trace [t]
    did, given the run [click] of its product click. *)
Definition handoff_post (click : Res (Promise bool)) (o : Promise bool)
           (t : list Ev) : Prop :=
  match outcome click with
  | Resolved false =>
      (* the click failed: reported at once, nothing is awaited *)
      o = Resolved false
      /\ t = handoff_prelude ++ events click
             ++ [(CConsoleLog (icon "error" ^^ " " ^^ "Failed to click product"), true)]
  | Resolved true =>
      exists fired rest,
        t = handoff_prelude ++ events click
            ++ [(CConsoleLog (icon "info" ^^ " " ^^ "Switching to product page tab..."), true);
                (CAwaitTargetCreated, fired)]
            ++ rest
        /\ match fired with
           | false =>
               (* no context was ever created: the await never completes *)
               o = Unsettled /\ rest = []
               /\ fst (d_awaitTargetCreated drv (world (post click))) = None
           | true => exists b, o = Resolved b
           end
  | Rejected _ | Unsettled => False
  end.

Lemma addToCart_lenskart_run u (st : St) :
  siteName this = "lenskart" -> this_utils st = Some u -> this_browser st = true ->
  wpa (addToCart drv this) st (fun o _ t =>
    handoff_post (clickElement drv u lenskart_product_selectors no_options (listening st))
                 o t).
Proof.
  intros Hsite Hu Hb.
  assert (Hl : is_lenskart this = true).
  { unfold is_lenskart. now rewrite Hsite. }
  unfold addToCart. rewrite Hl. unfold addToCart_lenskart, listening, handoff_post.
  wp_step. wp_step. repeat wp_auto_step.
  apply wp_once_targetcreated; [exact Hb |].
  wp_step. unfold uclickElement. repeat wp_auto_step.
  wp_use (wpa_block any_event _ (set_world st (d_onceTargetCreated drv (world st)))
            (clickElement_fields u lenskart_product_selectors no_options)
            (clickElement_calm u lenskart_product_selectors no_options)).
  intros o1 s1 t1 (_ & Hf & Hs1 & Ht1 & Ho1 & _).
  pose proof (clickElement_settles u lenskart_product_selectors no_options
                (set_world st (d_onceTargetCreated drv (world st)))) as [b Hcb].
  unfold wpa in Hcb. rewrite <- Ho1 in Hcb.
  rewrite <- Ho1, <- Ht1, <- Hs1. clear Ho1 Ht1 Hs1. subst o1.
  assert (Hu1 : this_utils s1 = Some u) by known.
  destruct b; cbn [negb].
  - (* the click went through *)
    repeat wp_auto_step.
    apply wp_await_target.
    + intros newPage w' Hfire.
      match goal with |- wp ?m ?s0 _ =>
        eapply wp_conseq;
          [apply (wp_block_on any_event (fun x => (this_utils x, this_browser x))
                    (fun _ : bool => True) m s0); [solve [inv_go] | solve [ctl_go]] |]
      end.
      cbv beta. intros o s' t' (_ & Hf' & Hk).
      assert (Hu' : this_utils s' = Some u).
      { apply pair_fst_eq in Hf'. rewrite Hf'. known. }
      destruct o as [c | v | [] | [] | e |]; try contradiction.
      * exists true, t'. split; [| eauto].
        unfold handoff_prelude. cbn [app]. rewrite <- ?app_assoc. reflexivity.
      * exists true, t'. split; [| eauto].
        unfold handoff_prelude. cbn [app]. rewrite <- ?app_assoc. reflexivity.
      * wp_step. unfold uscreenshot. repeat wp_auto_step.
        wp_use screenshot_settles.
        intros o2 s2 t2 ((path & ->) & _ & _ & _ & ok & line & Hline & ->).
        repeat wp_auto_step. eexists true, _. split; [| eauto].
        unfold handoff_prelude. cbn [app]. rewrite <- ?app_assoc. cbn [app].
        reflexivity.
    + intros w' Hnever. exists false, []. split.
      * unfold handoff_prelude. cbn [app]. rewrite <- ?app_assoc. reflexivity.
      * repeat split. now rewrite Hnever.
  - (* the click failed *)
    repeat wp_auto_step. split; [reflexivity |].
    unfold handoff_prelude. cbn [app]. rewrite <- ?app_assoc. reflexivity.
Qed.

(** X18.  In the Lenskart [addToCart] the one-shot listener for
    a new browsing context is registered before the product click.  When
    the click fails, [addToCart] reports failure at once and awaits
    nothing.  When the click goes through, the listener's promise is
    awaited without any timeout: if a context is created the run goes on
    and settles; if none is ever created the await never completes and
    [addToCart] never settles. *)
Theorem addToCart_handoff_wait u (st : St) :
  siteName this = "lenskart" -> this_utils st = Some u -> this_browser st = true ->
  let r := addToCart drv this st in
  handoff_post (clickElement drv u lenskart_product_selectors no_options (listening st))
               (outcome r) (events r).
Proof.
  intros Hsite Hu Hb r.
  exact (wpa_elim _ _ _ (addToCart_lenskart_run u st Hsite Hu Hb)).
Qed.

End Handoff.

(** ** More of utils.js *)

Section UtilsMore.

Variable u : Utils.

(** X1.  [screenshot] never rejects, and the capture alone decides
    what it resolves to.  It reads the clock once, then asks the page for
    one capture, handing it the path
    [screenshots/<site>/<name>_<timestamp>.png] made of the site of the
    utilities, the name given and the clock reading.  When the capture
    goes through it logs the file name and resolves to that path; when
    the capture throws it reports the error's message on the console and
    resolves to [null]. *)
Theorem screenshot_never_rejects name (st : St) :
  let r := screenshot drv u name st in
  let timestamp := fst (d_now drv (world st)) in
  let filename := name ^^ "_" ^^ of_Z timestamp ^^ ".png" in
  let filepath := "screenshots/" ^^ u_siteName u ^^ "/" ^^ filename in
  match d_screenshot drv (u_page u) filepath (snd (d_now drv (world st))) with
  | (inr _, w2) =>
      outcome r = Resolved (Some filepath)
      /\ events r = [(CDateNow, true); (CScreenshot (u_page u) name, true);
                     (CConsoleLog ("📸 Screenshot saved: " ^^ filename), true)]
      /\ post r = set_world st w2
  | (inl error, w2) =>
      outcome r = Resolved None
      /\ events r = [(CDateNow, true); (CScreenshot (u_page u) name, false);
                     (CConsoleError ("❌ Failed to take screenshot: " ^^ message error),
                      true)]
      /\ post r = set_world st w2
  end.
Proof.
  intros r timestamp filename filepath.
  assert (H : wpa (screenshot drv u name) st (fun o s t =>
            match d_screenshot drv (u_page u) filepath (snd (d_now drv (world st))) with
            | (inr _, w2) =>
                o = Resolved (Some filepath)
                /\ t = [(CDateNow, true); (CScreenshot (u_page u) name, true);
                        (CConsoleLog ("📸 Screenshot saved: " ^^ filename), true)]
                /\ s = set_world st w2
            | (inl error, w2) =>
                o = Resolved None
                /\ t = [(CDateNow, true); (CScreenshot (u_page u) name, false);
                        (CConsoleError ("❌ Failed to take screenshot: " ^^ message error),
                         true)]
                /\ s = set_world st w2
            end)).
  { unfold screenshot. wp_step. wp_step. wp_step.
    match goal with H : d_now drv (world st) = _ |- _ => rename H into Hnow end.
    subst filename filepath timestamp. rewrite Hnow. cbn [fst snd].
    wp_step. wp_step. wp_step;
      cbn [world set_world] in *;
      match goal with H : d_screenshot _ _ _ _ = _ |- _ => rewrite H end;
      repeat wp_step; cbn [app]; auto. }
  exact (wpa_elim _ _ _ H).
Qed.


(** *** waitForSelector *)

Lemma budgets_not_found q (sels : list Sel) :
  budgets (flat_map (not_found (u_page u) q) sels) = repeat q (length sels).
Proof.
  induction sels as [| s sels IH]; [reflexivity |].
  cbn [flat_map]. rewrite budgets_app, IH. reflexivity.
Qed.

(** X2.  [waitForSelector] hands every selector the whole timeout (10000
    ms when none is given), so a call may wait as many timeouts as it has
    selectors.  It rejects exactly when every selector was waited for in
    vain, once each, with an error whose message lists all the selectors;
    with no selector at all it rejects at once, without touching the
    page.  A selector it resolves to is one of the list. *)
Theorem waitForSelector_rejects_naming_all selectors timeout (st : St) :
  let sels := selectorArray selectors in
  let q := default 10000%Q timeout in
  let r := waitForSelector drv u selectors timeout st in
  budgets (events r) = repeat q (length (probes (events r)))
  /\ match outcome r with
     | Rejected e =>
         message e = "None of the selectors found: " ^^ join_sels sels
         /\ probes (events r) = map failed sels
     | Resolved sel => In sel sels
     | Unsettled => False
     end
  /\ (sels = [] -> events r = [] /\ exists e, outcome r = Rejected e).
Proof.
  intros sels q r.
  pose proof (waitForSelector_spec u selectors timeout st) as H.
  cbv zeta in H. apply wpa_elim in H. fold sels q r in H.
  destruct (outcome r) as [sel | e |] eqn:Ho; try contradiction.
  - destruct H as (pre & rest & Hs & He). repeat split.
    + rewrite He, budgets_app, probes_app, budgets_not_found, probes_not_found.
      rewrite length_app, length_map, repeat_app. reflexivity.
    + rewrite Hs. apply in_or_app. right. left. reflexivity.
    + rewrite Hs in H. destruct pre; discriminate H.
    + rewrite Hs in H. destruct pre; discriminate H.
  - destruct H as [-> He]. repeat split.
    + rewrite He, budgets_not_found, probes_not_found, length_map. reflexivity.
    + rewrite He. apply probes_not_found.
    + rewrite He, H. reflexivity.
    + eauto.
Qed.

(** *** typeText *)

Section TypeGrammar.

Variables (timeout : Q) (clearFirst pressEnter : bool) (text : option string).

Definition typing_line (sel : Sel) : Ev :=
  (CConsoleLog ("⌨️  Typing into: " ^^ sel_text sel), true).

Definition type_failed_line (sel : Sel) (msg : string) : Ev :=
  (CConsoleLog ("⚠️  Failed to type into " ^^ sel_text sel ^^ ": " ^^ msg), true).

(** The driver calls of one attempt, in order. *)
Definition type_calls (sel : Sel) : list Call :=
  [CWaitForSelector (u_page u) sel timeout true]
  ++ (if clearFirst then [CClick (u_page u) sel 3] else [])
  ++ [CType (u_page u) sel text 50]
  ++ (if pressEnter then [CKeyPress (u_page u) "Enter"] else []).

Definition went_through (c : Call) : Ev := (c, true).

(** One selector tried in vain: some of the calls went through, the
    next one threw, the rest was not made. *)
Definition type_fails (sel : Sel) (t : list Ev) : Prop :=
  exists done c rest msg,
    type_calls sel = done ++ c :: rest
    /\ t = typing_line sel :: map went_through done
           ++ [(c, false); type_failed_line sel msg].

(** One selector tried with success. *)
Definition type_succeeds (sel : Sel) : list Ev :=
  typing_line sel :: map went_through (type_calls sel)
  ++ [(CConsoleLog ("✅ Typed text: " ^^ default "undefined" text), true);
      (CWait 500, true)].

Inductive types_fail : list Sel -> list Ev -> Prop :=
| types_fail_nil : types_fail [] []
| types_fail_cons sel sels t1 t2 :
    type_fails sel t1 -> types_fail sels t2 -> types_fail (sel :: sels) (t1 ++ t2).

Ltac type_fails_here :=
  first [ eexists [], _, _, _; split; reflexivity
        | eexists [_], _, _, _; split; reflexivity
        | eexists [_; _], _, _, _; split; reflexivity
        | eexists [_; _; _], _, _, _; split; reflexivity ].

Lemma typeText_try_spec selector (st : St) :
  wp (typeText_try drv u timeout clearFirst pressEnter text selector) st (fun o _ t =>
    (o = Return true /\ t = type_succeeds selector)
    \/ (o = Normal tt /\ type_fails selector t)).
Proof.
  unfold typeText_try, type_fails, type_succeeds, type_calls, page_waitForSelector,
    page_click, page_type, keyboard_press.
  destruct clearFirst, pressEnter; unfold when_;
    repeat (first [apply wp_wait | wp_step]); cbn [app map];
    first [ left; split; reflexivity | right; split; [reflexivity |]; type_fails_here ].
Qed.

Lemma typeText_loop_spec sels : forall (st : St),
  wp (for_of (L:=Empty_set) sels tt (fun selector _ =>
        typeText_try drv u timeout clearFirst pressEnter text selector)) st (fun o _ t =>
    (o = Normal tt /\ types_fail sels t)
    \/ (exists pre sel rest t0,
          sels = pre ++ sel :: rest
          /\ types_fail pre t0
          /\ o = Return true
          /\ t = t0 ++ type_succeeds sel)).
Proof.
  induction sels as [| s sels IH]; intros st.
  - wp_step. left. split; [reflexivity | constructor].
  - wp_step. wp_use typeText_try_spec.
    intros o_ s_ ta [[-> ->] | [-> Hf]].
    + right. exists [], s, sels, []. repeat split. constructor.
    + wp_use IH. intros o' s' tb [[-> Hb] | (pre & sel & rest & t0 & -> & H0 & -> & ->)].
      * left. split; [reflexivity | constructor; assumption].
      * right. exists (s :: pre), sel, rest, (ta ++ t0).
        repeat split; [constructor; assumption | now rewrite app_assoc].
Qed.

Definition not_wait (c : Call) : Prop :=
  match c with CWaitForSelector _ _ _ _ => False | _ => True end.

Lemma probes_skip (l : list Call) (tl : list Ev) :
  Forall not_wait l ->
  probes (map went_through l ++ tl) = probes tl
  /\ budgets (map went_through l ++ tl) = budgets tl.
Proof.
  induction l as [| x l IHl]; intros Hl; [split; reflexivity |].
  inversion Hl as [| x' l' Hx Hl']; subst.
  destruct (IHl Hl') as [Hp Hb].
  destruct x; try contradiction; cbn; auto.
Qed.

Lemma type_fails_reading sel t :
  type_fails sel t -> map fst (probes t) = [sel] /\ budgets t = [timeout].
Proof.
  intros (done & c & rest & msg & Hc & ->). unfold type_calls in Hc.
  destruct done as [| c0 done].
  - cbn [app] in Hc. inversion Hc; subst. split; reflexivity.
  - cbn [app] in Hc. inversion Hc as [[H0 H1]]. subst c0.
    assert (Hq : Forall not_wait (done ++ c :: rest)).
    { rewrite <- H1. destruct clearFirst, pressEnter; repeat constructor. }
    apply Forall_app in Hq. destruct Hq as [Hd Hcr].
    inversion Hcr as [| c' rest' Hnc Hrest]; subst.
    cbn [map app went_through]. cbn [probes budgets].
    destruct (probes_skip done [(c, false); type_failed_line sel msg] Hd) as [Hp Hb].
    rewrite Hp, Hb. destruct c; try contradiction; split; reflexivity.
Qed.

Lemma types_fail_reading sels t :
  types_fail sels t ->
  map fst (probes t) = sels /\ budgets t = repeat timeout (length sels).
Proof.
  induction 1 as [| sel sels t1 t2 H1 H2 [IHp IHb]]; [split; reflexivity |].
  apply type_fails_reading in H1. destruct H1 as [Hp Hb].
  rewrite probes_app, budgets_app, map_app, Hp, Hb, IHp, IHb. split; reflexivity.
Qed.

Lemma type_succeeds_reading sel :
  probes (type_succeeds sel) = [(sel, true)] /\ budgets (type_succeeds sel) = [timeout].
Proof.
  unfold type_succeeds, type_calls. destruct clearFirst, pressEnter; split; reflexivity.
Qed.

End TypeGrammar.

(** X3.  [typeText] makes a single pass over its selectors: there is no
    retry, and every visibility wait gets the whole timeout (10000 ms when
    none is given).  For each selector it waits, triple-clicks when
    [clearFirst] (the default), types with a delay of 50 ms and presses
    Enter when [pressEnter]; the first selector for which all of these go
    through ends the call with [true], after a pause of 500 ms.  A call
    that throws abandons that selector only.  When no selector is left the
    failure is reported on the console and the call resolves to [false];
    it never rejects. *)
Theorem typeText_single_pass selectors text options (st : St) :
  let sels := selectorArray selectors in
  let timeout := default 10000%Q (topt_timeout options) in
  let clearFirst := default true (topt_clearFirst options) in
  let pressEnter := default false (topt_pressEnter options) in
  let r := typeText drv u selectors text options st in
  match outcome r with
  | Resolved true =>
      exists pre sel rest t0,
        sels = pre ++ sel :: rest
        /\ types_fail timeout clearFirst pressEnter text pre t0
        /\ events r = t0 ++ type_succeeds timeout clearFirst pressEnter text sel
        /\ map fst (probes (events r)) = pre ++ [sel]
        /\ budgets (events r) = repeat timeout (length pre + 1)
  | Resolved false =>
      exists t0,
        types_fail timeout clearFirst pressEnter text sels t0
        /\ events r = t0 ++ [(CConsoleError "❌ Failed to type into any selector", true)]
        /\ map fst (probes (events r)) = sels
        /\ budgets (events r) = repeat timeout (length sels)
  | Rejected _ | Unsettled => False
  end.
Proof.
  intros sels timeout clearFirst pressEnter r.
  assert (H : wpa (typeText drv u selectors text options) st (fun o _ t =>
            match o with
            | Resolved true =>
                exists pre sel rest t0,
                  sels = pre ++ sel :: rest
                  /\ types_fail timeout clearFirst pressEnter text pre t0
                  /\ t = t0 ++ type_succeeds timeout clearFirst pressEnter text sel
            | Resolved false =>
                exists t0,
                  types_fail timeout clearFirst pressEnter text sels t0
                  /\ t = t0 ++ [(CConsoleError "❌ Failed to type into any selector", true)]
            | Rejected _ | Unsettled => False
            end)).
  { unfold typeText. wp_step. cbv zeta. wp_step.
    fold sels timeout clearFirst pressEnter.
    wp_use typeText_loop_spec.
    intros o_ s_ ta [[-> Hf] | (pre & sel & rest & t0 & Hs & H0 & -> & ->)].
    - repeat wp_step. exists ta. split; [exact Hf | reflexivity].
    - exists pre, sel, rest, t0. repeat split; assumption. }
  apply wpa_elim in H. fold r in H.
  destruct (outcome r) as [[|] | e |]; try exact H.
  - destruct H as (pre & sel & rest & t0 & Hs & H0 & He).
    exists pre, sel, rest, t0. repeat split; try assumption.
    + apply types_fail_reading in H0. destruct H0 as [Hp _].
      destruct (type_succeeds_reading timeout clearFirst pressEnter text sel) as [Sp _].
      rewrite He, probes_app, map_app, Hp, Sp. reflexivity.
    + apply types_fail_reading in H0. destruct H0 as [_ Hb].
      destruct (type_succeeds_reading timeout clearFirst pressEnter text sel) as [_ Sb].
      rewrite He, budgets_app, Hb, Sb. change [timeout] with (repeat timeout 1).
      now rewrite <- repeat_app.
  - destruct H as (t0 & H0 & He). exists t0. repeat split; try assumption.
    + apply types_fail_reading in H0. destruct H0 as [Hp _].
      rewrite He, probes_app, map_app, Hp. cbn. now rewrite app_nil_r.
    + apply types_fail_reading in H0. destruct H0 as [_ Hb].
      rewrite He, budgets_app, Hb. cbn. now rewrite app_nil_r.
Qed.


(** *** closeModalIfPresent *)

(** X4.  When the probe of a selector finds the modal control,
    [closeModalIfPresent] clicks it through [clickElement], pauses for
    1000 ms and resolves to [true]: the result of the click is not looked
    at, so the call reports a closed modal also when every click attempt
    failed.  Escape is not pressed in such a run. *)
Theorem closeModalIfPresent_ignores_click selector (st : St) w' :
  d_waitForSelector drv (u_page u) selector 2000 true (world st) = (inr tt, w') ->
  let r := closeModalIfPresent drv u (One selector) st in
  let click := clickElement drv u (One selector) no_options (set_world st w') in
  outcome r = Resolved true
  /\ events r = [(CWaitForSelector (u_page u) selector 2000 true, true);
                 (CConsoleLog ("🚫 Closing modal with: " ^^ sel_text selector), true)]
                ++ events click ++ [(CWait 1000, true)].
Proof.
  intros Hw r click.
  assert (H : wpa (closeModalIfPresent drv u (One selector)) st (fun o _ t =>
            o = Resolved true
            /\ t = [(CWaitForSelector (u_page u) selector 2000 true, true);
                    (CConsoleLog ("🚫 Closing modal with: " ^^ sel_text selector), true)]
                   ++ events click ++ [(CWait 1000, true)])).
  { unfold closeModalIfPresent, closeModal_probe, elementExists, page_waitForSelector.
    cbn [selectorArray default].
    do 10 wp_step.
    - match goal with H : _ = (inr _, ?w) |- _ =>
        rewrite Hw in H; assert (Ew : w = w') by congruence; subst w; clear H end.
      repeat wp_step.
      wp_use (wpa_block any_event _ (set_world st w')
                (clickElement_fields u (One selector) no_options)
                (clickElement_calm u (One selector) no_options)).
      intros o1 s1 t1 (_ & Hf & Hs1 & Ht1 & Ho1 & _).
      pose proof (clickElement_settles u (One selector) no_options (set_world st w'))
        as [b Hcb].
      unfold wpa in Hcb. rewrite <- Ho1 in Hcb. clear Ho1. subst o1.
      wp_step. apply wp_wait. wp_step.
      split; [reflexivity |]. subst t1. cbn [app]. reflexivity.
    - match goal with H : _ = (inl _, _) |- _ => rewrite Hw in H; discriminate H end. }
  exact (wpa_elim _ _ _ H).
Qed.

(** *** scrollToElement *)

(** X5.  [scrollToElement] never rejects.  It resolves to [true], after
    a pause of 500 ms, whenever the in-page function ran: also when the
    selector finds no element, in which case nothing is scrolled.  It
    resolves to [false], reporting the error on the console and without
    the pause, only when the evaluation itself throws. *)
Theorem scrollToElement_true_without_element selector (st : St) :
  let r := scrollToElement drv u selector st in
  let p := u_page u in
  match outcome r with
  | Resolved true =>
      exists d w',
        d_snapshot drv p "scrollIntoView" (world st) = (inr d, w')
        /\ events r =
             [(CSnapshot p "scrollIntoView", true);
              (CDomActs p "scrollIntoView"
                 (match querySelector d (sel_text selector) with
                  | Some element => [AScrollIntoView (eid element)]
                  | None => []
                  end), true);
              (CWait 500, true)]
  | Resolved false =>
      exists msg,
        events r = [(CSnapshot p "scrollIntoView", false);
                    (CConsoleError ("❌ Failed to scroll to element: " ^^ msg), true)]
  | Rejected _ | Unsettled => False
  end.
Proof.
  intros r p.
  assert (H : wpa (scrollToElement drv u selector) st (fun o _ t =>
            match o with
            | Resolved true =>
                exists d w',
                  d_snapshot drv p "scrollIntoView" (world st) = (inr d, w')
                  /\ t = [(CSnapshot p "scrollIntoView", true);
                          (CDomActs p "scrollIntoView"
                             (match querySelector d (sel_text selector) with
                              | Some element => [AScrollIntoView (eid element)]
                              | None => []
                              end), true);
                          (CWait 500, true)]
            | Resolved false =>
                exists msg,
                  t = [(CSnapshot p "scrollIntoView", false);
                       (CConsoleError ("❌ Failed to scroll to element: " ^^ msg), true)]
            | Rejected _ | Unsettled => False
            end)).
  { unfold scrollToElement, evaluate.
    repeat (first [apply wp_wait | wp_step]); cbn [app].
    - match goal with H : d_snapshot _ _ _ _ = (inr ?d, ?w) |- _ =>
        exists d, w; split; [exact H |] end.
      unfold PageScripts.scrollIntoView.
      destruct (querySelector _ _); reflexivity.
    - eauto. }
  exact (wpa_elim _ _ _ H).
Qed.

End UtilsMore.

(** ** Stepping through the calls on [this.utils] *)

(** [suffix l t]: the trace [t] ends with [l]. *)
Definition suffix (l t : list Ev) : Prop := exists pre, t = pre ++ l.

Lemma suffix_refl l : suffix l l.
Proof. exists []. reflexivity. Qed.

Lemma suffix_app l t1 t2 : suffix l t2 -> suffix l (t1 ++ t2).
Proof. intros [pre ->]. exists (t1 ++ pre). now rewrite app_assoc. Qed.

Lemma suffix_cons l a t : suffix l t -> suffix l (a :: t).
Proof. intros [pre ->]. exists (a :: pre). reflexivity. Qed.

Lemma suffix_in l t e : suffix l t -> In e l -> In e t.
Proof. intros [pre ->] H. apply in_or_app. right. exact H. Qed.

Lemma suffix_join l1 l2 t : suffix l1 t -> suffix (l1 ++ l2) (t ++ l2).
Proof. intros [pre ->]. exists pre. now rewrite app_assoc. Qed.

(** Descend to the part [x] of a trace. *)
Ltac suffix_upto x :=
  repeat (lazymatch goal with
          | |- suffix _ (x ++ _) => fail
          | |- suffix _ (_ ++ _) => apply suffix_app
          end).

Ltac suffix_go :=
  repeat first [ apply suffix_refl | apply suffix_app | apply suffix_cons ].

(** Membership in a trace that is a chain of appends. *)
Ltac in_here :=
  first [ eassumption | cbn [In]; first [ left; reflexivity | right; in_here ] ].

Ltac in_go :=
  first [ apply in_or_app; first [ left; solve [in_go] | right; solve [in_go] ]
        | solve [in_here] ].

Lemma wp_if_negb_true {R L A} (m1 m2 : M (W:=W) R L A) st Q :
  wp m2 st Q -> wp (if negb true then m1 else m2) st Q.
Proof. exact (fun H => H). Qed.

Lemma wp_if_negb_false {R L A} (m1 m2 : M (W:=W) R L A) st Q :
  wp m1 st Q -> wp (if negb false then m1 else m2) st Q.
Proof. exact (fun H => H). Qed.

Lemma wp_when_true {R L} (m : M (W:=W) R L unit) st Q :
  wp m st Q -> wp (when_ true m) st Q.
Proof. exact (fun H => H). Qed.

Lemma wp_when_false {R L} (m : M (W:=W) R L unit) st Q :
  wp (ret tt) st Q -> wp (when_ false m) st Q.
Proof. exact (fun H => H). Qed.

Lemma wp_when_negb_true {R L} (m : M (W:=W) R L unit) st Q :
  wp (ret tt) st Q -> wp (when_ (negb true) m) st Q.
Proof. exact (fun H => H). Qed.

Lemma wp_when_negb_false {R L} (m : M (W:=W) R L unit) st Q :
  wp m st Q -> wp (when_ (negb false) m) st Q.
Proof. exact (fun H => H). Qed.

(** [try { body } catch (e) { handler }], from what is known of the body. *)
Lemma wp_try_catch_post {R L A} (body : M R L A) handler st
      (B Q : Completion R L A -> St -> list Ev -> Prop) :
  wp body st B ->
  (forall o s t, B o s t ->
     match o with
     | Throw e => wp (handler e) s (fun o' s' t' => Q o' s' (t ++ t'))
     | _ => Q o s t
     end) ->
  wp (try_catch body handler) st Q.
Proof.
  intros Hb HQ. apply wp_try_catch. eapply wp_conseq; [exact Hb |].
  cbv beta. intros o s t H. apply HQ. exact H.
Qed.

Section UtilsCalls.

Variable u : Utils.

Lemma wp_ulog {R L} message type st (Q : Completion R L unit -> St -> list Ev -> Prop) :
  this_utils st = Some u ->
  Q (Normal tt) st [(CConsoleLog (icon type ^^ " " ^^ message), true)] ->
  wp (ulog message type) st Q.
Proof.
  intros Hu HQ. unfold ulog. wp_step.
  eapply wp_this_utils_some; [exact Hu |]. unfold log. wp_step. exact HQ.
Qed.

Lemma wp_uwait {R L} ms st (Q : Completion R L unit -> St -> list Ev -> Prop) :
  this_utils st = Some u ->
  Q (Normal tt) (set_world st (d_wait drv ms (world st))) [(CWait ms, true)] ->
  wp (uwait drv ms) st Q.
Proof.
  intros Hu HQ. unfold uwait. wp_step.
  eapply wp_this_utils_some; [exact Hu |]. apply wp_wait. exact HQ.
Qed.

Lemma wp_uscreenshot {R L} name st
      (Q : Completion R L (option string) -> St -> list Ev -> Prop) :
  this_utils st = Some u ->
  (forall path s ok line,
      fields s = fields st -> screenshot_line line ->
      Q (Normal path) s [(CDateNow, true); (CScreenshot (u_page u) name, ok); line]) ->
  wp (uscreenshot drv name) st Q.
Proof.
  intros Hu HQ. unfold uscreenshot. wp_step.
  eapply wp_this_utils_some; [exact Hu |]. wp_step.
  wp_use screenshot_settles.
  intros o s t ((path & ->) & Hu' & Hp' & Hb' & ok & line & Hline & ->).
  cbn [app]. apply HQ; [| exact Hline].
  unfold fields. rewrite Hu', Hp', Hb'. reflexivity.
Qed.

Lemma wp_uclickElement {R L} sels st
      (Q : Completion R L bool -> St -> list Ev -> Prop) :
  this_utils st = Some u ->
  (forall b s,
      outcome (clickElement drv u sels no_options st) = Resolved b ->
      fields s = fields st ->
      Q (Normal b) s (events (clickElement drv u sels no_options st))) ->
  wp (uclickElement drv sels) st Q.
Proof.
  intros Hu HQ. unfold uclickElement. wp_step.
  eapply wp_this_utils_some; [exact Hu |]. wp_step.
  pose proof (clickElement_settles u sels no_options st) as [b Hb].
  unfold wpa in Hb.
  wp_use (wpa_block any_event _ st
            (clickElement_fields u sels no_options)
            (clickElement_calm u sels no_options)).
  intros o s t (_ & Hf & _ & Ht & Ho & _).
  rewrite Hb in Ho. subst o t.
  cbn [app]. apply HQ; [exact Hb | exact Hf].
Qed.

(** An awaited call that always resolves and keeps the fields. *)
Lemma wp_await_resolved {R L A} (f : Async A) st
      (Q : Completion R L A -> St -> list Ev -> Prop) :
  inva any_event fields f ->
  (exists a, outcome (f st) = Resolved a) ->
  (forall a s t, fields s = fields st -> Q (Normal a) s t) ->
  wp (await f) st Q.
Proof.
  intros Hi [a Ha] HQ. apply wp_await. unfold wpa. rewrite Ha.
  apply HQ. apply Hi.
Qed.

Lemma closeModalIfPresent_fields sels :
  inva any_event fields (closeModalIfPresent drv u sels).
Proof. inv_go. Qed.

Lemma closeModalIfPresent_resolves sels st :
  exists b, outcome (closeModalIfPresent drv u sels st) = Resolved b.
Proof.
  pose proof (closeModalIfPresent_spec u sels st) as H. cbv zeta in H.
  apply wpa_elim in H.
  destruct (outcome (closeModalIfPresent drv u sels st)) as [b | e |];
    [eauto | contradiction | contradiction].
Qed.

Lemma wp_ucloseModalIfPresent {R L} sels st
      (Q : Completion R L bool -> St -> list Ev -> Prop) :
  this_utils st = Some u ->
  (forall b s t, fields s = fields st -> Q (Normal b) s t) ->
  wp (ucloseModalIfPresent drv sels) st Q.
Proof.
  intros Hu HQ. unfold ucloseModalIfPresent. wp_step.
  eapply wp_this_utils_some; [exact Hu |].
  apply wp_await_resolved;
    [apply closeModalIfPresent_fields | apply closeModalIfPresent_resolves |].
  intros b s t Hf. cbn [app]. apply HQ. exact Hf.
Qed.

(** A block that keeps the fields: the utilities are still there. *)
Lemma wp_block_utils {R L A} (P : Ev -> Prop) (Qr : R -> Prop) (m : M R L A) st :
  inv P fields m -> ctl Qr m ->
  this_utils st = Some u ->
  wp m st (fun o s t =>
    this_utils s = Some u /\ Forall P t
    /\ match o with
       | Return v => Qr v
       | Pending => False
       | _ => True
       end).
Proof.
  intros Hi Hc Hu.
  eapply wp_conseq; [apply (wp_block P Qr m st Hi Hc) |].
  cbv beta. intros o s t (HP & Hf & _ & _ & _ & Ho).
  split; [eapply fields_utils; eassumption |]. split; [exact HP | exact Ho].
Qed.

(** [safe P m]: with the utilities in place, [m] completes normally,
    keeps the automaton's fields, and emits only events that satisfy
    [P]. *)
Definition safe {R L A} (P : Ev -> Prop) (m : M (W:=W) R L A) : Prop :=
  forall st, this_utils st = Some u ->
    wp m st (fun o s t =>
      fields s = fields st /\ Forall P t /\ exists a, o = Normal a).

(** A block whose exceptions end in a handler that only logs. *)
Lemma safe_try_catch {R A} (P : Ev -> Prop) (body : M R Empty_set A)
      (handler : JsError -> M R Empty_set A) :
  inv P fields body -> ctl (fun _ => False) body ->
  (forall e, safe P (handler e)) ->
  safe P (try_catch body handler).
Proof.
  intros Hi Hc Hh st Hu.
  apply (wp_try_catch_post _ _ _ (fun o s t =>
           fields s = fields st /\ Forall P t
           /\ match o with Normal _ | Throw _ => True | _ => False end)).
  - eapply wp_conseq; [apply (wp_block P (fun _ => False) body st Hi Hc) |].
    cbv beta. intros o s t (HP & Hf & _ & _ & _ & Ho).
    split; [exact Hf |]. split; [exact HP |].
    destruct o as [a | v | [] | [] | e |]; try exact I; contradiction.
  - cbv beta. intros o s t (Hf & HP & Ho).
    destruct o as [a | v | [] | [] | e |]; try contradiction.
    + split; [exact Hf |]. split; [exact HP | eauto].
    + eapply wp_conseq; [apply Hh; eapply fields_utils; eassumption |]. cbv beta.
      intros o' s' t' (Hf' & HP' & Ho'). split; [congruence |].
      split; [apply Forall_app; auto | exact Ho'].
Qed.

Lemma safe_bind {R L A B} (P : Ev -> Prop) (m : M R L A) (k : A -> M R L B) :
  safe P m -> (forall a, safe P (k a)) -> safe P (bind m k).
Proof.
  intros Hm Hk st Hu. apply wp_bind.
  eapply wp_conseq; [apply Hm; exact Hu |]. cbv beta.
  intros o s t (Hf & HP & a & ->).
  eapply wp_conseq; [apply Hk; eapply fields_utils; eassumption |]. cbv beta.
  intros o' s' t' (Hf' & HP' & Ho'). split; [congruence |].
  split; [apply Forall_app; auto | exact Ho'].
Qed.

Lemma safe_ret {R L A} (P : Ev -> Prop) (a : A) : safe (R:=R) (L:=L) P (ret a).
Proof.
  intros st Hu. apply wp_ret. split; [reflexivity |]. split; [constructor | eauto].
Qed.

Lemma safe_ulog {R L} (P : Ev -> Prop) message type :
  P (CConsoleLog (icon type ^^ " " ^^ message), true) ->
  safe (R:=R) (L:=L) P (ulog message type).
Proof.
  intros HP st Hu. eapply wp_ulog; [exact Hu |].
  split; [reflexivity |]. split; [repeat constructor; exact HP | eauto].
Qed.

Lemma safe_uwait {R L} (P : Ev -> Prop) ms :
  P (CWait ms, true) -> safe (R:=R) (L:=L) P (uwait drv ms).
Proof.
  intros HP st Hu. eapply wp_uwait; [exact Hu |].
  split; [reflexivity |]. split; [repeat constructor; exact HP | eauto].
Qed.

Lemma safe_uscreenshot {R L} (P : Ev -> Prop) name :
  P (CDateNow, true) ->
  (forall ok, P (CScreenshot (u_page u) name, ok)) ->
  (forall line, screenshot_line line -> P line) ->
  safe (R:=R) (L:=L) P (uscreenshot drv name).
Proof.
  intros H1 H2 H3 st Hu. eapply wp_uscreenshot; [exact Hu |].
  intros path s ok line Hf Hl. split; [exact Hf |].
  split; [repeat constructor; auto | eauto].
Qed.

Lemma safe_when {R L} (P : Ev -> Prop) (c : bool) (m : M R L unit) :
  safe P m -> safe P (when_ c m).
Proof. intros Hm. destruct c; [exact Hm | apply safe_ret]. Qed.

Lemma safe_await {R L A} (P : Ev -> Prop) (f : Async A) :
  inva P fields f -> (forall st, exists a, outcome (f st) = Resolved a) ->
  safe (R:=R) (L:=L) P (await f).
Proof.
  intros Hi Hr st Hu. apply wp_await. unfold wpa.
  destruct (Hr st) as [a Ha]. rewrite Ha. destruct (Hi st) as [HP Hf].
  split; [exact Hf |]. split; [exact HP | eauto].
Qed.

Lemma safe_uclickElement {R L} (P : Ev -> Prop) sels :
  inva P fields (clickElement drv u sels no_options) ->
  safe (R:=R) (L:=L) P (uclickElement drv sels).
Proof.
  intros Hi st Hu. unfold uclickElement. apply wp_bind.
  eapply wp_this_utils_some; [exact Hu |].
  eapply wp_conseq;
    [apply (safe_await P (clickElement drv u sels no_options) Hi); [| exact Hu] |].
  - intros st'. exact (clickElement_settles u sels no_options st').
  - cbv beta. auto.
Qed.

Lemma safe_ucloseModalIfPresent {R L} (P : Ev -> Prop) sels :
  inva P fields (closeModalIfPresent drv u sels) ->
  safe (R:=R) (L:=L) P (ucloseModalIfPresent drv sels).
Proof.
  intros Hi st Hu. unfold ucloseModalIfPresent. apply wp_bind.
  eapply wp_this_utils_some; [exact Hu |].
  eapply wp_conseq;
    [apply (safe_await P (closeModalIfPresent drv u sels) Hi); [| exact Hu] |].
  - intros st'. apply closeModalIfPresent_resolves.
  - cbv beta. auto.
Qed.

(** Stepping over a safe statement. *)
Lemma wp_safe_bind {R L A B} (P : Ev -> Prop) (m : M R L A) (k : A -> M R L B) st
      (Q : Completion R L B -> St -> list Ev -> Prop) :
  safe P m -> this_utils st = Some u ->
  (forall a s t1,
      fields s = fields st -> Forall P t1 ->
      wp (k a) s (fun o s' t' => Q o s' (t1 ++ t'))) ->
  wp (bind m k) st Q.
Proof.
  intros Hm Hu Hk. apply wp_bind.
  eapply wp_conseq; [apply Hm; exact Hu |]. cbv beta.
  intros o s t (Hf & HP & a & ->). apply Hk; assumption.
Qed.

End UtilsCalls.

Ltac wp_run_step :=
  cbv beta iota;
  first
    [ lazymatch goal with
      | H : negb true = true |- _ => exfalso; cbn in H; discriminate H
      | H : negb false = false |- _ => exfalso; cbn in H; discriminate H
      end
    | lazymatch goal with
      | |- wp (if negb true then _ else _) _ _ => apply wp_if_negb_true
      | |- wp (if negb false then _ else _) _ _ => apply wp_if_negb_false
      | |- wp (when_ true _) _ _ => apply wp_when_true
      | |- wp (when_ false _) _ _ => apply wp_when_false
      | |- wp (when_ (negb true) _) _ _ => apply wp_when_negb_true
      | |- wp (when_ (negb false) _) _ _ => apply wp_when_negb_false
      end
    | lazymatch goal with
      | |- wp (ulog _ _) _ _ => eapply wp_ulog; [solve [known] |]
      | |- wp (uwait _ _) _ _ => eapply wp_uwait; [solve [known] |]
      | |- wp (uscreenshot _ _) _ _ =>
          eapply wp_uscreenshot; [solve [known] | intros ? ? ? ? ? ?]
      | |- wp (uclickElement _ _) _ _ =>
          eapply wp_uclickElement; [solve [known] | intros ? ? ? ?]
      | |- wp (ucloseModalIfPresent _ _) _ _ =>
          eapply wp_ucloseModalIfPresent; [solve [known] | intros ? ? ? ?]
      | |- wp (await (wait _ _)) _ _ => apply wp_wait
      end
    | wp_auto_step
    | lazymatch goal with
      | |- wp (keyboard_press _ _ _) _ _ => unfold keyboard_press at 1
      | |- wp (keyboard_down _ _ _) _ _ => unfold keyboard_down at 1
      | |- wp (keyboard_up _ _ _) _ _ => unfold keyboard_up at 1
      | |- wp (keyboard_type _ _ _ _) _ _ => unfold keyboard_type at 1
      | |- wp (page_click _ _ _ _) _ _ => unfold page_click at 1
      | |- wp (page_type _ _ _ _ _) _ _ => unfold page_type at 1
      | |- wp (page_focus _ _ _) _ _ => unfold page_focus at 1
      | |- wp (page_waitForSelector _ _ _ _ _) _ _ => unfold page_waitForSelector at 1
      | |- wp (page_queryXPath _ _ _) _ _ => unfold page_queryXPath at 1
      | |- wp (handle_type _ _ _ _) _ _ => unfold handle_type at 1
      | |- wp (handle_boundingBox _ _) _ _ => unfold handle_boundingBox at 1
      | |- wp (mouse_press_at _ _ _ _) _ _ => unfold mouse_press_at at 1
      | |- wp (clear_field _) _ _ => unfold clear_field at 1
      | |- wp (this_browser_) _ _ => unfold wp, this_browser_; cbn [outcome post events]
      end ].

Ltac wp_run := repeat wp_run_step.

(** Run up to the next [try] block, or up to the next test. *)
Ltac wp_to_try :=
  repeat (lazymatch goal with
          | |- wp (try_catch _ _) _ _ => fail
          | _ => wp_run_step
          end).

(** Run up to the statement whose head is [h]. *)
Tactic Notation "wp_upto" constr(h) :=
  repeat (cbv beta iota;
          lazymatch goal with
          | |- wp ?m _ _ =>
              let hd := head_of m in
              lazymatch hd with
              | h => fail
              | _ => wp_run_step
              end
          end).

Ltac wp_to_if :=
  repeat (cbv beta iota;
          lazymatch goal with
          | |- wp (if _ then _ else _) _ _ => fail
          | _ => wp_run_step
          end).


(** Stepping over a statement that does not return from the function:
    only the automaton's fields are remembered. *)
Ltac skip_stmt :=
  eapply (wp_skip any_event (fun _ => False));
  [ solve [inv_go]
  | solve [ctl_go]
  | intros ? ? ? _ ? _
  | intros ? ? ? []
  | intros ? ? ? _ ? ].

(** Side conditions on events. *)
Ltac safe_side :=
  try solve [ assumption | exact I | reflexivity | intros; exact I
            | cbn; (reflexivity || discriminate || exact I)
            | intros ? [[? ->] | [? ->]]; cbn; (reflexivity || exact I) ].

Ltac safe_step :=
  lazymatch goal with
  | |- safe _ _ (bind _ _) => apply safe_bind; [| intros ?]
  | |- safe _ _ (ret _) => apply safe_ret
  | |- safe _ _ (ulog _ _) => apply safe_ulog; safe_side
  | |- safe _ _ (uwait _ _) => apply safe_uwait; safe_side
  | |- safe _ _ (uscreenshot _ _) => apply safe_uscreenshot; safe_side
  | |- safe _ _ (uclickElement _ _) => apply safe_uclickElement; solve [inv_go]
  | |- safe _ _ (ucloseModalIfPresent _ _) =>
      apply safe_ucloseModalIfPresent; solve [inv_go]
  | |- safe _ _ (when_ _ _) => apply safe_when
  | |- safe _ _ (try_catch _ _) =>
      apply safe_try_catch; [solve [inv_go] | solve [ctl_go] | intros ?]
  | |- safe _ _ (if ?c then _ else _) => destruct c
  | |- safe _ _ (match ?x with _ => _ end) => destruct x
  | |- safe _ _ (fun _ => _) => fail "stuck"
  | |- safe _ _ ?m => let h := head_of m in unfold h
  end.

Ltac safe_go := repeat safe_step.

(** Stepping over a safe statement: its events satisfy [P]. *)
Ltac safe_stmt P :=
  eapply (wp_safe_bind _ P);
  [ solve [safe_go] | solve [known] | intros ? ? ? ? ? ].

(** ** The phases around [addToCart] *)

Section Phases.

Variable this : Automation.
Variable u : Utils.

(** *** openCartTopbar *)

Definition cart_selectors : Selectors :=
  Many [selector (cfg this) "cartIcon";
        Some (qq "a[href*='/checkout']");
        Some (qq "a:has-text('Cart')");
        Some (qq "span:has-text('Cart')")].

(** X6.  On an initialised automaton [openCartTopbar] never rejects and
    resolves to what its click on the cart control resolved to.  After a
    successful click it waits for the page load time, takes the
    [07_cart_page] screenshot and logs success, whether or not the
    capture went through; after a failed one it logs a warning and does
    nothing else. *)
Theorem openCartTopbar_reports_click (st : St) :
  this_utils st = Some u ->
  let click := clickElement drv u cart_selectors no_options st in
  let r := openCartTopbar drv this st in
  exists b,
    outcome click = Resolved b
    /\ outcome r = Resolved b
    /\ if b then
         exists ok line,
           screenshot_line line
           /\ events r =
                (CConsoleLog (icon "step" ^^ " " ^^ "Opening cart..."), true)
                :: events click
                ++ [(CWait (cfg_pageLoad (cfg this)), true);
                    (CDateNow, true); (CScreenshot (u_page u) "07_cart_page", ok); line;
                    (CConsoleLog (icon "success" ^^ " " ^^ "Opened cart page"), true)]
       else
         events r =
           (CConsoleLog (icon "step" ^^ " " ^^ "Opening cart..."), true)
           :: events click
           ++ [(CConsoleLog (icon "warning" ^^ " " ^^ "Cart button not found"), true)].
Proof.
  intros Hu click r.
  assert (H : wpa (openCartTopbar drv this) st (fun o _ t =>
            exists b,
              outcome click = Resolved b /\ o = Resolved b
              /\ if b then
                   exists ok line,
                     screenshot_line line
                     /\ t = (CConsoleLog (icon "step" ^^ " " ^^ "Opening cart..."), true)
                            :: events click
                            ++ [(CWait (cfg_pageLoad (cfg this)), true);
                                (CDateNow, true);
                                (CScreenshot (u_page u) "07_cart_page", ok); line;
                                (CConsoleLog (icon "success" ^^ " " ^^ "Opened cart page"),
                                 true)]
                 else
                   t = (CConsoleLog (icon "step" ^^ " " ^^ "Opening cart..."), true)
                       :: events click
                       ++ [(CConsoleLog (icon "warning" ^^ " " ^^ "Cart button not found"),
                            true)])).
  { unfold openCartTopbar. fold cart_selectors.
    wp_run;
      match goal with Hn : negb ?b = _ |- _ => destruct b; try discriminate Hn end.
    - exists false. split; [assumption |]. split; reflexivity.
    - exists true. split; [assumption |]. split; [reflexivity |].
      eexists _, _. split; [eassumption | reflexivity]. }
  exact (wpa_elim _ _ _ H).
Qed.


(** *** setLocation *)

(** A location was chosen by a click on a suggestion, or by Enter. *)
Definition enter_or_suggestion (p : Page) (t : list Ev) : Prop :=
  In (CKeyPress p "Enter", true) t
  \/ exists e, In (CDomActs p "pickLocation" [AClick e], true) t.

(** Key presses and typing. *)
Definition no_keys (e : Ev) : Prop :=
  match fst e with
  | CKeyDown _ _ | CKeyUp _ _ | CKeyPress _ _ | CKeyType _ _ _ | CType _ _ _ _ => False
  | _ => True
  end.

Lemma clickElement_no_keys sels options :
  inva no_keys fields (clickElement drv u sels options).
Proof. inv_go. Qed.

Lemma pickLocation_clicks d :
  fst (PageScripts.pickLocation d) = true ->
  exists e, snd (PageScripts.pickLocation d) = [AClick e].
Proof.
  unfold PageScripts.pickLocation.
  destruct (find _ _); cbn; [eauto | discriminate].
Qed.

Definition location_set (p : Page) : list Ev :=
  [(CKeyPress p "Escape", true); (CWait 1000, true);
   (CConsoleLog (icon "success" ^^ " " ^^ "Location set successfully"), true)].

Definition setLocation_post (p : Page) (o : Promise bool) (t : list Ev) : Prop :=
  match o with
  | Resolved true =>
      if cfg_requiresLocation (cfg this) then
        suffix (location_set p) t /\ enter_or_suggestion p t
      else
        t = [(CConsoleLog (icon "info" ^^ " " ^^ "Location not required for this site"), true)]
  | Resolved false =>
      cfg_requiresLocation (cfg this) = true
      /\ (suffix [(CConsoleLog (icon "warning" ^^ " " ^^ "Location input not found"), true)] t
          /\ Forall no_keys t
          \/ exists msg ok line,
               screenshot_line line
               /\ suffix [(CConsoleLog (icon "error" ^^ " " ^^ "Location setting failed: " ^^ msg), true);
                          (CDateNow, true); (CScreenshot (u_page u) "error_location", ok);
                          line] t)
  | Rejected _ | Unsettled => False
  end.

(** What is known of the [try] block of [setLocation]. *)
Definition setLocation_tried (p : Page) (o : Completion bool Empty_set bool)
           (s : St (W:=W)) (t : list Ev) : Prop :=
  this_utils s = Some u
  /\ match o with
     | Return true => suffix (location_set p) t /\ enter_or_suggestion p t
     | Return false =>
         suffix [(CConsoleLog (icon "warning" ^^ " " ^^ "Location input not found"), true)] t
         /\ Forall no_keys t
     | Throw _ => True
     | _ => False
     end.

Lemma enter_or_suggestion_app p t1 t2 :
  enter_or_suggestion p t2 -> enter_or_suggestion p (t1 ++ t2).
Proof.
  intros [H | [e H]]; [left | right; exists e]; apply in_or_app; right; exact H.
Qed.

Lemma setLocation_run p (st : St) :
  this_utils st = Some u -> this_page st = Some p ->
  wpa (setLocation drv this) st (fun o _ t => setLocation_post p o t).
Proof.
  intros Hu Hp. unfold setLocation, setLocation_post.
  destruct (cfg_requiresLocation (cfg this)) eqn:Hreq.
  - wp_to_try.
    apply (wp_try_catch_post _ _ _ (setLocation_tried p)).
    + unfold setLocation_tried.
      wp_to_if. destruct b; cbv beta iota.
      * (* the input was clicked *)
        wp_run_step.
        do 7 (skip_stmt; [| split; [known | exact I]]).
        unfold setLocation_pick. wp_run;
          (split; [known |]);
          try exact I;
          try match goal with
              | Hc : fst (PageScripts.pickLocation _) = true |- _ =>
                  apply pickLocation_clicks in Hc; destruct Hc as [el Hel]; rewrite Hel
              end;
          (split; [unfold location_set; suffix_go |]);
          first [ left; solve [in_go] | right; eexists; solve [in_go] ].
      * (* the click on the input failed *)
        wp_run. split; [known |]. split; [suffix_go |].
        apply Forall_app. split; [repeat constructor |].
        apply Forall_app. split; [apply clickElement_no_keys | repeat constructor].
    + cbv beta. unfold setLocation_tried.
      intros o s t [Hus Ho].
      destruct o as [a | [|] | [] | [] | e |]; try contradiction.
      * destruct Ho as [Hs He]. split; [apply suffix_app; exact Hs |].
        apply enter_or_suggestion_app. exact He.
      * split; [reflexivity |]. left. destruct Ho as [Hs Hk].
        split; [apply suffix_app; exact Hs |].
        apply Forall_app. split; [repeat constructor | exact Hk].
      * wp_run. split; [reflexivity |]. right. eexists _, _, _.
        split; [| suffix_go]. eassumption.
  - wp_run. reflexivity.
Qed.

(** X7.  On an initialised automaton [setLocation] never rejects.  For
    a site that needs no location it logs one line and resolves to
    [true] without touching the page.  Otherwise it resolves to [true]
    only at the end of the whole sequence (Escape pressed, a pause of
    1000 ms, the success line), and in such a run the location was chosen
    either by the in-page click on a suggestion or by the Enter fallback.
    It resolves to [false] in two ways only: the click on the location
    input failed, in which case a warning is logged and no key was
    pressed and nothing typed; or a call threw, in which case the error
    is logged and the [error_location] screenshot attempted. *)
Theorem setLocation_outcomes p (st : St) :
  this_utils st = Some u -> this_page st = Some p ->
  let r := setLocation drv this st in
  setLocation_post p (outcome r) (events r).
Proof.
  intros Hu Hp r.
  exact (wpa_elim _ _ _ (setLocation_run p st Hu Hp)).
Qed.


(** *** search *)

Lemma is_lenskart_not_swiggy :
  siteName this = "lenskart" -> is_lenskart this = true /\ is_swiggy this = false.
Proof. unfold is_lenskart, is_swiggy. intros ->. split; reflexivity. Qed.

Definition search_completed : Ev :=
  (CConsoleLog (icon "success" ^^ " " ^^ "Search completed successfully"), true).

Lemma search_lenskart_spec term (st : St) :
  this_utils st = Some u ->
  wp (search_lenskart drv term) st (fun o s _ =>
    this_utils s = Some u /\ exists typed : bool, o = Normal typed).
Proof.
  intros Hu. unfold search_lenskart. wp_run_step. wp_run_step.
  apply (wp_try_catch_post _ _ _ (fun o s _ =>
           this_utils s = Some u
           /\ match o with Normal _ | Throw _ => True | _ => False end)).
  - eapply wp_conseq;
      [apply (wp_block_utils u any_event (fun _ => False)); [solve [inv_go] | solve [ctl_go] | known] |].
    cbv beta. intros o s t (Hus & _ & Ho). split; [exact Hus |].
    destruct o; try exact I; contradiction.
  - cbv beta. intros o s t [Hus Ho].
    destruct o as [a | v | [] | [] | e |]; try contradiction.
    + split; [exact Hus | eauto].
    + wp_run. split; [known | eauto].
Qed.

(** X8.  On Lenskart, [search] on an initialised automaton always
    resolves to [true]: a search box that never shows up, or a click or a
    key press that throws, is logged as a warning inside the Lenskart
    branch and the function goes on to wait, take the
    [04_search_results] screenshot and log that the search completed.
    The outer [catch] is never entered. *)
Theorem search_lenskart_always_true term (st : St) :
  siteName this = "lenskart" -> this_utils st = Some u ->
  let r := search drv this term st in
  outcome r = Resolved true /\ suffix [search_completed] (events r).
Proof.
  intros Hsite Hu r. destruct (is_lenskart_not_swiggy Hsite) as [Hl Hs].
  assert (H : wpa (search drv this term) st (fun o _ t =>
            o = Resolved true /\ suffix [search_completed] t)).
  { unfold search. rewrite Hl, Hs.
    wp_to_try.
    apply (wp_try_catch_post _ _ _ (fun o _ t =>
             o = Return true /\ suffix [search_completed] t)).
    - wp_upto (@search_lenskart).
      wp_use (search_lenskart_spec term); [known |].
      intros o s' t [Hus [typed ->]]. wp_run.
      split; [reflexivity | unfold search_completed; suffix_go].
    - cbv beta. intros o s t [-> Hsuf]. split; [reflexivity |].
      apply suffix_app. exact Hsuf. }
  exact (wpa_elim _ _ _ H).
Qed.


Definition search_focus_failed (msg : string) : Ev :=
  (CConsoleLog (icon "warning" ^^ " " ^^ "Search focus failed: " ^^ msg), true).

Definition failed_to_search : Ev :=
  (CConsoleLog (icon "error" ^^ " " ^^ "Failed to search"), true).

(** The search term was typed and Enter pressed. *)
Definition term_entered (p : Page) (term : string) (t : list Ev) : Prop :=
  In (CKeyType p (Some term) 70, true) t /\ In (CKeyPress p "Enter", true) t.

Lemma term_entered_app p term t1 t2 :
  term_entered p term t2 -> term_entered p term (t1 ++ t2).
Proof. intros [H1 H2]. split; apply in_or_app; right; assumption. Qed.

Lemma search_swiggy_spec term p (st : St) :
  this_utils st = Some u -> this_page st = Some p ->
  wp (search_swiggy drv term) st (fun o s t =>
    this_utils s = Some u
    /\ exists typed : bool,
         o = Normal typed
         /\ if typed then term_entered p term t
            else exists msg, suffix [search_focus_failed msg] t).
Proof.
  intros Hu Hp. unfold search_swiggy. wp_run_step. wp_run_step.
  apply (wp_try_catch_post _ _ _ (fun o s t =>
           this_utils s = Some u
           /\ match o with
              | Normal true => term_entered p term t
              | Throw _ => True
              | _ => False
              end)).
  - do 3 (skip_stmt; [| split; [known | exact I]]).
    wp_run; (split; [known |]); try exact I.
    split; in_go.
  - cbv beta. intros o s t [Hus Ho].
    destruct o as [[|] | v | [] | [] | e |]; try contradiction.
    + split; [exact Hus |]. exists true. split; [reflexivity |].
      apply term_entered_app. exact Ho.
    + wp_run. split; [known |]. exists false. split; [reflexivity |].
      eexists. unfold search_focus_failed. suffix_go.
Qed.

Definition search_swiggy_post (p : Page) (term : string) (o : Promise bool)
           (t : list Ev) : Prop :=
  match o with
  | Resolved true => term_entered p term t /\ suffix [search_completed] t
  | Resolved false => exists msg, suffix [search_focus_failed msg; failed_to_search] t
  | Rejected _ | Unsettled => False
  end.

(** X9.  On Swiggy, [search] on an initialised automaton never rejects
    and never enters its outer [catch].  It resolves to [true] only in
    runs in which the search term was typed on the keyboard and Enter
    pressed, and then ends with the [04_search_results] screenshot and the
    completion line.  It resolves to [false] exactly when the focus-and-
    type block threw (the search input was not found, or a click or key
    press failed): the warning and the line [Failed to search] are the
    last things logged, and nothing is captured. *)
Theorem search_swiggy_needs_enter term p (st : St) :
  siteName this = "swiggy" -> this_utils st = Some u -> this_page st = Some p ->
  let r := search drv this term st in
  search_swiggy_post p term (outcome r) (events r).
Proof.
  intros Hsite Hu Hp r. destruct (is_swiggy_not_lenskart this Hsite) as [Hl Hs].
  assert (H : wpa (search drv this term) st (fun o _ t => search_swiggy_post p term o t)).
  { unfold search, search_swiggy_post. rewrite Hl, Hs.
    wp_to_try.
    apply (wp_try_catch_post _ _ _ (fun o _ t =>
             match o with
             | Return true => term_entered p term t /\ suffix [search_completed] t
             | Return false =>
                 exists msg, suffix [search_focus_failed msg; failed_to_search] t
             | _ => False
             end)).
    - wp_upto (@search_swiggy).
      wp_use (search_swiggy_spec term p); [known | known |].
      intros o_ s_ t_ (Hus & typed & -> & Ht).
      destruct typed; wp_run.
      + split; [| unfold search_completed; suffix_go].
        destruct Ht as [Hty Hen]. split; in_go.
      + destruct Ht as [msg Ht]. exists msg.
        suffix_upto t_.
        apply (suffix_join [search_focus_failed msg] _ t_). exact Ht.
    - cbv beta. intros o s t Ho.
      destruct o as [a | [|] | [] | [] | e |]; try contradiction.
      + destruct Ho as [He Hsuf]. split; [| apply suffix_app; exact Hsuf].
        apply term_entered_app. exact He.
      + destruct Ho as [msg Hsuf]. exists msg. apply suffix_app. exact Hsuf. }
  exact (wpa_elim _ _ _ H).
Qed.


(** *** signin *)






















End Phases.

(** ** Counting events *)

Section Counting.

Variable kind : Ev -> bool.

(** How often a trace has an event of the kind. *)
Definition occ (t : list Ev) : nat := length (filter kind t).

Definition none_of (e : Ev) : Prop := kind e = false.

Lemma occ_app t1 t2 : occ (t1 ++ t2) = occ t1 + occ t2.
Proof. unfold occ. now rewrite filter_app, length_app. Qed.

Lemma occ_quiet t : Forall none_of t -> occ t = 0.
Proof.
  unfold occ. induction 1 as [| e t He Ht IH]; [reflexivity |].
  cbn [filter]. rewrite He. exact IH.
Qed.

(** [cnt n m]: whatever the driver answers, a run of [m] has at most [n]
    events of the kind. *)
Definition cnt {R L A} (n : nat) (m : M (W:=W) R L A) : Prop :=
  forall st, occ (events (m st)) <= n.

Definition cnta {A} (n : nat) (f : Async (W:=W) A) : Prop :=
  forall st, occ (events (f st)) <= n.

Lemma cnt_quiet {R L A} (m : M R L A) : inv none_of fields m -> cnt 0 m.
Proof. intros Hi st. destruct (Hi st) as [He _]. now rewrite (occ_quiet _ He). Qed.

Lemma cnt_quiet_on {X} (f : St (W:=W) -> X) {R L A} (m : M R L A) :
  inv none_of f m -> cnt 0 m.
Proof. intros Hi st. destruct (Hi st) as [He _]. now rewrite (occ_quiet _ He). Qed.

Lemma cnt_mono {R L A} n n' (m : M R L A) : n <= n' -> cnt n m -> cnt n' m.
Proof. intros Hle H st. specialize (H st). lia. Qed.

Lemma cnt_bind {R L A B} n1 n2 (m : M R L A) (k : A -> M R L B) :
  cnt n1 m -> (forall a, cnt n2 (k a)) -> cnt (n1 + n2) (bind m k).
Proof.
  intros Hm Hk st. unfold bind. specialize (Hm st).
  destruct (outcome (m st)) as [a | v | l | l | e |]; cbn [events]; try lia.
  rewrite occ_app. specialize (Hk a (post (m st))). lia.
Qed.

Lemma cnt_try_catch {R L A} n1 n2 (body : M R L A) handler :
  cnt n1 body -> (forall e, cnt n2 (handler e)) -> cnt (n1 + n2) (try_catch body handler).
Proof.
  intros Hm Hk st. unfold try_catch. specialize (Hm st).
  destruct (outcome (body st)) as [a | v | l | l | e |]; cbn [events]; try lia.
  rewrite occ_app. specialize (Hk e (post (body st))). lia.
Qed.

Lemma cnt_when {R L} n (c : bool) (m : M R L unit) : cnt n m -> cnt n (when_ c m).
Proof. intros H. destruct c; [exact H |]. intros st. cbn. lia. Qed.

Lemma cnt_ret {R L A} n (a : A) : cnt (R:=R) (L:=L) n (ret a).
Proof. intros st. cbn. lia. Qed.

(** A loop of at most [n] rounds, each with at most [k] events of the
    kind. *)
Lemma cnt_for_range {R L T} k from n cond (s : T) (body : nat -> T -> M R T T) :
  (forall i s', cnt k (body i s')) ->
  cnt (L:=L) (n * k) (for_range from n cond s body).
Proof.
  intros Hb. revert from s. induction n as [| n IH]; intros from s st.
  - cbn. lia.
  - cbn [for_range]. destruct (cond s); [| cbn; lia].
    specialize (Hb from s st). cbv zeta.
    destruct (outcome (body from s st)) as [s' | v | s' | s' | e |]; cbn [events];
      try (cbn [Nat.mul]; lia).
    + rewrite occ_app. specialize (IH (S from) s' (post (body from s st))).
      cbn [Nat.mul]. lia.
    + rewrite occ_app. specialize (IH (S from) s' (post (body from s st))).
      cbn [Nat.mul]. lia.
Qed.

Lemma cnt_await {R L A} n (f : Async A) : cnta n f -> cnt (R:=R) (L:=L) n (await f).
Proof.
  intros Hf st. unfold await. specialize (Hf st).
  destruct (outcome (f st)); exact Hf.
Qed.

Lemma cnta_async {R} n (body : M R Empty_set R) : cnt n body -> cnta n (async body).
Proof.
  intros Hb st. unfold async. specialize (Hb st).
  destruct (outcome (body st)) as [a | v | [] | [] | e |]; exact Hb.
Qed.

End Counting.

(** ** The pivot from account creation to sign-in *)

Section Pivot.

Variable this : Automation.

(** The console line of the pivot, and how often a trace has it. *)
Definition is_pivot (e : Ev) : bool :=
  match fst e with
  | CConsoleLog s => String.eqb s (icon "warning" ^^ " " ^^ pivot_line)
  | _ => false
  end.

Definition pivots (t : list Ev) : nat := occ is_pivot t.

Definition no_pivot : Ev -> Prop := none_of is_pivot.


Lemma pivots_app t1 t2 : pivots (t1 ++ t2) = pivots t1 + pivots t2.
Proof. apply occ_app. Qed.

Lemma pivots_quiet t : Forall no_pivot t -> pivots t = 0.
Proof. apply occ_quiet. Qed.

(** The pivot logs its line once; the rest of it is quiet. *)
Lemma pivot_to_signin_cnt link : cnt is_pivot 1 (pivot_to_signin drv this link).
Proof.
  unfold pivot_to_signin.
  apply (cnt_bind is_pivot 1 0).
  - intros st. unfold ulog, bind, this_utils_, log, console_log, emit.
    destruct (this_utils st); cbn; lia.
  - intros _. apply (cnt_quiet is_pivot). inv_go.
Qed.

Lemma fill_signup_form_quiet : inv no_pivot fields (fill_signup_form drv this).
Proof. inv_go. Qed.

Lemma submit_signup_form_quiet : inv no_pivot fields (submit_signup_form drv).
Proof. inv_go. Qed.

(** The second signup block pivots at most once. *)
Lemma lenskart_signup_cnt : cnt is_pivot 1 (lenskart_signup drv this).
Proof.
  unfold lenskart_signup.
  apply (cnt_try_catch is_pivot 1 0); [| intros e; apply (cnt_quiet is_pivot); inv_go].
  apply (cnt_bind is_pivot 0 1); [apply (cnt_quiet is_pivot); inv_go | intros _].
  apply (cnt_bind is_pivot 0 1); [apply (cnt_quiet is_pivot); apply fill_signup_form_quiet | intros _].
  apply (cnt_bind is_pivot 0 1); [apply (cnt_quiet is_pivot); apply submit_signup_form_quiet | intros existsMsg].
  apply (cnt_when is_pivot). apply pivot_to_signin_cnt.
Qed.

(** [cntv m]: a run of [m] pivots at most once, and not at all when it
    completes with the value [true]. *)
Definition cntv {R L} (m : M (W:=W) R L bool) : Prop :=
  forall st,
    pivots (events (m st)) <= 1
    /\ (outcome (m st) = Normal true -> pivots (events (m st)) = 0).

Lemma cntv_bind_quiet {R L A} (m : M R L A) (k : A -> M R L bool) :
  inv no_pivot fields m -> (forall a, cntv (k a)) -> cntv (bind m k).
Proof.
  intros Hi Hk st. unfold bind. destruct (Hi st) as [He _].
  apply pivots_quiet in He.
  destruct (outcome (m st)) as [a | v | l | l | e |]; cbn [events outcome];
    try (split; [lia | discriminate]).
  destruct (Hk a (post (m st))) as [H1 H2]. rewrite pivots_app.
  split; [lia |]. intros Ho. specialize (H2 Ho). lia.
Qed.

Lemma cntv_ret {R L} (b : bool) : cntv (R:=R) (L:=L) (ret b).
Proof. intros st. cbn. split; [lia | reflexivity]. Qed.

(** The first signup block: when it pivots, [didOpenSignupForm] stays
    as it was. *)
Lemma lenskart_open_signup_cntv : cntv (lenskart_open_signup drv this false).
Proof.
  unfold lenskart_open_signup.
  apply cntv_bind_quiet; [inv_go | intros _].
  apply cntv_bind_quiet; [inv_go | intros opened].
  destruct opened; [| apply cntv_ret].
  apply cntv_bind_quiet; [inv_go | intros _].
  apply cntv_bind_quiet; [inv_go | intros _].
  apply cntv_bind_quiet; [apply fill_signup_form_quiet | intros _].
  apply cntv_bind_quiet; [apply submit_signup_form_quiet | intros existsMsg].
  destruct existsMsg; [| apply cntv_ret].
  intros st. split.
  - apply (cnt_bind is_pivot 1 0); [apply pivot_to_signin_cnt | intros _; apply (cnt_quiet is_pivot); inv_go].
  - unfold bind.
    destruct (outcome (pivot_to_signin drv this signin_link st)); cbn; discriminate.
Qed.

(** The two signup blocks together pivot at most once. *)
Lemma signup_blocks_cnt (didOpenSignupForm signInClickable : bool) :
  cnt is_pivot 1 (didOpenSignupForm' <-
           (if negb didOpenSignupForm && negb signInClickable
               && negb (String.eqb (authMode this) "signin")
            then lenskart_open_signup drv this didOpenSignupForm
            else ret didOpenSignupForm) ;;
         when_ didOpenSignupForm' (lenskart_signup drv this)).
Proof.
  intros st. unfold bind.
  destruct (negb didOpenSignupForm && negb signInClickable
            && negb (String.eqb (authMode this) "signin")) eqn:Hc.
  - assert (didOpenSignupForm = false) as ->.
    { destruct didOpenSignupForm; [discriminate Hc | reflexivity]. }
    destruct (lenskart_open_signup_cntv st) as [H1 H2].
    destruct (outcome (lenskart_open_signup drv this false st)) as [a | v | l | l | e |];
      cbn [events]; try exact H1.
    rewrite pivots_app. destruct a.
    + rewrite (H2 eq_refl). apply lenskart_signup_cnt.
    + cbn. lia.
  - cbn [outcome post events app]. apply (cnt_when is_pivot). apply lenskart_signup_cnt.
Qed.

Lemma lenskart_auth_cnt : cnt is_pivot 1 (lenskart_auth drv this).
Proof.
  unfold lenskart_auth.
  apply (cnt_try_catch is_pivot 1 0); [| intros e; apply (cnt_quiet is_pivot); inv_go].
  apply (cnt_bind is_pivot 0 1); [apply (cnt_quiet is_pivot); inv_go | intros _].
  apply (cnt_bind is_pivot 0 1); [apply (cnt_quiet is_pivot); inv_go | intros didOpenSignupForm].
  apply (cnt_bind is_pivot 0 1); [apply (cnt_quiet is_pivot); inv_go | intros _].
  apply (cnt_bind is_pivot 0 1); [apply (cnt_quiet is_pivot); inv_go | intros signInClickable].
  apply signup_blocks_cnt.
Qed.

Lemma signin_flow_cnt : cnt is_pivot 1 (signin_flow drv this).
Proof.
  unfold signin_flow.
  apply (cnt_bind is_pivot 0 1); [apply (cnt_quiet is_pivot); inv_go | intros _].
  apply (cnt_bind is_pivot 0 1); [apply (cnt_quiet is_pivot); inv_go | intros _].
  apply (cnt_bind is_pivot 1 0); [apply (cnt_when is_pivot); apply lenskart_auth_cnt | intros _].
  apply (cnt_quiet is_pivot). inv_go.
Qed.

(** X11.  In any single run of [signin], on any site, in any auth mode
    and whatever the page answers, the pivot from account creation to
    sign-in (its line [Phone number already registered] on the console)
    happens at most once.  The first signup block leaves
    [didOpenSignupForm] unset when it pivots, which keeps the second
    block, and with it the second pivot, from running; nothing after the
    Lenskart auth block pivots. *)
Theorem signin_pivots_at_most_once (st : St) :
  pivots (events (signin drv this st)) <= 1.
Proof.
  assert (H : @cnt is_pivot bool Empty_set bool 1
                (ulog "Navigating to signup/signin..." "step" ;;
                 try_catch
                   (when_ (negb (is_lenskart this)) (
                      ucloseModalIfPresent drv
                        (Many [selector (cfg this) "closeModal";
                               selector (cfg this) "noThanksButton"]) ;;
                      ret tt) ;;
                    clicked <- uclickElement drv
                                 (Many [selector (cfg this) "signInButton";
                                        selector (cfg this) "signInButtonAlt"]) ;;
                    if negb clicked then
                      ulog "Sign-in button not found, skipping authentication" "warning" ;;
                      return_ false
                    else signin_flow drv this)
                   (fun error =>
                      ulog ("Sign-in/signup failed: " ^^ message error) "error" ;;
                      uscreenshot drv "error_signin" ;;
                      return_ false))).
  { apply (cnt_bind is_pivot 0 1); [apply (cnt_quiet is_pivot); inv_go | intros _].
    apply (cnt_try_catch is_pivot 1 0); [| intros e; apply (cnt_quiet is_pivot); inv_go].
    apply (cnt_bind is_pivot 0 1); [apply (cnt_quiet is_pivot); inv_go | intros _].
    apply (cnt_bind is_pivot 0 1); [apply (cnt_quiet is_pivot); inv_go | intros clicked].
    destruct clicked; cbn [negb].
    - apply signin_flow_cnt.
    - apply (cnt_mono is_pivot 0 1); [lia |]. apply (cnt_quiet is_pivot). inv_go. }
  specialize (H st). unfold signin, async.
  match goal with |- context [outcome ?r] => destruct (outcome r) as [a | v | [] | [] | e |] end;
    exact H.
Qed.

End Pivot.

(** ** Which errors a statement throws *)

(** [throws_only u E m]: with the utilities [u] in place, [m] keeps them
    and throws only errors in [E]. *)
Definition throws_only {R L A} (u : Utils) (E : JsError -> Prop)
           (m : M (W:=W) R L A) : Prop :=
  forall st, this_utils st = Some u ->
    this_utils (post (m st)) = Some u
    /\ forall e, outcome (m st) = Throw e -> E e.

Definition rejects_only {A} (u : Utils) (E : JsError -> Prop)
           (f : Async (W:=W) A) : Prop :=
  forall st, this_utils st = Some u ->
    this_utils (post (f st)) = Some u
    /\ forall e, outcome (f st) = Rejected e -> E e.

Section Throws.

Variable u : Utils.
Variable E : JsError -> Prop.

Lemma to_ret {R L A} (a : A) : throws_only (R:=R) (L:=L) u E (ret a).
Proof. intros st Hu. split; [exact Hu | discriminate]. Qed.

Lemma to_return {R L A} (v : R) : throws_only (L:=L) (A:=A) u E (return_ v).
Proof. intros st Hu. split; [exact Hu | discriminate]. Qed.

Lemma to_throw {R L A} e : E e -> throws_only (R:=R) (L:=L) (A:=A) u E (throw e).
Proof. intros He st Hu. split; [exact Hu |]. intros e' [= <-]. exact He. Qed.

Lemma to_bind {R L A B} (m : M R L A) (k : A -> M R L B) :
  throws_only u E m -> (forall a, throws_only u E (k a)) -> throws_only u E (bind m k).
Proof.
  intros Hm Hk st Hu. unfold bind. destruct (Hm st Hu) as [Hu' He].
  destruct (outcome (m st)) as [a | v | l | l | e |]; cbn [outcome post];
    try (split; [exact Hu' | first [discriminate | intros e0 [= <-]; apply He; reflexivity]]).
  apply (Hk a _ Hu').
Qed.

Lemma to_try_catch {R L A} (body : M R L A) handler :
  inv any_event this_utils body -> (forall e, throws_only u E (handler e)) ->
  throws_only u E (try_catch body handler).
Proof.
  intros Hi Hh st Hu. unfold try_catch. destruct (Hi st) as [_ Hf].
  assert (Hu' : this_utils (post (body st)) = Some u) by congruence.
  destruct (outcome (body st)) as [a | v | l | l | e |] eqn:Ho; cbn [outcome post];
    try (split; [exact Hu' | rewrite Ho; discriminate]).
  apply (Hh e _ Hu').
Qed.

Lemma to_when {R L} (c : bool) (m : M R L unit) :
  throws_only u E m -> throws_only u E (when_ c m).
Proof. intros H. destruct c; [exact H | apply to_ret]. Qed.

Lemma to_safe {R L A} (P : Ev -> Prop) (m : M R L A) :
  safe u P m -> throws_only u E m.
Proof.
  intros Hs st Hu. destruct (Hs st Hu) as (Hf & _ & a & Ho).
  split; [eapply fields_utils; eassumption |].
  intros e He. rewrite He in Ho. discriminate Ho.
Qed.

Lemma to_ulog {R L} message type : throws_only (R:=R) (L:=L) u E (ulog message type).
Proof. apply (to_safe any_event). apply safe_ulog. exact I. Qed.

Lemma to_uwait {R L} ms : throws_only (R:=R) (L:=L) u E (uwait drv ms).
Proof. apply (to_safe any_event). apply safe_uwait. exact I. Qed.

Lemma to_uscreenshot {R L} name : throws_only (R:=R) (L:=L) u E (uscreenshot drv name).
Proof. apply (to_safe any_event). apply safe_uscreenshot; intros; exact I. Qed.

Lemma to_await {R L A} (f : Async A) :
  rejects_only u E f -> throws_only (R:=R) (L:=L) u E (await f).
Proof.
  intros Hf st Hu. unfold await. destruct (Hf st Hu) as [Hu' He].
  destruct (outcome (f st)) as [a | e |]; cbn [outcome post];
    (split; [exact Hu' |]); try discriminate.
  intros e' [= <-]. apply He. reflexivity.
Qed.

Lemma ro_async {R} (body : M R Empty_set R) :
  throws_only u E body -> rejects_only u E (async body).
Proof.
  intros Hb st Hu. unfold async. destruct (Hb st Hu) as [Hu' He].
  destruct (outcome (body st)) as [a | v | [] | [] | e |]; cbn [outcome post];
    (split; [exact Hu' |]); try discriminate.
  intros e' [= <-]. apply He. reflexivity.
Qed.

Lemma to_break {R L A} (l : L) : throws_only (R:=R) (A:=A) u E (break_ l).
Proof. intros st Hu. split; [exact Hu | discriminate]. Qed.

Lemma to_continue {R L A} (l : L) : throws_only (R:=R) (A:=A) u E (continue_ l).
Proof. intros st Hu. split; [exact Hu | discriminate]. Qed.

Lemma to_for_range {R L T} from n cond (s : T) (body : nat -> T -> M R T T) :
  (forall i s', throws_only u E (body i s')) ->
  throws_only (L:=L) u E (for_range from n cond s body).
Proof.
  intros Hb. revert from s. induction n as [| n IH]; intros from s st Hu.
  - cbn. split; [exact Hu | discriminate].
  - cbn [for_range]. destruct (cond s); [| cbn; split; [exact Hu | discriminate]].
    destruct (Hb from s st Hu) as [Hu' He]. cbv zeta.
    destruct (outcome (body from s st)) as [s' | v | s' | s' | e |];
      cbn [outcome post];
      try (split; [exact Hu' | discriminate]);
      try (apply (IH (S from) s' _ Hu')).
    split; [exact Hu' |]. intros e' [= <-]. apply He. reflexivity.
Qed.

Lemma to_uclickElement {R L} sels :
  throws_only (R:=R) (L:=L) u E (uclickElement drv sels).
Proof.
  apply (to_safe any_event). apply safe_uclickElement. apply clickElement_fields.
Qed.

(** Stepping over a statement that neither throws nor returns. *)
Lemma wp_nothrow_bind {R A B} (m : M R Empty_set A) (k : A -> M R Empty_set B) st
      (Q : Completion R Empty_set B -> St -> list Ev -> Prop) :
  throws_only u (fun _ => False) m -> ctl (fun _ => False) m ->
  this_utils st = Some u ->
  (forall a s t1, this_utils s = Some u ->
     wp (k a) s (fun o s' t' => Q o s' (t1 ++ t'))) ->
  wp (bind m k) st Q.
Proof.
  intros Ht Hc Hu Hk. apply wp_bind. unfold wp at 1.
  destruct (Ht st Hu) as [Hu' He]. specialize (Hc st).
  destruct (outcome (m st)) as [a | v | [] | [] | e |]; try contradiction.
  - apply Hk. exact Hu'.
  - destruct (He e eq_refl).
Qed.

End Throws.

Ltac to_step :=
  lazymatch goal with
  | |- throws_only _ _ (bind _ _) => apply to_bind; [| intros ?]
  | |- throws_only _ _ (ret _) => apply to_ret
  | |- throws_only _ _ (return_ _) => apply to_return
  | |- throws_only _ _ (throw _) =>
      apply to_throw; first [reflexivity | left; reflexivity | right; reflexivity]
  | |- throws_only _ _ (ulog _ _) => apply to_ulog
  | |- throws_only _ _ (uwait _ _) => apply to_uwait
  | |- throws_only _ _ (uscreenshot _ _) => apply to_uscreenshot
  | |- throws_only _ _ (uclickElement _ _) => apply to_uclickElement
  | |- throws_only _ _ (break_ _) => apply to_break
  | |- throws_only _ _ (continue_ _) => apply to_continue
  | |- throws_only _ _ (for_range _ _ _ _ _) => apply to_for_range; intros ? ?
  | |- throws_only _ _ (try_catch _ _) =>
      apply to_try_catch; [solve [inv_go] | intros ?]
  | |- throws_only _ _ (await _) => apply to_await
  | |- rejects_only _ _ (async _) => apply ro_async
  | |- throws_only _ _ (when_ _ _) => apply to_when
  | |- throws_only _ _ (if ?c then _ else _) => destruct c
  | |- throws_only _ _ (match ?x with _ => _ end) => destruct x
  | |- throws_only _ _ (fun _ => _) => fail "stuck"
  | |- throws_only _ _ ?m => let h := head_of m in unfold h
  | |- rejects_only _ _ ?m => let h := head_of m in unfold h
  end.

Ltac to_go := repeat to_step.


(** ** The main flow: [run] *)

Section RunFlow.

Variable this : Automation.

(** Closing the browser, and a launch that succeeded. *)
Definition is_close (e : Ev) : bool :=
  match fst e with CBrowserClose => true | _ => false end.

Definition closes (t : list Ev) : nat := length (filter is_close t).

Definition is_launched (e : Ev) : bool :=
  match e with (CLaunch, true) => true | _ => false end.

Definition launched (t : list Ev) : bool := existsb is_launched t.

Definition settled {A} (o : Promise A) : bool :=
  match o with Unsettled => false | _ => true end.

(** An event that neither launches nor closes the browser. *)
Definition plain (e : Ev) : Prop := is_close e || is_launched e = false.

Lemma closes_app t1 t2 : closes (t1 ++ t2) = closes t1 + closes t2.
Proof. unfold closes. now rewrite filter_app, length_app. Qed.

Lemma launched_app t1 t2 : launched (t1 ++ t2) = launched t1 || launched t2.
Proof. apply existsb_app. Qed.

Lemma plain_trace t : Forall plain t -> closes t = 0 /\ launched t = false.
Proof.
  unfold closes, launched, plain.
  induction 1 as [| e t He Ht [IH1 IH2]]; [split; reflexivity |].
  apply orb_false_iff in He. destruct He as [He1 He2].
  cbn [filter existsb]. rewrite He1, He2. split; assumption.
Qed.

Lemma inv_set_this_utils {X R L} (P : Ev -> Prop) (f : St (W:=W) -> X) v :
  (forall st, f (mkSt (world st) (this_browser st) (this_page st) v) = f st) ->
  inv P f (R:=R) (L:=L) (set_this_utils v).
Proof. intros H st. split; [constructor | apply H]. Qed.

Lemma inv_this_browser {X R L} (P : Ev -> Prop) (f : St (W:=W) -> X) :
  inv P f (R:=R) (L:=L) this_browser_.
Proof. intros st. split; [constructor | reflexivity]. Qed.

Ltac inv_run :=
  repeat first
    [ apply inv_set_this_utils; inv_side
    | apply inv_this_browser
    | inv_step ].

(** [tracks m]: started without a browser, [m] does not close one, and
    ends with [this.browser] set exactly when a launch succeeded. *)
Definition tracks {R L A} (m : M (W:=W) R L A) : Prop :=
  forall st, this_browser st = false ->
    closes (events (m st)) = 0
    /\ this_browser (post (m st)) = launched (events (m st)).

Lemma tracks_first_plain {R L A B} (m : M R L A) (k : A -> M R L B) :
  inv plain this_browser m -> (forall a, tracks (k a)) -> tracks (bind m k).
Proof.
  intros Hm Hk st Hb. unfold bind. destruct (Hm st) as [He Hf].
  destruct (plain_trace _ He) as [Hc Hl].
  destruct (outcome (m st)) as [a | v | l | l | e |]; cbn [events post];
    try (split; [exact Hc | congruence]).
  destruct (Hk a (post (m st))) as [Hc' Hl']; [congruence |].
  rewrite closes_app, launched_app, Hc, Hl, Hc'. split; [reflexivity | exact Hl'].
Qed.

Lemma tracks_then_plain {R L A B} (m : M R L A) (k : A -> M R L B) :
  tracks m -> (forall a, inv plain this_browser (k a)) -> tracks (bind m k).
Proof.
  intros Hm Hk st Hb. unfold bind. destruct (Hm st Hb) as [Hc Hl].
  destruct (outcome (m st)) as [a | v | l | l | e |]; cbn [events post];
    try (split; assumption).
  destruct (Hk a (post (m st))) as [He Hf].
  destruct (plain_trace _ He) as [Hc' Hl'].
  rewrite closes_app, launched_app, Hc, Hl', Hc', orb_false_r.
  split; [reflexivity | congruence].
Qed.

Lemma tracks_try_catch {R L A} (body : M R L A) handler :
  tracks body -> (forall e, inv plain this_browser (handler e)) ->
  tracks (try_catch body handler).
Proof.
  intros Hm Hk st Hb. unfold try_catch. destruct (Hm st Hb) as [Hc Hl].
  destruct (outcome (body st)) as [a | v | l | l | e |]; cbn [events post];
    try (split; assumption).
  destruct (Hk e (post (body st))) as [He Hf].
  destruct (plain_trace _ He) as [Hc' Hl'].
  rewrite closes_app, launched_app, Hc, Hl', Hc', orb_false_r.
  split; [reflexivity | congruence].
Qed.

(** [this.browser = await puppeteer.launch(...)] *)
Lemma tracks_launch {R L B} (g : W -> (JsError + unit) * W) (k : unit -> M R L B) :
  (forall a, inv plain this_browser (k a)) ->
  tracks (bind (prim CLaunch g) (fun _ => bind (set_this_browser true) k)).
Proof.
  intros Hk st Hb. unfold bind, prim, set_this_browser.
  destruct (g (world st)) as [[e | a] w']; cbn [outcome post events app].
  - split; [reflexivity | exact Hb].
  - match goal with
    | |- context [k ?x ?s] => destruct (Hk x s) as [He Hf]; set (r := k x s) in *
    end.
    destruct (plain_trace _ He) as [Hc' Hl'].
    change (closes ((CLaunch, true) :: events r)) with (closes (events r)) in *.
    change (launched ((CLaunch, true) :: events r)) with true in *.
    destruct (outcome r) as [b | v | l | l | e |]; cbn [events post app];
      first [ split; [exact Hc' | exact Hf] | split; reflexivity ].
Qed.

Lemma tracks_await_async {R L A} (body : M A Empty_set A) :
  tracks body -> tracks (R:=R) (L:=L) (await (async body)).
Proof.
  intros Hm st Hb. unfold await, async. specialize (Hm st Hb).
  destruct (outcome (body st)) as [a | v | [] | [] | e |]; exact Hm.
Qed.

Lemma init_tracks {R L} : tracks (R:=R) (L:=L) (await (init drv this)).
Proof.
  unfold init. apply tracks_await_async.
  apply tracks_first_plain; [inv_run | intros _].
  apply tracks_launch. intros _. inv_run.
Qed.

Lemma run_flow_plain term : inv plain this_browser (run_flow drv this term).
Proof. inv_run. Qed.

Lemma run_failed_plain e : inv plain this_browser (run_failed drv e).
Proof. inv_run. Qed.

Lemma run_body_tracks term :
  tracks (try_catch (run_steps drv this term) (run_failed drv)).
Proof.
  apply tracks_try_catch; [| apply run_failed_plain].
  unfold run_steps.
  apply tracks_then_plain; [apply init_tracks | intros _; apply run_flow_plain].
Qed.

(** The [finally] block: one close call when [this.browser] is set, none
    otherwise; it settles either way. *)
Lemma run_cleanup_spec (s : St) :
  let c := run_cleanup drv s in
  outcome c <> Pending
  /\ closes (events c) = (if this_browser s then 1 else 0)
  /\ launched (events c) = false.
Proof.
  unfold run_cleanup, ulog, this_browser_, when_, this_utils_, log, console_log, emit,
    prim, ret, bind.
  destruct (this_browser s); cbn [outcome post events];
    [| repeat split; discriminate || reflexivity].
  destruct (d_browserClose drv (world s)) as [[e | a] w'];
    cbn [outcome post events this_utils set_world];
    [repeat split; discriminate || reflexivity |].
  destruct (this_utils s); cbn; repeat split; discriminate || reflexivity.
Qed.

Lemma run_finally_spec (body : M unit Empty_set unit) (st : St) :
  tracks body -> this_browser st = false ->
  let r := async (try_finally body (run_cleanup drv)) st in
  closes (events r) = if settled (outcome r) && launched (events r) then 1 else 0.
Proof.
  intros Ht Hb. destruct (Ht st Hb) as [Hc Hl].
  destruct (run_cleanup_spec (post (body st))) as (Hn & Hcc & Hcl).
  rewrite Hl in Hcc.
  unfold async, try_finally. cbv zeta.
  destruct (outcome (body st)) as [a | v | [] | [] | e |] eqn:Ho; cbv beta iota;
    [ | | | rewrite Ho; cbn [outcome events settled andb]; exact Hc ];
    (destruct (outcome (run_cleanup drv (post (body st)))) as [a' | v' | [] | [] | e' |];
     [ | | | contradiction ];
     cbn [outcome post events settled andb];
     rewrite closes_app, launched_app, Hc, Hcc, Hcl, orb_false_r;
     destruct (launched (events (body st))); reflexivity).
Qed.

(** X12.  Started on a fresh object (no browser yet), [run] calls
    [browser.close()] exactly once when the launch succeeded and the run
    settles, and never otherwise: not when the launch itself failed, and
    not while a step of the flow stays pending, in which case the
    [finally] block is never reached. *)
Theorem run_closes_browser term (st : St) :
  this_browser st = false ->
  let r := run drv this term st in
  closes (events r) = if settled (outcome r) && launched (events r) then 1 else 0.
Proof.
  intros Hb. exact (run_finally_spec _ st (run_body_tracks term) Hb).
Qed.


(** *** Which errors reject a run *)

























(** *** A launch that fails *)

Definition null_utils : JsError := mkError "TypeError: Cannot read properties of null".

Definition init_banner : string :=
  nl ^^ "🚀 Initializing automation for " ^^ cfg_name (cfg this) ^^ "..." ^^ nl.

Definition launch_masked (o : Promise unit) (t : list Ev) : Prop :=
  o = Rejected null_utils
  /\ t = [(CConsoleLog init_banner, true); (CLaunch, false)].

Lemma run_launch_failure term (st : St) e w' :
  this_browser st = false -> this_utils st = None ->
  d_launch drv (world st) = (inl e, w') ->
  wpa (run drv this term) st (fun o _ t => launch_masked o t).
Proof.
  intros Hb Hu Hl. unfold run. apply wpa_async. apply wp_try_finally.
  apply wp_try_catch. unfold run_steps. apply wp_bind. apply wp_await.
  unfold init. apply wpa_async.
  wp_step. wp_step. wp_step. wp_step; [rewrite Hl in *; discriminate |].
  cbv beta iota. unfold run_failed. wp_step. unfold ulog. wp_step.
  apply wp_this_utils; [intros u0 Hu0; cbn in Hu0; congruence | intros _].
  cbv beta iota. unfold run_cleanup. wp_step.
  unfold wp at 1, this_browser_. cbn [outcome post events this_browser set_world].
  rewrite Hb. apply wp_when_false.
  split; reflexivity.
Qed.

(** X14.  When [puppeteer.launch] fails on a fresh object, the launch
    error does not reach the caller: the [catch] handler of [run] calls
    [this.utils.log] while [this.utils] is still null, so [run] rejects
    with that TypeError instead; nothing is logged after the banner of
    [init], no screenshot is taken and [browser.close()] is not
    called. *)
Theorem run_launch_failure_masked term (st : St) e w' :
  this_browser st = false -> this_utils st = None ->
  d_launch drv (world st) = (inl e, w') ->
  let r := run drv this term st in
  launch_masked (outcome r) (events r).
Proof.
  intros Hb Hu Hl. exact (wpa_elim _ _ _ (run_launch_failure term st e w' Hb Hu Hl)).
Qed.

End RunFlow.

(** ** handleCustomization *)

Section CustomizationFlow.

Variable this : Automation.

(** One round of the step loop reads [customizeMeta] once; one round of
    the modal poll reads [modalPresent] once. *)
Definition is_round (e : Ev) : bool :=
  match fst e with
  | CSnapshot _ script => String.eqb script "customizeMeta"
  | _ => false
  end.

Definition is_modal_probe (e : Ev) : bool :=
  match fst e with
  | CSnapshot _ script => String.eqb script "modalPresent"
  | _ => false
  end.

Lemma cnt_prim kind {R L A} c (g : W -> (JsError + A) * W) :
  cnt kind (R:=R) (L:=L) 1 (prim c g).
Proof.
  intros st. unfold prim, occ.
  destruct (g (world st)) as [[e | a] w']; cbn [events filter];
    destruct (kind _); cbn; lia.
Qed.

Lemma cnt_snapshot kind {R L A} script (f : Dom -> A) :
  cnt kind (R:=R) (L:=L) 1 (pg (fun p => evaluate_pure drv p script f)).
Proof.
  unfold pg. apply (cnt_bind kind 0 1).
  - intros st. unfold this_page_. destruct (this_page st); cbn; lia.
  - intros p. unfold evaluate_pure.
    apply (cnt_bind kind 1 0); [apply cnt_prim | intros d; apply cnt_ret].
Qed.

Lemma customize_step_rounds i c : cnt is_round 1 (customize_step drv i c).
Proof.
  unfold customize_step. apply (cnt_bind is_round 1 0).
  - unfold customize_continue.
    apply (cnt_try_catch is_round 1 0); [| intros e; apply cnt_ret].
    apply (cnt_bind is_round 1 0); [apply cnt_snapshot | intros meta].
    apply cnt_quiet. inv_go.
  - intros continued. apply cnt_quiet. inv_go.
Qed.

Lemma customize_swiggy_rounds : cnt is_round 6 (customize_swiggy drv this).
Proof.
  unfold customize_swiggy.
  apply (cnt_bind is_round 0 6); [apply cnt_quiet; inv_go | intros _].
  apply (cnt_bind is_round 0 6); [apply cnt_quiet; inv_go | intros modalPresent].
  apply cnt_when.
  apply (cnt_bind is_round 0 6); [apply cnt_quiet; inv_go | intros _].
  apply (cnt_bind is_round 0 6); [apply cnt_quiet; inv_go | intros _].
  apply (cnt_bind is_round 6 0);
    [| intros completed; apply cnt_quiet; inv_go].
  refine (cnt_for_range is_round 1 0 6 _ _ _ _).
  intros i c. apply customize_step_rounds.
Qed.

Lemma customize_poll_modal_probes : cnt is_modal_probe 4 (customize_poll_modal drv).
Proof.
  unfold customize_poll_modal.
  refine (cnt_for_range is_modal_probe 1 0 4 _ _ _ _).
  intros i c.
  apply (cnt_bind is_modal_probe 1 0); [apply cnt_snapshot | intros modalPresent].
  apply cnt_quiet. inv_go.
Qed.

Lemma customize_swiggy_probes : cnt is_modal_probe 4 (customize_swiggy drv this).
Proof.
  unfold customize_swiggy.
  apply (cnt_bind is_modal_probe 0 4); [apply cnt_quiet; inv_go | intros _].
  apply (cnt_bind is_modal_probe 4 0);
    [apply customize_poll_modal_probes | intros modalPresent].
  apply cnt_quiet. inv_go.
Qed.

Lemma handleCustomization_rounds : cnta is_round 6 (handleCustomization drv this).
Proof.
  unfold handleCustomization. apply cnta_async.
  destruct (negb (cfg_hasCustomization (cfg this))).
  - apply (cnt_mono is_round 0 6); [lia | apply cnt_quiet; inv_go].
  - apply (cnt_bind is_round 0 6); [apply cnt_quiet; inv_go | intros _].
    apply (cnt_try_catch is_round 6 0); [| intros e; apply cnt_quiet; inv_go].
    apply (cnt_bind is_round 6 0); [| intros _; apply cnt_quiet; inv_go].
    destruct (is_lenskart this);
      [apply (cnt_mono is_round 0 6); [lia | apply cnt_quiet; inv_go] |].
    destruct (is_swiggy this); [apply customize_swiggy_rounds | apply cnt_ret].
Qed.

Lemma handleCustomization_probes : cnta is_modal_probe 4 (handleCustomization drv this).
Proof.
  unfold handleCustomization. apply cnta_async.
  destruct (negb (cfg_hasCustomization (cfg this))).
  - apply (cnt_mono is_modal_probe 0 4); [lia | apply cnt_quiet; inv_go].
  - apply (cnt_bind is_modal_probe 0 4); [apply cnt_quiet; inv_go | intros _].
    apply (cnt_try_catch is_modal_probe 4 0); [| intros e; apply cnt_quiet; inv_go].
    apply (cnt_bind is_modal_probe 4 0); [| intros _; apply cnt_quiet; inv_go].
    destruct (is_lenskart this);
      [apply (cnt_mono is_modal_probe 0 4); [lia | apply cnt_quiet; inv_go] |].
    destruct (is_swiggy this); [apply customize_swiggy_probes | apply cnt_ret].
Qed.

(** X15.  Whatever the page answers, one run of [handleCustomization]
    goes through at most six rounds of the step loop (it reads the
    Continue button's state, [customizeMeta], at most six times) and
    polls for the modal at most four times. *)
Theorem handleCustomization_step_budget (st : St) :
  occ is_round (events (handleCustomization drv this st)) <= 6
  /\ occ is_modal_probe (events (handleCustomization drv this st)) <= 4.
Proof.
  split; [apply handleCustomization_rounds | apply handleCustomization_probes].
Qed.

(** *** Once the modal is detected *)

Variable u : Utils.

Definition detected_text : string := icon "info" ^^ " " ^^ "Food customization detected".

Definition is_detected (e : Ev) : bool :=
  match fst e with
  | CConsoleLog s => String.eqb s detected_text
  | _ => false
  end.

Definition detected (t : list Ev) : bool := existsb is_detected t.

Definition no_detect : Ev -> Prop := none_of is_detected.

Definition completed_line : Ev :=
  (CConsoleLog (icon "success" ^^ " " ^^ "Customization completed"), true).

Definition customization_failed (error : JsError) : Ev :=
  (CConsoleLog (icon "warning" ^^ " " ^^ "Customization handling failed: " ^^ message error),
   true).

Lemma detected_quiet t : Forall no_detect t -> detected t = false.
Proof.
  unfold detected, no_detect, none_of.
  induction 1 as [| e t He Ht IH]; [reflexivity |].
  cbn [existsb]. rewrite He. exact IH.
Qed.

(** The Swiggy block keeps the utilities; before the modal is detected
    it leaves no trace of detection, after it nothing throws and the
    block returns true behind the line [Customization completed]. *)
Definition customize_swiggy_post (o : Completion bool Empty_set unit) (s : St (W:=W))
           (t : list Ev) : Prop :=
  this_utils s = Some u
  /\ match o with
     | Normal _ | Throw _ => Forall no_detect t
     | Return v => v = true /\ (Forall no_detect t \/ suffix [completed_line] t)
     | _ => False
     end.

Ltac quiet_trace :=
  repeat (apply Forall_app; split); try assumption;
  repeat constructor; try reflexivity.

Lemma customize_swiggy_spec (st : St) :
  this_utils st = Some u ->
  wp (customize_swiggy drv this) st customize_swiggy_post.
Proof.
  intros Hu. unfold customize_swiggy.
  safe_stmt no_detect.
  eapply (wp_skip no_detect (fun v => v = true));
    [ solve [inv_go] | solve [ctl_go]
    | intros modalPresent s2 t2 HP2 Hf2 _
    | intros v s2 t2 Hv HP2 Hf2
    | intros e s2 t2 HP2 Hf2 ].
  - destruct modalPresent; wp_run_step.
    + wp_run_step. wp_run_step. cbv beta iota.
      safe_stmt any_event.
      eapply (wp_nothrow_bind u);
        [ solve [to_go] | solve [ctl_go] | solve [known] | intros completed s3 t3 Hu3 ].
      safe_stmt any_event.
      wp_run_step. wp_run_step. cbv beta iota. wp_run_step.
      split; [known |]. split; [reflexivity |]. right.
      unfold completed_line. suffix_go.
    + split; [known |]. quiet_trace.
  - split; [known |]. split; [exact Hv |]. left. quiet_trace.
  - split; [known |]. quiet_trace.
Qed.

Definition customization_post (o : Promise bool) (t : list Ev) : Prop :=
  match o with
  | Resolved true => detected t = true -> suffix [completed_line] t
  | Resolved false => detected t = false /\ exists error, In (customization_failed error) t
  | _ => False
  end.

Lemma handleCustomization_run (st : St) :
  this_utils st = Some u ->
  wpa (handleCustomization drv this) st (fun o _ t => customization_post o t).
Proof.
  intros Hu. unfold handleCustomization. apply wpa_async.
  destruct (negb (cfg_hasCustomization (cfg this))).
  - wp_step. cbv beta iota. intros Hd. discriminate Hd.
  - wp_run_step. wp_run_step. cbv beta iota.
    apply (wp_try_catch_post _ _ _ (fun o s t =>
             this_utils s = Some u
             /\ match o with
                | Return v => v = true /\ (Forall no_detect t \/ suffix [completed_line] t)
                | Throw _ => Forall no_detect t
                | _ => False
                end)).
    + wp_step.
      destruct (is_lenskart this); [| destruct (is_swiggy this)].
      * eapply wp_conseq;
          [ apply (wp_block_utils u no_detect (fun _ => False));
            [solve [inv_go] | solve [ctl_go] | exact Hu] |].
        cbv beta. intros o s t (Hu' & HP & Ho).
        destruct o as [a | v | [] | [] | e |]; try contradiction.
        -- wp_step. split; [exact Hu' |]. split; [reflexivity |]. left. quiet_trace.
        -- split; [exact Hu' | exact HP].
      * eapply wp_conseq; [apply (customize_swiggy_spec st Hu) |].
        cbv beta. unfold customize_swiggy_post. intros o s t (Hu' & Ho).
        destruct o as [a | v | [] | [] | e |]; try contradiction.
        -- wp_step. split; [exact Hu' |]. split; [reflexivity |]. left. quiet_trace.
        -- split; [exact Hu' | exact Ho].
        -- split; [exact Hu' | exact Ho].
      * wp_step. cbv beta iota. wp_step.
        split; [exact Hu |]. split; [reflexivity |]. left. quiet_trace.
    + cbv beta. intros o s t (Hu' & Ho).
      destruct o as [a | v | [] | [] | e |]; try contradiction.
      * destruct Ho as [-> Ho]. cbv beta iota. unfold customization_post.
        intros Hd. destruct Ho as [Hq | Hs]; [| apply suffix_cons; exact Hs].
        cbn [app detected existsb] in Hd.
        apply detected_quiet in Hq. unfold detected in Hq. rewrite Hq in Hd.
        discriminate Hd.
      * wp_run_step. wp_run_step. cbv beta iota.
        safe_stmt no_detect. wp_run_step.
        unfold customization_post. split.
        -- apply detected_quiet. quiet_trace.
        -- exists e. unfold customization_failed. in_go.
Qed.

(** X16.  With the utilities in place [handleCustomization] always
    resolves.  Once the Swiggy modal has been detected nothing can fail
    any more: whether or not one of the six rounds reached the final
    Add, also when the six rounds are used up, the function logs
    [Customization completed] and resolves to true.  It resolves to false
    only when an error escaped before the detection, after the warning
    [Customization handling failed]. *)
Theorem handleCustomization_completes (st : St) :
  this_utils st = Some u ->
  let r := handleCustomization drv this st in
  customization_post (outcome r) (events r).
Proof.
  intros Hu. exact (wpa_elim _ _ _ (handleCustomization_run st Hu)).
Qed.

End CustomizationFlow.

(** ** The page the utilities work on *)

Section UtilsPage.

Variable u : Utils.
Variable P : Ev -> Prop.

(** [on_utils m]: run with the utilities [u] in place, [m] keeps them
    and emits only events that satisfy [P]. *)
Definition on_utils {R L A} (m : M (W:=W) R L A) : Prop :=
  forall st, this_utils st = Some u ->
    Forall P (events (m st)) /\ this_utils (post (m st)) = Some u.

Definition on_utilsa {A} (f : Async (W:=W) A) : Prop :=
  forall st, this_utils st = Some u ->
    Forall P (events (f st)) /\ this_utils (post (f st)) = Some u.

Lemma ou_inv {R L A} (m : M R L A) : inv P this_utils m -> on_utils m.
Proof. intros Hi st Hu. destruct (Hi st) as [He Hf]. split; [exact He | congruence]. Qed.

Lemma ou_inva {A} (f : Async A) : inva P this_utils f -> on_utilsa f.
Proof. intros Hi st Hu. destruct (Hi st) as [He Hf]. split; [exact He | congruence]. Qed.

Lemma ou_bind {R L A B} (m : M R L A) (k : A -> M R L B) :
  on_utils m -> (forall a, on_utils (k a)) -> on_utils (bind m k).
Proof.
  intros Hm Hk st Hu. unfold bind. destruct (Hm st Hu) as [He Hu'].
  destruct (outcome (m st)) as [a | v | l | l | e |]; cbn [events post];
    try (split; assumption).
  destruct (Hk a _ Hu') as [He' Hu2]. split; [apply Forall_app; auto | exact Hu2].
Qed.

(** [this.utils] is [u]. *)
Lemma ou_utils_bind {R L B} (k : Utils -> M R L B) :
  on_utils (k u) -> on_utils (bind this_utils_ k).
Proof.
  intros Hk st Hu. unfold bind, this_utils_. rewrite Hu. cbn [outcome post events app].
  exact (Hk st Hu).
Qed.

Lemma ou_try_catch {R L A} (body : M R L A) handler :
  on_utils body -> (forall e, on_utils (handler e)) -> on_utils (try_catch body handler).
Proof.
  intros Hm Hk st Hu. unfold try_catch. destruct (Hm st Hu) as [He Hu'].
  destruct (outcome (body st)) as [a | v | l | l | e |]; cbn [events post];
    try (split; assumption).
  destruct (Hk e _ Hu') as [He' Hu2]. split; [apply Forall_app; auto | exact Hu2].
Qed.

Lemma ou_when {R L} (c : bool) (m : M R L unit) : on_utils m -> on_utils (when_ c m).
Proof.
  intros H. destruct c; [exact H |]. intros st Hu. split; [constructor | exact Hu].
Qed.

Lemma ou_for_range {R L T} from n cond (s : T) (body : nat -> T -> M R T T) :
  (forall i s', on_utils (body i s')) ->
  on_utils (L:=L) (for_range from n cond s body).
Proof.
  intros Hb. revert from s. induction n as [| n IH]; intros from s st Hu.
  - cbn. split; [constructor | exact Hu].
  - cbn [for_range]. destruct (cond s); [| cbn; split; [constructor | exact Hu]].
    destruct (Hb from s st Hu) as [He Hu']. cbv zeta.
    destruct (outcome (body from s st)) as [s' | v | s' | s' | e |];
      cbn [events post]; try (split; assumption);
      destruct (IH (S from) s' _ Hu') as [He' Hu2];
      (split; [apply Forall_app; auto | exact Hu2]).
Qed.

Lemma ou_for_of {R L X T} (xs : list X) (s : T) (body : X -> T -> M R T T) :
  (forall x s', on_utils (body x s')) ->
  on_utils (L:=L) (for_of xs s body).
Proof.
  intros Hb. revert s. induction xs as [| x xs IH]; intros s st Hu.
  - cbn. split; [constructor | exact Hu].
  - cbn [for_of]. destruct (Hb x s st Hu) as [He Hu']. cbv zeta.
    destruct (outcome (body x s st)) as [s' | v | s' | s' | e |];
      cbn [events post]; try (split; assumption);
      destruct (IH s' _ Hu') as [He' Hu2];
      (split; [apply Forall_app; auto | exact Hu2]).
Qed.

Lemma ou_await {R L A} (f : Async A) : on_utilsa f -> on_utils (R:=R) (L:=L) (await f).
Proof.
  intros Hf st Hu. unfold await. specialize (Hf st Hu).
  destruct (outcome (f st)); exact Hf.
Qed.

Lemma ou_async {R} (body : M R Empty_set R) : on_utils body -> on_utilsa (async body).
Proof.
  intros Hb st Hu. unfold async. specialize (Hb st Hu).
  destruct (outcome (body st)) as [a | v | [] | [] | e |]; exact Hb.
Qed.

End UtilsPage.

Ltac ou_leaf := apply ou_inv; solve [inv_go].

Ltac ou_step :=
  lazymatch goal with
  | |- on_utils _ _ (bind this_utils_ _) => apply ou_utils_bind
  | |- on_utils _ _ (bind _ _) => apply ou_bind; [| intros ?]
  | |- on_utils _ _ (try_catch _ _) => apply ou_try_catch; [| intros ?]
  | |- on_utils _ _ (for_range _ _ _ _ _) => apply ou_for_range; intros ? ?
  | |- on_utils _ _ (for_of _ _ _) => apply ou_for_of; intros ? ?
  | |- on_utils _ _ (when_ _ _) => apply ou_when
  | |- on_utils _ _ (await _) => apply ou_await
  | |- on_utilsa _ _ (async _) => apply ou_async
  | |- on_utilsa _ _ (wait _ _) => apply ou_inva; solve [inv_go]
  | |- on_utilsa _ _ (screenshot _ _ _) => apply ou_inva; solve [inv_go]
  | |- on_utilsa _ _ (clickElement _ _ _ _) => apply ou_inva; solve [inv_go]
  | |- on_utilsa _ _ (elementExists _ _ _ _) => apply ou_inva; solve [inv_go]
  | |- on_utilsa _ _ (closeModalIfPresent _ _ _) => apply ou_inva; solve [inv_go]
  | |- on_utilsa _ _ (typeText _ _ _ _ _) => apply ou_inva; solve [inv_go]
  | |- on_utils _ _ (ret _) => ou_leaf
  | |- on_utils _ _ (return_ _) => ou_leaf
  | |- on_utils _ _ (throw _) => ou_leaf
  | |- on_utils _ _ (break_ _) => ou_leaf
  | |- on_utils _ _ (continue_ _) => ou_leaf
  | |- on_utils _ _ (emit _) => ou_leaf
  | |- on_utils _ _ (console_log _) => ou_leaf
  | |- on_utils _ _ (console_error _) => ou_leaf
  | |- on_utils _ _ (log _ _) => ou_leaf
  | |- on_utils _ _ (prim _ _) => ou_leaf
  | |- on_utils _ _ (prim_total _ _) => ou_leaf
  | |- on_utils _ _ this_page_ => ou_leaf
  | |- on_utils _ _ (set_this_page _) => ou_leaf
  | |- on_utils _ _ (poll _ _ _ _ _) => ou_leaf
  | |- on_utils _ _ (uwait_optional _ _) => ou_leaf
  | |- on_utils _ _ (once_targetcreated _) => ou_leaf
  | |- on_utils _ _ (await_target _ _) => ou_leaf
  | |- on_utils _ _ (if ?c then _ else _) => destruct c
  | |- on_utils _ _ (match ?x with _ => _ end) => destruct x
  | |- on_utils _ _ (let _ := _ in _) => cbv zeta
  | |- on_utils _ _ (fun _ => _) => fail "stuck"
  | |- on_utils _ _ ?m => let h := head_of m in unfold h
  | |- on_utilsa _ _ ?m => let h := head_of m in unfold h
  end.

Ltac ou_go := repeat ou_step.

Section Screenshots.

Variable this : Automation.
Variable u : Utils.

(** A screenshot, if it is one, is of page [p]. *)
Definition shot_on (p : Page) (e : Ev) : Prop :=
  match fst e with
  | CScreenshot q _ => q = p
  | _ => True
  end.

Lemma addToCart_on_utils : on_utilsa u (shot_on (u_page u)) (addToCart drv this).
Proof. ou_go. Qed.

(** X19.  The utilities keep the page they were created with.  On
    Lenskart [addToCart] switches [this.page] to the tab the product
    opened in, but [this.utils] is not rebuilt: every screenshot of an
    [addToCart] run, also [05_product_page], [06_cart] and
    [07_checkout] taken after the switch, is of the page the utilities
    hold, the search results tab. *)
Theorem addToCart_screenshots_page (st : St) :
  this_utils st = Some u ->
  Forall (shot_on (u_page u)) (events (addToCart drv this st)).
Proof.
  intros Hu. exact (proj1 (addToCart_on_utils st Hu)).
Qed.

End Screenshots.

(** ** What a [true] of the Lenskart [addToCart] stands for *)

Section ReturnsAfter.

Variable Q : list Ev -> Prop.
Hypothesis Q_pre : forall t0 t, Q t -> Q (t0 ++ t).

(** [returns_after m]: [m] executes [return true] only at the end of a
    trace that satisfies [Q]. *)
Definition returns_after {L A} (m : M (W:=W) bool L A) : Prop :=
  forall st, outcome (m st) = Return true -> Q (events (m st)).

Lemma ra_ctl {L A} (m : M bool L A) : ctl (fun v => v = false) m -> returns_after m.
Proof. intros Hc st Ho. specialize (Hc st). rewrite Ho in Hc. discriminate Hc. Qed.

Lemma ra_bind {L A B} (m : M bool L A) (k : A -> M bool L B) :
  returns_after m -> (forall a, returns_after (k a)) -> returns_after (bind m k).
Proof.
  intros Hm Hk st. unfold bind. specialize (Hm st).
  destruct (outcome (m st)) as [a | v | l | l | e |]; cbn [outcome events];
    intros Hr; try discriminate Hr.
  - apply Q_pre. apply Hk. exact Hr.
  - apply Hm. injection Hr as ->. reflexivity.
Qed.

Lemma ra_try_catch {L A} (body : M bool L A) handler :
  returns_after body -> (forall e, returns_after (handler e)) ->
  returns_after (try_catch body handler).
Proof.
  intros Hm Hk st. unfold try_catch. specialize (Hm st).
  destruct (outcome (body st)) as [a | v | l | l | e |] eqn:Ho; cbn [outcome events];
    intros Hr; try (rewrite Ho in Hr; discriminate Hr).
  - apply Hm. rewrite Ho in Hr. exact Hr.
  - apply Q_pre. apply Hk. exact Hr.
Qed.

Lemma ra_when {L} (c : bool) (m : M bool L unit) :
  returns_after m -> returns_after (when_ c m).
Proof. intros H. destruct c; [exact H |]. intros st Ho. discriminate Ho. Qed.

End ReturnsAfter.

(** [no_normal m]: [m] never runs to its end; it returns or throws. *)
Definition no_normal {R L A} (m : M (W:=W) R L A) : Prop :=
  forall st a, outcome (m st) <> Normal a.

Lemma nn_bind {R L A B} (m : M R L A) (k : A -> M R L B) :
  (forall a, no_normal (k a)) -> no_normal (bind m k).
Proof.
  intros Hk st b. unfold bind.
  destruct (outcome (m st)) as [a | v | l | l | e |]; cbn [outcome]; try discriminate.
  apply Hk.
Qed.

Lemma nn_return {R L A} (v : R) : no_normal (L:=L) (A:=A) (return_ v).
Proof. intros st a. discriminate. Qed.

Lemma nn_throw {R L A} e : no_normal (R:=R) (L:=L) (A:=A) (throw e).
Proof. intros st a. discriminate. Qed.

Lemma nn_try_catch {R L A} (body : M R L A) handler :
  no_normal body -> (forall e, no_normal (handler e)) -> no_normal (try_catch body handler).
Proof.
  intros Hm Hk st a. unfold try_catch. specialize (Hm st).
  destruct (outcome (body st)) as [a' | v | l | l | e |] eqn:Ho; cbn [outcome];
    try (rewrite Ho; discriminate).
  - destruct (Hm a' eq_refl).
  - apply Hk.
Qed.

Ltac nn_step :=
  lazymatch goal with
  | |- no_normal (bind _ _) => apply nn_bind; intros ?
  | |- no_normal (return_ _) => apply nn_return
  | |- no_normal (throw _) => apply nn_throw
  | |- no_normal (try_catch _ _) => apply nn_try_catch; [| intros ?]
  | |- no_normal (if ?c then _ else _) => destruct c
  | |- no_normal (match ?x with _ => _ end) => destruct x
  | |- no_normal (fun _ => _) => fail "stuck"
  | |- no_normal ?m => let h := head_of m in unfold h
  end.

Ltac nn_go := repeat nn_step.

Section LenskartCheckout.

Variable this : Automation.

Definition sel_checkout : Sel := Some (qq "div[data-cy='cart-cta-desktop']").

Definition lenskart_done : Ev :=
  (CConsoleLog (icon "success" ^^ " " ^^ "✅ Lenskart automation completed successfully!"),
   true).

(** The click on Proceed To Checkout went through, and the success line
    is the last thing logged. *)
Definition checkout_clicked (t : list Ev) : Prop :=
  (exists p, In (CClick p sel_checkout 1, true) t) /\ suffix [lenskart_done] t.

Lemma checkout_clicked_pre t0 t : checkout_clicked t -> checkout_clicked (t0 ++ t).
Proof.
  intros [[p Hp] Hs]. split; [exists p; apply in_or_app; right; exact Hp |].
  apply suffix_app. exact Hs.
Qed.

Ltac no_return :=
  cbv beta iota;
  first
    [ match goal with H : _ = Return true |- _ => discriminate H end
    | let Hx := fresh "Hx" in intros Hx; discriminate Hx ].

Lemma checkout_block_ra :
  returns_after (L:=Empty_set) (A:=bool) checkout_clicked
    (pg (fun p => page_waitForSelector drv p sel_checkout 5000 false) ;;
     pg (fun p => page_click drv p sel_checkout 1) ;;
     ulog "Clicked Proceed To Checkout" "success" ;;
     uwait drv 2000 ;;
     uscreenshot drv "07_checkout" ;;
     ulog "✅ Lenskart automation completed successfully!" "success" ;;
     return_ true).
Proof.
  intros st.
  match goal with
  | |- outcome (?m st) = _ -> _ =>
      change (wp m st (fun o _ t => o = Return true -> checkout_clicked t))
  end.
  repeat (cbv beta iota;
          lazymatch goal with
          | |- wp (bind (uscreenshot _ _) _) _ _ => fail
          | |- wp _ _ _ => wp_run_step
          end);
    try (no_return).
  skip_stmt; [| no_return].
  wp_run; try (no_return).
  cbv beta iota. intros _. split.
  - eexists. in_go.
  - unfold lenskart_done. suffix_go.
Qed.

Lemma ra_await_target Q {L} promise :
  returns_after Q (L:=L) (await_target drv promise).
Proof.
  intros st. unfold await_target. destruct promise as [| e].
  - destruct (d_awaitTargetCreated drv (world st)) as [[p |] w']; cbn; discriminate.
  - cbn. discriminate.
Qed.

Ltac ra_step :=
  lazymatch goal with
  | |- returns_after _ (bind _ _) =>
      apply ra_bind; [exact checkout_clicked_pre | | intros ?]
  | |- returns_after _ (try_catch _ _) =>
      apply ra_try_catch; [exact checkout_clicked_pre | | intros ?]
  | |- returns_after _ (when_ _ _) => apply ra_when
  | |- returns_after _ (if ?c then _ else _) => destruct c
  | |- returns_after _ (match ?x with _ => _ end) => destruct x
  | |- returns_after _ (fun _ => _) => fail "stuck"
  | |- returns_after _ ?m => let h := head_of m in unfold h
  end.

Ltac ra_go :=
  repeat first
    [ apply ra_ctl; solve [ctl_go]
    | apply ra_await_target
    | apply checkout_block_ra
    | ra_step ].

Lemma addToCart_lenskart_ra :
  returns_after checkout_clicked (addToCart_lenskart drv).
Proof. unfold addToCart_lenskart. ra_go. Qed.

Lemma addToCart_lenskart_nn : no_normal (addToCart_lenskart drv).
Proof. nn_go. Qed.

Definition lenskart_added (o : Promise bool) (t : list Ev) : Prop :=
  occ is_count_read t = 0
  /\ match o with
     | Resolved true => checkout_clicked t
     | _ => True
     end.

Lemma addToCart_lenskart_added (st : St) :
  siteName this = "lenskart" ->
  let r := addToCart drv this st in
  lenskart_added (outcome r) (events r).
Proof.
  intros Hsite.
  assert (Hl : is_lenskart this = true).
  { unfold is_lenskart. rewrite Hsite. reflexivity. }
  split.
  - enough (Hc : cnta is_count_read 0 (addToCart drv this))
      by (specialize (Hc st); cbv zeta; lia).
    unfold addToCart. apply cnta_async.
    apply (cnt_quiet_on is_count_read this_utils).
    apply inv_bind; [inv_go | intros _].
    apply inv_try_catch; [| intros e; inv_go].
    rewrite Hl. inv_go.
  - unfold addToCart.
    assert (Hra : returns_after (L:=Empty_set) (A:=bool) checkout_clicked
                    (ulog "Adding item to cart..." "step" ;;
                     try_catch
                       (if is_lenskart this then addToCart_lenskart drv
                        else if is_swiggy this then addToCart_swiggy drv this
                        else return_ false)
                       (fun error =>
                          ulog ("Add to cart failed: " ^^ message error) "error" ;;
                          uscreenshot drv "error_add_to_cart" ;;
                          return_ false))).
    { apply ra_bind; [exact checkout_clicked_pre | apply ra_ctl; ctl_go | intros _].
      apply ra_try_catch; [exact checkout_clicked_pre | | intros e; apply ra_ctl; ctl_go].
      rewrite Hl. apply addToCart_lenskart_ra. }
    assert (Hnn : no_normal (R:=bool) (L:=Empty_set) (A:=bool)
                    (ulog "Adding item to cart..." "step" ;;
                     try_catch
                       (if is_lenskart this then addToCart_lenskart drv
                        else if is_swiggy this then addToCart_swiggy drv this
                        else return_ false)
                       (fun error =>
                          ulog ("Add to cart failed: " ^^ message error) "error" ;;
                          uscreenshot drv "error_add_to_cart" ;;
                          return_ false))).
    { apply nn_bind. intros _. apply nn_try_catch; [| intros e; nn_go].
      rewrite Hl. apply addToCart_lenskart_nn. }
    specialize (Hra st). specialize (Hnn st). unfold async.
    match goal with
    | |- context [outcome ?r] =>
        destruct (outcome r) as [a | v | [] | [] | e |]; cbn [outcome events]
    end; try exact I.
    + destruct (Hnn a eq_refl).
    + destruct v; [apply Hra; reflexivity | exact I].
Qed.

(** X22.  On Lenskart [addToCart] never reads the cart count: the
    count check that follows an add on Swiggy has no counterpart here.
    What a [true] stands for instead is that the click on Proceed To
    Checkout went through: whenever [addToCart] resolves to [true], the
    trace holds a successful click on the checkout control and ends with
    the line that reports success; a lens flow that found nothing to
    click does not stand in the way of that. *)
Theorem addToCart_lenskart_checkout (st : St) :
  siteName this = "lenskart" ->
  let r := addToCart drv this st in
  lenskart_added (outcome r) (events r).
Proof. exact (addToCart_lenskart_added st). Qed.

End LenskartCheckout.

(** ** The command line *)

Lemma lit_whole_i w : forall prev s,
  toLowerCase w = w ->
  Regex.match_k true (Regex.lit w) prev s (fun _ rest => at_end rest)
  = String.eqb (toLowerCase s) w.
Proof.
  induction w as [| c w IH]; intros prev s Hw.
  - destruct s; reflexivity.
  - cbn [toLowerCase] in Hw. injection Hw as Hc Hw.
    cbn [Regex.lit Regex.match_k]. destruct s as [| c' t]; [reflexivity |].
    cbn [toLowerCase String.eqb Regex.atom_width Regex.atom_ok].
    rewrite Hc, (Ascii.eqb_sym c (lower_ascii c')).
    destruct (Ascii.eqb (lower_ascii c') c); [| reflexivity].
    cbn [Regex.eat]. apply (IH (Some c') t Hw).
Qed.

Lemma authMode_test s :
  test_whole_i re_authMode s
  = String.eqb (toLowerCase s) "signin" || String.eqb (toLowerCase s) "signup".
Proof.
  unfold test_whole_i, re_authMode. cbn [Regex.alts Regex.match_k].
  rewrite !lit_whole_i by reflexivity. reflexivity.
Qed.

(** X21.  What the main function reads off its arguments.  With fewer
    than two it stops (usage, exit code 1).  Otherwise the site is the
    first argument.  The auth mode is taken from the second argument only
    for the site [lenskart], when at least three arguments are given and
    the second is [signin] or [signup] in any letter case; it is then
    that word in lower case, and the search term is the remaining
    arguments joined by single spaces.  In every other case the mode is
    [auto] and the search term is all arguments after the site joined by
    single spaces: for another site a leading [signin] is part of the
    search term, and [lenskart signin] alone searches for [signin]. *)
Theorem main_args_modes (args : list string) :
  match main_args args with
  | None => length args < 2
  | Some c =>
      let mode := toLowerCase (nth 1 args "") in
      2 <= length args
      /\ cl_site c = nth 0 args ""
      /\ if String.eqb (cl_site c) "lenskart" && (3 <=? length args)
            && (String.eqb mode "signin" || String.eqb mode "signup")
         then cl_authMode c = mode /\ cl_searchTerm c = join_words (skipn 2 args)
         else cl_authMode c = "auto" /\ cl_searchTerm c = join_words (skipn 1 args)
  end.
Proof.
  unfold main_args. destruct (length args <? 2) eqn:Hlen.
  - apply Nat.ltb_lt. exact Hlen.
  - apply Nat.ltb_ge in Hlen. rewrite authMode_test.
    destruct (String.eqb (nth 0 args "") "lenskart" && (3 <=? length args)
              && (String.eqb (toLowerCase (nth 1 args "")) "signin"
                  || String.eqb (toLowerCase (nth 1 args "")) "signup")) eqn:Hc;
      cbn [cl_site cl_authMode cl_searchTerm]; cbv zeta; rewrite Hc; auto.
Qed.

End Theory.

(* ================================================================== *)
(** * Concrete runs on the simulated browser *)
(* ================================================================== *)

Module Runs.
Import Simulation.

(** *** clickElement *)

(** Two selectors, neither ever visible. *)
Definition two_sels : Selectors := Many [Some "button.a"; Some "button.b"].

(** C3, counterexample.  With the default [timeout = 10000] and
    [retries = 3] and two selectors that never show, [clickElement]
    performs [3 * 2] waits whose budgets add up to 20000, twice the
    timeout: the timeout is not partitioned across the [R * |S|] waits. *)
Lemma clickElement_budget_not_partitioned :
  let r := clickElement driver (utils0 "swiggy") two_sels no_options
             (started "swiggy" blank) in
  outcome r = Resolved false
  /\ length (budgets (events r)) = 3 * 2
  /\ (Qsum (budgets (events r)) == 20000)%Q
  /\ ~ (Qsum (budgets (events r)) == 10000)%Q.
Proof.
  vm_compute. repeat split; intro H; discriminate H.
Qed.

(** [button.a] shows but cannot be clicked; [button.b] shows and can. *)
Definition a_detached : Sim :=
  with_clickable (fun _ s => sel_in ["button.b"] s)
    (with_visible (fun _ s => sel_in ["button.a"; "button.b"] s) blank).

(** C6, counterexample.  [button.a] resolves to a visible element, its
    click throws, and [clickElement] goes on to probe [button.b]; the
    value returned is [true], not a selector. *)
Lemma clickElement_probes_after_a_visible_match :
  let r := clickElement driver (utils0 "swiggy") two_sels no_options
             (started "swiggy" a_detached) in
  outcome r = Resolved true
  /\ probes (events r) = [(Some "button.a", true); (Some "button.b", true)]
  /\ clicks (events r) = [(Some "button.a", false); (Some "button.b", true)].
Proof. vm_compute. repeat split. Qed.

(** *** getCartCount *)

(** The badge inside the /checkout link reads "-3". *)
Definition minus_three : Dom :=
  document [(qq "a[href*='/checkout'] span", [node 7 "-3"])].

Definition negative_badge : Sim := with_dom (fun _ => Some minus_three) blank.

(** No badge; a span reads "Cart 2". *)
Definition cart_text_only : Sim :=
  with_dom (fun _ => Some (document [("a,span,div", [node 3 "Offers"; node 4 "Cart 2"])])) blank.

(** The badge reads 1 followed by 309 zeros. *)
Definition endless_badge : Sim :=
  with_dom (fun _ => Some (document [(qq "a[href*='/checkout'] span",
                                      [node 7 (String "1" (zeros 309))])])) blank.

(** The badge reads "7" after a no-break space. *)
Definition padded_badge : Sim :=
  with_dom (fun _ => Some (document [(qq "a[href*='/checkout'] span",
                                      [node 7 (of_bytes [194; 160] ^^ "7")])])) blank.

(** The page evaluation fails. *)
Definition evaluation_fails : Sim := with_dom (fun _ => None) blank.

(** C9, counterexample.  A badge reading "-3" makes [getCartCount]
    resolve to -3, a negative number; with the badge absent, an element
    reading "Cart 2" makes it resolve to 2, not 0; and a badge of 310
    digits makes it resolve to Infinity, which is no integer. *)
Lemma getCartCount_negative_and_fallback :
  outcome (getCartCount driver (started "swiggy" negative_badge)) = Resolved (Fin (-3))
  /\ querySelector (document [("a,span,div", [node 3 "Offers"; node 4 "Cart 2"])])
       (qq "a[href*='/checkout'] span") = None
  /\ outcome (getCartCount driver (started "swiggy" cart_text_only)) = Resolved (Fin 2)
  /\ outcome (getCartCount driver (started "swiggy" endless_badge)) = Resolved (Inf false).
Proof. vm_compute. repeat split. Qed.

(** A failed read gives 0, and white space of more than one byte is
    skipped like any other. *)
Lemma getCartCount_failed_and_padded :
  outcome (getCartCount driver (started "swiggy" evaluation_fails)) = Resolved (Fin 0)
  /\ outcome (getCartCount driver (started "swiggy" padded_badge)) = Resolved (Fin 7).
Proof. vm_compute. repeat split. Qed.

Lemma getCartCount_total_witness :
  this_page (started "swiggy" negative_badge) = Some 1
  /\ CartCount minus_three (Fin (-3))
  /\ exists ws rest, White ws /\ badge_text minus_three = ws ^^ "-" ^^ rest.
Proof.
  split; [reflexivity |].
  pose proof (proj2 (proj2 (getCartCount_total driver (started "swiggy" negative_badge)))
                1 eq_refl) as H.
  change (d_snapshot driver 1 "getCartCount" (world (started "swiggy" negative_badge)))
    with (@inr JsError Dom minus_three, negative_badge) in H.
  cbv beta iota in H. destruct H as (Hiff & Hneg & _).
  assert (Ho : outcome (getCartCount driver (started "swiggy" negative_badge))
               = Resolved (Fin (-3))) by (vm_compute; reflexivity).
  split; [exact (proj1 (Hiff (Fin (-3))) Ho) |].
  exact (Hneg (Fin (-3)) Ho (or_introl eq_refl)).
Defined.

(** *** closeModalIfPresent *)

(** Keyboard and mouse calls fail. *)
Definition keys_dead : Sim := with_input_ok false blank.

Lemma closeModalIfPresent_escape_fallback_witness :
  none_match driver 1 [Some "button.close"] blank blank
  /\ outcome (closeModalIfPresent driver (utils0 "swiggy") (One (Some "button.close"))
                (started "swiggy" blank)) = Resolved true
  /\ none_match driver 1 [Some "button.close"] keys_dead keys_dead
  /\ outcome (closeModalIfPresent driver (utils0 "swiggy") (One (Some "button.close"))
                (started "swiggy" keys_dead)) = Resolved false.
Proof.
  assert (Hn : none_match driver 1 [Some "button.close"] blank blank).
  { cbn [none_match]. eexists _, _. split; reflexivity. }
  assert (Hd : none_match driver 1 [Some "button.close"] keys_dead keys_dead).
  { cbn [none_match]. eexists _, _. split; reflexivity. }
  split; [exact Hn |].
  split.
  - pose proof (proj1 (proj2 (closeModalIfPresent_escape_fallback driver (utils0 "swiggy")
                                (One (Some "button.close")) (started "swiggy" blank)))
                  blank Hn) as H.
    change (d_keyPress driver (u_page (utils0 "swiggy")) "Escape" blank)
      with (@inr JsError unit tt, acted blank) in H.
    exact (proj1 H).
  - split; [exact Hd |].
    pose proof (proj1 (proj2 (closeModalIfPresent_escape_fallback driver (utils0 "swiggy")
                                (One (Some "button.close")) (started "swiggy" keys_dead)))
                  keys_dead Hd) as H.
    change (d_keyPress driver (u_page (utils0 "swiggy")) "Escape" keys_dead)
      with (@inl JsError unit (oops "Protocol error"), acted keys_dead) in H.
    exact (proj1 H).
Defined.

(** *** addToCart on Swiggy *)

Definition swiggy : Automation := mkAutomation "swiggy" swiggy_config "auto".

(** The ADD button shows and can be clicked, the cart badge never
    appears: every read of the cart count gives 0. *)
Definition add_never_counts : Sim :=
  with_visible (fun _ s => sel_in [qq "button:has-text('ADD')"] s) blank.

(** The badge reads 0 until something is clicked, 1 afterwards. *)
Definition add_counts : Sim :=
  with_dom (fun acts =>
              Some (document [(qq "a[href*='/checkout'] span",
                               [node 7 (if acts =? 0 then "0" else "1")])]))
    add_never_counts.

Definition count_reads (t : list Ev) : nat := length (filter is_count_read t).

(** A Swiggy run.  The count is 0 before the add, 0 after it and
    still 0 after the single retry; [addToCart] logs the warning of the
    count check and resolves to [true]. *)
Lemma addToCart_true_without_increase :
  let r := addToCart driver swiggy (started "swiggy" add_never_counts) in
  outcome r = Resolved true
  /\ filter is_count_warning (events r) = [count_warning (Fin 0) (Fin 0)]
  /\ count_reads (events r) = 2
  /\ outcome (getCartCount driver (post r)) = Resolved (Fin 0).
Proof. vm_compute. repeat split. Qed.

(** A run in which the count goes from 0 to 1: no warning, [true]. *)
Lemma addToCart_true_with_increase :
  let r := addToCart driver swiggy (started "swiggy" add_counts) in
  outcome r = Resolved true
  /\ filter is_count_warning (events r) = []
  /\ count_reads (events r) = 2.
Proof. vm_compute. repeat split. Qed.

(** On a page without an ADD control and without restaurants the run
    ends before the count check: one read of the count, [false]. *)
Lemma addToCart_false_before_check :
  let r := addToCart driver swiggy (started "swiggy" blank) in
  outcome r = Resolved false
  /\ filter is_count_warning (events r) = []
  /\ count_reads (events r) = 1.
Proof. vm_compute. repeat split. Qed.


(** *** addToCart on Lenskart *)

Definition lenskart : Automation := mkAutomation "lenskart" lenskart_config "signin".

(** The first product card shows and can be clicked, but the click opens
    nothing: no browsing context is ever created. *)
Definition click_opens_nothing : Sim :=
  with_visible (fun _ s => sel_in ["a.sc-23b7d3eb-7.gZcHRJ"] s) blank.

(** A Lenskart run.  The listener is registered, the product click
    goes through, no new context is created: [addToCart] never settles;
    the last thing it did is await the event. *)
Lemma addToCart_waits_forever :
  let r := addToCart driver lenskart (started "lenskart" click_opens_nothing) in
  outcome r = Unsettled
  /\ last (events r) (CBrowserClose, true) = (CAwaitTargetCreated, false)
  /\ clicks (events r) = [(Some "a.sc-23b7d3eb-7.gZcHRJ", true)].
Proof. vm_compute. repeat split. Qed.

Lemma addToCart_handoff_wait_witness :
  siteName lenskart = "lenskart"
  /\ this_utils (started "lenskart" click_opens_nothing) = Some (utils0 "lenskart")
  /\ this_browser (started "lenskart" click_opens_nothing) = true
  /\ exists rest,
       events (addToCart driver lenskart (started "lenskart" click_opens_nothing))
       = handoff_prelude ++ rest.
Proof.
  split; [reflexivity |]. split; [reflexivity |]. split; [reflexivity |].
  pose proof (addToCart_handoff_wait driver lenskart (utils0 "lenskart")
                (started "lenskart" click_opens_nothing) eq_refl eq_refl eq_refl) as H.
  cbv zeta in H. unfold handoff_post in H.
  destruct (outcome (clickElement driver (utils0 "lenskart") lenskart_product_selectors
                       no_options (listening driver (started "lenskart" click_opens_nothing))))
    as [[|] | e |]; try contradiction.
  - destruct H as (fired & rest & He & _). rewrite He. eauto.
  - destruct H as [_ He]. rewrite He. eauto.
Defined.

(** *** Runs of the utilities and of the phases *)

(** A modal whose close button shows but cannot be clicked. *)
Definition close_shows : Sim :=
  with_visible (fun _ s => sel_in ["button.close"] s)
    (with_clickable (fun _ _ => false) blank).

Lemma closeModalIfPresent_ignores_click_witness :
  d_waitForSelector driver 1 (Some "button.close") 2000 true close_shows
  = (inr tt, close_shows)
  /\ outcome (closeModalIfPresent driver (utils0 "swiggy") (One (Some "button.close"))
                (started "swiggy" close_shows)) = Resolved true.
Proof.
  split; [reflexivity |].
  exact (proj1 (closeModalIfPresent_ignores_click driver (utils0 "swiggy")
                  (Some "button.close") (started "swiggy" close_shows) close_shows
                  eq_refl)).
Defined.

Lemma openCartTopbar_reports_click_witness :
  this_utils (started "swiggy" blank) = Some (utils0 "swiggy")
  /\ exists b, outcome (openCartTopbar driver swiggy (started "swiggy" blank)) = Resolved b.
Proof.
  split; [reflexivity |].
  destruct (openCartTopbar_reports_click driver swiggy (utils0 "swiggy")
              (started "swiggy" blank) eq_refl) as (b & _ & Hr & _).
  exists b. exact Hr.
Defined.

Lemma setLocation_outcomes_witness :
  this_utils (started "swiggy" blank) = Some (utils0 "swiggy")
  /\ this_page (started "swiggy" blank) = Some 1
  /\ let r := setLocation driver swiggy (started "swiggy" blank) in
     setLocation_post swiggy (utils0 "swiggy") 1 (outcome r) (events r).
Proof.
  split; [reflexivity |]. split; [reflexivity |].
  exact (setLocation_outcomes driver swiggy (utils0 "swiggy") 1
           (started "swiggy" blank) eq_refl eq_refl).
Defined.

Lemma search_lenskart_always_true_witness :
  siteName lenskart = "lenskart"
  /\ this_utils (started "lenskart" blank) = Some (utils0 "lenskart")
  /\ outcome (search driver lenskart "sunglasses" (started "lenskart" blank))
     = Resolved true.
Proof.
  split; [reflexivity |]. split; [reflexivity |].
  exact (proj1 (search_lenskart_always_true driver lenskart (utils0 "lenskart")
                  "sunglasses" (started "lenskart" blank) eq_refl eq_refl)).
Defined.

Lemma search_swiggy_needs_enter_witness :
  siteName swiggy = "swiggy"
  /\ this_utils (started "swiggy" blank) = Some (utils0 "swiggy")
  /\ this_page (started "swiggy" blank) = Some 1
  /\ let r := search driver swiggy "pizza" (started "swiggy" blank) in
     search_swiggy_post 1 "pizza" (outcome r) (events r).
Proof.
  split; [reflexivity |]. split; [reflexivity |]. split; [reflexivity |].
  exact (search_swiggy_needs_enter driver swiggy (utils0 "swiggy") "pizza" 1
           (started "swiggy" blank) eq_refl eq_refl eq_refl).
Defined.


Lemma handleCustomization_completes_witness :
  this_utils (started "swiggy" blank) = Some (utils0 "swiggy")
  /\ let r := handleCustomization driver swiggy (started "swiggy" blank) in
     customization_post (outcome r) (events r).
Proof.
  split; [reflexivity |].
  exact (handleCustomization_completes driver swiggy (utils0 "swiggy")
           (started "swiggy" blank) eq_refl).
Defined.

(** *** Runs of the main flow *)

(** A newly constructed automaton: no browser, no page, no utilities. *)
Definition fresh (w : Sim) : St := mkSt w false None None.

(** A machine on which the browser does not start. *)
Definition no_browser : Sim :=
  mkSim 0 (sim_clock blank) (sim_visible blank) (sim_clickable blank)
    (sim_input_ok blank) (sim_dom blank) (sim_query blank) (sim_handle_ok blank)
    (sim_polls blank) (sim_target blank) false.

Lemma run_closes_browser_witness :
  this_browser (fresh blank) = false
  /\ let r := run driver swiggy "pizza" (fresh blank) in
     closes (events r) = if settled (outcome r) && launched (events r) then 1 else 0.
Proof.
  split; [reflexivity |].
  exact (run_closes_browser driver swiggy "pizza" (fresh blank) eq_refl).
Defined.

Lemma run_launch_failure_masked_witness :
  this_browser (fresh no_browser) = false
  /\ this_utils (fresh no_browser) = None
  /\ d_launch driver no_browser
     = (inl (oops "Failed to launch the browser process"), no_browser)
  /\ outcome (run driver swiggy "pizza" (fresh no_browser)) = Rejected null_utils.
Proof.
  split; [reflexivity |]. split; [reflexivity |]. split; [reflexivity |].
  exact (proj1 (run_launch_failure_masked driver swiggy "pizza" (fresh no_browser)
                  (oops "Failed to launch the browser process") no_browser
                  eq_refl eq_refl eq_refl)).
Defined.

(** *** The page of the utilities *)

(** The product click opens the product in a new tab, page 2. *)
Definition product_opens_tab : Sim := with_target (Some (Some 2)) click_opens_nothing.

Definition is_shot (e : Ev) : bool :=
  match fst e with CScreenshot _ _ => true | _ => false end.

Lemma addToCart_screenshots_page_witness :
  let r := addToCart driver lenskart (started "lenskart" product_opens_tab) in
  this_utils (started "lenskart" product_opens_tab) = Some (utils0 "lenskart")
  /\ Forall (shot_on (u_page (utils0 "lenskart"))) (events r)
  /\ this_page (post r) = Some 2
  /\ map fst (filter is_shot (events r)) = [CScreenshot 1 "05_product_page"].
Proof.
  split; [reflexivity |].
  split; [exact (addToCart_screenshots_page driver lenskart (utils0 "lenskart")
                   (started "lenskart" product_opens_tab) eq_refl) |].
  vm_compute. split; reflexivity.
Defined.

(** A product page whose primary button adds to the cart, and a cart
    page with the checkout control. *)
Definition lenskart_shop : Sim :=
  with_dom (fun _ => Some (mkDom (fun _ => [])
                             (fun id => if String.eqb id "btn-primary"
                                        then Some (node 7 "Add to Cart") else None)
                             ""))
    (with_target (Some (Some 2))
       (with_visible (fun _ s => sel_in ["a.sc-23b7d3eb-7.gZcHRJ";
                                         qq "div[data-cy='cart-cta-desktop']"] s)
          blank)).

Lemma addToCart_lenskart_checkout_witness :
  let r := addToCart driver lenskart (started "lenskart" lenskart_shop) in
  siteName lenskart = "lenskart"
  /\ lenskart_added (outcome r) (events r)
  /\ outcome r = Resolved true.
Proof.
  split; [reflexivity |].
  split; [exact (addToCart_lenskart_checkout driver lenskart
                   (started "lenskart" lenskart_shop) eq_refl) |].
  vm_compute. reflexivity.
Defined.

End Runs.
